(** * gnunet-service-set: generations, mutations and lazy copies

    A shallow embedding of the set-operation coordination engine of
    [src/set/gnunet-service-set.c]: the membership test over mutation
    events and exclusion ranges, the generation counter, mutation execution
    and deferral, operation creation, lazy copies and client teardown. *)

From stdpp Require Import gmap list.
From Stdlib Require Import ZArith Lia.

Local Open Scope Z_scope.

(** ** Machine integers *)

(** [unsigned int] is 32 bits wide on the platforms GNUnet builds for;
    arithmetic on it wraps around. *)
Definition UINT_MAX : Z := 4294967295.

Definition uint (z : Z) : Z := z mod (UINT_MAX + 1).

(** [uint16_t], used for the iteration id. *)
Definition uint16 (z : Z) : Z := z mod 65536.

(** ** Assertions and soft breaks *)

(** The result of running a piece of the service: either it returns a
    value, having logged [breaks] soft errors on the way, or the process
    was aborted by a failed assertion. *)
Inductive outcome (A : Type) : Type :=
| Ret (breaks : nat) (a : A)
| Aborted.
Arguments Ret {A} breaks a.
Arguments Aborted {A}.

Definition ret {A} (a : A) : outcome A := Ret 0 a.

Definition bind {A B} (f : A -> outcome B) (m : outcome A) : outcome B :=
  match m with
  | Aborted => Aborted
  | Ret n a =>
      match f a with
      | Aborted => Aborted
      | Ret k b => Ret (n + k) b
      end
  end.

(** The sequencing notations [x ← m; k] and [m;; k] are stdpp's. *)
#[global] Instance outcome_ret : MRet outcome := @ret.
#[global] Instance outcome_bind : MBind outcome := @bind.

(** Modelled from the spec: the macro [GNUNET_assert] of gnunet_common.h is
    not part of the sources at hand.  A failed assertion is fatal (section 7,
    "fatal assertion"): the process aborts. *)
Definition GNUNET_assert (cond : bool) : outcome unit :=
  if cond then ret tt else Aborted.

(** Modelled from the spec: the macro [GNUNET_break] of gnunet_common.h is
    not part of the sources at hand.  A failed break is logged and execution
    continues (section 7, "soft break (assertion-style, not a crash)"); the
    code after every [GNUNET_break (0)] in the service relies on this. *)
Definition GNUNET_break (cond : bool) : outcome unit :=
  if cond then ret tt else Ret 1 tt.

(** ** Mutation events and exclusion ranges *)

(** [struct MutationEvent]; [added] is [GNUNET_YES] or [GNUNET_NO]. *)
Record MutationEvent : Type := {
  generation : Z;
  added : bool
}.

(** [struct GenerationRange]: the generations [start <= g < range_end]. *)
Record GenerationRange : Type := {
  start : Z;
  range_end : Z
}.

Abbreviation GNUNET_HashCode := N (only parsing).

(** [struct GNUNET_SET_Element]; the size is the length of the data. *)
Record GNUNET_SET_Element : Type := {
  element_type : Z;
  data : list Byte.byte
}.

(** [struct ElementEntry].  The [mutations] array with its size is a list;
    the array pointer is [NULL] exactly when the list is empty. *)
Record ElementEntry : Type := {
  element : GNUNET_SET_Element;
  element_hash : GNUNET_HashCode;
  mutations : list MutationEvent;
  remote : bool
}.

Definition in_range (g : Z) (r : GenerationRange) : bool :=
  (start r <=? g) && (g <? range_end r).

Definition is_excluded_generation (g : Z) (excluded : list GenerationRange)
  : bool :=
  existsb (in_range g) excluded.

(** The loop of [is_element_of_generation], from index [i] on, with the
    running value of [is_present]. *)
Fixpoint scan_mutations (muts : list MutationEvent) (query_generation : Z)
    (excluded : list GenerationRange) (is_present : bool) : outcome bool :=
  match muts with
  | [] => ret is_present
  | mut :: rest =>
      if query_generation <? generation mut then
        scan_mutations rest query_generation excluded is_present
      else if is_excluded_generation (generation mut) excluded then
        scan_mutations rest query_generation excluded is_present
      else
        GNUNET_assert (negb (is_present && added mut)) ;;
        GNUNET_assert (negb (negb is_present && negb (added mut))) ;;
        scan_mutations rest query_generation excluded (added mut)
  end.

Definition is_element_of_generation (ee : ElementEntry) (query_generation : Z)
    (excluded : list GenerationRange) : outcome bool :=
  GNUNET_assert (negb (bool_decide (mutations ee = []))) ;;
  if is_excluded_generation query_generation excluded then
    GNUNET_break false ;;
    ret false
  else
    scan_mutations (mutations ee) query_generation excluded false.

(** ** The service state *)

(** Addresses of heap objects ([struct Set], [struct SetContent],
    [struct Operation]).  The model never hands out an address twice, so an
    address names one object for the whole run. *)
Abbreviation ptr := N (only parsing).

(** [struct GNUNET_SERVER_Client *] and [struct GNUNET_PeerIdentity]. *)
Abbreviation Client := N (only parsing).
Abbreviation PeerIdentity := N (only parsing).

(** Modelled from the spec: [enum GNUNET_SET_OperationType] of
    gnunet_set_service.h is not part of the sources at hand.  The service
    switches on intersection and union; every other value takes the default
    branch. *)
Inductive OperationType : Type :=
| GNUNET_SET_OPERATION_NONE
| GNUNET_SET_OPERATION_INTERSECTION
| GNUNET_SET_OPERATION_UNION.

#[global] Instance OperationType_eq_dec : EqDecision OperationType.
Proof. solve_decision. Defined.

(** The message types the mutation handler is registered for; any other
    type takes the default branch of [execute_mutation]. *)
Inductive MessageType : Type :=
| GNUNET_MESSAGE_TYPE_SET_ADD
| GNUNET_MESSAGE_TYPE_SET_REMOVE
| GNUNET_MESSAGE_TYPE_other.

#[global] Instance MessageType_eq_dec : EqDecision MessageType.
Proof. solve_decision. Defined.

(** [struct GNUNET_SET_ElementMessage]: header type, element type, payload. *)
Record GNUNET_SET_ElementMessage : Type := {
  msg_type : MessageType;
  msg_element_type : Z;
  msg_data : list Byte.byte
}.

(** What the operation-specific hooks were asked to do to a set's private
    [state]; the union and intersection code behind the virtual table is an
    external collaborator, so the model records the calls. *)
Inductive VtCall : Type :=
| VtAdd (h : GNUNET_HashCode)
| VtRemove (h : GNUNET_HashCode).

(** [struct SetVT], as far as the core looks at it: whether [create] yields
    a state and whether the [copy_state] hook is present. *)
Record SetVT : Type := {
  create : bool;
  copy_state : bool
}.

(** The collaborators of the core: element hashing, the two virtual
    tables and the limit on context messages. *)
Class Collaborators : Type := {
  GNUNET_SET_element_hash : GNUNET_SET_Element -> GNUNET_HashCode;
  _GSS_intersection_vt : SetVT;
  _GSS_union_vt : SetVT;
  GNUNET_SET_CONTEXT_MESSAGE_MAX_SIZE : Z
}.

(** [struct OperationSpecification]; the random salt and the remote element
    count play no part in the core and are left out. *)
Record OperationSpecification : Type := {
  spec_operation : OperationType;
  app_id : N;
  peer : PeerIdentity;
  spec_set : option ptr;
  result_mode : Z;
  client_request_id : Z;
  context_msg : option (list Byte.byte)
}.

(** [struct Operation].  An operation in a set's list always carries the
    set's virtual table, an operation in the incoming list the incoming
    one, so the [vt] pointer is not stored. *)
Record Operation : Type := {
  op_addr : ptr;
  op_peer : PeerIdentity;
  spec : option OperationSpecification;
  is_incoming : bool;
  generation_created : Z;
  op_suggest_id : Z;
  timeout_task : bool
}.

Record PendingMutation : Type := {
  pm_set : ptr;
  mutation_message : GNUNET_SET_ElementMessage
}.

(** [struct SetContent]; [pending_mutations] is the doubly linked list read
    from its head. *)
Record SetContent : Type := {
  elements : gmap GNUNET_HashCode ElementEntry;
  latest_generation : Z;
  pending_mutations : list PendingMutation;
  refcount : Z;
  iterator_count : Z
}.

(** [struct Set].  [client_mq] is the queue to the client the set was
    created for; [iter] holds the keys the hash map iterator has yet to
    visit; [ops] is the list of operations read from its head. *)
Record GSS_Set : Type := {
  set_client : option Client;
  client_mq : Client;
  operation : OperationType;
  state : list VtCall;
  content : ptr;
  current_generation : Z;
  iter_generation : Z;
  excluded_generations : list GenerationRange;
  ops : list Operation;
  iter : option (list GNUNET_HashCode);
  iteration_id : Z
}.

Record Listener : Type := {
  listener_client : Client;
  listener_app_id : N;
  listener_operation : OperationType
}.

Record LazyCopyRequest : Type := {
  source_set : ptr;
  cookie : Z
}.

(** Messages the service queues for a client. *)
Inductive ClientMessage : Type :=
| SET_ITER_ELEMENT (e : GNUNET_SET_Element) (id : Z)
| SET_ITER_DONE
| SET_COPY_LAZY_RESPONSE (c : Z)
| SET_RESULT_FAILURE (request_id : Z)
| SET_REQUEST (accept_id : Z) (p : PeerIdentity).

(** What the service does to the outside world. *)
Inductive Output : Type :=
| MQ_send (c : Client) (m : ClientMessage)
| Client_disconnect (c : Client).

(** The global variables of the service together with the heap. *)
Record Service : Type := {
  sets : list ptr;
  set_heap : gmap ptr GSS_Set;
  content_heap : gmap ptr SetContent;
  listeners : list Listener;
  incoming : list Operation;
  lazy_copy : list LazyCopyRequest;
  lazy_copy_cookie : Z;
  suggest_id : Z;
  next_addr : ptr;
  out : list Output
}.

(** The state of a freshly started service. *)
Definition initial_service : Service :=
  {| sets := []; set_heap := ∅; content_heap := ∅; listeners := [];
     incoming := []; lazy_copy := []; lazy_copy_cookie := 1;
     suggest_id := 1; next_addr := 1%N; out := [] |}.

(** *** Field updates *)

Definition with_set_client (v : option Client) (st : GSS_Set) : GSS_Set :=
  {| set_client := v; client_mq := client_mq st; operation := operation st;
     state := state st; content := content st;
     current_generation := current_generation st;
     iter_generation := iter_generation st;
     excluded_generations := excluded_generations st; ops := ops st;
     iter := iter st; iteration_id := iteration_id st |}.

Definition with_state (v : list VtCall) (st : GSS_Set) : GSS_Set :=
  {| set_client := set_client st; client_mq := client_mq st;
     operation := operation st; state := v; content := content st;
     current_generation := current_generation st;
     iter_generation := iter_generation st;
     excluded_generations := excluded_generations st; ops := ops st;
     iter := iter st; iteration_id := iteration_id st |}.

Definition with_generation (g : Z) (ex : list GenerationRange)
    (st : GSS_Set) : GSS_Set :=
  {| set_client := set_client st; client_mq := client_mq st;
     operation := operation st; state := state st; content := content st;
     current_generation := g; iter_generation := iter_generation st;
     excluded_generations := ex; ops := ops st;
     iter := iter st; iteration_id := iteration_id st |}.

Definition with_ops (v : list Operation) (st : GSS_Set) : GSS_Set :=
  {| set_client := set_client st; client_mq := client_mq st;
     operation := operation st; state := state st; content := content st;
     current_generation := current_generation st;
     iter_generation := iter_generation st;
     excluded_generations := excluded_generations st; ops := v;
     iter := iter st; iteration_id := iteration_id st |}.

Definition with_iter (v : option (list GNUNET_HashCode)) (id : Z)
    (ig : Z) (st : GSS_Set) : GSS_Set :=
  {| set_client := set_client st; client_mq := client_mq st;
     operation := operation st; state := state st; content := content st;
     current_generation := current_generation st;
     iter_generation := ig;
     excluded_generations := excluded_generations st; ops := ops st;
     iter := v; iteration_id := id |}.

Definition with_elements (v : gmap GNUNET_HashCode ElementEntry)
    (c : SetContent) : SetContent :=
  {| elements := v; latest_generation := latest_generation c;
     pending_mutations := pending_mutations c; refcount := refcount c;
     iterator_count := iterator_count c |}.

Definition with_latest_generation (v : Z) (c : SetContent) : SetContent :=
  {| elements := elements c; latest_generation := v;
     pending_mutations := pending_mutations c; refcount := refcount c;
     iterator_count := iterator_count c |}.

Definition with_pending_mutations (v : list PendingMutation)
    (c : SetContent) : SetContent :=
  {| elements := elements c; latest_generation := latest_generation c;
     pending_mutations := v; refcount := refcount c;
     iterator_count := iterator_count c |}.

Definition with_refcount (v : Z) (c : SetContent) : SetContent :=
  {| elements := elements c; latest_generation := latest_generation c;
     pending_mutations := pending_mutations c; refcount := v;
     iterator_count := iterator_count c |}.

Definition with_iterator_count (v : Z) (c : SetContent) : SetContent :=
  {| elements := elements c; latest_generation := latest_generation c;
     pending_mutations := pending_mutations c; refcount := refcount c;
     iterator_count := v |}.

Definition with_mutations (v : list MutationEvent) (ee : ElementEntry)
  : ElementEntry :=
  {| element := element ee; element_hash := element_hash ee;
     mutations := v; remote := remote ee |}.

Definition with_sets (v : list ptr) (s : Service) : Service :=
  {| sets := v; set_heap := set_heap s; content_heap := content_heap s;
     listeners := listeners s; incoming := incoming s;
     lazy_copy := lazy_copy s; lazy_copy_cookie := lazy_copy_cookie s;
     suggest_id := suggest_id s; next_addr := next_addr s; out := out s |}.

Definition with_set_heap (v : gmap ptr GSS_Set) (s : Service) : Service :=
  {| sets := sets s; set_heap := v; content_heap := content_heap s;
     listeners := listeners s; incoming := incoming s;
     lazy_copy := lazy_copy s; lazy_copy_cookie := lazy_copy_cookie s;
     suggest_id := suggest_id s; next_addr := next_addr s; out := out s |}.

Definition with_content_heap (v : gmap ptr SetContent) (s : Service)
  : Service :=
  {| sets := sets s; set_heap := set_heap s; content_heap := v;
     listeners := listeners s; incoming := incoming s;
     lazy_copy := lazy_copy s; lazy_copy_cookie := lazy_copy_cookie s;
     suggest_id := suggest_id s; next_addr := next_addr s; out := out s |}.

Definition with_listeners (v : list Listener) (s : Service) : Service :=
  {| sets := sets s; set_heap := set_heap s; content_heap := content_heap s;
     listeners := v; incoming := incoming s;
     lazy_copy := lazy_copy s; lazy_copy_cookie := lazy_copy_cookie s;
     suggest_id := suggest_id s; next_addr := next_addr s; out := out s |}.

Definition with_incoming (v : list Operation) (s : Service) : Service :=
  {| sets := sets s; set_heap := set_heap s; content_heap := content_heap s;
     listeners := listeners s; incoming := v;
     lazy_copy := lazy_copy s; lazy_copy_cookie := lazy_copy_cookie s;
     suggest_id := suggest_id s; next_addr := next_addr s; out := out s |}.

Definition with_lazy_copy (v : list LazyCopyRequest) (k : Z) (s : Service)
  : Service :=
  {| sets := sets s; set_heap := set_heap s; content_heap := content_heap s;
     listeners := listeners s; incoming := incoming s;
     lazy_copy := v; lazy_copy_cookie := k;
     suggest_id := suggest_id s; next_addr := next_addr s; out := out s |}.

Definition with_suggest_id (v : Z) (s : Service) : Service :=
  {| sets := sets s; set_heap := set_heap s; content_heap := content_heap s;
     listeners := listeners s; incoming := incoming s;
     lazy_copy := lazy_copy s; lazy_copy_cookie := lazy_copy_cookie s;
     suggest_id := v; next_addr := next_addr s; out := out s |}.

Definition with_next_addr (v : ptr) (s : Service) : Service :=
  {| sets := sets s; set_heap := set_heap s; content_heap := content_heap s;
     listeners := listeners s; incoming := incoming s;
     lazy_copy := lazy_copy s; lazy_copy_cookie := lazy_copy_cookie s;
     suggest_id := suggest_id s; next_addr := v; out := out s |}.

Definition emit (o : Output) (s : Service) : Service :=
  {| sets := sets s; set_heap := set_heap s; content_heap := content_heap s;
     listeners := listeners s; incoming := incoming s;
     lazy_copy := lazy_copy s; lazy_copy_cookie := lazy_copy_cookie s;
     suggest_id := suggest_id s; next_addr := next_addr s;
     out := out s ++ [o] |}.

(** *** The heap *)

(** Reading through a pointer.  Following a pointer to freed memory is
    undefined in C; the model stops there. *)
Definition get_set (p : ptr) (s : Service) : outcome GSS_Set :=
  match set_heap s !! p with
  | Some st => ret st
  | None => Aborted
  end.

Definition get_content (c : ptr) (s : Service) : outcome SetContent :=
  match content_heap s !! c with
  | Some ct => ret ct
  | None => Aborted
  end.

Definition put_set (p : ptr) (st : GSS_Set) (s : Service) : Service :=
  with_set_heap (<[p := st]> (set_heap s)) s.

Definition put_content (c : ptr) (ct : SetContent) (s : Service) : Service :=
  with_content_heap (<[c := ct]> (content_heap s)) s.

Definition free_set (p : ptr) (s : Service) : Service :=
  with_set_heap (delete p (set_heap s)) s.

Definition free_content (c : ptr) (s : Service) : Service :=
  with_content_heap (delete c (content_heap s)) s.

(** *** Doubly linked lists *)

(** A list is kept as the sequence of its nodes from the head. *)

(** Modelled from the spec: the macro [GNUNET_CONTAINER_DLL_insert] of
    gnunet_container_lib.h is not part of the sources at hand.  It links the
    element in at the head of the list; its sibling
    [GNUNET_CONTAINER_DLL_insert_tail], which the service uses for listeners
    and incoming operations, links it in at the tail.  (Section 9 only says
    that the registries are doubly linked lists.) *)
Definition GNUNET_CONTAINER_DLL_insert {A : Type} (l : list A) (x : A)
  : list A := x :: l.

Definition GNUNET_CONTAINER_DLL_insert_tail {A : Type} (l : list A) (x : A)
  : list A := l ++ [x].

(** ** The service *)

Section Service.
Context `{Collaborators}.

Definition vt_of (o : OperationType) : option SetVT :=
  match o with
  | GNUNET_SET_OPERATION_INTERSECTION => Some _GSS_intersection_vt
  | GNUNET_SET_OPERATION_UNION => Some _GSS_union_vt
  | GNUNET_SET_OPERATION_NONE => None
  end.

Definition owned_by (client : Client) (s : Service) (p : ptr) : bool :=
  match set_heap s !! p with
  | Some st => bool_decide (set_client st = Some client)
  | None => false
  end.

Definition set_get (client : Client) (s : Service) : option ptr :=
  List.find (owned_by client s) (sets s).

Definition listener_get (client : Client) (s : Service) : option Listener :=
  List.find (fun l => bool_decide (listener_client l = client)) (listeners s).

Definition get_incoming (id : Z) (s : Service) : outcome (option Operation) :=
  match List.find (fun op => bool_decide (op_suggest_id op = id))
                  (incoming s) with
  | Some op => GNUNET_assert (is_incoming op) ;; ret (Some op)
  | None => ret None
  end.

(** *** Garbage collection *)

(** [struct GarbageContext]. *)
Record GarbageContext : Type := {
  gc_map : gmap GNUNET_HashCode ElementEntry;
  min_op_generation : Z;
  max_op_generation : Z
}.

(** The callback returns [GNUNET_OK] ([true]: go on iterating); its body is
    commented out in the source. *)
Definition garbage_collect_cb (gc : GarbageContext) (key : GNUNET_HashCode)
    (value : ElementEntry) : GarbageContext * bool :=
  (gc, true).

(** [GNUNET_CONTAINER_multihashmap_iterate]: call [it] on every entry until
    it asks to stop. *)
Fixpoint multihashmap_iterate_list {C : Type}
    (it : C -> GNUNET_HashCode -> ElementEntry -> C * bool)
    (entries : list (GNUNET_HashCode * ElementEntry)) (cls : C) : C :=
  match entries with
  | [] => cls
  | (k, v) :: rest =>
      let '(cls', go_on) := it cls k v in
      if go_on then multihashmap_iterate_list it rest cls' else cls'
  end.

Definition GNUNET_CONTAINER_multihashmap_iterate {C : Type}
    (map : gmap GNUNET_HashCode ElementEntry)
    (it : C -> GNUNET_HashCode -> ElementEntry -> C * bool) (cls : C) : C :=
  multihashmap_iterate_list it (map_to_list map) cls.

Definition collect_generation_garbage (p : ptr) (s : Service)
  : outcome Service :=
  st ← get_set p s;
  ct ← get_content (content st) s;
  let gc0 :=
    {| gc_map := elements ct;
       min_op_generation :=
         fold_left (fun m op => Z.min m (generation_created op))
                   (ops st) UINT_MAX;
       max_op_generation :=
         fold_left (fun m op => Z.max m (generation_created op))
                   (ops st) 0 |} in
  let gc := GNUNET_CONTAINER_multihashmap_iterate
              (elements ct) garbage_collect_cb gc0 in
  ret (put_content (content st) (with_elements (gc_map gc) ct) s).

(** *** Membership *)

Definition _GSS_is_element_of_set (ee : ElementEntry) (st : GSS_Set)
  : outcome bool :=
  is_element_of_generation ee (current_generation st)
                           (excluded_generations st).

Definition is_element_of_iteration (ee : ElementEntry) (st : GSS_Set)
  : outcome bool :=
  is_element_of_generation ee (iter_generation st)
                           (excluded_generations st).

(** [op->spec->set] is followed through the heap: the exclusion ranges are
    those the set has at the time of the call. *)
Definition _GSS_is_element_of_operation (ee : ElementEntry) (op : Operation)
    (s : Service) : outcome bool :=
  match spec op with
  | None => Aborted
  | Some sp =>
      match spec_set sp with
      | None => Aborted
      | Some p =>
          st ← get_set p s;
          is_element_of_generation ee (generation_created op)
                                   (excluded_generations st)
      end
  end.

(** *** Destroying operations, sets and listeners *)

(** The operation is unlinked from its set's list, its hooks and channel
    are torn down (outside the model), and the set is garbage collected on
    request. *)
Definition _GSS_operation_destroy (op : Operation) (gc : bool) (s : Service)
  : outcome Service :=
  GNUNET_assert (negb (is_incoming op)) ;;
  match spec op with
  | None => Aborted
  | Some sp =>
      match spec_set sp with
      | None => Aborted
      | Some p =>
          st ← get_set p s;
          let s1 :=
            put_set p (with_ops (filter (fun o => op_addr o ≠ op_addr op)
                                        (ops st)) st) s in
          if gc then collect_generation_garbage p s1 else ret s1
      end
  end.

(** [while (NULL != set->ops_head) _GSS_operation_destroy (set->ops_head,
    GNUNET_NO)].  The head is read afresh in every round; [fuel] is the
    length of the list, which is enough whenever every operation in the
    list is bound to this set (otherwise the loop of the source does not
    end, and the model stops). *)
Fixpoint destroy_ops (fuel : nat) (p : ptr) (s : Service) : outcome Service :=
  st ← get_set p s;
  match ops st with
  | [] => ret s
  | op :: _ =>
      match fuel with
      | O => Aborted
      | S n => s1 ← _GSS_operation_destroy op false s; destroy_ops n p s1
      end
  end.

(** [set_destroy] past its first test, that is for a set whose [client]
    field is already [NULL]: its operations are destroyed, the pending
    mutations that name the set are dropped, the store loses a reference
    (and is freed with the last one), and the set is unlinked, struck from
    the pending lazy copies and freed.  The set's private [state] is always
    there in the model, so the assertion on it cannot fail. *)
Definition set_destroy_dead (p : ptr) (s : Service) : outcome Service :=
  st0 ← get_set p s;
  s1 ← destroy_ops (length (ops st0)) p s;
  st ← get_set p s1;
  ct ← get_content (content st) s1;
  let ct1 :=
    with_pending_mutations
      (filter (fun pm => pm_set pm ≠ p) (pending_mutations ct)) ct in
  GNUNET_assert (negb (refcount ct1 =? 0)) ;;
  let rc := uint (refcount ct1 - 1) in
  let s2 :=
    if rc =? 0 then free_content (content st) s1
    else put_content (content st) (with_refcount rc ct1) s1 in
  let s3 := with_sets (filter (fun q => q ≠ p) (sets s2)) s2 in
  let s4 :=
    with_lazy_copy (filter (fun cr => source_set cr ≠ p) (lazy_copy s3))
                   (lazy_copy_cookie s3) s3 in
  ret (free_set p s4).

Fixpoint remove_first {A : Type} (f : A -> bool) (l : list A) : list A :=
  match l with
  | [] => []
  | x :: rest => if f x then rest else x :: remove_first f rest
  end.

(** [handle_client_disconnect]: the client's set has its [client] field
    cleared and is destroyed, then the client's listener likewise. *)
Definition handle_client_disconnect (client : Client) (s : Service)
  : outcome Service :=
  s1 ← match set_get client s with
       | Some p =>
           st ← get_set p s;
           set_destroy_dead p (put_set p (with_set_client None st) s)
       | None => ret s
       end;
  match listener_get client s1 with
  | Some _ =>
      ret (with_listeners
             (remove_first (fun l => bool_decide (listener_client l = client))
                           (listeners s1)) s1)
  | None => ret s1
  end.

(** Modelled from the spec: [GNUNET_SERVER_client_disconnect] belongs to
    the server library, which is not part of the sources at hand.  Dropping
    the connection runs the disconnect handler the service registered with
    [GNUNET_SERVER_disconnect_notify] (section 3: a listener is "destroyed
    on client disconnect"; the comment in [set_destroy]: "the client's
    destroy callback will call set_destroy() again"). *)
Definition GNUNET_SERVER_client_disconnect (client : Client) (s : Service)
  : outcome Service :=
  handle_client_disconnect client (emit (Client_disconnect client) s).

Definition set_destroy (p : ptr) (s : Service) : outcome Service :=
  st ← get_set p s;
  match set_client st with
  | Some client =>
      GNUNET_SERVER_client_disconnect
        client (put_set p (with_set_client None st) s)
  | None => set_destroy_dead p s
  end.

(** *** Executing mutations *)

Definition element_of_message (m : GNUNET_SET_ElementMessage)
  : GNUNET_SET_Element :=
  {| element_type := msg_element_type m; data := msg_data m |}.

(** [GNUNET_array_append (ee->mutations, ee->mutations_size, mut)] followed
    by the hook of the virtual table. *)
Definition append_mutation (p : ptr) (st : GSS_Set) (ct : SetContent)
    (hash : GNUNET_HashCode) (ee : ElementEntry) (flag : bool)
    (call : VtCall) (s : Service) : Service :=
  let mut := {| generation := current_generation st; added := flag |} in
  let ee' := with_mutations (mutations ee ++ [mut]) ee in
  put_set p (with_state (state st ++ [call]) st)
    (put_content (content st)
       (with_elements (<[hash := ee']> (elements ct)) ct) s).

Definition execute_add (p : ptr) (m : GNUNET_SET_ElementMessage)
    (s : Service) : outcome Service :=
  GNUNET_assert (bool_decide (msg_type m = GNUNET_MESSAGE_TYPE_SET_ADD)) ;;
  st ← get_set p s;
  ct ← get_content (content st) s;
  let el := element_of_message m in
  let hash := GNUNET_SET_element_hash el in
  match elements ct !! hash with
  | None =>
      let ee := {| element := el; element_hash := hash;
                   mutations := []; remote := false |} in
      ret (append_mutation p st ct hash ee true (VtAdd hash) s)
  | Some ee =>
      member ← _GSS_is_element_of_set ee st;
      if member : bool then ret s
      else ret (append_mutation p st ct hash ee true (VtAdd hash) s)
  end.

Definition execute_remove (p : ptr) (m : GNUNET_SET_ElementMessage)
    (s : Service) : outcome Service :=
  GNUNET_assert (bool_decide (msg_type m = GNUNET_MESSAGE_TYPE_SET_REMOVE)) ;;
  st ← get_set p s;
  ct ← get_content (content st) s;
  let el := element_of_message m in
  let hash := GNUNET_SET_element_hash el in
  match elements ct !! hash with
  | None => ret s
  | Some ee =>
      member ← _GSS_is_element_of_set ee st;
      if member : bool
      then ret (append_mutation p st ct hash ee false (VtRemove hash) s)
      else ret s
  end.

Definition execute_mutation (p : ptr) (m : GNUNET_SET_ElementMessage)
    (s : Service) : outcome Service :=
  match msg_type m with
  | GNUNET_MESSAGE_TYPE_SET_ADD => execute_add p m s
  | GNUNET_MESSAGE_TYPE_SET_REMOVE => execute_remove p m s
  | GNUNET_MESSAGE_TYPE_other => GNUNET_break false ;; ret s
  end.

(** *** Iteration and deferred mutations *)

(** The loop that empties the list of pending mutations once no iteration
    is left: the head is unlinked and executed until the list is empty.
    Executing a mutation never touches the list, so the rounds follow the
    list as it was on entry. *)
Fixpoint flush_pending (pms : list PendingMutation) (c : ptr) (s : Service)
  : outcome Service :=
  match pms with
  | [] => ret s
  | pm :: rest =>
      ct ← get_content c s;
      s1 ← execute_mutation (pm_set pm) (mutation_message pm)
             (put_content c (with_pending_mutations rest ct) s);
      flush_pending rest c s1
  end.

(** The [again] loop of [send_client_element]: advance the iterator to the
    next element that belongs to the iterated generation. *)
Fixpoint next_iteration_element (keys : list GNUNET_HashCode)
    (st : GSS_Set) (ct : SetContent)
  : outcome (option (ElementEntry * list GNUNET_HashCode)) :=
  match keys with
  | [] => ret None
  | k :: rest =>
      match elements ct !! k with
      | None => Aborted
      | Some ee =>
          member ← is_element_of_iteration ee st;
          if member : bool then ret (Some (ee, rest))
          else next_iteration_element rest st ct
      end
  end.

Definition send_client_element (p : ptr) (s : Service) : outcome Service :=
  st ← get_set p s;
  match iter st with
  | None => Aborted
  | Some keys =>
      ct ← get_content (content st) s;
      r ← next_iteration_element keys st ct;
      match r with
      | Some (ee, rest) =>
          let st1 :=
            with_iter (Some rest) (iteration_id st) (iter_generation st) st in
          ret (emit (MQ_send (client_mq st)
                             (SET_ITER_ELEMENT (element ee) (iteration_id st)))
                    (put_set p st1 s))
      | None =>
          let st1 :=
            with_iter None (uint16 (iteration_id st + 1))
                      (iter_generation st) st in
          GNUNET_assert (0 <? iterator_count ct) ;;
          let n := iterator_count ct - 1 in
          let s1 :=
            put_content (content st) (with_iterator_count n ct)
                        (put_set p st1 s) in
          s2 ← (if n =? 0
                then flush_pending (pending_mutations ct) (content st) s1
                else ret s1);
          ret (emit (MQ_send (client_mq st) SET_ITER_DONE) s2)
      end
  end.

(** *** Client requests *)

Definition handle_client_iterate (client : Client) (s : Service)
  : outcome Service :=
  match set_get client s with
  | None => GNUNET_break false ;; GNUNET_SERVER_client_disconnect client s
  | Some p =>
      st ← get_set p s;
      match iter st with
      | Some _ =>
          GNUNET_break false ;; GNUNET_SERVER_client_disconnect client s
      | None =>
          ct ← get_content (content st) s;
          let ct1 := with_iterator_count (iterator_count ct + 1) ct in
          let st1 :=
            with_iter (Some (map fst (map_to_list (elements ct))))
                      (iteration_id st) (current_generation st) st in
          send_client_element
            p (put_set p st1 (put_content (content st) ct1 s))
      end
  end.

Definition handle_client_iter_ack (client : Client) (send_more : bool)
    (s : Service) : outcome Service :=
  match set_get client s with
  | None => GNUNET_break false ;; GNUNET_SERVER_client_disconnect client s
  | Some p =>
      st ← get_set p s;
      match iter st with
      | None =>
          GNUNET_break false ;; GNUNET_SERVER_client_disconnect client s
      | Some _ =>
          if send_more then send_client_element p s
          else
            ret (put_set p (with_iter None (uint16 (iteration_id st + 1))
                                      (iter_generation st) st) s)
      end
  end.

(** A new set and its content are zero-initialised ([GNUNET_new]). *)
Definition handle_client_create_set (client : Client) (o : OperationType)
    (s : Service) : outcome Service :=
  match set_get client s with
  | Some _ => GNUNET_break false ;; GNUNET_SERVER_client_disconnect client s
  | None =>
      match vt_of o with
      | None =>
          GNUNET_break false ;; GNUNET_SERVER_client_disconnect client s
      | Some vt =>
          if create vt then
            let p := next_addr s in
            let c := N.succ p in
            let st :=
              {| set_client := Some client; client_mq := client;
                 operation := o; state := []; content := c;
                 current_generation := 0; iter_generation := 0;
                 excluded_generations := []; ops := []; iter := None;
                 iteration_id := 0 |} in
            let ct :=
              {| elements := ∅; latest_generation := 0;
                 pending_mutations := []; refcount := 1;
                 iterator_count := 0 |} in
            ret (with_next_addr (N.succ c)
                   (with_sets (GNUNET_CONTAINER_DLL_insert (sets s) p)
                      (put_content c ct (put_set p st s))))
          else GNUNET_SERVER_client_disconnect client s
      end
  end.

Definition handle_client_mutation (client : Client)
    (m : GNUNET_SET_ElementMessage) (s : Service) : outcome Service :=
  match set_get client s with
  | None => GNUNET_break false ;; GNUNET_SERVER_client_disconnect client s
  | Some p =>
      st ← get_set p s;
      ct ← get_content (content st) s;
      if negb (iterator_count ct =? 0) then
        let pm := {| pm_set := p; mutation_message := m |} in
        ret (put_content (content st)
               (with_pending_mutations
                  (GNUNET_CONTAINER_DLL_insert (pending_mutations ct) pm) ct)
               s)
      else execute_mutation p m s
  end.

Definition advance_generation (p : ptr) (s : Service) : outcome Service :=
  st ← get_set p s;
  ct ← get_content (content st) s;
  if current_generation st =? latest_generation ct then
    ret (put_set p (with_generation (uint (current_generation st + 1))
                                    (excluded_generations st) st)
           (put_content (content st)
              (with_latest_generation (uint (latest_generation ct + 1)) ct)
              s))
  else
    GNUNET_assert (current_generation st <? latest_generation ct) ;;
    let r := {| start := uint (current_generation st + 1);
                range_end := uint (latest_generation ct + 1) |} in
    ret (put_set p (with_generation (range_end r)
                                    (excluded_generations st ++ [r]) st)
           (put_content (content st)
              (with_latest_generation (range_end r) ct) s)).

Definition handle_client_evaluate (client : Client) (app : N)
    (target_peer : PeerIdentity) (mode request_id : Z) (s : Service)
  : outcome Service :=
  match set_get client s with
  | None => GNUNET_break false ;; GNUNET_SERVER_client_disconnect client s
  | Some p =>
      st ← get_set p s;
      let sp :=
        {| spec_operation := operation st; app_id := app;
           peer := target_peer; spec_set := Some p; result_mode := mode;
           client_request_id := request_id; context_msg := None |} in
      let op :=
        {| op_addr := next_addr s; op_peer := 0%N; spec := Some sp;
           is_incoming := false;
           generation_created := current_generation st;
           op_suggest_id := 0; timeout_task := false |} in
      s1 ← advance_generation p s;
      st1 ← get_set p s1;
      ret (with_next_addr (N.succ (next_addr s))
             (put_set p (with_ops (GNUNET_CONTAINER_DLL_insert (ops st1) op)
                                  st1) s1))
  end.

Definition handle_client_accept (client : Client)
    (accept_reject_id request_id mode : Z) (s : Service) : outcome Service :=
  match set_get client s with
  | None => GNUNET_break false ;; GNUNET_SERVER_client_disconnect client s
  | Some p =>
      st ← get_set p s;
      found ← get_incoming accept_reject_id s;
      match found with
      | None =>
          ret (emit (MQ_send (client_mq st) (SET_RESULT_FAILURE request_id)) s)
      | Some op =>
          GNUNET_assert (is_incoming op) ;;
          match spec op with
          | None => Aborted
          | Some sp =>
              let sp1 :=
                {| spec_operation := spec_operation sp; app_id := app_id sp;
                   peer := peer sp; spec_set := Some p; result_mode := mode;
                   client_request_id := request_id;
                   context_msg := context_msg sp |} in
              let op1 :=
                {| op_addr := op_addr op; op_peer := op_peer op;
                   spec := Some sp1; is_incoming := false;
                   generation_created := current_generation st;
                   op_suggest_id := op_suggest_id op;
                   timeout_task := timeout_task op |} in
              let s1 :=
                with_incoming
                  (filter (fun o => op_addr o ≠ op_addr op) (incoming s)) s in
              let s2 :=
                put_set p (with_ops
                             (GNUNET_CONTAINER_DLL_insert (ops st) op1) st)
                        s1 in
              advance_generation p s2
          end
      end
  end.

Definition handle_client_cancel (client : Client) (request_id : Z)
    (s : Service) : outcome Service :=
  match set_get client s with
  | None => GNUNET_break false ;; GNUNET_SERVER_client_disconnect client s
  | Some p =>
      st ← get_set p s;
      match List.find
              (fun op =>
                 match spec op with
                 | Some sp => bool_decide (client_request_id sp = request_id)
                 | None => false
                 end) (ops st) with
      | None => ret s
      | Some op => _GSS_operation_destroy op true s
      end
  end.

Definition handle_client_copy_lazy_prepare (client : Client) (s : Service)
  : outcome Service :=
  match set_get client s with
  | None => GNUNET_break false ;; GNUNET_SERVER_client_disconnect client s
  | Some p =>
      st ← get_set p s;
      let cr := {| source_set := p; cookie := lazy_copy_cookie s |} in
      ret (emit (MQ_send (client_mq st) (SET_COPY_LAZY_RESPONSE (cookie cr)))
             (with_lazy_copy (GNUNET_CONTAINER_DLL_insert (lazy_copy s) cr)
                             (uint (lazy_copy_cookie s + 1)) s))
  end.

Definition handle_client_copy_lazy_connect (client : Client) (k : Z)
    (s : Service) : outcome Service :=
  match set_get client s with
  | Some _ => GNUNET_break false ;; GNUNET_SERVER_client_disconnect client s
  | None =>
      match List.find (fun cr => bool_decide (cookie cr = k))
                      (lazy_copy s) with
      | None =>
          GNUNET_break false ;; GNUNET_SERVER_client_disconnect client s
      | Some cr =>
          let s1 :=
            with_lazy_copy (remove_first
                              (fun cr' => bool_decide (cookie cr' = k))
                              (lazy_copy s))
                           (lazy_copy_cookie s) s in
          src ← get_set (source_set cr) s1;
          match vt_of (operation src) with
          | None => Aborted
          | Some vt =>
              if copy_state vt then
                ct ← get_content (content src) s1;
                let p := next_addr s1 in
                let st :=
                  {| set_client := None; client_mq := client;
                     operation := operation src; state := state src;
                     content := content src;
                     current_generation := current_generation src;
                     iter_generation := 0;
                     excluded_generations := excluded_generations src;
                     ops := []; iter := None; iteration_id := 0 |} in
                let s2 :=
                  put_set p st
                    (put_content (content src)
                       (with_refcount (uint (refcount ct + 1)) ct) s1) in
                s3 ← advance_generation p s2;
                st3 ← get_set p s3;
                ret (with_next_addr (N.succ p)
                       (with_sets (GNUNET_CONTAINER_DLL_insert (sets s3) p)
                          (put_set p (with_set_client (Some client) st3) s3)))
              else
                GNUNET_break false ;;
                GNUNET_SERVER_client_disconnect client s1
          end
      end
  end.

(** *** Incoming requests and listeners *)

Definition incoming_suggest (op : Operation) (l : Listener) (s : Service)
  : outcome (Operation * Service) :=
  GNUNET_assert (is_incoming op) ;;
  match spec op with
  | None => Aborted
  | Some sp =>
      GNUNET_assert (op_suggest_id op =? 0) ;;
      let id := suggest_id s in
      let next := uint (id + 1) in
      let next' := if next =? 0 then uint (next + 1) else next in
      GNUNET_assert (timeout_task op) ;;
      let op1 :=
        {| op_addr := op_addr op; op_peer := op_peer op; spec := spec op;
           is_incoming := is_incoming op;
           generation_created := generation_created op;
           op_suggest_id := id; timeout_task := false |} in
      ret (op1, emit (MQ_send (listener_client l) (SET_REQUEST id (peer sp)))
                     (with_suggest_id next' s))
  end.

Definition listener_matches (l : Listener) (op : Operation) : bool :=
  match spec op with
  | None => false
  | Some sp =>
      (op_suggest_id op =? 0)
      && bool_decide (listener_operation l = spec_operation sp)
      && bool_decide (listener_app_id l = app_id sp)
  end.

(** The loop of [handle_client_listen] over the incoming operations. *)
Fixpoint suggest_existing (l : Listener) (todo : list Operation)
    (s : Service) : outcome (list Operation * Service) :=
  match todo with
  | [] => ret ([], s)
  | op :: rest =>
      r ← (if listener_matches l op then incoming_suggest op l s
           else ret (op, s));
      r' ← suggest_existing l rest r.2;
      ret (r.1 :: r'.1, r'.2)
  end.

Definition handle_client_listen (client : Client) (o : OperationType)
    (app : N) (s : Service) : outcome Service :=
  match listener_get client s with
  | Some _ => GNUNET_break false ;; GNUNET_SERVER_client_disconnect client s
  | None =>
      let l := {| listener_client := client; listener_app_id := app;
                  listener_operation := o |} in
      let s1 :=
        with_listeners (GNUNET_CONTAINER_DLL_insert_tail (listeners s) l) s in
      r ← suggest_existing l (incoming s1) s1;
      ret (with_incoming r.1 r.2)
  end.

(** [channel_new_cb]; [port_ok] says whether the channel came in on the
    set port. *)
Definition channel_new_cb (initiator : PeerIdentity) (port_ok : bool)
    (s : Service) : outcome Service :=
  if port_ok then
    let op :=
      {| op_addr := next_addr s; op_peer := initiator; spec := None;
         is_incoming := true; generation_created := 0; op_suggest_id := 0;
         timeout_task := true |} in
    ret (with_next_addr (N.succ (next_addr s))
           (with_incoming (GNUNET_CONTAINER_DLL_insert_tail (incoming s) op)
                          s))
  else GNUNET_break false ;; ret s.

(** [incoming_destroy], reached from [channel_end_cb] through
    [handle_incoming_disconnect]. *)
Definition incoming_destroy (op : Operation) (s : Service) : outcome Service :=
  GNUNET_assert (is_incoming op) ;;
  ret (with_incoming (filter (fun o => op_addr o ≠ op_addr op) (incoming s))
                     s).

(** The first message on a channel, as far as [handle_incoming_msg] reads
    it. *)
Inductive P2PMessage : Type :=
| P2P_OPERATION_REQUEST (o : OperationType) (app : N)
                        (nested_context : option (list Byte.byte))
| P2P_other.

Definition GNUNET_OK : Z := 1.
Definition GNUNET_SYSERR : Z := -1.

Definition handle_incoming_msg (op : Operation) (mh : P2PMessage)
    (s : Service) : outcome (Z * Service) :=
  GNUNET_assert (is_incoming op) ;;
  match mh with
  | P2P_other => GNUNET_break false ;; ret (GNUNET_SYSERR, s)
  | P2P_OPERATION_REQUEST o app nested_context =>
      match spec op with
      | Some _ => GNUNET_break false ;; ret (GNUNET_SYSERR, s)
      | None =>
          let too_big :=
            match nested_context with
            | Some c =>
                GNUNET_SET_CONTEXT_MESSAGE_MAX_SIZE <? Z.of_nat (length c)
            | None => false
            end in
          if too_big then GNUNET_break false ;; ret (GNUNET_SYSERR, s)
          else
            let sp :=
              {| spec_operation := o; app_id := app; peer := op_peer op;
                 spec_set := None; result_mode := 0; client_request_id := 0;
                 context_msg := nested_context |} in
            let op1 :=
              {| op_addr := op_addr op; op_peer := op_peer op;
                 spec := Some sp; is_incoming := is_incoming op;
                 generation_created := generation_created op;
                 op_suggest_id := op_suggest_id op;
                 timeout_task := timeout_task op |} in
            let replace (o1 : Operation) :=
              with_incoming
                (map (fun x => if bool_decide (op_addr x = op_addr op)
                               then o1 else x) (incoming s)) in
            match List.find
                    (fun l => bool_decide (listener_operation l = o)
                              && bool_decide (listener_app_id l = app))
                    (listeners s) with
            | None =>
                GNUNET_break (timeout_task op) ;;
                ret (GNUNET_OK, replace op1 s)
            | Some l =>
                r ← incoming_suggest op1 l s;
                ret (GNUNET_OK, replace r.1 r.2)
            end
      end
  end.

(** [dispatch_p2p_message] for a channel whose operation is still in the
    incoming list; a message for a bound operation goes to the handler of
    its operation type, which is outside the model.  Modelled from the spec: the channel library is not part
    of the sources at hand; when the handler returns [GNUNET_SYSERR] the
    channel is destroyed (section 4.3: "a protocol violation → destroy
    channel"), which ends in [incoming_destroy]. *)
Definition dispatch_p2p_message (a : ptr) (mh : P2PMessage) (s : Service)
  : outcome Service :=
  match List.find (fun op => bool_decide (op_addr op = a)) (incoming s) with
  | None => ret s
  | Some op =>
      r ← handle_incoming_msg op mh s;
      if r.1 =? GNUNET_SYSERR then
        match List.find (fun o => bool_decide (op_addr o = a))
                        (incoming r.2) with
        | Some op' => incoming_destroy op' r.2
        | None => ret r.2
        end
      else ret r.2
  end.

(** *** The event loop *)

(** What can happen to the service: a request from a client, a client
    going away, or traffic on an incoming channel.  Rejects, timeouts, the
    teardown of channels of bound operations and shutdown run through the
    channel library and the scheduler and are left out. *)
Inductive Event : Type :=
| EvCreateSet (client : Client) (o : OperationType)
| EvMutation (client : Client) (m : GNUNET_SET_ElementMessage)
| EvIterate (client : Client)
| EvIterAck (client : Client) (send_more : bool)
| EvEvaluate (client : Client) (app : N) (target_peer : PeerIdentity)
             (mode request_id : Z)
| EvAccept (client : Client) (accept_reject_id request_id mode : Z)
| EvCancel (client : Client) (request_id : Z)
| EvCopyLazyPrepare (client : Client)
| EvCopyLazyConnect (client : Client) (k : Z)
| EvListen (client : Client) (o : OperationType) (app : N)
| EvClientDisconnect (client : Client)
| EvChannelNew (initiator : PeerIdentity) (port_ok : bool)
| EvP2PMessage (a : ptr) (mh : P2PMessage).

Definition step (e : Event) (s : Service) : outcome Service :=
  match e with
  | EvCreateSet client o => handle_client_create_set client o s
  | EvMutation client m => handle_client_mutation client m s
  | EvIterate client => handle_client_iterate client s
  | EvIterAck client send_more => handle_client_iter_ack client send_more s
  | EvEvaluate client app target_peer mode request_id =>
      handle_client_evaluate client app target_peer mode request_id s
  | EvAccept client accept_reject_id request_id mode =>
      handle_client_accept client accept_reject_id request_id mode s
  | EvCancel client request_id => handle_client_cancel client request_id s
  | EvCopyLazyPrepare client => handle_client_copy_lazy_prepare client s
  | EvCopyLazyConnect client k => handle_client_copy_lazy_connect client k s
  | EvListen client o app => handle_client_listen client o app s
  | EvClientDisconnect client => handle_client_disconnect client s
  | EvChannelNew initiator port_ok => channel_new_cb initiator port_ok s
  | EvP2PMessage a mh => dispatch_p2p_message a mh s
  end.

Fixpoint run (evs : list Event) (s : Service) : outcome Service :=
  match evs with
  | [] => ret s
  | e :: rest => s1 ← step e s; run rest s1
  end.

End Service.

(** ** Notions used to state the properties *)

(** A mutation applies to a query when its generation is not after the
    queried one and not inside an exclusion range. *)
Definition applies (query_generation : Z) (excluded : list GenerationRange)
    (mut : MutationEvent) : bool :=
  (generation mut <=? query_generation)
  && negb (is_excluded_generation (generation mut) excluded).

Definition applicable (query_generation : Z) (excluded : list GenerationRange)
    (muts : list MutationEvent) : list MutationEvent :=
  List.filter (applies query_generation excluded) muts.

(** The [added] flag of the last mutation of a list, [dflt] for none. *)
Definition last_added (dflt : bool) (muts : list MutationEvent) : bool :=
  match last muts with
  | Some mut => added mut
  | None => dflt
  end.

(** The mutations switch between added and removed, the first one being
    the opposite of [present]. *)
Fixpoint alternates (present : bool) (muts : list MutationEvent) : bool :=
  match muts with
  | [] => true
  | mut :: rest =>
      negb (Bool.eqb present (added mut)) && alternates (added mut) rest
  end.

(** The membership test as section 4.1 words it, without the consistency
    check: the last applicable mutation decides. *)
Definition membership_is_last_applicable : Prop :=
  forall (ee : ElementEntry) (q : Z) (excluded : list GenerationRange),
    mutations ee ≠ [] ->
    is_excluded_generation q excluded = false ->
    exists n,
      is_element_of_generation ee q excluded
      = Ret n (last_added false (applicable q excluded (mutations ee))).

(** Section 4.1 and 7 on querying an excluded generation: the call is
    fatal. *)
Definition excluded_query_is_fatal : Prop :=
  forall (ee : ElementEntry) (q : Z) (excluded : list GenerationRange),
    is_excluded_generation q excluded = true ->
    is_element_of_generation ee q excluded = Aborted.

(** *** Relating two states of the service *)

(** Every live object sits below the next address to be handed out. *)
Definition wf (s : Service) : Prop :=
  (forall p st, set_heap s !! p = Some st -> (p < next_addr s)%N)
  /\ (forall c ct, content_heap s !! c = Some ct -> (c < next_addr s)%N).

(** The generation state of a set: its store, its generation and its
    exclusion ranges. *)
Definition same_generation (st st' : GSS_Set) : Prop :=
  content st' = content st
  /\ current_generation st' = current_generation st
  /\ excluded_generations st' = excluded_generations st.

(** What [advance_generation] does to a set whose store was at generation
    [latest]: the fast path, or the jump over a new exclusion range. *)
Definition advanced (latest : Z) (st st' : GSS_Set) : Prop :=
  content st' = content st
  /\ current_generation st' = uint (latest + 1)
  /\ ((current_generation st = latest
       /\ excluded_generations st' = excluded_generations st)
      \/ (current_generation st < latest
          /\ excluded_generations st'
             = excluded_generations st
               ++ [ {| start := uint (current_generation st + 1);
                       range_end := uint (latest + 1) |} ])).

(** [s'] comes after [s] and no generation has moved: the sets and stores
    of [s] that are still there have the generation state they had, nothing
    freed has come back, and a new store starts at generation 0. *)
Definition frame (s s' : Service) : Prop :=
  (next_addr s <= next_addr s')%N
  /\ wf s'
  /\ (forall p st', set_heap s' !! p = Some st' -> (p < next_addr s)%N ->
        exists st, set_heap s !! p = Some st /\ same_generation st st')
  /\ (forall c ct', content_heap s' !! c = Some ct' -> (c < next_addr s)%N ->
        exists ct, content_heap s !! c = Some ct
                   /\ latest_generation ct' = latest_generation ct)
  /\ (forall c ct', content_heap s' !! c = Some ct' ->
        (next_addr s <= c)%N -> latest_generation ct' = 0).

(** As [frame], but one generation may have been advanced: sets bound to
    the store concerned either stay or are advanced from the store's
    generation, and that store moves on by one. *)
Definition step_rel (s s' : Service) : Prop :=
  (next_addr s <= next_addr s')%N
  /\ wf s'
  /\ (forall p st', set_heap s' !! p = Some st' -> (p < next_addr s)%N ->
        exists st, set_heap s !! p = Some st
          /\ (same_generation st st'
              \/ exists ct, content_heap s !! content st = Some ct
                            /\ advanced (latest_generation ct) st st'))
  /\ (forall c ct', content_heap s' !! c = Some ct' -> (c < next_addr s)%N ->
        exists ct, content_heap s !! c = Some ct
          /\ (latest_generation ct' = latest_generation ct
              \/ latest_generation ct' = uint (latest_generation ct + 1)))
  /\ (forall c ct', content_heap s' !! c = Some ct' ->
        (next_addr s <= c)%N -> latest_generation ct' = 0).

(** No store is within [k] advances of the end of the generation range. *)
Definition headroom (k : Z) (s : Service) : Prop :=
  0 <= k <= UINT_MAX
  /\ forall c ct, content_heap s !! c = Some ct ->
       0 <= latest_generation ct /\ latest_generation ct + k <= UINT_MAX.

(** Events that start an operation on the client's set. *)
Definition starts_operation (e : Event) : bool :=
  match e with
  | EvEvaluate _ _ _ _ _ | EvAccept _ _ _ _ => true
  | _ => false
  end.

(** A sequence of mutations executed on one set. *)
Fixpoint execute_all `{Collaborators} (p : ptr)
    (ms : list GNUNET_SET_ElementMessage) (s : Service) : outcome Service :=
  match ms with
  | [] => ret s
  | m :: rest => s1 ← execute_mutation p m s; execute_all p rest s1
  end.

(** What the membership test reports for an element in the set a client
    owns; an element the store has never seen is not a member. *)
Definition client_set_contains `{Collaborators} (client : Client)
    (el : GNUNET_SET_Element) (s : Service) : outcome bool :=
  match set_get client s with
  | None => Aborted
  | Some p =>
      st ← get_set p s;
      ct ← get_content (content st) s;
      match elements ct !! GNUNET_SET_element_hash el with
      | None => ret false
      | Some ee => _GSS_is_element_of_set ee st
      end
  end.

(** Every operation in the list is bound to the set at [p]. *)
Definition bound_to (p : ptr) (l : list Operation) : Prop :=
  Forall (fun op => is_incoming op = false
                    /\ exists sp, spec op = Some sp /\ spec_set sp = Some p) l.

(** What the disconnect handler makes of a client's set. *)
Definition without_set `{Collaborators} (client : Client) (p : ptr) (st : GSS_Set)
    (ct : SetContent) (s : Service) : Service :=
  let rc := uint (refcount ct - 1) in
  let ct1 :=
    with_pending_mutations
      (filter (fun pm => pm_set pm ≠ p) (pending_mutations ct)) ct in
  let s1 := put_set p (with_ops [] (with_set_client None st)) s in
  let s2 :=
    if rc =? 0 then free_content (content st) s1
    else put_content (content st) (with_refcount rc ct1) s1 in
  let s3 := with_sets (filter (fun q => q ≠ p) (sets s2)) s2 in
  let s4 :=
    with_lazy_copy (filter (fun cr => source_set cr ≠ p) (lazy_copy s3))
                   (lazy_copy_cookie s3) s3 in
  let s5 := free_set p s4 in
  match listener_get client s5 with
  | Some _ =>
      with_listeners
        (remove_first (fun l => bool_decide (listener_client l = client))
                      (listeners s5)) s5
  | None => s5
  end.

(** ** The properties as the specification words them *)


(** Section 8, one set per client: the second request leaves the set the
    client has untouched. *)
Definition second_set_request_is_harmless : Prop :=
  forall (C : Collaborators) evs n0 s client o k p st n s',
    run evs initial_service = Ret n0 s ->
    set_get client s = Some p ->
    set_heap s !! p = Some st ->
    (handle_client_create_set client o s = Ret n s'
     \/ handle_client_copy_lazy_connect client k s = Ret n s') ->
    set_heap s' !! p = Some st.

(** Section 8, generation monotonicity, for the runs of a service from its
    start. *)
Definition generation_never_decreases : Prop :=
  forall (C : Collaborators) evs1 evs2 n1 s n2 s' p st st',
    run evs1 initial_service = Ret n1 s ->
    run evs2 s = Ret n2 s' ->
    set_heap s !! p = Some st ->
    set_heap s' !! p = Some st' ->
    current_generation st <= current_generation st'.

(** Section 3 on the generation of a set: an ordinary mutation advances it
    by one. *)
Definition mutation_advances_generation : Prop :=
  forall (C : Collaborators) evs n0 s p m n s' st,
    run evs initial_service = Ret n0 s ->
    set_heap s !! p = Some st ->
    execute_mutation p m s = Ret n s' ->
    exists st', set_heap s' !! p = Some st'
                /\ current_generation st' = current_generation st + 1.

(** ** A concrete service *)

(** Collaborators to run the service with: elements are hashed by folding
    their bytes, both operation types can be created, and only the union
    supports lazy copies. *)
Definition test_hash (e : GNUNET_SET_Element) : GNUNET_HashCode :=
  fold_left (fun h b => (h * 256 + Byte.to_N b)%N) (data e)
            (Z.to_N (element_type e)).

Definition test_collaborators : Collaborators :=
  {| GNUNET_SET_element_hash := test_hash;
     _GSS_intersection_vt := {| create := true; copy_state := false |};
     _GSS_union_vt := {| create := true; copy_state := true |};
     GNUNET_SET_CONTEXT_MESSAGE_MAX_SIZE := 1024 |}.

Definition test_run : list Event -> Service -> outcome Service :=
  @run test_collaborators.

Definition test_contains
  : Client -> GNUNET_SET_Element -> Service -> outcome bool :=
  @client_set_contains test_collaborators.

(** One-byte elements X, Y and Z, and the requests to add and to
    remove them. *)
Definition elt (b : Byte.byte) : GNUNET_SET_Element :=
  {| element_type := 0; data := [b] |}.

Definition elt_X : GNUNET_SET_Element := elt Byte.x58.
Definition elt_Y : GNUNET_SET_Element := elt Byte.x59.
Definition elt_Z : GNUNET_SET_Element := elt Byte.x5a.

Definition add_message (el : GNUNET_SET_Element) : GNUNET_SET_ElementMessage :=
  {| msg_type := GNUNET_MESSAGE_TYPE_SET_ADD;
     msg_element_type := element_type el; msg_data := data el |}.

Definition remove_message (el : GNUNET_SET_Element) : GNUNET_SET_ElementMessage :=
  {| msg_type := GNUNET_MESSAGE_TYPE_SET_REMOVE;
     msg_element_type := element_type el; msg_data := data el |}.

(** Clients [alice] and [bob]. *)
Definition alice : Client := 1%N.
Definition bob : Client := 2%N.

(** The scenario of section 8 for lazy copies: Alice creates set A and
    adds X, the set is forked into Bob's set B, then Y goes into A only and
    Z into B only. *)
Definition fork_scenario : list Event :=
  [ EvCreateSet alice GNUNET_SET_OPERATION_UNION;
    EvMutation alice (add_message elt_X);
    EvCopyLazyPrepare alice;
    EvCopyLazyConnect bob 1;
    EvMutation alice (add_message elt_Y);
    EvMutation bob (add_message elt_Z) ].

(** Alice iterates over her set, which holds Y; while she has not yet
    acknowledged the element, she asks to add X and then to remove it;
    her acknowledgement ends the iteration. *)
Definition deferral_prefix : list Event :=
  [ EvCreateSet alice GNUNET_SET_OPERATION_UNION;
    EvMutation alice (add_message elt_Y);
    EvIterate alice ].

Definition deferral_scenario : list Event :=
  deferral_prefix
  ++ [ EvMutation alice (add_message elt_X);
       EvMutation alice (remove_message elt_X);
       EvIterAck alice true ].

(** The same requests without an iteration in the way. *)
Definition arrival_order_scenario : list Event :=
  [ EvCreateSet alice GNUNET_SET_OPERATION_UNION;
    EvMutation alice (add_message elt_Y);
    EvMutation alice (add_message elt_X);
    EvMutation alice (remove_message elt_X) ].

(** Alice's service after she created a union set, added X and then
    started and cancelled [g] operations: the set and its store are at
    generation [g]. *)
Definition alice_set (g : Z) : GSS_Set :=
  {| set_client := Some alice; client_mq := alice;
     operation := GNUNET_SET_OPERATION_UNION;
     state := [VtAdd (test_hash elt_X)]; content := 2%N;
     current_generation := g; iter_generation := 0;
     excluded_generations := []; ops := []; iter := None;
     iteration_id := 0 |}.

Definition alice_content (g : Z) : SetContent :=
  {| elements :=
       {[ test_hash elt_X :=
            {| element := elt_X; element_hash := test_hash elt_X;
               mutations := [ {| generation := 0; added := true |} ];
               remote := false |} ]};
     latest_generation := g; pending_mutations := []; refcount := 1;
     iterator_count := 0 |}.

Definition service_at (g : Z) : Service :=
  {| sets := [1%N]; set_heap := {[ 1%N := alice_set g ]};
     content_heap := {[ 2%N := alice_content g ]};
     listeners := []; incoming := []; lazy_copy := [];
     lazy_copy_cookie := 1; suggest_id := 1;
     next_addr := (3 + Z.to_N g)%N; out := [] |}.

(** The operation Alice starts at generation [g], and her service while
    that operation is running. *)
Definition probe_operation (g : Z) : Operation :=
  {| op_addr := (3 + Z.to_N g)%N; op_peer := 0%N;
     spec := Some {| spec_operation := GNUNET_SET_OPERATION_UNION;
                     app_id := 0%N; peer := 0%N; spec_set := Some 1%N;
                     result_mode := 0; client_request_id := 0;
                     context_msg := None |};
     is_incoming := false; generation_created := g; op_suggest_id := 0;
     timeout_task := false |}.

Definition service_probing (g : Z) : Service :=
  {| sets := [1%N];
     set_heap := {[ 1%N := with_ops [probe_operation g] (alice_set (g + 1)) ]};
     content_heap := {[ 2%N := alice_content (g + 1) ]};
     listeners := []; incoming := []; lazy_copy := [];
     lazy_copy_cookie := 1; suggest_id := 1;
     next_addr := (4 + Z.to_N g)%N; out := [] |}.

(** Start an operation with request id 0 and cancel it again. *)
Definition evaluate_and_cancel : list Event :=
  [ EvEvaluate alice 0%N 0%N 0 0; EvCancel alice 0 ].

Fixpoint cycles (k : nat) : list Event :=
  match k with
  | O => []
  | S k' => cycles k' ++ evaluate_and_cancel
  end.

Definition events_to (g : nat) : list Event :=
  [ EvCreateSet alice GNUNET_SET_OPERATION_UNION; EvMutation alice (add_message elt_X) ]
  ++ cycles g.

(** ** Notions used to state further properties *)

(** The membership test as a yes-or-no answer: yes only when the test
    returns and reports a member. *)
Definition is_member_at (g : Z) (excluded : list GenerationRange)
    (ee : ElementEntry) : bool :=
  match is_element_of_generation ee g excluded with
  | Ret _ true => true
  | _ => false
  end.

(** The client's acknowledgements that ask for the next element. *)
Definition acknowledgements (client : Client) (k : nat) : list Event :=
  replicate k (EvIterAck client true).

(** The client of a request that is addressed to the client's set. *)
Definition set_request_client (e : Event) : option Client :=
  match e with
  | EvMutation client _ | EvIterate client | EvIterAck client _
  | EvEvaluate client _ _ _ _ | EvAccept client _ _ _ | EvCancel client _
  | EvCopyLazyPrepare client => Some client
  | _ => None
  end.

(** The service after it has dropped the connection of a client that has
    no set: the disconnect is on record and the client's listener, if it
    has one, is gone. *)
Definition dropped (client : Client) (s : Service) : Service :=
  with_listeners
    (remove_first (fun l => bool_decide (listener_client l = client))
                  (listeners s))
    (emit (Client_disconnect client) s).

(** The message that suggests an incoming operation to a listener's
    client. *)
Definition request_message (client : Client) (op : Operation) : Output :=
  MQ_send client
          (SET_REQUEST (op_suggest_id op)
                       (match spec op with
                        | Some sp => peer sp
                        | None => 0%N
                        end)).

(** A first message that [handle_incoming_msg] refuses: not an operation
    request, a second request on the same channel, or a request whose
    context message is too large. *)
Definition protocol_violation `{Collaborators} (op : Operation)
    (mh : P2PMessage) : Prop :=
  match mh with
  | P2P_other => True
  | P2P_OPERATION_REQUEST _ _ nested_context =>
      spec op ≠ None
      \/ exists c, nested_context = Some c
                   /\ GNUNET_SET_CONTEXT_MESSAGE_MAX_SIZE < Z.of_nat (length c)
  end.

(** ** Invariants of the registries and the stores *)

(** An entry of a store, compared with what the store held under its hash
    before: an old entry has only been appended to, a new entry has a
    mutation. *)
Definition grows (old : option ElementEntry) (ee' : ElementEntry) : Prop :=
  match old with
  | Some ee =>
      element ee' = element ee
      /\ exists extra, mutations ee' = mutations ee ++ extra
  | None => mutations ee' ≠ []
  end.

Definition entries_grow (m m' : gmap GNUNET_HashCode ElementEntry) : Prop :=
  (forall h ee', m' !! h = Some ee' -> grows (m !! h) ee')
  /\ (forall h, is_Some (m !! h) -> is_Some (m' !! h)).

(** A request message carries an accept id other than zero. *)
Definition nonzero_request (o : Output) : Prop :=
  forall c id pr, o = MQ_send c (SET_REQUEST id pr) -> id ≠ 0.

(** [s'] comes after [s] and no set has been created: the list of sets has
    only lost members, the sets that are still there have the owner they
    had, the stores that are still there have the entries they had, with
    mutations appended, and the accept ids sent are not zero. *)
Definition keeps (s s' : Service) : Prop :=
  sets s' `sublist_of` sets s
  /\ (forall p st', set_heap s' !! p = Some st' ->
        exists st, set_heap s !! p = Some st
                   /\ set_client st' = set_client st)
  /\ (forall p, p ∈ sets s' -> is_Some (set_heap s !! p) ->
                is_Some (set_heap s' !! p))
  /\ (forall c ct', content_heap s' !! c = Some ct' ->
        exists ct, content_heap s !! c = Some ct
                   /\ entries_grow (elements ct) (elements ct'))
  /\ (suggest_id s ≠ 0 ->
      suggest_id s' ≠ 0
      /\ exists new, out s' = out s ++ new /\ Forall nonzero_request new).

(** The state of the registries the service maintains: the list of sets
    has no duplicates, every set in it is there and has an owner, no two of
    them have the same owner, every entry of a store has a mutation, and
    the next accept id is not zero. *)
Definition registry_ok (s : Service) : Prop :=
  wf s
  /\ NoDup (sets s)
  /\ (forall p, p ∈ sets s ->
        exists st c, set_heap s !! p = Some st /\ set_client st = Some c)
  /\ (forall p q st stq,
        p ∈ sets s -> q ∈ sets s ->
        set_heap s !! p = Some st -> set_heap s !! q = Some stq ->
        set_client st = set_client stq -> p = q)
  /\ (forall c ct h ee,
        content_heap s !! c = Some ct -> elements ct !! h = Some ee ->
        mutations ee ≠ [])
  /\ suggest_id s ≠ 0
  /\ Forall nonzero_request (out s).

(** [s'] is [s] with one more set, which belongs to [client] and stands at
    the address handed out next; a store that was not there before is
    new and empty. *)
Definition adds_set (client : Client) (s s' : Service) : Prop :=
  set_get client s = None
  /\ sets s' = next_addr s :: sets s
  /\ (exists stp, set_heap s' = <[next_addr s := stp]> (set_heap s)
                  /\ set_client stp = Some client)
  /\ (forall c ct', content_heap s' !! c = Some ct' ->
        (exists ct, content_heap s !! c = Some ct
                    /\ elements ct' = elements ct)
        \/ ((next_addr s <= c)%N /\ elements ct' = ∅))
  /\ suggest_id s' = suggest_id s
  /\ out s' = out s.

(** ** Invariants of the generations *)

(** The generations of the service are in order, with every store at most
    at generation [bound]: a set points to a store that has been
    allocated, is not ahead of its store, and all its exclusion ranges end
    at or before its generation; no store has a mutation after its latest
    generation. *)
Definition generations_core (bound : Z) (s : Service) : Prop :=
  (forall p st, set_heap s !! p = Some st ->
     (content st < next_addr s)%N)
  /\ (forall p st ct, set_heap s !! p = Some st ->
        content_heap s !! content st = Some ct ->
        0 <= current_generation st <= latest_generation ct
        /\ Forall (fun r => range_end r <= current_generation st)
                  (excluded_generations st))
  /\ (forall c ct, content_heap s !! c = Some ct ->
        0 <= latest_generation ct <= bound
        /\ forall h ee, elements ct !! h = Some ee ->
             Forall (fun mut => generation mut <= latest_generation ct)
                    (mutations ee)).

Definition generations_ok (bound : Z) (s : Service) : Prop :=
  wf s /\ generations_core bound s.

(** [s'] comes after [s] and nothing that bears on generations has
    changed: every set has the store, the generation and the exclusion
    ranges it had, every store its latest generation and its entries. *)
Definition neutral (s s' : Service) : Prop :=
  (next_addr s <= next_addr s')%N
  /\ (forall p st', set_heap s' !! p = Some st' ->
        exists st, set_heap s !! p = Some st /\ same_generation st st')
  /\ (forall c ct', content_heap s' !! c = Some ct' ->
        exists ct, content_heap s !! c = Some ct
                   /\ latest_generation ct' = latest_generation ct
                   /\ elements ct' = elements ct).

(** ** The end of an incoming operation *)

(** [incoming_timeout_cb]; [shutdown] says whether the scheduler runs the
    task because the service shuts down.  The task handle is cleared in
    the operation first. *)
Definition incoming_timeout_cb (shutdown : bool) (op : Operation)
    (s : Service) : outcome Service :=
  let op1 :=
    {| op_addr := op_addr op; op_peer := op_peer op; spec := spec op;
       is_incoming := is_incoming op;
       generation_created := generation_created op;
       op_suggest_id := op_suggest_id op; timeout_task := false |} in
  let s1 :=
    with_incoming
      (map (fun x => if bool_decide (op_addr x = op_addr op) then op1 else x)
           (incoming s)) s in
  GNUNET_assert (is_incoming op1) ;;
  if shutdown then ret s1 else incoming_destroy op1 s1.

(** [handle_incoming_disconnect], the [peer_disconnect] hook of an
    incoming operation. *)
Definition handle_incoming_disconnect (op : Operation) (s : Service)
  : outcome Service :=
  GNUNET_assert (is_incoming op) ;;
  incoming_destroy op s.

(** ** Further concrete services *)

(** Bob's lazy copy of Alice's set, and the service after the first four
    steps of the fork scenario: Alice's set at generation 0 and Bob's at
    generation 1 share the store, which holds X. *)
Definition bob_set : GSS_Set :=
  {| set_client := Some bob; client_mq := bob;
     operation := GNUNET_SET_OPERATION_UNION;
     state := [VtAdd (test_hash elt_X)]; content := 2%N;
     current_generation := 1; iter_generation := 0;
     excluded_generations := []; ops := []; iter := None;
     iteration_id := 0 |}.

Definition forked_content : SetContent :=
  {| elements := elements (alice_content 0);
     latest_generation := 1; pending_mutations := []; refcount := 2;
     iterator_count := 0 |}.

Definition forked_service : Service :=
  {| sets := [3%N; 1%N];
     set_heap := {[ 1%N := alice_set 0; 3%N := bob_set ]};
     content_heap := {[ 2%N := forked_content ]};
     listeners := []; incoming := []; lazy_copy := [];
     lazy_copy_cookie := 2; suggest_id := 1;
     next_addr := 4%N;
     out := [MQ_send alice (SET_COPY_LAZY_RESPONSE 1)] |}.

(** Alice's service while she iterates over her set: X has been sent and
    not yet acknowledged. *)
Definition iterating_set : GSS_Set :=
  with_iter (Some []) 0 0 (alice_set 0).

Definition iterating_content : SetContent :=
  with_iterator_count 1 (alice_content 0).

Definition iterating_service : Service :=
  {| sets := [1%N]; set_heap := {[ 1%N := iterating_set ]};
     content_heap := {[ 2%N := iterating_content ]};
     listeners := []; incoming := []; lazy_copy := [];
     lazy_copy_cookie := 1; suggest_id := 1;
     next_addr := 3%N;
     out := [MQ_send alice (SET_ITER_ELEMENT elt_X 0)] |}.

(** Alice's service with a channel from peer 9 on which nothing has
    arrived yet, with and without Bob listening for union requests of
    application 5. *)
Definition waiting_operation : Operation :=
  {| op_addr := 3%N; op_peer := 9%N; spec := None; is_incoming := true;
     generation_created := 0; op_suggest_id := 0; timeout_task := true |}.

Definition bob_listener : Listener :=
  {| listener_client := bob; listener_app_id := 5%N;
     listener_operation := GNUNET_SET_OPERATION_UNION |}.

Definition service_with_channel (ls : list Listener) : Service :=
  {| sets := [1%N]; set_heap := {[ 1%N := alice_set 0 ]};
     content_heap := {[ 2%N := alice_content 0 ]};
     listeners := ls; incoming := [waiting_operation]; lazy_copy := [];
     lazy_copy_cookie := 1; suggest_id := 1;
     next_addr := 4%N; out := [] |}.

(** The same channel after a union request for application 5 has
    arrived and been suggested under the accept id 1. *)
Definition requested_operation : Operation :=
  {| op_addr := 3%N; op_peer := 9%N;
     spec := Some {| spec_operation := GNUNET_SET_OPERATION_UNION;
                     app_id := 5%N; peer := 9%N; spec_set := None;
                     result_mode := 0; client_request_id := 0;
                     context_msg := None |};
     is_incoming := true; generation_created := 0; op_suggest_id := 1;
     timeout_task := false |}.

Definition service_with_request : Service :=
  {| sets := [1%N]; set_heap := {[ 1%N := alice_set 0 ]};
     content_heap := {[ 2%N := alice_content 0 ]};
     listeners := [bob_listener]; incoming := [requested_operation];
     lazy_copy := [];
     lazy_copy_cookie := 1; suggest_id := 2;
     next_addr := 4%N;
     out := [MQ_send bob (SET_REQUEST 1 9%N)] |}.

(** ** Invariants of the stores *)

(** Whether the set at [p] uses the store at [c], and how many sets of the
    list use it. *)
Definition points_to (s : Service) (c : ptr) (p : ptr) : bool :=
  match set_heap s !! p with
  | Some st => bool_decide (content st = c)
  | None => false
  end.

Definition sharers (s : Service) (c : ptr) : nat :=
  length (List.filter (points_to s c) (sets s)).

(** The bookkeeping of sets and stores is in order, for at most [bound]
    sets: the list of sets has no duplicates and holds the allocated sets
    and no others;
    the reference count of a store is the number of sets that use it, and
    is not zero; the store of every set is allocated; and the operations in
    the list of a set are bound to this set. *)
Definition stores_ok (bound : Z) (s : Service) : Prop :=
  NoDup (sets s)
  /\ (forall p, p ∈ sets s -> is_Some (set_heap s !! p))
  /\ (forall p st, set_heap s !! p = Some st -> p ∈ sets s)
  /\ (forall c ct, content_heap s !! c = Some ct ->
        refcount ct = Z.of_nat (sharers s c) /\ 0 < refcount ct)
  /\ (forall p st, set_heap s !! p = Some st ->
        is_Some (content_heap s !! content st))
  /\ (forall p st, set_heap s !! p = Some st -> bound_to p (ops st))
  /\ Z.of_nat (length (sets s)) <= bound.

(** [s'] comes after [s] and the bookkeeping has not moved: the list of
    sets, the store of every set and the reference count of every store
    are the same, and a list of operations that was bound to its set still
    is. *)
Definition book (s s' : Service) : Prop :=
  sets s' = sets s
  /\ (forall p, content <$> set_heap s' !! p = content <$> set_heap s !! p)
  /\ (forall c, refcount <$> content_heap s' !! c
                = refcount <$> content_heap s !! c)
  /\ (forall p st', set_heap s' !! p = Some st' ->
        exists st, set_heap s !! p = Some st
                   /\ (bound_to p (ops st) -> bound_to p (ops st'))).

(** ** Invariants of the channels and the tickets *)

(** An operation of the incoming list is marked as incoming; as long as it
    has not been suggested its timeout is running; and without a request
    it has not been suggested. *)
Definition incoming_ok (op : Operation) : Prop :=
  is_incoming op = true
  /\ (op_suggest_id op = 0 -> timeout_task op = true)
  /\ (spec op = None -> op_suggest_id op = 0).

(** The incoming operations are in order, the next accept id is not zero,
    every ticket for a lazy copy names a set that is allocated, and every
    set has an operation type. *)
Definition channels_ok (s : Service) : Prop :=
  Forall incoming_ok (incoming s)
  /\ suggest_id s ≠ 0
  /\ Forall (fun cr => is_Some (set_heap s !! source_set cr)) (lazy_copy s)
  /\ (forall p st, set_heap s !! p = Some st ->
        operation st ≠ GNUNET_SET_OPERATION_NONE).

(** [s'] comes after [s] and neither the channels nor the tickets have
    moved: the incoming list, the next accept id and the tickets are the
    same, and so are the sets that are allocated and their operation
    types. *)
Definition calm (s s' : Service) : Prop :=
  incoming s' = incoming s
  /\ suggest_id s' = suggest_id s
  /\ lazy_copy s' = lazy_copy s
  /\ (forall p, operation <$> set_heap s' !! p
                = operation <$> set_heap s !! p).

(** The events whose handlers have no way to fail in a service that is in
    order: all but the mutations and the iterations, whose membership test
    carries an assertion on the history of the entry, and Accept with the
    id zero, which marks the operations not yet suggested. *)
Definition always_answered (e : Event) : bool :=
  match e with
  | EvMutation _ _ | EvIterate _ | EvIterAck _ _ => false
  | EvAccept _ accept_reject_id _ _ => negb (accept_reject_id =? 0)
  | _ => true
  end.

(** ** A service without lazy copies *)

(** The generations of the mutations do not decrease along the list. *)
Fixpoint ascending (muts : list MutationEvent) : Prop :=
  match muts with
  | [] => True
  | mut :: rest =>
      Forall (fun later => generation mut <= generation later) rest
      /\ ascending rest
  end.

(** The history of an entry in a store that one set uses alone, at the
    latest generation [latest]: there is a mutation, additions and
    removals take turns, beginning with an addition, and the generations
    do not decrease and do not pass [latest]. *)
Definition history_ok (latest : Z) (muts : list MutationEvent) : Prop :=
  muts ≠ []
  /\ alternates false muts = true
  /\ ascending muts
  /\ Forall (fun mut => generation mut <= latest) muts.

(** The set at [p] and the store it uses alone: the set is at the latest
    generation of the store and has no exclusion ranges; while the set is
    iterated the store counts an iteration, and the keys still to be
    visited have their entries; the pending mutations are those of the
    set; and every entry has a history that is in order. *)
Definition set_solo (p : ptr) (st : GSS_Set) (ct : SetContent) : Prop :=
  current_generation st = latest_generation ct
  /\ excluded_generations st = []
  /\ 0 <= iterator_count ct
  /\ (forall keys, iter st = Some keys ->
        0 < iterator_count ct
        /\ Forall (fun k => is_Some (elements ct !! k)) keys)
  /\ Forall (fun pm => pm_set pm = p) (pending_mutations ct)
  /\ (forall h ee, elements ct !! h = Some ee ->
        history_ok (latest_generation ct) (mutations ee)).

(** No two sets share a store, and every set is in order with its
    store. *)
Definition solo_ok (s : Service) : Prop :=
  (forall p q st stq,
     set_heap s !! p = Some st -> set_heap s !! q = Some stq ->
     content st = content stq -> p = q)
  /\ (forall p st, set_heap s !! p = Some st ->
        exists ct, content_heap s !! content st = Some ct
                   /\ set_solo p st ct).

(** What [set_solo] reads of a set and of a store. *)
Definition set_view (st : GSS_Set)
  : ptr * Z * list GenerationRange * option (list GNUNET_HashCode) :=
  (content st, current_generation st, excluded_generations st, iter st).

Definition store_view (ct : SetContent)
  : gmap GNUNET_HashCode ElementEntry * Z * list PendingMutation * Z :=
  (elements ct, latest_generation ct, pending_mutations ct,
   iterator_count ct).

(** [s'] comes after [s] and nothing that [solo_ok] reads has changed. *)
Definition still (s s' : Service) : Prop :=
  (forall p, set_view <$> set_heap s' !! p = set_view <$> set_heap s !! p)
  /\ (forall c, store_view <$> content_heap s' !! c
                = store_view <$> content_heap s !! c).

(** The events of a service in which no lazy copy is made and no Accept
    names the id zero. *)
Definition plain (e : Event) : bool :=
  match e with
  | EvCopyLazyConnect _ _ => false
  | EvAccept _ accept_reject_id _ _ => negb (accept_reject_id =? 0)
  | _ => true
  end.

(** ** Advancing the generation, as the specification words it *)

(** Section 4.5 on [advance_generation], with "increment by 1" and
    "latest + 1" read on the integers, for the sets of a running
    service. *)
Definition advance_generation_adds_one : Prop :=
  forall (C : Collaborators) evs n0 s p st ct,
    run evs initial_service = Ret n0 s ->
    set_heap s !! p = Some st ->
    content_heap s !! content st = Some ct ->
    (current_generation st = latest_generation ct ->
     exists s' st' ct',
       advance_generation p s = Ret 0 s'
       /\ set_heap s' !! p = Some st'
       /\ content_heap s' !! content st = Some ct'
       /\ current_generation st' = current_generation st + 1
       /\ latest_generation ct' = latest_generation ct + 1
       /\ excluded_generations st' = excluded_generations st)
    /\ (current_generation st < latest_generation ct ->
        exists s' st' ct',
          advance_generation p s = Ret 0 s'
          /\ set_heap s' !! p = Some st'
          /\ content_heap s' !! content st = Some ct'
          /\ excluded_generations st'
             = excluded_generations st
               ++ [ {| start := current_generation st + 1;
                       range_end := latest_generation ct + 1 |} ]
          /\ current_generation st' = latest_generation ct + 1
          /\ latest_generation ct' = latest_generation ct + 1).

(** ** Operations and the generation of their set *)

(** The client whose request starts an operation. *)
Definition operation_client (e : Event) : option Client :=
  match e with
  | EvEvaluate client _ _ _ _ | EvAccept client _ _ _ => Some client
  | _ => None
  end.





(** * Properties *)

(** ** The membership test *)

Lemma bind_Ret {A B : Type} (m : outcome A) (f : A -> outcome B) n b :
  (m ≫= f) = Ret n b ->
  exists k a j, m = Ret k a /\ f a = Ret j b /\ n = (k + j)%nat.
Proof.
  unfold mbind, outcome_bind, bind.
  destruct m as [k a|]; [|discriminate].
  destruct (f a) as [j b'|] eqn:E; [|discriminate].
  intros [= <- <-]. exists k, a, j. auto.
Qed.

Lemma last_added_cons dflt mut rest :
  last_added dflt (mut :: rest) = last_added (added mut) rest.
Proof.
  unfold last_added. destruct rest as [|m' r]; [reflexivity|].
  change (last (mut :: m' :: r)) with (last (m' :: r)).
  destruct (last (m' :: r)) eqn:E; [reflexivity|].
  apply last_None in E. discriminate.
Qed.

Lemma applicable_cons q excluded mut rest :
  applicable q excluded (mut :: rest)
  = if applies q excluded mut then mut :: applicable q excluded rest
    else applicable q excluded rest.
Proof. reflexivity. Qed.

(** The loop returns the flag of the last applicable mutation when the
    applicable mutations alternate, and aborts otherwise. *)
Lemma scan_mutations_spec muts q excluded present :
  scan_mutations muts q excluded present
  = if alternates present (applicable q excluded muts)
    then Ret 0 (last_added present (applicable q excluded muts))
    else Aborted.
Proof.
  revert present. induction muts as [|mut rest IH]; intros present.
  - reflexivity.
  - rewrite applicable_cons. cbn [scan_mutations]. unfold applies.
    destruct (Z.ltb_spec q (generation mut)) as [Hlt|Hge].
    + replace (generation mut <=? q) with false
        by (symmetry; apply Z.leb_gt; lia).
      cbn [andb]. apply IH.
    + replace (generation mut <=? q) with true
        by (symmetry; apply Z.leb_le; lia).
      cbn [andb].
      destruct (is_excluded_generation (generation mut) excluded);
        cbn [negb].
      * apply IH.
      * cbn [alternates]. rewrite last_added_cons.
        destruct present, (added mut); cbn; try reflexivity;
          rewrite IH; destruct (alternates _ _); reflexivity.
Qed.

(** C1, as amended: for an entry with a non-empty mutation list and a query
    generation outside every exclusion range, [is_element_of_generation]
    scans the list in insertion order, skips the mutations that are later
    than the query or excluded, and returns the [added] flag of the last
    applicable one (not a member when none applies) -- provided the
    applicable mutations alternate, starting with an addition.  When they
    do not, the call aborts on its consistency assertion. *)
Theorem is_element_of_generation_last_applicable
    (ee : ElementEntry) (q : Z) (excluded : list GenerationRange) :
  mutations ee ≠ [] ->
  is_excluded_generation q excluded = false ->
  is_element_of_generation ee q excluded
  = if alternates false (applicable q excluded (mutations ee))
    then Ret 0 (last_added false (applicable q excluded (mutations ee)))
    else Aborted.
Proof.
  intros Hne Hex. unfold is_element_of_generation.
  rewrite bool_decide_eq_false_2 by exact Hne.
  rewrite Hex. cbn. rewrite scan_mutations_spec.
  destruct (alternates _ _); reflexivity.
Qed.

Lemma is_element_of_generation_last_applicable_witness :
  is_element_of_generation
    {| element := {| element_type := 0; data := [] |}; element_hash := 7%N;
       mutations := [ {| generation := 0; added := true |};
                      {| generation := 4; added := false |};
                      {| generation := 2; added := false |};
                      {| generation := 9; added := true |} ];
       remote := false |}
    3 [ {| start := 4; range_end := 6 |} ]
  = Ret 0 false.
Proof.
  rewrite is_element_of_generation_last_applicable.
  - reflexivity.
  - discriminate.
  - reflexivity.
Defined.

(** C1, as stated, fails: an entry whose only mutation is a removal makes
    the test abort instead of answering "not a member". *)
Lemma membership_is_last_applicable_fails : ~ membership_is_last_applicable.
Proof.
  intros Hall.
  destruct (Hall {| element := {| element_type := 0; data := [] |};
                    element_hash := 7%N;
                    mutations := [ {| generation := 0; added := false |} ];
                    remote := false |} 0 []) as [n Hn].
  - discriminate.
  - reflexivity.
  - vm_compute in Hn. discriminate.
Qed.

(** C6, as amended: querying a generation inside an exclusion range is
    flagged by a soft break, which is logged, and the call then answers
    "not a member"; it is not fatal.  (For an entry without mutations the
    assertion on the mutation list aborts first.) *)
Theorem is_element_of_generation_excluded_query
    (ee : ElementEntry) (q : Z) (excluded : list GenerationRange) :
  is_excluded_generation q excluded = true ->
  is_element_of_generation ee q excluded
  = if bool_decide (mutations ee = []) then Aborted else Ret 1 false.
Proof.
  intros Hex. unfold is_element_of_generation. rewrite Hex.
  destruct (bool_decide (mutations ee = [])); reflexivity.
Qed.

Lemma is_element_of_generation_excluded_query_witness :
  is_element_of_generation
    {| element := {| element_type := 0; data := [] |}; element_hash := 7%N;
       mutations := [ {| generation := 0; added := true |} ];
       remote := false |}
    1 [ {| start := 1; range_end := 2 |} ]
  = Ret 1 false.
Proof.
  rewrite is_element_of_generation_excluded_query; reflexivity.
Defined.

(** C6, as stated, fails: with one addition at generation 0 and the range
    [1, 2) excluded, the query for generation 1 returns. *)
Lemma excluded_query_is_fatal_fails : ~ excluded_query_is_fatal.
Proof.
  intros Hall.
  specialize (Hall {| element := {| element_type := 0; data := [] |};
                      element_hash := 7%N;
                      mutations := [ {| generation := 0; added := true |} ];
                      remote := false |} 1 [ {| start := 1; range_end := 2 |} ]
                   eq_refl).
  vm_compute in Hall. discriminate.
Qed.

(** ** Taking monadic code apart *)

Lemma ret_Ret {A : Type} (a b : A) n : ret a = Ret n b -> a = b /\ n = 0%nat.
Proof. unfold ret. intros [= <- <-]. auto. Qed.

Lemma get_set_Ret p s n st :
  get_set p s = Ret n st -> set_heap s !! p = Some st /\ n = 0%nat.
Proof.
  unfold get_set. destruct (set_heap s !! p); [|discriminate].
  intros [-> ->]%ret_Ret. auto.
Qed.

Lemma get_content_Ret c s n ct :
  get_content c s = Ret n ct -> content_heap s !! c = Some ct /\ n = 0%nat.
Proof.
  unfold get_content. destruct (content_heap s !! c); [|discriminate].
  intros [-> ->]%ret_Ret. auto.
Qed.

Lemma assert_Ret c n u : GNUNET_assert c = Ret n u -> c = true /\ n = 0%nat.
Proof. destruct c; [|discriminate]. intros [_ ->]%ret_Ret. auto. Qed.

(** Take a hypothesis [H : code = Ret n x] apart along the structure of
    the code. *)
Ltac inv_step H :=
  lazymatch type of H with
  | Aborted = Ret _ _ => discriminate H
  | (_ ≫= _) = Ret _ _ =>
      let k := fresh "k" in let a := fresh "a" in let j := fresh "j" in
      let H1 := fresh "Hm" in let H2 := fresh "Hk" in
      apply bind_Ret in H as (k & a & j & H1 & H2 & ->);
      inv_step H1; inv_step H2
  | ret _ = Ret _ _ => apply ret_Ret in H as [<- ->]
  | Ret _ _ = Ret _ _ => injection H as <- <-
  | get_set _ _ = Ret _ _ => apply get_set_Ret in H as [H ->]
  | get_content _ _ = Ret _ _ => apply get_content_Ret in H as [H ->]
  | GNUNET_assert _ = Ret _ _ => apply assert_Ret in H as [H ->]
  | GNUNET_break _ = Ret _ _ => idtac
  | (if ?b then _ else _) = Ret _ _ =>
      let E := fresh "Hif" in destruct b eqn:E; inv_step H
  | (match ?x with _ => _ end) = Ret _ _ =>
      let E := fresh "Hmatch" in destruct x eqn:E; inv_step H
  | _ => idtac
  end.

(** ** Frames *)

Lemma wf_frame_refl s : wf s -> frame s s.
Proof.
  intros Hwf. unfold frame. split; [lia|]. split; [exact Hwf|].
  destruct Hwf as [Hs Hc]. repeat split.
  - intros p st' Hp _. exists st'. unfold same_generation. auto.
  - intros c ct' Hc' _. eauto.
  - intros c ct' Hc' Hle. apply Hc in Hc'. lia.
Qed.

Lemma frame_trans s1 s2 s3 : frame s1 s2 -> frame s2 s3 -> frame s1 s3.
Proof.
  intros (Hn1 & Hw1 & Hs1 & Hc1 & Hf1) (Hn2 & Hw2 & Hs2 & Hc2 & Hf2).
  unfold frame. split; [lia|]. split; [exact Hw2|]. repeat split.
  - intros p st3 Hp Hlt.
    destruct (Hs2 p st3 Hp) as (st2 & Hp2 & Hg2); [lia|].
    destruct (Hs1 p st2 Hp2 Hlt) as (st1 & Hp1 & Hg1).
    exists st1. split; [exact Hp1|].
    unfold same_generation in *. intuition congruence.
  - intros c ct3 Hc Hlt.
    destruct (Hc2 c ct3 Hc) as (ct2 & Hc2' & Hl2); [lia|].
    destruct (Hc1 c ct2 Hc2' Hlt) as (ct1 & Hc1' & Hl1).
    exists ct1. split; [exact Hc1'|congruence].
  - intros c ct3 Hc Hle.
    destruct (N.lt_ge_cases c (next_addr s2)) as [Hlt|Hge].
    + destruct (Hc2 c ct3 Hc Hlt) as (ct2 & Hc2' & Hl2).
      rewrite Hl2. eapply Hf1; eauto.
    + eapply Hf2; eauto.
Qed.

Lemma frame_wf s s' : frame s s' -> wf s'.
Proof. intros (_ & Hw & _). exact Hw. Qed.

Lemma frame_step_rel s s' : frame s s' -> step_rel s s'.
Proof.
  intros (Hn & Hw & Hs & Hc & Hf). unfold step_rel.
  split; [exact Hn|]. split; [exact Hw|]. repeat split.
  - intros p st' Hp Hlt. destruct (Hs p st' Hp Hlt) as (st & ? & ?). eauto.
  - intros c ct' Hc' Hlt. destruct (Hc c ct' Hc' Hlt) as (ct & ? & ?). eauto.
  - exact Hf.
Qed.

(** A state that differs from a well-formed one only in parts the frame
    does not look at, or by updates that keep the generation state. *)
Lemma frame_heaps s s' :
  wf s ->
  next_addr s' = next_addr s ->
  (forall p st', set_heap s' !! p = Some st' ->
     exists st, set_heap s !! p = Some st /\ same_generation st st') ->
  (forall c ct', content_heap s' !! c = Some ct' ->
     exists ct, content_heap s !! c = Some ct
                /\ latest_generation ct' = latest_generation ct) ->
  frame s s'.
Proof.
  intros [Hws Hwc] Hn Hs Hc. unfold frame, wf. rewrite Hn.
  split; [lia|]. repeat split.
  - intros p st' Hp. destruct (Hs p st' Hp) as (st & Hp' & _). eauto.
  - intros c ct' Hc'. destruct (Hc c ct' Hc') as (ct & Hc'' & _). eauto.
  - intros p st' Hp _. eauto.
  - intros c ct' Hc' _. eauto.
  - intros c ct' Hc' Hle. destruct (Hc c ct' Hc') as (ct & Hc'' & _).
    apply Hwc in Hc''. lia.
Qed.

Lemma same_generation_refl st : same_generation st st.
Proof. unfold same_generation. auto. Qed.

#[local] Hint Resolve same_generation_refl : core.

(** Solves the heap side conditions of [frame_heaps] for a state built
    from [s] by explicit updates. *)
Ltac heap_frame :=
  cbn; intros ? ? Hlook;
  repeat first
    [ rewrite lookup_insert in Hlook
    | rewrite lookup_delete in Hlook ];
  repeat (case_decide; simplify_eq);
  try discriminate; eauto;
  try (eexists; split; [eassumption|];
       unfold same_generation; cbn; auto).

Section ServiceFrames.
Context `{Collaborators}.

Lemma multihashmap_iterate_garbage entries gc :
  multihashmap_iterate_list garbage_collect_cb entries gc = gc.
Proof. induction entries as [|[k v] rest IH]; [reflexivity|exact IH]. Qed.

Lemma insert_same_content c ct s :
  content_heap s !! c = Some ct -> put_content c ct s = s.
Proof.
  intros Hc. unfold put_content, with_content_heap.
  rewrite insert_id by exact Hc. destruct s; reflexivity.
Qed.

Lemma with_elements_same ct : with_elements (elements ct) ct = ct.
Proof. destruct ct; reflexivity. Qed.

(** Garbage collection leaves the whole service as it is. *)
Lemma collect_generation_garbage_id p s n s' :
  collect_generation_garbage p s = Ret n s' -> s' = s /\ n = 0%nat.
Proof.
  unfold collect_generation_garbage. intros Hrun. inv_step Hrun.
  unfold GNUNET_CONTAINER_multihashmap_iterate.
  rewrite multihashmap_iterate_garbage. cbn.
  rewrite with_elements_same. split; [|reflexivity].
  now apply insert_same_content.
Qed.

Lemma operation_destroy_frame op gc s n s' :
  wf s -> _GSS_operation_destroy op gc s = Ret n s' -> frame s s'.
Proof.
  unfold _GSS_operation_destroy. intros Hwf Hrun. inv_step Hrun.
  - match goal with
    | Hgc : collect_generation_garbage _ _ = _ |- _ =>
        apply collect_generation_garbage_id in Hgc as [-> _]
    end.
    apply frame_heaps; [assumption|reflexivity|heap_frame|heap_frame].
  - apply frame_heaps; [assumption|reflexivity|heap_frame|heap_frame].
Qed.

End ServiceFrames.

Ltac frame_explicit :=
  apply frame_heaps; [assumption | reflexivity | heap_frame | heap_frame].

Section ServiceFrames2.
Context `{Collaborators}.

Lemma destroy_ops_frame fuel p s n s' :
  wf s -> destroy_ops fuel p s = Ret n s' -> frame s s'.
Proof.
  revert s n. induction fuel as [|fuel IH]; intros s n Hwf Hrun;
    cbn [destroy_ops] in Hrun; inv_step Hrun.
  - now apply wf_frame_refl.
  - now apply wf_frame_refl.
  - match goal with
    | Hd : _GSS_operation_destroy _ _ _ = _, Hr : destroy_ops _ _ _ = _ |- _ =>
        pose proof (operation_destroy_frame _ _ _ _ _ Hwf Hd) as Hf1;
        pose proof (IH _ _ (frame_wf _ _ Hf1) Hr) as Hf2
    end.
    eapply frame_trans; eassumption.
Qed.

Lemma set_destroy_dead_frame p s n s' :
  wf s -> set_destroy_dead p s = Ret n s' -> frame s s'.
Proof.
  unfold set_destroy_dead. intros Hwf Hrun. inv_step Hrun.
  match goal with
  | Hd : destroy_ops _ _ _ = _ |- _ =>
      pose proof (destroy_ops_frame _ _ _ _ _ Hwf Hd) as Hf1
  end.
  eapply frame_trans; [exact Hf1|].
  apply frame_wf in Hf1.
  destruct (uint _ =? 0); frame_explicit.
Qed.

Lemma handle_client_disconnect_frame client s n s' :
  wf s -> handle_client_disconnect client s = Ret n s' -> frame s s'.
Proof.
  unfold handle_client_disconnect. intros Hwf Hrun.
  apply bind_Ret in Hrun as (k & s1 & j & Hset & Hlis & ->).
  assert (frame s s1) as Hf1.
  { inv_step Hset; [|now apply wf_frame_refl].
    match goal with
    | Hd : set_destroy_dead _ _ = _ |- _ =>
        eapply frame_trans; [|eapply set_destroy_dead_frame; [|exact Hd]]
    end.
    - frame_explicit.
    - apply (frame_wf s). frame_explicit. }
  eapply frame_trans; [exact Hf1|]. apply frame_wf in Hf1.
  inv_step Hlis; [frame_explicit|now apply wf_frame_refl].
Qed.

Lemma emit_frame o s : wf s -> frame s (emit o s).
Proof. intros Hwf. frame_explicit. Qed.

Lemma client_disconnect_frame client s n s' :
  wf s -> GNUNET_SERVER_client_disconnect client s = Ret n s' -> frame s s'.
Proof.
  unfold GNUNET_SERVER_client_disconnect. intros Hwf Hrun.
  eapply frame_trans; [apply (emit_frame (Client_disconnect client)), Hwf|].
  eapply handle_client_disconnect_frame; [|exact Hrun].
  eapply frame_wf, emit_frame, Hwf.
Qed.

Lemma execute_add_frame p m s n s' :
  wf s -> execute_add p m s = Ret n s' -> frame s s'.
Proof.
  unfold execute_add, append_mutation. intros Hwf Hrun. inv_step Hrun;
    first [now apply wf_frame_refl | frame_explicit].
Qed.

Lemma execute_remove_frame p m s n s' :
  wf s -> execute_remove p m s = Ret n s' -> frame s s'.
Proof.
  unfold execute_remove, append_mutation. intros Hwf Hrun. inv_step Hrun;
    first [now apply wf_frame_refl | frame_explicit].
Qed.

Lemma execute_mutation_frame p m s n s' :
  wf s -> execute_mutation p m s = Ret n s' -> frame s s'.
Proof.
  unfold execute_mutation. intros Hwf Hrun.
  destruct (msg_type m).
  - eapply execute_add_frame; eassumption.
  - eapply execute_remove_frame; eassumption.
  - inv_step Hrun. now apply wf_frame_refl.
Qed.

Lemma flush_pending_frame pms c s n s' :
  wf s -> flush_pending pms c s = Ret n s' -> frame s s'.
Proof.
  revert s n. induction pms as [|pm rest IH]; intros s n Hwf Hrun;
    cbn [flush_pending] in Hrun; inv_step Hrun.
  - now apply wf_frame_refl.
  - match goal with
    | He : execute_mutation _ _ ?s0 = _, Hr : flush_pending _ _ _ = _ |- _ =>
        assert (frame s s0) as Hf0 by frame_explicit;
        pose proof (execute_mutation_frame _ _ _ _ _ (frame_wf _ _ Hf0) He)
          as Hf1;
        pose proof (IH _ _ (frame_wf _ _ Hf1) Hr) as Hf2
    end.
    eapply frame_trans; [exact Hf0|]. eapply frame_trans; eassumption.
Qed.

Lemma send_client_element_frame p s n s' :
  wf s -> send_client_element p s = Ret n s' -> frame s s'.
Proof.
  unfold send_client_element. intros Hwf Hrun. inv_step Hrun.
  - frame_explicit.
  - match goal with
    | Hr : flush_pending _ _ ?s0 = _ |- _ =>
        assert (frame s s0) as Hf0 by frame_explicit;
        pose proof (flush_pending_frame _ _ _ _ _ (frame_wf _ _ Hf0) Hr)
          as Hf1
    end.
    eapply frame_trans; [exact Hf0|]. eapply frame_trans; [exact Hf1|].
    apply emit_frame. eapply frame_wf; eassumption.
  - frame_explicit.
Qed.

End ServiceFrames2.

(** ** One event *)

Lemma frame_intro s s' :
  wf s ->
  (next_addr s <= next_addr s')%N ->
  (forall p st', set_heap s' !! p = Some st' ->
     (next_addr s <= p < next_addr s')%N
     \/ exists st, set_heap s !! p = Some st /\ same_generation st st') ->
  (forall c ct', content_heap s' !! c = Some ct' ->
     ((next_addr s <= c < next_addr s')%N /\ latest_generation ct' = 0)
     \/ exists ct, content_heap s !! c = Some ct
                   /\ latest_generation ct' = latest_generation ct) ->
  frame s s'.
Proof.
  intros [Hws Hwc] Hn Hs Hc. unfold frame, wf.
  split; [exact Hn|]. repeat split.
  - intros p st' Hp. destruct (Hs p st' Hp) as [?|(st & Hp' & _)]; [lia|].
    apply Hws in Hp'. lia.
  - intros c ct' Hc'. destruct (Hc c ct' Hc') as [[? _]|(ct & Hc'' & _)]; [lia|].
    apply Hwc in Hc''. lia.
  - intros p st' Hp Hlt. destruct (Hs p st' Hp) as [?|?]; [lia|assumption].
  - intros c ct' Hc' Hlt. destruct (Hc c ct' Hc') as [[? _]|?]; [lia|assumption].
  - intros c ct' Hc' Hle.
    destruct (Hc c ct' Hc') as [[_ ?]|(ct & Hc'' & _)]; [assumption|].
    apply Hwc in Hc''. lia.
Qed.

Lemma step_rel_intro s s' :
  wf s ->
  (next_addr s <= next_addr s')%N ->
  (forall p st', set_heap s' !! p = Some st' ->
     (next_addr s <= p < next_addr s')%N
     \/ exists st, set_heap s !! p = Some st
          /\ (same_generation st st'
              \/ exists ct, content_heap s !! content st = Some ct
                            /\ advanced (latest_generation ct) st st')) ->
  (forall c ct', content_heap s' !! c = Some ct' ->
     ((next_addr s <= c < next_addr s')%N /\ latest_generation ct' = 0)
     \/ exists ct, content_heap s !! c = Some ct
          /\ (latest_generation ct' = latest_generation ct
              \/ latest_generation ct' = uint (latest_generation ct + 1))) ->
  step_rel s s'.
Proof.
  intros [Hws Hwc] Hn Hs Hc. unfold step_rel, wf.
  split; [exact Hn|]. repeat split.
  - intros p st' Hp. destruct (Hs p st' Hp) as [?|(st & Hp' & _)]; [lia|].
    apply Hws in Hp'. lia.
  - intros c ct' Hc'. destruct (Hc c ct' Hc') as [[? _]|(ct & Hc'' & _)]; [lia|].
    apply Hwc in Hc''. lia.
  - intros p st' Hp Hlt. destruct (Hs p st' Hp) as [?|?]; [lia|assumption].
  - intros c ct' Hc' Hlt. destruct (Hc c ct' Hc') as [[? _]|?]; [lia|assumption].
  - intros c ct' Hc' Hle.
    destruct (Hc c ct' Hc') as [[_ ?]|(ct & Hc'' & _)]; [assumption|].
    apply Hwc in Hc''. lia.
Qed.

Section ServiceSteps.
Context `{Collaborators}.

(** What a successful [advance_generation] amounts to. *)
Lemma advance_generation_Ret p s n s' :
  advance_generation p s = Ret n s' ->
  exists st ct st',
    set_heap s !! p = Some st
    /\ content_heap s !! content st = Some ct
    /\ s' = put_set p st'
              (put_content (content st)
                 (with_latest_generation (uint (latest_generation ct + 1)) ct)
                 s)
    /\ n = 0%nat
    /\ advanced (latest_generation ct) st st'
    /\ ops st' = ops st /\ set_client st' = set_client st.
Proof.
  unfold advance_generation. intros Hrun. inv_step Hrun.
  - match goal with Heq : (_ =? _) = true |- _ => apply Z.eqb_eq in Heq end.
    do 3 eexists. split; [eassumption|]. split; [eassumption|].
    split; [reflexivity|]. split; [reflexivity|].
    split; [|split; reflexivity].
    unfold advanced. cbn. split; [reflexivity|]. split; [congruence|].
    left. auto.
  - match goal with Hlt : (_ <? _) = true |- _ => apply Z.ltb_lt in Hlt end.
    do 3 eexists. split; [eassumption|]. split; [eassumption|].
    split; [reflexivity|]. split; [reflexivity|].
    split; [|split; reflexivity].
    unfold advanced. cbn. split; [reflexivity|]. split; [reflexivity|].
    right. auto.
Qed.

Lemma incoming_suggest_heaps op l s n r :
  incoming_suggest op l s = Ret n r ->
  set_heap r.2 = set_heap s /\ content_heap r.2 = content_heap s
  /\ next_addr r.2 = next_addr s.
Proof.
  unfold incoming_suggest. intros Hrun. inv_step Hrun. cbn. auto.
Qed.

Lemma suggest_existing_heaps l todo s n r :
  suggest_existing l todo s = Ret n r ->
  set_heap r.2 = set_heap s /\ content_heap r.2 = content_heap s
  /\ next_addr r.2 = next_addr s.
Proof.
  revert s n r. induction todo as [|op rest IH]; intros s n r Hrun;
    cbn [suggest_existing] in Hrun.
  - inv_step Hrun. cbn. auto.
  - apply bind_Ret in Hrun as (k & r1 & j & H1 & H2 & ->).
    apply bind_Ret in H2 as (k2 & r2 & j2 & H2 & H3 & ->).
    inv_step H3. cbn.
    apply IH in H2 as (-> & -> & ->).
    destruct (listener_matches l op).
    + now apply incoming_suggest_heaps in H1.
    + inv_step H1. auto.
Qed.

Lemma same_heaps_frame s s' :
  wf s ->
  set_heap s' = set_heap s -> content_heap s' = content_heap s ->
  next_addr s' = next_addr s ->
  frame s s'.
Proof.
  intros Hwf Hs Hc Hn. apply frame_heaps; [assumption|assumption| |].
  - rewrite Hs. intros p st' Hp. exists st'.
    split; [exact Hp|apply same_generation_refl].
  - rewrite Hc. eauto.
Qed.

Ltac by_disconnect :=
  match goal with
  | Hd : GNUNET_SERVER_client_disconnect _ _ = _ |- _ =>
      eapply client_disconnect_frame; [|exact Hd]; assumption
  end.

Lemma handle_client_iterate_frame client s n s' :
  wf s -> handle_client_iterate client s = Ret n s' -> frame s s'.
Proof.
  unfold handle_client_iterate. intros Hwf Hrun. inv_step Hrun;
    try by_disconnect.
  match goal with
  | Hs : send_client_element _ ?s0 = _ |- _ =>
      assert (frame s s0) as Hf0 by frame_explicit;
      eapply frame_trans; [exact Hf0|];
      eapply send_client_element_frame; [|exact Hs];
      eapply frame_wf; exact Hf0
  end.
Qed.

Lemma handle_client_iter_ack_frame client send_more s n s' :
  wf s -> handle_client_iter_ack client send_more s = Ret n s' -> frame s s'.
Proof.
  unfold handle_client_iter_ack. intros Hwf Hrun. inv_step Hrun;
    try by_disconnect.
  - eapply send_client_element_frame; eassumption.
  - frame_explicit.
Qed.

Lemma handle_client_mutation_frame client m s n s' :
  wf s -> handle_client_mutation client m s = Ret n s' -> frame s s'.
Proof.
  unfold handle_client_mutation. intros Hwf Hrun. inv_step Hrun;
    try by_disconnect.
  - frame_explicit.
  - eapply execute_mutation_frame; eassumption.
Qed.

Lemma handle_client_cancel_frame client request_id s n s' :
  wf s -> handle_client_cancel client request_id s = Ret n s' -> frame s s'.
Proof.
  unfold handle_client_cancel. intros Hwf Hrun. inv_step Hrun;
    try by_disconnect.
  - eapply operation_destroy_frame; eassumption.
  - now apply wf_frame_refl.
Qed.

Lemma handle_client_copy_lazy_prepare_frame client s n s' :
  wf s -> handle_client_copy_lazy_prepare client s = Ret n s' -> frame s s'.
Proof.
  unfold handle_client_copy_lazy_prepare. intros Hwf Hrun. inv_step Hrun;
    try by_disconnect.
  frame_explicit.
Qed.

Lemma handle_client_listen_frame client o app s n s' :
  wf s -> handle_client_listen client o app s = Ret n s' -> frame s s'.
Proof.
  unfold handle_client_listen. intros Hwf Hrun. inv_step Hrun;
    try by_disconnect.
  match goal with
  | Hs : suggest_existing _ _ _ = _ |- _ =>
      apply suggest_existing_heaps in Hs as (Hs1 & Hs2 & Hs3)
  end.
  apply same_heaps_frame; [assumption| | |]; cbn; assumption.
Qed.

Lemma channel_new_cb_frame initiator port_ok s n s' :
  wf s -> channel_new_cb initiator port_ok s = Ret n s' -> frame s s'.
Proof.
  unfold channel_new_cb. intros Hwf Hrun. inv_step Hrun.
  - apply frame_intro; [assumption|cbn; lia| |]; cbn;
      eauto using same_generation_refl.
  - now apply wf_frame_refl.
Qed.

Lemma handle_incoming_msg_heaps op mh s n r :
  handle_incoming_msg op mh s = Ret n r ->
  set_heap r.2 = set_heap s /\ content_heap r.2 = content_heap s
  /\ next_addr r.2 = next_addr s.
Proof.
  unfold handle_incoming_msg. intros Hrun. inv_step Hrun; cbn; auto.
  match goal with
  | Hs : incoming_suggest _ _ _ = _ |- _ =>
      apply incoming_suggest_heaps in Hs
  end.
  assumption.
Qed.

Lemma dispatch_p2p_message_frame a mh s n s' :
  wf s -> dispatch_p2p_message a mh s = Ret n s' -> frame s s'.
Proof.
  unfold dispatch_p2p_message, incoming_destroy. intros Hwf Hrun.
  inv_step Hrun; try now apply wf_frame_refl.
  all: match goal with
       | Hs : handle_incoming_msg _ _ _ = _ |- _ =>
           apply handle_incoming_msg_heaps in Hs as (Hs1 & Hs2 & Hs3)
       end.
  all: apply same_heaps_frame; [assumption| | |]; cbn; assumption.
Qed.

Lemma handle_client_create_set_frame client o s n s' :
  wf s -> handle_client_create_set client o s = Ret n s' -> frame s s'.
Proof.
  unfold handle_client_create_set. intros Hwf Hrun. inv_step Hrun;
    try by_disconnect.
  apply frame_intro; [assumption|cbn; lia| |].
  - cbn. intros q st' Hq. rewrite lookup_insert in Hq.
    case_decide; simplify_eq;
      [left; lia|right; eauto using same_generation_refl].
  - cbn. intros c ct' Hc. rewrite lookup_insert in Hc.
    case_decide; simplify_eq; [left; cbn; split; [lia|reflexivity]|right; eauto].
Qed.

End ServiceSteps.

Section ServiceAdvance.
Context `{Collaborators}.

Ltac by_disconnect_rel :=
  match goal with
  | Hd : GNUNET_SERVER_client_disconnect _ _ = _ |- _ =>
      apply frame_step_rel;
      eapply client_disconnect_frame; [|exact Hd]; assumption
  end.

Lemma handle_client_evaluate_step_rel client app target mode rid s n s' :
  wf s ->
  handle_client_evaluate client app target mode rid s = Ret n s' ->
  step_rel s s'.
Proof.
  unfold handle_client_evaluate. intros Hwf Hrun. inv_step Hrun;
    try by_disconnect_rel.
  match goal with
  | Ha : advance_generation _ _ = _ |- _ =>
      apply advance_generation_Ret in Ha
        as (st & ct & st' & Hst & Hct & -> & _ & Hadv & _)
  end.
  match goal with
  | Hg : set_heap (put_set _ _ _) !! _ = Some _ |- _ =>
      cbn in Hg; rewrite lookup_insert_eq in Hg; injection Hg as <-
  end.
  apply step_rel_intro; [assumption|cbn; lia| |].
  - cbn. intros q st2 Hq. right.
    rewrite lookup_insert in Hq. case_decide; simplify_eq.
    + eexists. split; [eassumption|]. right. eexists. split; [eassumption|].
      exact Hadv.
    + rewrite lookup_insert_ne in Hq by assumption.
      eauto using same_generation_refl.
  - cbn. intros c ct2 Hc. right.
    rewrite lookup_insert in Hc. case_decide; simplify_eq; eauto.
Qed.

Lemma handle_client_accept_step_rel client id rid mode s n s' :
  wf s ->
  handle_client_accept client id rid mode s = Ret n s' ->
  step_rel s s'.
Proof.
  unfold handle_client_accept. intros Hwf Hrun. inv_step Hrun;
    try by_disconnect_rel.
  - match goal with
    | Ha : advance_generation _ _ = _ |- _ =>
        apply advance_generation_Ret in Ha
          as (st & ct & st' & Hst & Hct & -> & _ & Hadv & _)
    end.
    cbn in Hst, Hct. rewrite lookup_insert_eq in Hst. injection Hst as <-.
    cbn in Hct, Hadv.
    apply step_rel_intro; [assumption|cbn; lia| |].
    + cbn. intros q st2 Hq. right.
      rewrite lookup_insert in Hq. case_decide; simplify_eq.
      * eexists. split; [eassumption|]. right. eexists.
        split; [eassumption|]. exact Hadv.
      * rewrite lookup_insert_ne in Hq by assumption.
        eauto using same_generation_refl.
    + cbn. intros c ct2 Hc. right.
      rewrite lookup_insert in Hc. case_decide; simplify_eq; eauto.
  - apply frame_step_rel. frame_explicit.
Qed.

Lemma handle_client_copy_lazy_connect_step_rel client k s n s' :
  wf s ->
  handle_client_copy_lazy_connect client k s = Ret n s' ->
  step_rel s s'.
Proof.
  unfold handle_client_copy_lazy_connect. intros Hwf Hrun. inv_step Hrun;
    try by_disconnect_rel.
  - match goal with
    | Ha : advance_generation _ _ = _ |- _ =>
        apply advance_generation_Ret in Ha
          as (st & ct & st' & Hst & Hct & -> & _ & Hadv & _)
    end.
    cbn in Hst, Hct. rewrite lookup_insert_eq in Hst. injection Hst as <-.
    cbn in Hct, Hadv. rewrite lookup_insert_eq in Hct. injection Hct as <-.
    match goal with
    | Hg : set_heap (put_set _ _ _) !! _ = Some _ |- _ =>
        cbn in Hg; rewrite lookup_insert_eq in Hg; injection Hg as <-
    end.
    cbn.
    apply step_rel_intro; [assumption|cbn; lia| |].
    + cbn. intros q st2 Hq.
      rewrite lookup_insert in Hq. case_decide; simplify_eq; [left; lia|].
      rewrite !lookup_insert_ne in Hq by assumption.
      right. eauto using same_generation_refl.
    + cbn. intros c ct2 Hc. right.
      rewrite lookup_insert in Hc. case_decide; simplify_eq.
      * eexists. split; [eassumption|]. right. reflexivity.
      * rewrite lookup_insert_ne in Hc by assumption. eauto.
  - match goal with
    | Hd : GNUNET_SERVER_client_disconnect _ ?s0 = _ |- _ =>
        assert (frame s s0) as Hf0 by frame_explicit;
        apply frame_step_rel; eapply frame_trans; [exact Hf0|];
        eapply client_disconnect_frame; [|exact Hd];
        eapply frame_wf; exact Hf0
    end.
Qed.

(** Every event relates the states before and after it by [step_rel]. *)
Lemma step_step_rel e s n s' :
  wf s -> step e s = Ret n s' -> step_rel s s'.
Proof.
  intros Hwf Hrun. destruct e; cbn [step] in Hrun.
  - eapply frame_step_rel, handle_client_create_set_frame; eassumption.
  - eapply frame_step_rel, handle_client_mutation_frame; eassumption.
  - eapply frame_step_rel, handle_client_iterate_frame; eassumption.
  - eapply frame_step_rel, handle_client_iter_ack_frame; eassumption.
  - eapply handle_client_evaluate_step_rel; eassumption.
  - eapply handle_client_accept_step_rel; eassumption.
  - eapply frame_step_rel, handle_client_cancel_frame; eassumption.
  - eapply frame_step_rel, handle_client_copy_lazy_prepare_frame; eassumption.
  - eapply handle_client_copy_lazy_connect_step_rel; eassumption.
  - eapply frame_step_rel, handle_client_listen_frame; eassumption.
  - eapply frame_step_rel, handle_client_disconnect_frame; eassumption.
  - eapply frame_step_rel, channel_new_cb_frame; eassumption.
  - eapply frame_step_rel, dispatch_p2p_message_frame; eassumption.
Qed.

End ServiceAdvance.

(** ** Runs *)

Lemma uint_succ z : 0 <= z < UINT_MAX -> uint (z + 1) = z + 1.
Proof. intros Hz. unfold uint, UINT_MAX in *. apply Z.mod_small. lia. Qed.

Lemma advanced_increases latest st st' :
  0 <= latest < UINT_MAX ->
  advanced latest st st' ->
  current_generation st < current_generation st'.
Proof.
  intros Hl (_ & Hcur & Hcases). rewrite Hcur, uint_succ by exact Hl.
  destruct Hcases as [[-> _]|[Hlt _]]; lia.
Qed.

Lemma step_rel_headroom k s s' :
  0 <= k -> headroom (k + 1) s -> step_rel s s' -> headroom k s'.
Proof.
  intros Hk [Hrange Hroom] (Hn & _ & _ & Hold & Hnew). split; [lia|].
  intros c ct' Hc.
  destruct (N.lt_ge_cases c (next_addr s)) as [Hlt|Hge].
  - destruct (Hold c ct' Hc Hlt) as (ct & Hc0 & Hl).
    destruct (Hroom c ct Hc0) as [H0 H1].
    destruct Hl as [->| ->]; [lia|].
    rewrite uint_succ by lia. lia.
  - rewrite (Hnew c ct' Hc Hge). lia.
Qed.

Section ServiceRuns.
Context `{Collaborators}.

Lemma run_cons e evs s n s' :
  run (e :: evs) s = Ret n s' ->
  exists k s1 j, step e s = Ret k s1 /\ run evs s1 = Ret j s'.
Proof.
  cbn [run]. intros Hrun.
  apply bind_Ret in Hrun as (k & s1 & j & H1 & H2 & _). eauto.
Qed.

(** A set found after a run at an address that was already handed out
    before the run was there all along. *)
Lemma run_alive evs s n s' p st' :
  wf s -> run evs s = Ret n s' ->
  (p < next_addr s)%N -> set_heap s' !! p = Some st' ->
  exists st, set_heap s !! p = Some st.
Proof.
  revert s n. induction evs as [|e rest IH]; intros s n Hwf Hrun Hp Hst'.
  - cbn in Hrun. apply ret_Ret in Hrun as [-> _]. eauto.
  - apply run_cons in Hrun as (k & s1 & j & Hstep & Hrest).
    pose proof (step_step_rel _ _ _ _ Hwf Hstep) as (Hn & Hwf1 & Hsets & _).
    destruct (IH s1 j Hwf1 Hrest) as (st1 & Hst1); [lia|assumption|].
    destruct (Hsets p st1 Hst1 Hp) as (st & Hst & _). eauto.
Qed.

(** From a well-formed state with enough headroom, the generation of a
    set does not decrease along a run. *)
Lemma current_generation_monotone_from
    (evs : list Event) (s s' : Service) (n : nat) (p : ptr)
    (st st' : GSS_Set) :
  wf s ->
  headroom (Z.of_nat (length evs)) s ->
  run evs s = Ret n s' ->
  set_heap s !! p = Some st ->
  set_heap s' !! p = Some st' ->
  current_generation st <= current_generation st'.
Proof.
  revert s n st. induction evs as [|e rest IH];
    intros s n st Hwf Hroom Hrun Hst Hst'.
  - cbn in Hrun. apply ret_Ret in Hrun as [-> _].
    rewrite Hst in Hst'. injection Hst' as <-. lia.
  - apply run_cons in Hrun as (k & s1 & j & Hstep & Hrest).
    pose proof (step_step_rel _ _ _ _ Hwf Hstep) as Hrel.
    assert (headroom (Z.of_nat (length rest)) s1) as Hroom1.
    { eapply step_rel_headroom; [lia| |exact Hrel].
      replace (Z.of_nat (length rest) + 1)
        with (Z.of_nat (length (e :: rest))) by (cbn [length]; lia).
      exact Hroom. }
    destruct Hrel as (Hn & Hwf1 & Hsets & _).
    assert (p < next_addr s)%N as Hp by (destruct Hwf as [Hw _]; eauto).
    destruct (run_alive rest s1 j s' p st' Hwf1 Hrest) as (st1 & Hst1);
      [lia|assumption|].
    destruct (Hsets p st1 Hst1 Hp) as (st0 & Hst0 & Hgen).
    rewrite Hst in Hst0. injection Hst0 as <-.
    transitivity (current_generation st1);
      [|eapply IH; eassumption].
    destruct Hgen as [(_ & Hcur & _)|(ct & Hct & Hadv)];
      [rewrite Hcur; reflexivity|].
    destruct Hroom as [_ Hroom]. destruct (Hroom _ _ Hct) as [H0 H1].
    cbn [length] in H1.
    apply Z.lt_le_incl. eapply advanced_increases; [|exact Hadv]. lia.
Qed.

(** A run uses up one unit of headroom per event and keeps the state
    well-formed. *)
Lemma run_headroom evs k s n s' :
  0 <= k -> wf s -> headroom (k + Z.of_nat (length evs)) s ->
  run evs s = Ret n s' ->
  wf s' /\ headroom k s'.
Proof.
  revert s n. induction evs as [|e rest IH]; intros s n Hk Hwf Hroom Hrun.
  - cbn in Hrun. apply ret_Ret in Hrun as [-> _].
    cbn [length] in Hroom. replace (k + Z.of_nat 0) with k in Hroom by lia.
    auto.
  - apply run_cons in Hrun as (j & s1 & i & Hstep & Hrest).
    pose proof (step_step_rel _ _ _ _ Hwf Hstep) as Hrel.
    apply (IH s1 i Hk); [exact (proj1 (proj2 Hrel))| |exact Hrest].
    eapply step_rel_headroom; [lia| |exact Hrel].
    replace (k + Z.of_nat (length rest) + 1)
      with (k + Z.of_nat (length (e :: rest))) by (cbn [length]; lia).
    exact Hroom.
Qed.

(** C8, as amended: along every sequence of events from the start of the
    service, the generation of a set never decreases between two points of
    the sequence, as long as the sequence has at most [UINT_MAX] events:
    an event advances a store by one generation at most, so no generation
    reaches the end of the 32-bit range. *)
Theorem current_generation_monotone
    (evs1 evs2 : list Event) (n1 n2 : nat) (s s' : Service) (p : ptr)
    (st st' : GSS_Set) :
  Z.of_nat (length evs1 + length evs2) <= UINT_MAX ->
  run evs1 initial_service = Ret n1 s ->
  run evs2 s = Ret n2 s' ->
  set_heap s !! p = Some st ->
  set_heap s' !! p = Some st' ->
  current_generation st <= current_generation st'.
Proof.
  intros Hlen Hrun1 Hrun2 Hst Hst'.
  assert (wf initial_service) as Hwf0
    by (split; cbn; intros q x Hq; now rewrite lookup_empty in Hq).
  assert (headroom (Z.of_nat (length evs2) + Z.of_nat (length evs1))
                   initial_service) as Hroom0.
  { split; [lia|]. cbn. intros c ct Hc. now rewrite lookup_empty in Hc. }
  destruct (run_headroom evs1 (Z.of_nat (length evs2)) _ _ _
              ltac:(lia) Hwf0 Hroom0 Hrun1)
    as [Hwf Hroom].
  eapply current_generation_monotone_from; eassumption.
Qed.

End ServiceRuns.

(** ** Advancing the generation *)

Section ServiceGenerations.
Context `{Collaborators}.

(** C4, as amended: [advance_generation] on a set level with its store
    moves the generation of both to the next one and adds no exclusion
    range; on a set behind its store it appends the range from the set's
    generation plus one up to (excluding) the next generation of the store
    and moves both to that generation.  The next generation is the store's
    latest plus one, except at the last generation of [unsigned int],
    where it is 0: there the range appended ends at 0 and excludes no
    generation at all. *)
Theorem advance_generation_spec
    (p : ptr) (s : Service) (st : GSS_Set) (ct : SetContent) :
  set_heap s !! p = Some st ->
  content_heap s !! content st = Some ct ->
  0 <= current_generation st ->
  latest_generation ct <= UINT_MAX ->
  let next :=
    if latest_generation ct =? UINT_MAX then 0
    else latest_generation ct + 1 in
  (current_generation st = latest_generation ct ->
   exists s' st' ct',
     advance_generation p s = Ret 0 s'
     /\ set_heap s' !! p = Some st'
     /\ content_heap s' !! content st = Some ct'
     /\ current_generation st' = next
     /\ latest_generation ct' = next
     /\ excluded_generations st' = excluded_generations st)
  /\ (current_generation st < latest_generation ct ->
      exists s' st' ct',
        advance_generation p s = Ret 0 s'
        /\ set_heap s' !! p = Some st'
        /\ content_heap s' !! content st = Some ct'
        /\ excluded_generations st'
           = excluded_generations st
             ++ [ {| start := current_generation st + 1;
                     range_end := next |} ]
        /\ current_generation st' = next
        /\ latest_generation ct' = next
        /\ (latest_generation ct = UINT_MAX ->
            forall g,
              is_excluded_generation
                g [ {| start := current_generation st + 1;
                       range_end := next |} ] = false)).
Proof.
  intros Hst Hct H0 Hmax next.
  assert (0 <= latest_generation ct ->
          uint (latest_generation ct + 1) = next) as Hnext.
  { intros Hl. unfold next. destruct (Z.eqb_spec (latest_generation ct) UINT_MAX)
      as [->|Hne]; [reflexivity|].
    unfold uint, UINT_MAX in *. apply Z.mod_small. lia. }
  unfold advance_generation, get_set, get_content.
  rewrite Hst. cbn. rewrite Hct. cbn. split.
  - intros Heq. rewrite Heq, Z.eqb_refl. do 3 eexists.
    split; [reflexivity|]. cbn. rewrite !lookup_insert_eq.
    split; [reflexivity|]. split; [reflexivity|]. cbn.
    rewrite Hnext by lia. auto.
  - intros Hlt.
    replace (current_generation st =? latest_generation ct) with false
      by (symmetry; apply Z.eqb_neq; lia).
    replace (current_generation st <? latest_generation ct) with true
      by (symmetry; apply Z.ltb_lt; lia).
    assert (uint (current_generation st + 1) = current_generation st + 1)
      as Hstart
      by (unfold uint, UINT_MAX in *; apply Z.mod_small; lia).
    cbn. do 3 eexists.
    split; [reflexivity|]. cbn. rewrite !lookup_insert_eq.
    split; [reflexivity|]. split; [reflexivity|]. cbn.
    rewrite Hnext, Hstart by lia. split; [reflexivity|].
    split; [reflexivity|]. split; [reflexivity|].
    intros Hlast g. unfold next. rewrite Hlast, Z.eqb_refl.
    cbn. unfold in_range. cbn. rewrite orb_false_r.
    destruct (Z.leb_spec (current_generation st + 1) g) as [Hle|Hgt];
      [|reflexivity].
    cbn. apply Z.ltb_ge. lia.
Qed.

(** A set that is ahead of its store trips the assertion. *)
Lemma advance_generation_ahead p s st ct :
  set_heap s !! p = Some st ->
  content_heap s !! content st = Some ct ->
  latest_generation ct < current_generation st ->
  advance_generation p s = Aborted.
Proof.
  intros Hst Hct Hlt. unfold advance_generation, get_set, get_content.
  rewrite Hst. cbn. rewrite Hct. cbn.
  replace (current_generation st =? latest_generation ct) with false
    by (symmetry; apply Z.eqb_neq; lia).
  replace (current_generation st <? latest_generation ct) with false
    by (symmetry; apply Z.ltb_ge; lia).
  reflexivity.
Qed.

(** ** Mutations and the generation *)

Lemma execute_mutation_sets p m s n s' q st :
  execute_mutation p m s = Ret n s' ->
  set_heap s !! q = Some st ->
  exists st', set_heap s' !! q = Some st' /\ same_generation st st'
              /\ ops st' = ops st.
Proof.
  unfold execute_mutation, execute_add, execute_remove, append_mutation.
  intros Hrun Hq.
  destruct (msg_type m); inv_step Hrun;
    eauto using same_generation_refl.
  all: cbn; rewrite lookup_insert; destruct (decide (p = q)) as [<-|Hne];
    eauto using same_generation_refl.
  all: match goal with
       | Hp : set_heap _ !! _ = Some ?x |- context [with_state _ ?x] =>
           pose proof (eq_trans (eq_sym Hq) Hp) as Heq; injection Heq as ->
       end.
  all: eexists; split; [reflexivity|]; split;
    [unfold same_generation; cbn; auto|reflexivity].
Qed.

Lemma handle_client_copy_lazy_connect_sets client k s n s' p st' :
  wf s ->
  handle_client_copy_lazy_connect client k s = Ret n s' ->
  set_heap s' !! p = Some st' -> (p < next_addr s)%N ->
  exists st, set_heap s !! p = Some st /\ same_generation st st'.
Proof.
  unfold handle_client_copy_lazy_connect. intros Hwf Hrun Hp Hlt.
  inv_step Hrun.
  all: try match goal with
    | Hd : GNUNET_SERVER_client_disconnect _ ?s0 = _ |- _ =>
        assert (frame s s0) as Hf0 by frame_explicit;
        pose proof (client_disconnect_frame _ _ _ _ (frame_wf _ _ Hf0) Hd)
          as Hf1;
        destruct (frame_trans _ _ _ Hf0 Hf1) as (_ & _ & Hsets & _);
        exact (Hsets p st' Hp Hlt)
    end.
  match goal with
  | Ha : advance_generation _ _ = _ |- _ =>
      apply advance_generation_Ret in Ha
        as (st & ct & st2 & Hst & Hct & -> & _ & Hadv & _)
  end.
  cbn in Hp. rewrite lookup_insert in Hp. case_decide; [subst; cbn in Hlt; lia|].
  rewrite !lookup_insert_ne in Hp by assumption.
  eauto using same_generation_refl.
Qed.

Lemma wf_service_at g : wf (service_at g).
Proof.
  split; cbn; intros q x Hq; apply lookup_singleton_Some in Hq as [<- _]; lia.
Qed.

(** C9, as stated, fails: adding Y to Alice's set at generation 0 leaves
    the set at generation 0. *)
Lemma mutation_advances_generation_fails : ~ mutation_advances_generation.
Proof.
  intros Hall.
  edestruct (Hall test_collaborators
               [ EvCreateSet alice GNUNET_SET_OPERATION_UNION;
                 EvMutation alice (add_message elt_X) ]
               0%nat (service_at 0) 1%N (add_message elt_Y))
    as (st' & Hst' & Hcur).
  - vm_compute. reflexivity.
  - reflexivity.
  - vm_compute. reflexivity.
  - vm_compute in Hst'. injection Hst' as <-. discriminate Hcur.
Qed.

(** ** Garbage collection *)

Lemma collect_generation_garbage_total p s st ct :
  set_heap s !! p = Some st ->
  content_heap s !! content st = Some ct ->
  collect_generation_garbage p s = Ret 0 s.
Proof.
  intros Hst Hct. unfold collect_generation_garbage, get_set, get_content.
  rewrite Hst. cbn. rewrite Hct. cbn.
  unfold GNUNET_CONTAINER_multihashmap_iterate.
  rewrite multihashmap_iterate_garbage. cbn.
  rewrite with_elements_same, insert_same_content by exact Hct. reflexivity.
Qed.

(** C10: destroying an operation with garbage collection enabled removes
    no element and no mutation event -- every store is left as it is --
    and every operation reports the same membership for every element
    before and after. *)
Theorem garbage_collection_keeps_views
    (op : Operation) (s : Service) (n : nat) (s' : Service) :
  _GSS_operation_destroy op true s = Ret n s' ->
  content_heap s' = content_heap s
  /\ forall (ee : ElementEntry) (op' : Operation),
       _GSS_is_element_of_operation ee op' s'
       = _GSS_is_element_of_operation ee op' s.
Proof.
  unfold _GSS_operation_destroy. intros Hrun. inv_step Hrun.
  match goal with
  | Hgc : collect_generation_garbage _ _ = _ |- _ =>
      apply collect_generation_garbage_id in Hgc as [-> _]
  end.
  split; [reflexivity|].
  intros ee op'. unfold _GSS_is_element_of_operation, get_set.
  destruct (spec op') as [sp'|]; [|reflexivity].
  destruct (spec_set sp') as [q|]; [|reflexivity].
  cbn. rewrite lookup_insert. case_decide; [subst|reflexivity].
  match goal with Hst : set_heap s !! _ = Some _ |- _ => rewrite Hst end.
  reflexivity.
Qed.

End ServiceGenerations.

(** ** Operations and later mutations *)

Lemma scan_mutations_later extra q excluded present :
  Forall (fun mut => q < generation mut) extra ->
  scan_mutations extra q excluded present = ret present.
Proof.
  induction 1 as [|mut rest Hmut _ IH]; [reflexivity|].
  cbn [scan_mutations].
  replace (q <? generation mut) with true by (symmetry; apply Z.ltb_lt; lia).
  exact IH.
Qed.

Lemma scan_mutations_app muts extra q excluded present :
  Forall (fun mut => q < generation mut) extra ->
  scan_mutations (muts ++ extra) q excluded present
  = scan_mutations muts q excluded present.
Proof.
  intros Hextra. revert present.
  induction muts as [|mut rest IH]; intros present.
  - now apply scan_mutations_later.
  - cbn [app scan_mutations].
    destruct (q <? generation mut); [apply IH|].
    destruct (is_excluded_generation (generation mut) excluded); [apply IH|].
    rewrite IH. reflexivity.
Qed.

(** Mutations appended at later generations do not change the answer of
    the membership test. *)
Lemma is_element_of_generation_app ee ee' q excluded extra :
  mutations ee ≠ [] ->
  mutations ee' = mutations ee ++ extra ->
  Forall (fun mut => q < generation mut) extra ->
  is_element_of_generation ee' q excluded
  = is_element_of_generation ee q excluded.
Proof.
  intros Hne Happ Hextra. unfold is_element_of_generation.
  rewrite Happ.
  rewrite !bool_decide_eq_false_2;
    [|exact Hne|intros [? _]%app_eq_nil; contradiction].
  destruct (is_excluded_generation q excluded); [reflexivity|].
  cbn. now rewrite scan_mutations_app.
Qed.

Section ServicePinning.
Context `{Collaborators}.



End ServicePinning.

(** ** A second set for the same client *)

Lemma with_ops_nil_id st : ops st = [] -> with_ops [] st = st.
Proof. destruct st; cbn; intros ->; reflexivity. Qed.

Lemma put_set_same p st s : set_heap s !! p = Some st -> put_set p st s = s.
Proof.
  intros Hp. unfold put_set, with_set_heap.
  rewrite insert_id by exact Hp. destruct s; reflexivity.
Qed.

Lemma put_set_put_set p st1 st2 s :
  put_set p st2 (put_set p st1 s) = put_set p st2 s.
Proof. unfold put_set, with_set_heap. cbn. now rewrite insert_insert_eq. Qed.

Lemma bound_to_filter p (P : Operation -> Prop) `{!forall o, Decision (P o)}
    (l : list Operation) :
  bound_to p l -> bound_to p (filter P l).
Proof.
  unfold bound_to. rewrite !Forall_forall.
  intros Hall op [_ Hin]%list_elem_of_filter. auto.
Qed.

Lemma get_set_Some p s st : set_heap s !! p = Some st -> get_set p s = Ret 0 st.
Proof. unfold get_set. now intros ->. Qed.

Lemma get_content_Some c s ct :
  content_heap s !! c = Some ct -> get_content c s = Ret 0 ct.
Proof. unfold get_content. now intros ->. Qed.

Section ServiceDuplicates.
Context `{Collaborators}.

(** With every operation bound to the set, the loop over the operations
    ends within its fuel and leaves the set without operations. *)
Lemma destroy_ops_bound fuel p s st :
  set_heap s !! p = Some st ->
  bound_to p (ops st) ->
  (length (ops st) <= fuel)%nat ->
  destroy_ops fuel p s = Ret 0 (put_set p (with_ops [] st) s).
Proof.
  revert s st. induction fuel as [|fuel IH]; intros s st Hst Hbound Hlen;
    cbn [destroy_ops]; unfold get_set; rewrite Hst; cbn.
  - destruct (ops st) eqn:Hops; [|cbn in Hlen; lia].
    rewrite with_ops_nil_id, put_set_same by assumption. reflexivity.
  - destruct (ops st) as [|op l] eqn:Hops.
    { rewrite with_ops_nil_id, put_set_same by assumption. reflexivity. }
    pose proof Hbound as Hb. apply Forall_cons in Hb as [(Hin & sp & Hsp & Hset) _].
    unfold _GSS_operation_destroy, get_set. rewrite Hin, Hsp, Hset, Hst. cbn.
    rewrite Hops.
    rewrite filter_cons_False by (intros Hne; now apply Hne).
    erewrite IH; cycle 1.
    + cbn. apply lookup_insert_eq.
    + cbn. apply bound_to_filter. now apply Forall_cons in Hbound as [_ ?].
    + cbn. cbn in Hlen. pose proof (length_filter
        (fun o => op_addr o ≠ op_addr op) l). lia.
    + cbn. rewrite put_set_put_set. reflexivity.
Qed.

Lemma handle_client_disconnect_owner client p st ct s :
  set_get client s = Some p ->
  set_heap s !! p = Some st ->
  content_heap s !! content st = Some ct ->
  refcount ct ≠ 0 ->
  bound_to p (ops st) ->
  handle_client_disconnect client s = Ret 0 (without_set client p st ct s).
Proof.
  intros Hget Hst Hct Hrc Hbound.
  unfold handle_client_disconnect. rewrite Hget.
  rewrite (get_set_Some _ _ _ Hst). cbn [mbind outcome_bind bind ret].
  unfold set_destroy_dead.
  assert (set_heap (put_set p (with_set_client None st) s) !! p
          = Some (with_set_client None st)) as Hst0
    by (cbn; apply lookup_insert_eq).
  rewrite (get_set_Some _ _ _ Hst0). cbn [mbind outcome_bind bind ret].
  rewrite (destroy_ops_bound _ p _ _ Hst0 Hbound (Nat.le_refl _)).
  cbn [mbind outcome_bind bind ret].
  rewrite put_set_put_set.
  erewrite get_set_Some by (cbn; apply lookup_insert_eq).
  cbn [mbind outcome_bind bind ret].
  erewrite get_content_Some by (cbn; exact Hct).
  cbn [mbind outcome_bind bind ret].
  unfold GNUNET_assert. cbn [refcount with_pending_mutations].
  destruct (refcount ct =? 0) eqn:Hz; [apply Z.eqb_eq in Hz; contradiction|].
  cbn [negb mbind outcome_bind bind ret]. unfold without_set.
  cbn -[listener_get uint Z.eqb].
  destruct (uint (refcount ct - 1) =? 0);
    match goal with
    | |- context [listener_get client ?s5] =>
        destruct (listener_get client s5); reflexivity
    end.
Qed.

End ServiceDuplicates.

Section ServiceSecondSet.
Context `{Collaborators}.

Lemma without_set_facts client p st ct s :
  let s' := without_set client p st ct s in
  set_heap s' !! p = None
  /\ (p ∉ sets s')
  /\ (forall q, q ∈ sets s' -> q ∈ sets s)
  /\ (forall q, q ≠ p -> set_heap s' !! q = set_heap s !! q)
  /\ out s' = out s.
Proof.
  unfold without_set. cbv zeta.
  match goal with
  | |- context [listener_get client ?s5] => destruct (listener_get client s5)
  end;
    destruct (uint (refcount ct - 1) =? 0); cbn.
  all: split; [apply lookup_delete_eq|].
  all: split; [intros [Hne _]%list_elem_of_filter; now apply Hne|].
  all: split; [intros q [_ Hin]%list_elem_of_filter; exact Hin|].
  all: split; [|reflexivity].
  all: intros q Hne; rewrite lookup_delete_ne, lookup_insert_ne by auto;
    reflexivity.
Qed.

(** C7, as amended: a CreateSet or CopyLazyConnect request from a client
    that already owns a set is answered with a soft break and by dropping
    the client's connection -- no error message is queued and no set is
    created -- and the disconnect handler then destroys the set the client
    had: it is unlinked from the list of sets and freed.  The other sets
    are left alone. *)
Theorem second_set_request_drops_client
    (client : Client) (o : OperationType) (k : Z) (s : Service)
    (p : ptr) (st : GSS_Set) (ct : SetContent) :
  set_get client s = Some p ->
  set_heap s !! p = Some st ->
  content_heap s !! content st = Some ct ->
  refcount ct ≠ 0 ->
  bound_to p (ops st) ->
  exists s',
    handle_client_create_set client o s = Ret 1 s'
    /\ handle_client_copy_lazy_connect client k s = Ret 1 s'
    /\ set_heap s' !! p = None
    /\ (p ∉ sets s')
    /\ (forall q, q ∈ sets s' -> q ∈ sets s)
    /\ (forall q, q ≠ p -> set_heap s' !! q = set_heap s !! q)
    /\ out s' = out s ++ [Client_disconnect client].
Proof.
  intros Hget Hst Hct Hrc Hbound.
  exists (without_set client p st ct (emit (Client_disconnect client) s)).
  assert (GNUNET_SERVER_client_disconnect client s
          = Ret 0 (without_set client p st ct
                     (emit (Client_disconnect client) s))) as Hdis.
  { unfold GNUNET_SERVER_client_disconnect.
    now apply handle_client_disconnect_owner. }
  split.
  { unfold handle_client_create_set. rewrite Hget, Hdis. reflexivity. }
  split.
  { unfold handle_client_copy_lazy_connect. rewrite Hget, Hdis. reflexivity. }
  exact (without_set_facts client p st ct (emit (Client_disconnect client) s)).
Qed.

End ServiceSecondSet.

(** ** The concrete service *)

Lemma wf_initial_service : wf initial_service.
Proof. split; cbn; intros q x Hq; now rewrite lookup_empty in Hq. Qed.

(** A jump over an exclusion range happens at Evaluate as well: after the
    fork scenario Alice's set is behind the store, and her Evaluate takes
    it from generation 0 to generation 2 over the range [1, 2). *)
Lemma evaluate_after_fork_jumps :
  exists s st,
    test_run (fork_scenario ++ [EvEvaluate alice 0%N 0%N 0 0])
             initial_service = Ret 0 s
    /\ set_heap s !! 1%N = Some st
    /\ current_generation st = 2
    /\ excluded_generations st = [ {| start := 1; range_end := 2 |} ].
Proof.
  eexists; eexists. split; [vm_compute; reflexivity|].
  split; [vm_compute; reflexivity|]. split; reflexivity.
Qed.

(** C3: in the scenario of section 8 for lazy copies, X is a member of
    both sets and Z of Bob's set only, as the specification says, but Y,
    added to Alice's set after the fork, is reported as a member of Bob's
    set as well. *)
Theorem fork_scenario_membership :
  exists s,
    test_run fork_scenario initial_service = Ret 0 s
    /\ test_contains alice elt_X s = Ret 0 true
    /\ test_contains bob elt_X s = Ret 0 true
    /\ test_contains alice elt_Y s = Ret 0 true
    /\ test_contains bob elt_Y s = Ret 0 true
    /\ test_contains alice elt_Z s = Ret 0 false
    /\ test_contains bob elt_Z s = Ret 0 true.
Proof.
  eexists. split; [vm_compute; reflexivity|].
  repeat split; vm_compute; reflexivity.
Qed.

(** While an iteration is active on the store, a mutation request is put
    at the head of the list of pending mutations and nothing else
    changes. *)
Lemma handle_client_mutation_defers `{Collaborators} client m s p st ct :
  set_get client s = Some p ->
  set_heap s !! p = Some st ->
  content_heap s !! content st = Some ct ->
  iterator_count ct ≠ 0 ->
  handle_client_mutation client m s
  = Ret 0 (put_content (content st)
             (with_pending_mutations
                ({| pm_set := p; mutation_message := m |}
                   :: pending_mutations ct) ct) s).
Proof.
  intros Hget Hst Hct Hiter. unfold handle_client_mutation.
  rewrite Hget, (get_set_Some _ _ _ Hst). cbn [mbind outcome_bind bind].
  rewrite (get_content_Some _ _ _ Hct). cbn [mbind outcome_bind bind].
  destruct (iterator_count ct =? 0) eqn:Hz;
    [apply Z.eqb_eq in Hz; contradiction|].
  reflexivity.
Qed.

(** The pending mutations are executed from the head of the list on. *)
Lemma flush_pending_cons `{Collaborators} pm rest c s ct :
  content_heap s !! c = Some ct ->
  flush_pending (pm :: rest) c s
  = (s1 ← execute_mutation (pm_set pm) (mutation_message pm)
            (put_content c (with_pending_mutations rest ct) s);
     flush_pending rest c s1).
Proof.
  intros Hct. cbn [flush_pending]. rewrite (get_content_Some _ _ _ Hct).
  cbn [mbind outcome_bind bind].
  destruct (execute_mutation _ _ _) as [k s1|]; [|reflexivity].
  cbn. destruct (flush_pending rest c s1); reflexivity.
Qed.

(** C5: requests that arrive during an iteration are queued, not executed;
    but the queue is served from its newest entry.  With "add X" and then
    "remove X" queued, the end of the iteration runs the removal first and
    X ends up in the set, whereas the requests in the order of their
    arrival leave X out. *)
Theorem deferred_mutations_run_newest_first :
  (exists s ct,
      test_run (deferral_prefix
                ++ [EvMutation alice (add_message elt_X);
                    EvMutation alice (remove_message elt_X)]) initial_service
      = Ret 0 s
      /\ content_heap s !! 2%N = Some ct
      /\ iterator_count ct = 1
      /\ elements ct !! test_hash elt_X = None
      /\ pending_mutations ct
         = [ {| pm_set := 1%N; mutation_message := remove_message elt_X |};
             {| pm_set := 1%N; mutation_message := add_message elt_X |} ])
  /\ (exists s ct,
         test_run deferral_scenario initial_service = Ret 0 s
         /\ content_heap s !! 2%N = Some ct
         /\ iterator_count ct = 0
         /\ pending_mutations ct = []
         /\ test_contains alice elt_X s = Ret 0 true)
  /\ (exists s,
         test_run arrival_order_scenario initial_service = Ret 0 s
         /\ test_contains alice elt_X s = Ret 0 false).
Proof.
  split; [|split].
  - eexists; eexists. split; [vm_compute; reflexivity|].
    split; [vm_compute; reflexivity|]. repeat split.
  - eexists; eexists. split; [vm_compute; reflexivity|].
    split; [vm_compute; reflexivity|]. repeat split.
  - eexists. split; vm_compute; reflexivity.
Qed.

(** ** Reaching the end of the generation range *)

Lemma run_app `{Collaborators} evs1 evs2 s n1 s1 :
  run evs1 s = Ret n1 s1 ->
  run (evs1 ++ evs2) s
  = match run evs2 s1 with
    | Ret n2 s2 => Ret (n1 + n2) s2
    | Aborted => Aborted
    end.
Proof.
  revert s n1. induction evs1 as [|e rest IH]; intros s n1 Hrun.
  - cbn in Hrun. apply ret_Ret in Hrun as [-> ->]. cbn.
    destruct (run evs2 s1); reflexivity.
  - apply run_cons in Hrun as Hsplit. destruct Hsplit as (k & s0 & j & Hstep & Hrest).
    cbn [app run] in *. rewrite Hstep in *. cbn in *.
    rewrite (IH _ _ Hrest). rewrite Hrest in Hrun. injection Hrun as <-.
    destruct (run evs2 s1); [|reflexivity]. f_equal. lia.
Qed.

(** Starting an operation at generation [g] ... *)
Lemma evaluate_at g :
  0 <= g < UINT_MAX ->
  handle_client_evaluate alice 0%N 0%N 0 0 (service_at g)
  = Ret 0 (service_probing g).
Proof.
  intros Hg. unfold handle_client_evaluate.
  change (set_get alice (service_at g)) with (Some 1%N). cbv beta iota.
  assert (set_heap (service_at g) !! 1%N = Some (alice_set g)) as Hst
    by reflexivity.
  assert (content_heap (service_at g) !! 2%N = Some (alice_content g)) as Hct
    by reflexivity.
  rewrite (get_set_Some _ _ _ Hst). cbn [mbind outcome_bind bind].
  unfold advance_generation.
  rewrite (get_set_Some _ _ _ Hst).
  cbn [mbind outcome_bind bind].
  change (content (alice_set g)) with 2%N.
  rewrite (get_content_Some _ _ _ Hct).
  cbn [mbind outcome_bind bind current_generation alice_set
       latest_generation alice_content].
  rewrite Z.eqb_refl. rewrite uint_succ by lia.
  cbn [ret mbind outcome_bind bind].
  erewrite get_set_Some by (cbn; apply lookup_insert_eq).
  cbn [ret mbind outcome_bind bind Nat.add].
  f_equal. unfold service_probing, service_at, with_next_addr. cbn.
  f_equal. lia.
Qed.

(** ... and cancelling it leaves the service at generation [g + 1]. *)
Lemma cancel_at g :
  0 <= g ->
  handle_client_cancel alice 0 (service_probing g)
  = Ret 0 (service_at (g + 1)).
Proof.
  intros Hg. unfold handle_client_cancel.
  change (set_get alice (service_probing g)) with (Some 1%N). cbv beta iota.
  assert (set_heap (service_probing g) !! 1%N
          = Some (with_ops [probe_operation g] (alice_set (g + 1)))) as Hst
    by reflexivity.
  rewrite (get_set_Some _ _ _ Hst). cbn [mbind outcome_bind bind].
  cbn [ops with_ops List.find probe_operation spec client_request_id].
  rewrite bool_decide_eq_true_2 by reflexivity.
  unfold _GSS_operation_destroy.
  cbn [is_incoming spec spec_set negb GNUNET_assert ret mbind outcome_bind
       bind probe_operation].
  rewrite (get_set_Some _ _ _ Hst). cbn [mbind outcome_bind bind].
  cbn [ops with_ops].
  rewrite filter_cons_False by (intros Hne; now apply Hne).
  rewrite filter_nil.
  erewrite collect_generation_garbage_total; cycle 1.
  - cbn. apply lookup_insert_eq.
  - reflexivity.
  - cbn [Nat.add]. f_equal. unfold service_probing, service_at, put_set,
      with_set_heap. cbn. f_equal. rewrite Z2N.inj_add by lia. lia.
Qed.

Lemma cycle_at g :
  0 <= g < UINT_MAX ->
  test_run evaluate_and_cancel (service_at g) = Ret 0 (service_at (g + 1)).
Proof.
  intros Hg. unfold test_run, evaluate_and_cancel. cbn [run step].
  rewrite evaluate_at by exact Hg. cbn [mbind outcome_bind bind].
  rewrite cancel_at by lia. reflexivity.
Qed.

Lemma cycles_run k g :
  0 <= g -> g + Z.of_nat k <= UINT_MAX ->
  test_run (cycles k) (service_at g) = Ret 0 (service_at (g + Z.of_nat k)).
Proof.
  intros Hg. induction k as [|k IH]; intros Hk.
  - cbn [cycles]. replace (g + Z.of_nat 0) with g by lia. reflexivity.
  - cbn [cycles]. unfold test_run in *.
    rewrite (run_app _ _ _ _ _ (IH ltac:(lia))).
    fold test_run. rewrite cycle_at by lia.
    replace (g + Z.of_nat k + 1) with (g + Z.of_nat (S k)) by lia.
    reflexivity.
Qed.

(** The service reaches every generation of the range: after a set is
    created and X added, [g] operations started and cancelled take the set
    to generation [g]. *)
Lemma reach_generation (k : nat) :
  Z.of_nat k <= UINT_MAX ->
  test_run (events_to k) initial_service = Ret 0 (service_at (Z.of_nat k)).
Proof.
  intros Hk. unfold events_to, test_run.
  erewrite run_app; [|vm_compute; reflexivity].
  change (Ret 0 (service_at 0)) with (Ret 0 (service_at 0)).
  fold test_run.
  match goal with
  | |- context [test_run (cycles k) ?s0] => change s0 with (service_at 0)
  end.
  rewrite cycles_run by lia. reflexivity.
Qed.

(** ** The end of the generation range *)

Lemma last_generation_reached :
  exists k : nat,
    test_run (events_to k) initial_service = Ret 0 (service_at UINT_MAX).
Proof.
  exists (Z.to_nat UINT_MAX).
  assert (Z.of_nat (Z.to_nat UINT_MAX) = UINT_MAX) as Hk
    by (apply Z2Nat.id; unfold UINT_MAX; lia).
  rewrite <- Hk at 2. apply reach_generation. rewrite Hk. lia.
Qed.

(** C8, as stated, fails: once Alice has started and cancelled
    [UINT_MAX] operations her set is at the last generation, and the next
    Evaluate wraps its generation around to 0. *)
Lemma generation_never_decreases_fails : ~ generation_never_decreases.
Proof.
  intros Hall. destruct last_generation_reached as [k Hreach].
  eassert (current_generation (alice_set UINT_MAX) <= current_generation _)
    as Hle.
  { eapply (Hall test_collaborators (events_to k)
                 [EvEvaluate alice 0%N 0%N 0 0] _ (service_at UINT_MAX)
                 _ _ 1%N (alice_set UINT_MAX) _ Hreach).
    - vm_compute. reflexivity.
    - reflexivity.
    - vm_compute. reflexivity. }
  vm_compute in Hle. now apply Hle.
Qed.

Lemma current_generation_monotone_witness :
  current_generation (alice_set 0) <= current_generation (alice_set 1).
Proof.
  apply (@current_generation_monotone test_collaborators
           (events_to 0) evaluate_and_cancel 0 0
           (service_at 0) (service_at 1) 1%N (alice_set 0) (alice_set 1)).
  - unfold UINT_MAX. cbn. lia.
  - vm_compute. reflexivity.
  - vm_compute. reflexivity.
  - reflexivity.
  - reflexivity.
Defined.


(** C7, as stated, fails: when Alice, who owns a set, asks for a second
    one, her set is gone afterwards. *)
Lemma second_set_request_is_harmless_fails : ~ second_set_request_is_harmless.
Proof.
  intros Hall. unfold second_set_request_is_harmless in Hall.
  eassert (set_heap _ !! 1%N = Some (alice_set 0)) as Hstill.
  { eapply Hall
      with (C := test_collaborators)
           (evs := [ EvCreateSet alice GNUNET_SET_OPERATION_UNION;
                     EvMutation alice (add_message elt_X) ])
           (s := service_at 0) (client := alice)
           (o := GNUNET_SET_OPERATION_UNION) (k := 0).
    - vm_compute. reflexivity.
    - reflexivity.
    - reflexivity.
    - left. vm_compute. reflexivity. }
  vm_compute in Hstill. discriminate Hstill.
Qed.

Lemma second_set_request_drops_client_witness :
  exists s',
    @handle_client_create_set test_collaborators alice
       GNUNET_SET_OPERATION_UNION (service_at 0) = Ret 1 s'
    /\ @handle_client_copy_lazy_connect test_collaborators alice 1
         (service_at 0) = Ret 1 s'
    /\ set_heap s' !! 1%N = None
    /\ (1%N ∉ sets s')
    /\ (forall q, q ∈ sets s' -> q ∈ sets (service_at 0))
    /\ (forall q, q ≠ 1%N ->
          set_heap s' !! q = set_heap (service_at 0) !! q)
    /\ out s' = out (service_at 0) ++ [Client_disconnect alice].
Proof.
  apply (@second_set_request_drops_client test_collaborators alice
           GNUNET_SET_OPERATION_UNION 1 (service_at 0) 1%N
           (alice_set 0) (alice_content 0)).
  - reflexivity.
  - reflexivity.
  - reflexivity.
  - discriminate.
  - constructor.
Defined.

Lemma garbage_collection_keeps_views_witness :
  content_heap (service_at 1) = content_heap (service_probing 0)
  /\ forall (ee : ElementEntry) (op' : Operation),
       _GSS_is_element_of_operation ee op' (service_at 1)
       = _GSS_is_element_of_operation ee op' (service_probing 0).
Proof.
  apply (garbage_collection_keeps_views (probe_operation 0)
           (service_probing 0) 0%nat (service_at 1)).
  vm_compute. reflexivity.
Defined.

(** * Further properties of the service *)

(** ** Exclusion ranges above the queried generation *)

Lemma is_excluded_generation_app g excluded more :
  is_excluded_generation g (excluded ++ more)
  = is_excluded_generation g excluded || is_excluded_generation g more.
Proof. unfold is_excluded_generation. apply existsb_app. Qed.

Lemma is_excluded_generation_above g more :
  Forall (fun r => g < start r) more ->
  is_excluded_generation g more = false.
Proof.
  induction 1 as [|r rest Hr _ IH]; [reflexivity|].
  cbn. unfold is_excluded_generation in IH. rewrite IH.
  unfold in_range.
  replace (start r <=? g) with false by (symmetry; apply Z.leb_gt; lia).
  reflexivity.
Qed.

Lemma scan_mutations_ranges_above muts q excluded more present :
  Forall (fun r => q < start r) more ->
  scan_mutations muts q (excluded ++ more) present
  = scan_mutations muts q excluded present.
Proof.
  intros Hmore. revert present.
  induction muts as [|mut rest IH]; intros present; [reflexivity|].
  cbn [scan_mutations].
  destruct (Z.ltb_spec q (generation mut)) as [Hlt|Hge]; [apply IH|].
  rewrite is_excluded_generation_app.
  rewrite (is_excluded_generation_above (generation mut) more), orb_false_r.
  - destruct (is_excluded_generation (generation mut) excluded);
      [apply IH|]. now rewrite IH.
  - eapply Forall_impl; [exact Hmore|]. cbn. intros r Hr. lia.
Qed.

(** Ranges that start after the queried generation play no part in the
    membership test. *)
Lemma is_element_of_generation_ranges_above ee q excluded more :
  Forall (fun r => q < start r) more ->
  is_element_of_generation ee q (excluded ++ more)
  = is_element_of_generation ee q excluded.
Proof.
  intros Hmore. unfold is_element_of_generation.
  rewrite is_excluded_generation_app,
    (is_excluded_generation_above q more Hmore), orb_false_r.
  destruct (is_excluded_generation q excluded); [reflexivity|].
  now rewrite scan_mutations_ranges_above.
Qed.

(** After [advance_generation] the exclusion ranges are the old ones,
    possibly followed by one range that starts above the old generation. *)
Lemma advanced_ranges latest st st' :
  0 <= current_generation st -> latest <= UINT_MAX ->
  advanced latest st st' ->
  exists more,
    excluded_generations st' = excluded_generations st ++ more
    /\ Forall (fun r => current_generation st < start r) more.
Proof.
  intros H0 Hmax (_ & _ & [[_ Hex]|[Hlt Hex]]).
  - exists []. rewrite app_nil_r. auto.
  - eexists. split; [exact Hex|]. constructor; [|constructor]. cbn.
    unfold uint, UINT_MAX in *. rewrite Z.mod_small; lia.
Qed.

Section ServiceViews.
Context `{Collaborators}.

(** X1: an operation created by Evaluate sees, right after its creation,
    exactly what the membership test of its set answered before: it is
    pinned to the generation the set had, and the exclusion range the
    Evaluate may have added lies above that generation. *)
Theorem evaluate_takes_snapshot
    (client : Client) (app : N) (target : PeerIdentity) (mode rid : Z)
    (s : Service) (n : nat) (s1 : Service) (p : ptr) (st : GSS_Set)
    (ct : SetContent) :
  set_get client s = Some p ->
  set_heap s !! p = Some st ->
  content_heap s !! content st = Some ct ->
  0 <= current_generation st ->
  latest_generation ct <= UINT_MAX ->
  handle_client_evaluate client app target mode rid s = Ret n s1 ->
  exists st1 op,
    set_heap s1 !! p = Some st1
    /\ head (ops st1) = Some op
    /\ generation_created op = current_generation st
    /\ forall ee, _GSS_is_element_of_operation ee op s1
                  = _GSS_is_element_of_set ee st.
Proof.
  intros Hget Hst Hct H0 Hmax Hev.
  unfold handle_client_evaluate in Hev. rewrite Hget in Hev.
  inv_step Hev.
  match goal with
  | Ha : advance_generation _ _ = _ |- _ =>
      apply advance_generation_Ret in Ha
        as (st0 & ct0 & st' & Hst0 & Hct0 & -> & _ & Hadv & _)
  end.
  simplify_eq.
  match goal with
  | Hg : set_heap (put_set _ _ _) !! _ = Some _ |- _ =>
      cbn in Hg; rewrite lookup_insert_eq in Hg; injection Hg as <-
  end.
  destruct (advanced_ranges _ _ _ H0 Hmax Hadv) as (more & Hex & Hmore).
  eexists; eexists. split; [cbn; apply lookup_insert_eq|].
  split; [reflexivity|]. split; [reflexivity|].
  intros ee. unfold _GSS_is_element_of_operation, _GSS_is_element_of_set,
    get_set. cbn. rewrite lookup_insert_eq. cbn. rewrite Hex.
  rewrite is_element_of_generation_ranges_above by exact Hmore.
  destruct (is_element_of_generation _ _ _); reflexivity.
Qed.


End ServiceViews.

(** ** Adding and removing elements *)

Lemma bind_ret_l {A B : Type} (a : A) (f : A -> outcome B) :
  (Ret 0 a ≫= f) = f a.
Proof.
  unfold mbind, outcome_bind, bind. destruct (f a); reflexivity.
Qed.

Lemma bind_unit_l {A B : Type} (a : A) (f : A -> outcome B) :
  (ret a ≫= f) = f a.
Proof. apply bind_ret_l. Qed.

Lemma assert_true_then {B : Type} (k : outcome B) :
  (GNUNET_assert true ;; k) = k.
Proof. apply (bind_ret_l tt (fun _ => k)). Qed.

(** The loop over a list that was appended to goes on, after the old part,
    with the flag the old part gave. *)
Lemma scan_mutations_snoc muts extra q excluded present b :
  scan_mutations muts q excluded present = Ret 0 b ->
  scan_mutations (muts ++ extra) q excluded present
  = scan_mutations extra q excluded b.
Proof.
  revert present. induction muts as [|mut rest IH]; intros present Hscan.
  - cbn in Hscan. injection Hscan as ->. reflexivity.
  - cbn [app scan_mutations] in *.
    destruct (q <? generation mut); [now apply IH|].
    destruct (is_excluded_generation (generation mut) excluded);
      [now apply IH|].
    destruct present, (added mut); cbn [negb andb] in *;
      try discriminate Hscan;
      rewrite !assert_true_then in *; now apply IH.
Qed.

(** The membership test answers without a soft failure when the queried
    generation is not excluded. *)
Lemma is_element_of_generation_quiet ee q excluded n b :
  is_excluded_generation q excluded = false ->
  is_element_of_generation ee q excluded = Ret n b ->
  n = 0%nat
  /\ mutations ee ≠ []
  /\ scan_mutations (mutations ee) q excluded false = Ret 0 b.
Proof.
  intros Hex. unfold is_element_of_generation. rewrite Hex.
  destruct (mutations ee) as [|mut rest] eqn:E; [discriminate|].
  rewrite bool_decide_eq_false_2 by discriminate.
  cbn [negb]. rewrite assert_true_then. rewrite scan_mutations_spec.
  destruct (alternates _ _); [|discriminate].
  intros [= <- <-]. auto.
Qed.

(** The test on an entry whose list ends with a mutation of the queried
    generation that toggles the old answer. *)
Lemma is_element_of_generation_toggled ee ee' q excluded b :
  is_excluded_generation q excluded = false ->
  mutations ee' = mutations ee ++ [ {| generation := q; added := negb b |} ] ->
  (mutations ee = [] /\ b = false
   \/ scan_mutations (mutations ee) q excluded false = Ret 0 b) ->
  is_element_of_generation ee' q excluded = Ret 0 (negb b).
Proof.
  intros Hex Hmut Hold. unfold is_element_of_generation.
  rewrite Hex, Hmut.
  rewrite bool_decide_eq_false_2
    by (intros [_ ?]%app_eq_nil; discriminate).
  cbn [negb]. rewrite assert_true_then.
  assert (scan_mutations (mutations ee) q excluded false = Ret 0 b) as Hscan.
  { destruct Hold as [[-> ->]|Hscan]; [reflexivity|exact Hscan]. }
  rewrite (scan_mutations_snoc _ _ _ _ _ _ Hscan).
  cbn [scan_mutations generation added].
  rewrite Z.ltb_irrefl, Hex.
  destruct b; reflexivity.
Qed.

Section ServiceMutations.
Context `{Collaborators}.

(** X3: adding an element makes it a member, and adding it once more
    changes nothing.  After [execute_add] on a set whose generation is not
    excluded, the store has an entry for the element, the membership test
    of the set answers yes for it, and a second [execute_add] of the same
    message returns the service as it is. *)
Theorem execute_add_makes_member
    (p : ptr) (m : GNUNET_SET_ElementMessage) (s : Service) (n : nat)
    (s' : Service) (st : GSS_Set) :
  set_heap s !! p = Some st ->
  is_excluded_generation (current_generation st) (excluded_generations st)
  = false ->
  execute_add p m s = Ret n s' ->
  exists st' ct' ee',
    set_heap s' !! p = Some st'
    /\ content_heap s' !! content st' = Some ct'
    /\ elements ct' !! GNUNET_SET_element_hash (element_of_message m)
       = Some ee'
    /\ _GSS_is_element_of_set ee' st' = Ret 0 true
    /\ execute_add p m s' = Ret 0 s'.
Proof.
  intros Hst Hex Hadd. unfold execute_add in Hadd.
  apply bind_Ret in Hadd as (k0 & [] & j0 & Hty & Hadd & ->).
  apply assert_Ret in Hty as [Hty ->].
  rewrite (get_set_Some _ _ _ Hst), bind_ret_l in Hadd.
  destruct (content_heap s !! content st) as [ct|] eqn:Hct;
    [|unfold get_content in Hadd; rewrite Hct in Hadd; discriminate].
  rewrite (get_content_Some _ _ _ Hct), bind_ret_l in Hadd.
  cbv zeta in Hadd.
  set (hash := GNUNET_SET_element_hash (element_of_message m)) in *.
  assert (forall ee' st' ct',
            set_heap s' !! p = Some st' ->
            content st' = content st ->
            content_heap s' !! content st = Some ct' ->
            elements ct' !! hash = Some ee' ->
            _GSS_is_element_of_set ee' st' = Ret 0 true ->
            execute_add p m s' = Ret 0 s') as Hagain.
  { intros ee' st' ct' Hst' Hcont Hct' Hee' Hmem.
    unfold execute_add. rewrite Hty, assert_true_then.
    rewrite (get_set_Some _ _ _ Hst'), bind_ret_l, Hcont.
    rewrite (get_content_Some _ _ _ Hct'), bind_ret_l. cbv zeta.
    fold hash. rewrite Hee', Hmem. reflexivity. }
  assert (forall ee,
            (mutations ee = [] /\ elements ct !! hash = None
             \/ scan_mutations (mutations ee) (current_generation st)
                               (excluded_generations st) false
                = Ret 0 false) ->
            s' = append_mutation p st ct hash ee true (VtAdd hash) s ->
            exists st' ct' ee',
              set_heap s' !! p = Some st'
              /\ content_heap s' !! content st' = Some ct'
              /\ elements ct' !! hash = Some ee'
              /\ _GSS_is_element_of_set ee' st' = Ret 0 true
              /\ execute_add p m s' = Ret 0 s') as Happend.
  { intros ee Hold ->.
    assert (_GSS_is_element_of_set
              (with_mutations
                 (mutations ee
                  ++ [ {| generation := current_generation st;
                          added := true |} ]) ee)
              (with_state (state st ++ [VtAdd hash]) st) = Ret 0 true)
      as Hmem.
    { unfold _GSS_is_element_of_set. cbn [current_generation
        excluded_generations with_state].
      apply (is_element_of_generation_toggled ee _ _ _ false Hex);
        [reflexivity|]. destruct Hold as [[-> _]|Hscan]; auto. }
    eexists; eexists; eexists.
    split; [cbn; apply lookup_insert_eq|].
    split; [cbn; apply lookup_insert_eq|].
    split; [cbn; apply lookup_insert_eq|].
    split; [exact Hmem|].
    eapply Hagain; [cbn; apply lookup_insert_eq|reflexivity
                   |cbn; apply lookup_insert_eq|cbn; apply lookup_insert_eq
                   |exact Hmem]. }
  destruct (elements ct !! hash) as [ee|] eqn:Hee.
  - destruct (_GSS_is_element_of_set ee st) as [k b|] eqn:Hmem;
      [|discriminate].
    pose proof Hmem as Hmem'. unfold _GSS_is_element_of_set in Hmem'.
    destruct (is_element_of_generation_quiet _ _ _ _ _ Hex Hmem')
      as (-> & Hne & Hscan).
    rewrite bind_ret_l in Hadd. destruct b.
    + apply ret_Ret in Hadd as [<- ->].
      exists st, ct, ee. repeat split; try assumption.
      eapply (Hagain ee st ct); eauto.
    + apply ret_Ret in Hadd as [Hs' ->]. eapply Happend; eauto.
  - apply ret_Ret in Hadd as [Hs' ->].
    eapply Happend; [|symmetry; exact Hs']. left. auto.
Qed.

(** X4: removing an element makes it a non-member, removing it once more
    changes nothing, and removing an element the store has no entry for
    returns the service as it is.  The entry itself stays in the store:
    after [execute_remove] on a set whose generation is not excluded, the
    membership test of the set answers no for whatever entry the store has
    under the element's hash. *)
Theorem execute_remove_makes_absent
    (p : ptr) (m : GNUNET_SET_ElementMessage) (s : Service) (n : nat)
    (s' : Service) (st : GSS_Set) (ct : SetContent) :
  set_heap s !! p = Some st ->
  content_heap s !! content st = Some ct ->
  is_excluded_generation (current_generation st) (excluded_generations st)
  = false ->
  execute_remove p m s = Ret n s' ->
  (elements ct !! GNUNET_SET_element_hash (element_of_message m) = None ->
   s' = s)
  /\ exists st' ct',
       set_heap s' !! p = Some st'
       /\ content_heap s' !! content st' = Some ct'
       /\ (forall ee,
             elements ct !! GNUNET_SET_element_hash (element_of_message m)
             = Some ee ->
             exists ee',
               elements ct' !! GNUNET_SET_element_hash (element_of_message m)
               = Some ee'
               /\ element ee' = element ee
               /\ _GSS_is_element_of_set ee' st' = Ret 0 false)
       /\ execute_remove p m s' = Ret 0 s'.
Proof.
  intros Hst Hct Hex Hrem. unfold execute_remove in Hrem.
  apply bind_Ret in Hrem as (k0 & [] & j0 & Hty & Hrem & ->).
  apply assert_Ret in Hty as [Hty ->].
  rewrite (get_set_Some _ _ _ Hst), bind_ret_l in Hrem.
  rewrite (get_content_Some _ _ _ Hct), bind_ret_l in Hrem.
  cbv zeta in Hrem.
  set (hash := GNUNET_SET_element_hash (element_of_message m)) in *.
  assert (forall st' ct',
            set_heap s' !! p = Some st' ->
            content st' = content st ->
            content_heap s' !! content st = Some ct' ->
            match elements ct' !! hash with
            | Some ee' => _GSS_is_element_of_set ee' st' = Ret 0 false
            | None => True
            end ->
            execute_remove p m s' = Ret 0 s') as Hagain.
  { intros st' ct' Hst' Hcont Hct' Hmem.
    unfold execute_remove. rewrite Hty, assert_true_then.
    rewrite (get_set_Some _ _ _ Hst'), bind_ret_l, Hcont.
    rewrite (get_content_Some _ _ _ Hct'), bind_ret_l. cbv zeta.
    fold hash. destruct (elements ct' !! hash); [|reflexivity].
    rewrite Hmem. reflexivity. }
  destruct (elements ct !! hash) as [ee|] eqn:Hee.
  - split; [discriminate|].
    destruct (_GSS_is_element_of_set ee st) as [k b|] eqn:Hmem;
      [|discriminate].
    pose proof Hmem as Hmem'. unfold _GSS_is_element_of_set in Hmem'.
    destruct (is_element_of_generation_quiet _ _ _ _ _ Hex Hmem')
      as (-> & Hne & Hscan).
    rewrite bind_ret_l in Hrem. destruct b.
    + apply ret_Ret in Hrem as [<- ->].
      assert (_GSS_is_element_of_set
                (with_mutations
                   (mutations ee
                    ++ [ {| generation := current_generation st;
                            added := false |} ]) ee)
                (with_state (state st ++ [VtRemove hash]) st) = Ret 0 false)
        as Hgone.
      { unfold _GSS_is_element_of_set. cbn [current_generation
          excluded_generations with_state].
        apply (is_element_of_generation_toggled ee _ _ _ true Hex);
          [reflexivity|]. auto. }
      eexists; eexists.
      split; [cbn; apply lookup_insert_eq|].
      split; [cbn; apply lookup_insert_eq|].
      split.
      * intros ? [= <-]. eexists.
        split; [cbn; apply lookup_insert_eq|]. split; [reflexivity|].
        exact Hgone.
      * eapply Hagain; [cbn; apply lookup_insert_eq|reflexivity
                       |cbn; apply lookup_insert_eq|].
        cbn. rewrite lookup_insert_eq. exact Hgone.
    + apply ret_Ret in Hrem as [<- ->].
      exists st, ct. repeat split; try assumption.
      * intros ? [= <-]. exists ee. rewrite Hee. auto.
      * eapply (Hagain st ct); eauto. rewrite Hee. exact Hmem.
  - apply ret_Ret in Hrem as [<- ->]. split; [reflexivity|].
    exists st, ct. repeat split; try assumption.
    + discriminate.
    + eapply (Hagain st ct); eauto. now rewrite Hee.
Qed.

(** What [execute_mutation] makes of the service: nothing, or one mutation
    appended to the entry the store has under the hash of the element, or
    to a fresh entry when it has none. *)
Lemma execute_mutation_cases p m s n s' st ct :
  set_heap s !! p = Some st ->
  content_heap s !! content st = Some ct ->
  execute_mutation p m s = Ret n s' ->
  s' = s
  \/ exists ee flag call,
       s' = append_mutation p st ct
              (GNUNET_SET_element_hash (element_of_message m))
              ee flag call s
       /\ (elements ct !! GNUNET_SET_element_hash (element_of_message m)
           = Some ee
           \/ elements ct !! GNUNET_SET_element_hash (element_of_message m)
              = None
              /\ mutations ee = []).
Proof.
  intros Hst Hct Hrun.
  unfold execute_mutation in Hrun. destruct (msg_type m).
  - unfold execute_add in Hrun. inv_step Hrun; simplify_eq; eauto 10.
  - unfold execute_remove in Hrun. inv_step Hrun; simplify_eq; eauto 10.
  - inv_step Hrun. auto.
Qed.

(** X5: executing a mutation touches nothing but the entry of the element
    it names.  The registries of the service, its counters and the messages
    queued for clients stay as they are, and so do all other sets and all
    other stores; the set itself changes only in the private state of its
    operation type, and its store only under the hash of the element of the
    message. *)
Theorem execute_mutation_touches_one_entry
    (p : ptr) (m : GNUNET_SET_ElementMessage) (s : Service) (n : nat)
    (s' : Service) (st : GSS_Set) (ct : SetContent) :
  set_heap s !! p = Some st ->
  content_heap s !! content st = Some ct ->
  execute_mutation p m s = Ret n s' ->
  exists calls entries,
    set_heap s' = <[p := with_state (state st ++ calls) st]> (set_heap s)
    /\ content_heap s'
       = <[content st := with_elements entries ct]> (content_heap s)
    /\ (forall h, h ≠ GNUNET_SET_element_hash (element_of_message m) ->
                  entries !! h = elements ct !! h)
    /\ sets s' = sets s /\ listeners s' = listeners s
    /\ incoming s' = incoming s /\ lazy_copy s' = lazy_copy s
    /\ lazy_copy_cookie s' = lazy_copy_cookie s
    /\ suggest_id s' = suggest_id s /\ next_addr s' = next_addr s
    /\ out s' = out s.
Proof.
  intros Hst Hct Hrun.
  destruct (execute_mutation_cases _ _ _ _ _ _ _ Hst Hct Hrun)
    as [->|(ee & flag & call & -> & _)].
  - exists [], (elements ct).
    rewrite app_nil_r.
    replace (with_state (state st) st) with st by (destruct st; reflexivity).
    rewrite with_elements_same, !insert_id by assumption.
    repeat split; auto.
  - exists [call]. eexists.
    split; [reflexivity|]. split; [reflexivity|].
    split; [|cbn; repeat split; reflexivity].
    intros h Hh. now apply lookup_insert_ne.
Qed.

End ServiceMutations.

(** ** Sets that share a store *)

Section ServiceSiblings.
Context `{Collaborators}.

(** The set of a client is found by the list of sets and the [client]
    fields alone. *)
Lemma set_get_ext client s s' :
  sets s' = sets s ->
  (forall p, set_client <$> set_heap s' !! p = set_client <$> set_heap s !! p) ->
  set_get client s' = set_get client s.
Proof.
  intros Hsets Hown. unfold set_get. rewrite Hsets. clear Hsets.
  generalize (sets s). intros l.
  induction l as [|p rest IH]; [reflexivity|].
  cbn [List.find].
  assert (owned_by client s' p = owned_by client s p) as ->.
  { unfold owned_by. specialize (Hown p).
    destruct (set_heap s' !! p), (set_heap s !! p); cbn in Hown;
      simplify_eq; try reflexivity. now rewrite Hown. }
  now rewrite IH.
Qed.

(** The mutations executed on a set leave the list of sets, the owners and
    all other sets as they are; every entry of the store afterwards is an
    old entry with mutations of the set's generation appended, or a new
    entry with mutations of that generation only. *)
Lemma execute_all_history q ms s n s' stq ct :
  execute_all q ms s = Ret n s' ->
  set_heap s !! q = Some stq ->
  content_heap s !! content stq = Some ct ->
  exists stq' ct',
    set_heap s' !! q = Some stq'
    /\ same_generation stq stq'
    /\ set_client stq' = set_client stq
    /\ content_heap s' !! content stq = Some ct'
    /\ sets s' = sets s
    /\ (forall r, r ≠ q -> set_heap s' !! r = set_heap s !! r)
    /\ (forall h ee', elements ct' !! h = Some ee' ->
          (exists ee extra,
             elements ct !! h = Some ee
             /\ mutations ee' = mutations ee ++ extra
             /\ Forall (fun mut => generation mut = current_generation stq)
                       extra)
          \/ (elements ct !! h = None
              /\ mutations ee' ≠ []
              /\ Forall (fun mut => generation mut = current_generation stq)
                        (mutations ee')))
    /\ (forall h, is_Some (elements ct !! h) -> is_Some (elements ct' !! h)).
Proof.
  revert s n stq ct. induction ms as [|m rest IH];
    intros s n stq ct Hrun Hst Hct; cbn [execute_all] in Hrun.
  - apply ret_Ret in Hrun as [<- ->]. exists stq, ct.
    repeat split; auto using same_generation_refl.
    intros h ee' Hee. left. exists ee', []. rewrite app_nil_r. auto.
  - apply bind_Ret in Hrun as (k & s1 & j & Hm & Hrest & ->).
    assert (exists st1 ct1,
              set_heap s1 !! q = Some st1
              /\ same_generation stq st1
              /\ set_client st1 = set_client stq
              /\ content_heap s1 !! content stq = Some ct1
              /\ sets s1 = sets s
              /\ (forall r, r ≠ q -> set_heap s1 !! r = set_heap s !! r)
              /\ (forall h ee', elements ct1 !! h = Some ee' ->
                    (exists ee extra,
                       elements ct !! h = Some ee
                       /\ mutations ee' = mutations ee ++ extra
                       /\ Forall (fun mut => generation mut
                                             = current_generation stq) extra)
                    \/ (elements ct !! h = None
                        /\ mutations ee' ≠ []
                        /\ Forall (fun mut => generation mut
                                              = current_generation stq)
                                  (mutations ee')))
              /\ (forall h, is_Some (elements ct !! h) ->
                            is_Some (elements ct1 !! h)))
      as (st1 & ct1 & Hst1 & Hg1 & Hc1 & Hct1 & Hsets1 & Hoth1 & Hhist1 & Hkeep1).
    { destruct (execute_mutation_cases _ _ _ _ _ _ _ Hst Hct Hm)
        as [->|(ee & flag & call & -> & Hee)].
      - exists stq, ct. repeat split; auto using same_generation_refl.
        intros h ee' Hee. left. exists ee', []. rewrite app_nil_r. auto.
      - eexists; eexists.
        split; [cbn; apply lookup_insert_eq|].
        split; [unfold same_generation; cbn; auto|].
        split; [reflexivity|].
        split; [cbn; apply lookup_insert_eq|].
        split; [reflexivity|].
        split; [intros r Hr; cbn; now apply lookup_insert_ne|].
        split.
        + intros h ee'. cbn.
          destruct (decide (h = GNUNET_SET_element_hash (element_of_message m)))
            as [->|Hne].
          * rewrite lookup_insert_eq. intros [= <-]. cbn.
            destruct Hee as [Hee|[Hee Hnil]].
            -- left. eexists; eexists. split; [exact Hee|].
               split; [reflexivity|]. repeat constructor.
            -- right. split; [exact Hee|]. rewrite Hnil.
               split; [discriminate|]. repeat constructor.
          * rewrite lookup_insert_ne by congruence. intros Hee'.
            left. exists ee', []. rewrite app_nil_r. auto.
        + intros h Hh. cbn.
          destruct (decide (h = GNUNET_SET_element_hash (element_of_message m)))
            as [->|Hne].
          * rewrite lookup_insert_eq. eauto.
          * now rewrite lookup_insert_ne by congruence. }
    destruct Hg1 as (Hcont1 & Hcur1 & Hex1).
    rewrite <- Hcont1 in Hct1.
    destruct (IH _ _ _ _ Hrest Hst1 Hct1)
      as (st2 & ct2 & Hst2 & Hg2 & Hc2 & Hct2 & Hsets2 & Hoth2 & Hhist2 & Hkeep2).
    exists st2, ct2.
    split; [exact Hst2|].
    split; [unfold same_generation in *; intuition congruence|].
    split; [congruence|].
    split; [now rewrite <- Hcont1|].
    split; [congruence|].
    split; [intros r Hr; rewrite Hoth2, Hoth1 by assumption; reflexivity|].
    split.
    + intros h ee2 Hee2.
      destruct (Hhist2 h ee2 Hee2)
        as [(ee1 & extra2 & Hee1 & Hm2 & Hf2)|(Hnone & Hne & Hf2)].
      * destruct (Hhist1 h ee1 Hee1)
          as [(ee & extra1 & Hee & Hm1 & Hf1)|(Hnone & Hne & Hf1)].
        -- left. exists ee, (extra1 ++ extra2).
           split; [exact Hee|].
           split; [rewrite Hm2, Hm1, app_assoc; reflexivity|].
           apply Forall_app. split; [exact Hf1|]. now rewrite <- Hcur1.
        -- right. split; [exact Hnone|]. rewrite Hm2. split.
           ++ intros [? _]%app_eq_nil. contradiction.
           ++ apply Forall_app. split; [exact Hf1|]. now rewrite <- Hcur1.
      * right. split.
        -- destruct (elements ct !! h) eqn:E; [|reflexivity].
           destruct (Hkeep1 h) as [x Hx]; [eauto|]. congruence.
        -- split; [exact Hne|]. now rewrite <- Hcur1.
    + intros h Hh. apply Hkeep2, Hkeep1, Hh.
Qed.

(** X6: a set does not see the mutations that a set ahead of it executes
    on the store they share.  When two sets share a store, the generation
    of the first lies below the generation of the second and is not
    excluded, and every entry of the store has a mutation, then whatever
    mutations the second set executes, the membership test of the first
    answers for every element what it answered before.  (This is the
    direction in which a lazy copy is isolated: the copy is created ahead
    of its source.) *)
Theorem later_set_mutations_invisible
    (client : Client) (p q : ptr) (s : Service) (st stq : GSS_Set)
    (ct : SetContent) (ms : list GNUNET_SET_ElementMessage) (n : nat)
    (s' : Service) :
  set_get client s = Some p ->
  set_heap s !! p = Some st ->
  set_heap s !! q = Some stq ->
  content stq = content st ->
  content_heap s !! content st = Some ct ->
  current_generation st < current_generation stq ->
  is_excluded_generation (current_generation st) (excluded_generations st)
  = false ->
  (forall h ee, elements ct !! h = Some ee -> mutations ee ≠ []) ->
  execute_all q ms s = Ret n s' ->
  forall el, client_set_contains client el s'
             = client_set_contains client el s.
Proof.
  intros Hget Hst Hstq Hshare Hct Hlt Hex Hne Hrun el.
  assert (p ≠ q) as Hpq by (intros ->; simplify_eq; lia).
  rewrite <- Hshare in Hct.
  destruct (execute_all_history _ _ _ _ _ _ _ Hrun Hstq Hct)
    as (stq' & ct' & Hstq' & _ & Hcl & Hct' & Hsets & Hoth & Hhist & Hkeep).
  rewrite Hshare in Hct, Hct'.
  assert (set_heap s' !! p = Some st) as Hst'
    by (rewrite Hoth by exact Hpq; exact Hst).
  unfold client_set_contains.
  rewrite (set_get_ext client s s' Hsets).
  2:{ intros r. destruct (decide (r = q)) as [->|Hr].
      - rewrite Hstq', Hstq. cbn. now rewrite Hcl.
      - now rewrite Hoth. }
  rewrite Hget.
  rewrite (get_set_Some _ _ _ Hst), (get_set_Some _ _ _ Hst'), !bind_ret_l.
  rewrite (get_content_Some _ _ _ Hct), (get_content_Some _ _ _ Hct'),
    !bind_ret_l.
  destruct (elements ct' !! GNUNET_SET_element_hash el) as [ee'|] eqn:Hee'.
  - destruct (Hhist _ _ Hee')
      as [(ee & extra & Hee & Hm & Hf)|(Hnone & Hne' & Hf)].
    + rewrite Hee. unfold _GSS_is_element_of_set.
      apply (is_element_of_generation_app ee ee' _ _ extra);
        [eapply Hne; exact Hee|exact Hm|].
      eapply Forall_impl; [exact Hf|]. cbn. intros mut ->. exact Hlt.
    + rewrite Hnone. unfold _GSS_is_element_of_set, is_element_of_generation.
      rewrite bool_decide_eq_false_2 by exact Hne'.
      cbn [negb]. rewrite assert_true_then, Hex.
      apply scan_mutations_later.
      eapply Forall_impl; [exact Hf|]. cbn. intros mut ->. exact Hlt.
  - destruct (elements ct !! GNUNET_SET_element_hash el) eqn:Hee;
      [|reflexivity].
    destruct (Hkeep (GNUNET_SET_element_hash el)) as [x Hx]; [eauto|].
    congruence.
Qed.

End ServiceSiblings.

(** ** Iterations *)

Section ServiceIterations.
Context `{Collaborators}.

(** An update of a set that keeps its owner does not change which set a
    client has. *)
Lemma set_get_put_set client p st st' s :
  set_heap s !! p = Some st ->
  set_client st' = set_client st ->
  set_get client (put_set p st' s) = set_get client s.
Proof.
  intros Hst Hcl. apply set_get_ext; [reflexivity|].
  intros r. cbn. destruct (decide (r = p)) as [->|Hr].
  - rewrite lookup_insert_eq, Hst. cbn. now rewrite Hcl.
  - now rewrite lookup_insert_ne by congruence.
Qed.

Lemma set_get_put_content client c ct s :
  set_get client (put_content c ct s) = set_get client s.
Proof. now apply set_get_ext. Qed.

Lemma set_get_emit client o s : set_get client (emit o s) = set_get client s.
Proof. now apply set_get_ext. Qed.

(** X7: an iteration that the client stops early is never counted as
    finished.  An acknowledgement with [send_more = 0] clears the iterator
    of the set and moves on to the next iteration id, but sends no message
    and leaves the store, with its count of running iterations, as it is:
    a mutation the client requests afterwards is still queued, not
    executed. *)
Theorem stopped_iteration_keeps_mutations_deferred
    (client : Client) (s : Service) (p : ptr) (st : GSS_Set)
    (ct : SetContent) (keys : list GNUNET_HashCode) :
  set_get client s = Some p ->
  set_heap s !! p = Some st ->
  content_heap s !! content st = Some ct ->
  iter st = Some keys ->
  iterator_count ct ≠ 0 ->
  exists s1,
    handle_client_iter_ack client false s = Ret 0 s1
    /\ set_heap s1
       = <[p := with_iter None (uint16 (iteration_id st + 1))
                          (iter_generation st) st]> (set_heap s)
    /\ content_heap s1 = content_heap s
    /\ out s1 = out s
    /\ forall m,
         handle_client_mutation client m s1
         = Ret 0 (put_content (content st)
                    (with_pending_mutations
                       ({| pm_set := p; mutation_message := m |}
                          :: pending_mutations ct) ct) s1).
Proof.
  intros Hget Hst Hct Hiter Hcount.
  eexists. split.
  { unfold handle_client_iter_ack.
    rewrite Hget, (get_set_Some _ _ _ Hst), bind_ret_l, Hiter. reflexivity. }
  split; [reflexivity|]. split; [reflexivity|]. split; [reflexivity|].
  intros m.
  apply (handle_client_mutation_defers client m _ p
           (with_iter None (uint16 (iteration_id st + 1))
                      (iter_generation st) st) ct).
  - rewrite (set_get_put_set client p st) by (exact Hst || reflexivity).
    exact Hget.
  - cbn. apply lookup_insert_eq.
  - exact Hct.
  - exact Hcount.
Qed.

End ServiceIterations.

Section ServiceFullIteration.
Context `{Collaborators}.

Lemma with_iter_with_iter v id ig v' id' ig' st :
  with_iter v id ig (with_iter v' id' ig' st) = with_iter v id ig st.
Proof. reflexivity. Qed.

(** The [again] loop finds the first of the remaining entries that the
    membership test accepts. *)
Lemma next_iteration_element_spec
    (kvs : list (GNUNET_HashCode * ElementEntry)) st ct :
  Forall (fun kv => elements ct !! kv.1 = Some kv.2
                    /\ exists b, is_element_of_iteration kv.2 st = Ret 0 b)
         kvs ->
  let members l :=
    List.filter (is_member_at (iter_generation st) (excluded_generations st))
                (map snd l) in
  (members kvs = []
   /\ next_iteration_element (map fst kvs) st ct = Ret 0 None)
  \/ exists ee rest,
       members kvs = ee :: members rest
       /\ (length rest < length kvs)%nat
       /\ Forall (fun kv => elements ct !! kv.1 = Some kv.2
                    /\ exists b, is_element_of_iteration kv.2 st = Ret 0 b)
                 rest
       /\ next_iteration_element (map fst kvs) st ct
          = Ret 0 (Some (ee, map fst rest)).
Proof.
  intros Hall members.
  induction Hall as [|[k v] rest [Hkv [b Hb]] Hrest IH].
  - left. auto.
  - cbn [map fst next_iteration_element]. cbn in Hkv. rewrite Hkv.
    cbn [snd] in Hb. rewrite Hb, bind_ret_l.
    assert (is_member_at (iter_generation st) (excluded_generations st) v = b)
      as Hmem.
    { unfold is_member_at. unfold is_element_of_iteration in Hb.
      rewrite Hb. destruct b; reflexivity. }
    unfold members. cbn [map snd List.filter]. rewrite Hmem.
    destruct b.
    + right. exists v, rest. split; [reflexivity|].
      split; [cbn; lia|]. split; [exact Hrest|reflexivity].
    + destruct IH as [[Hnil Hnext]|(ee & rest' & Hm & Hlen & Hall' & Hnext)].
      * left. split; [exact Hnil|exact Hnext].
      * right. exists ee, rest'. split; [exact Hm|].
        split; [cbn; lia|]. split; [exact Hall'|exact Hnext].
Qed.

(** An iteration in progress, driven to its end by acknowledgements. *)
Lemma iteration_from client p :
  forall (k : nat) (kvs : list (GNUNET_HashCode * ElementEntry))
         (s1 : Service) (st1 : GSS_Set) (ct1 : SetContent),
    (length kvs < k)%nat ->
    set_get client s1 = Some p ->
    set_heap s1 !! p = Some st1 ->
    iter st1 = Some (map fst kvs) ->
    content_heap s1 !! content st1 = Some ct1 ->
    0 < iterator_count ct1 ->
    (iterator_count ct1 = 1 -> pending_mutations ct1 = []) ->
    Forall (fun kv => elements ct1 !! kv.1 = Some kv.2
                      /\ exists b, is_element_of_iteration kv.2 st1 = Ret 0 b)
           kvs ->
    let members :=
      List.filter (is_member_at (iter_generation st1)
                                (excluded_generations st1))
                  (map snd kvs) in
    exists s',
      (send_client_element p s1
       ≫= run (acknowledgements client (length members))) = Ret 0 s'
      /\ out s'
         = out s1
           ++ map (fun ee => MQ_send (client_mq st1)
                               (SET_ITER_ELEMENT (element ee)
                                                 (iteration_id st1)))
                  members
           ++ [MQ_send (client_mq st1) SET_ITER_DONE]
      /\ set_heap s'
         = <[p := with_iter None (uint16 (iteration_id st1 + 1))
                            (iter_generation st1) st1]> (set_heap s1)
      /\ content_heap s'
         = <[content st1 := with_iterator_count (iterator_count ct1 - 1) ct1]>
             (content_heap s1)
      /\ sets s' = sets s1 /\ next_addr s' = next_addr s1.
Proof.
  induction k as [|k IH]; intros kvs s1 st1 ct1 Hlen Hget Hst Hiter Hct
    Hpos Hpend Hall members; [lia|].
  destruct (next_iteration_element_spec kvs st1 ct1 Hall)
    as [[Hnil Hnext]|(ee & rest & Hm & Hlen' & Hall' & Hnext)].
  - unfold members. rewrite Hnil. cbn [length map app].
    unfold send_client_element.
    rewrite (get_set_Some _ _ _ Hst), bind_ret_l, Hiter.
    rewrite (get_content_Some _ _ _ Hct), bind_ret_l, Hnext, bind_ret_l.
    replace (0 <? iterator_count ct1) with true
      by (symmetry; apply Z.ltb_lt; lia).
    rewrite assert_true_then. cbv zeta.
    destruct (Z.eqb_spec (iterator_count ct1 - 1) 0) as [Hone|Hmore].
    + rewrite Hpend by lia. cbn [flush_pending].
      unfold acknowledgements. cbn [replicate run].
      eexists. split; [reflexivity|]. cbn.
      repeat split; reflexivity.
    + unfold acknowledgements. cbn [replicate run].
      eexists. split; [reflexivity|]. cbn.
      repeat split; reflexivity.
  - unfold members. rewrite Hm. cbn [length].
    unfold send_client_element at 1.
    rewrite (get_set_Some _ _ _ Hst), bind_ret_l, Hiter.
    rewrite (get_content_Some _ _ _ Hct), bind_ret_l, Hnext, bind_ret_l.
    cbv zeta.
    set (st2 := with_iter (Some (map fst rest)) (iteration_id st1)
                          (iter_generation st1) st1).
    set (s2 := emit _ (put_set p st2 s1)).
    rewrite bind_unit_l.
    unfold acknowledgements. cbn [replicate run step].
    assert (set_get client s2 = Some p) as Hget2.
    { unfold s2. rewrite set_get_emit.
      rewrite (set_get_put_set client p st1) by (exact Hst || reflexivity).
      exact Hget. }
    assert (set_heap s2 !! p = Some st2) as Hst2
      by (cbn; apply lookup_insert_eq).
    unfold handle_client_iter_ack.
    rewrite Hget2, (get_set_Some _ _ _ Hst2), bind_ret_l.
    cbn [iter st2 with_iter].
    destruct (IH rest s2 st2 ct1) as (s' & Hrun & Hout & Hsh & Hch & Hss & Hna);
      try assumption; try reflexivity; [lia|].
    exists s'. split; [exact Hrun|].
    split; [rewrite Hout; cbn; rewrite <- !app_assoc; reflexivity|].
    split; [rewrite Hsh; cbn; rewrite insert_insert_eq; reflexivity|].
    split; [exact Hch|]. split; [exact Hss|exact Hna].
Qed.

(** X8: a complete iteration sends every member of the set exactly once,
    in the order of the store's iterator, and then the end marker.  For a
    client whose set is not being iterated and whose membership test
    answers for every entry of the store, the Iterate request followed by
    one acknowledgement per member runs without failure; the messages
    queued are the members at the set's generation, tagged with the set's
    iteration id, followed by ITER_DONE; afterwards the set has no
    iterator and the next iteration id, and the stores are as before. *)
Theorem complete_iteration_sends_members
    (client : Client) (s : Service) (p : ptr) (st : GSS_Set)
    (ct : SetContent) :
  set_get client s = Some p ->
  set_heap s !! p = Some st ->
  content_heap s !! content st = Some ct ->
  iter st = None ->
  0 <= iterator_count ct ->
  (iterator_count ct = 0 -> pending_mutations ct = []) ->
  (forall h ee, elements ct !! h = Some ee ->
     exists b, _GSS_is_element_of_set ee st = Ret 0 b) ->
  let members :=
    List.filter (is_member_at (current_generation st)
                              (excluded_generations st))
                (map snd (map_to_list (elements ct))) in
  exists s',
    run (EvIterate client :: acknowledgements client (length members)) s
    = Ret 0 s'
    /\ out s'
       = out s
         ++ map (fun ee => MQ_send (client_mq st)
                             (SET_ITER_ELEMENT (element ee) (iteration_id st)))
                members
         ++ [MQ_send (client_mq st) SET_ITER_DONE]
    /\ set_heap s'
       = <[p := with_iter None (uint16 (iteration_id st + 1))
                          (current_generation st) st]> (set_heap s)
    /\ content_heap s' = content_heap s
    /\ sets s' = sets s.
Proof.
  intros Hget Hst Hct Hiter Hcount Hpend Hquiet members.
  cbn [run step]. unfold handle_client_iterate.
  rewrite Hget, (get_set_Some _ _ _ Hst), bind_ret_l, Hiter.
  rewrite (get_content_Some _ _ _ Hct), bind_ret_l. cbv zeta.
  set (ct1 := with_iterator_count (iterator_count ct + 1) ct).
  set (st1 := with_iter (Some (map fst (map_to_list (elements ct))))
                        (iteration_id st) (current_generation st) st).
  set (s1 := put_set p st1 (put_content (content st) ct1 s)).
  destruct (iteration_from client p (S (length (map_to_list (elements ct))))
              (map_to_list (elements ct)) s1 st1 ct1)
    as (s' & Hrun & Hout & Hsh & Hch & Hss & _).
  - lia.
  - unfold s1. rewrite (set_get_put_set client p st);
      [rewrite set_get_put_content; exact Hget|exact Hst|reflexivity].
  - cbn. apply lookup_insert_eq.
  - reflexivity.
  - cbn. apply lookup_insert_eq.
  - cbn. lia.
  - cbn. intros Hone. apply Hpend. lia.
  - apply Forall_forall. intros [h ee] Hin.
    apply elem_of_map_to_list in Hin. cbn. split; [exact Hin|].
    apply (Hquiet h ee Hin).
  - exists s'. split; [exact Hrun|]. split; [exact Hout|].
    split; [rewrite Hsh; cbn; rewrite insert_insert_eq; reflexivity|].
    split; [|exact Hss].
    rewrite Hch. cbn. rewrite insert_insert_eq.
    replace (with_iterator_count (iterator_count ct + 1 - 1) ct1) with ct.
    + now apply insert_id.
    + unfold ct1, with_iterator_count. cbn.
      replace (iterator_count ct + 1 - 1) with (iterator_count ct) by lia.
      destruct ct; reflexivity.
Qed.

End ServiceFullIteration.

(** ** Requests that are refused or have nothing to do *)

Lemma remove_first_none {A : Type} (f : A -> bool) (l : list A) :
  List.find f l = None -> remove_first f l = l.
Proof.
  induction l as [|x rest IH]; [reflexivity|]. cbn.
  destruct (f x); [discriminate|]. intros Hrest. now rewrite IH.
Qed.

Lemma with_listeners_same s : with_listeners (listeners s) s = s.
Proof. destruct s; reflexivity. Qed.

Section ServiceRefusals.
Context `{Collaborators}.

(** The disconnect handler for a client that has no set. *)
Lemma client_disconnect_without_set client s :
  set_get client s = None ->
  GNUNET_SERVER_client_disconnect client s = Ret 0 (dropped client s).
Proof.
  intros Hget. unfold GNUNET_SERVER_client_disconnect,
    handle_client_disconnect, dropped.
  rewrite set_get_emit, Hget, bind_unit_l.
  unfold listener_get.
  destruct (List.find _ (listeners (emit (Client_disconnect client) s)))
    eqn:Hfind; [reflexivity|].
  cbn [listeners emit] in Hfind. rewrite (remove_first_none _ _ Hfind).
  change (listeners s) with (listeners (emit (Client_disconnect client) s)).
  rewrite with_listeners_same. reflexivity.
Qed.

(** X9: every request that needs the client's set -- a mutation, Iterate,
    an acknowledgement, Evaluate, Accept, Cancel, the preparation of a lazy
    copy -- is answered in the same way when the client has no set: one
    soft failure is logged and the client is disconnected.  Nothing else
    happens: the sets, the stores and the other registries stay as they
    are, and only the client's own listener, if it has one, goes. *)
Theorem request_without_set_drops_client
    (e : Event) (client : Client) (s : Service) :
  set_request_client e = Some client ->
  set_get client s = None ->
  step e s = Ret 1 (dropped client s).
Proof.
  intros He Hget.
  destruct e; cbn in He; try discriminate; injection He as ->; cbn [step].
  - unfold handle_client_mutation. rewrite Hget.
    now rewrite client_disconnect_without_set.
  - unfold handle_client_iterate. rewrite Hget.
    now rewrite client_disconnect_without_set.
  - unfold handle_client_iter_ack. rewrite Hget.
    now rewrite client_disconnect_without_set.
  - unfold handle_client_evaluate. rewrite Hget.
    now rewrite client_disconnect_without_set.
  - unfold handle_client_accept. rewrite Hget.
    now rewrite client_disconnect_without_set.
  - unfold handle_client_cancel. rewrite Hget.
    now rewrite client_disconnect_without_set.
  - unfold handle_client_copy_lazy_prepare. rewrite Hget.
    now rewrite client_disconnect_without_set.
Qed.

(** Accepting an id that no incoming operation carries: the client is sent
    a failure result and nothing else changes. *)
Lemma handle_client_accept_unknown client id rid mode s p st :
  set_get client s = Some p ->
  set_heap s !! p = Some st ->
  Forall (fun op => op_suggest_id op ≠ id) (incoming s) ->
  handle_client_accept client id rid mode s
  = Ret 0 (emit (MQ_send (client_mq st) (SET_RESULT_FAILURE rid)) s).
Proof.
  intros Hget Hst Hnone. unfold handle_client_accept.
  rewrite Hget, (get_set_Some _ _ _ Hst), bind_ret_l.
  unfold get_incoming.
  assert (List.find (fun op => bool_decide (op_suggest_id op = id))
                    (incoming s) = None) as ->.
  { induction Hnone as [|op rest Hop _ IH]; [reflexivity|]. cbn.
    now rewrite bool_decide_eq_false_2. }
  reflexivity.
Qed.

(** X10: Cancel takes one operation out of the client's set and nothing
    else.  When every operation in the set's list is bound to the set, the
    request runs without failure; the set keeps its generation and its
    exclusion ranges, so the generation that was opened for the
    operation is not given back; the stores and the messages queued stay
    as they are.  The operation removed is the first with the request id
    named; when there is none, the service is unchanged. *)
Theorem cancel_removes_one_operation
    (client : Client) (rid : Z) (s : Service) (p : ptr) (st : GSS_Set)
    (ct : SetContent) :
  set_get client s = Some p ->
  set_heap s !! p = Some st ->
  content_heap s !! content st = Some ct ->
  bound_to p (ops st) ->
  let has_id op :=
    match spec op with
    | Some sp => bool_decide (client_request_id sp = rid)
    | None => false
    end in
  handle_client_cancel client rid s
  = Ret 0 match List.find has_id (ops st) with
          | None => s
          | Some op =>
              put_set p (with_ops (filter (fun o => op_addr o ≠ op_addr op)
                                          (ops st)) st) s
          end.
Proof.
  intros Hget Hst Hct Hbound has_id. unfold handle_client_cancel.
  rewrite Hget, (get_set_Some _ _ _ Hst), bind_ret_l. fold has_id.
  destruct (List.find has_id (ops st)) as [op|] eqn:Hfind; [|reflexivity].
  apply find_some in Hfind as [Hin _].
  unfold bound_to in Hbound. rewrite Forall_forall in Hbound.
  destruct (Hbound op) as (Hinc & sp & Hsp & Hset).
  { apply list_elem_of_In. exact Hin. }
  unfold _GSS_operation_destroy. rewrite Hinc. cbn [negb].
  rewrite assert_true_then, Hsp, Hset.
  rewrite (get_set_Some _ _ _ Hst), bind_ret_l. cbv zeta.
  erewrite collect_generation_garbage_total; [reflexivity| |].
  - cbn. apply lookup_insert_eq.
  - cbn. exact Hct.
Qed.

End ServiceRefusals.

(** ** Advancing the generation *)

(** The jump of [advance_generation] is invisible to the membership test:
    the new generation with the new exclusion range answers for an entry
    what the old generation answered, as long as the entry has no mutation
    after the latest generation of the store. *)
Lemma advanced_view latest st st' ee :
  advanced latest st st' ->
  0 <= current_generation st <= latest -> latest < UINT_MAX ->
  is_excluded_generation (current_generation st) (excluded_generations st)
  = false ->
  is_excluded_generation (latest + 1) (excluded_generations st) = false ->
  Forall (fun mut => generation mut <= latest) (mutations ee) ->
  is_element_of_generation ee (current_generation st')
                           (excluded_generations st')
  = is_element_of_generation ee (current_generation st)
                             (excluded_generations st).
Proof.
  intros (_ & Hcur & Hcase) Hrange Hmax Hex Hex' Hmuts.
  assert (uint (latest + 1) = latest + 1) as Hu
    by (unfold uint, UINT_MAX in *; apply Z.mod_small; lia).
  assert (uint (current_generation st + 1) = current_generation st + 1) as Hu'
    by (unfold uint, UINT_MAX in *; apply Z.mod_small; lia).
  rewrite Hcur, Hu. unfold is_element_of_generation.
  destruct Hcase as [[Heq ->]|[Hlt ->]].
  - rewrite Hex, Hex'.
    destruct (negb (bool_decide (mutations ee = []))); [|reflexivity].
    rewrite !assert_true_then. generalize false.
    induction Hmuts as [|mut rest Hmut _ IH]; intros present; [reflexivity|].
    cbn [scan_mutations].
    replace (latest + 1 <? generation mut) with false
      by (symmetry; apply Z.ltb_ge; lia).
    replace (current_generation st <? generation mut) with false
      by (symmetry; apply Z.ltb_ge; lia).
    destruct (is_excluded_generation (generation mut)
                (excluded_generations st)); [apply IH|].
    now rewrite IH.
  - rewrite is_excluded_generation_app, Hex, Hex'. cbn [orb].
    rewrite Hu, Hu'.
    replace (is_excluded_generation (latest + 1)
               [{| start := current_generation st + 1;
                   range_end := latest + 1 |}]) with false.
    2:{ cbn. unfold in_range. cbn. rewrite Z.ltb_irrefl.
        now rewrite andb_false_r. }
    destruct (negb (bool_decide (mutations ee = []))); [|reflexivity].
    rewrite !assert_true_then. generalize false.
    induction Hmuts as [|mut rest Hmut _ IH]; intros present; [reflexivity|].
    cbn [scan_mutations].
    replace (latest + 1 <? generation mut) with false
      by (symmetry; apply Z.ltb_ge; lia).
    rewrite is_excluded_generation_app.
    destruct (Z.ltb_spec (current_generation st) (generation mut))
      as [Hafter|Hbefore].
    + replace (is_excluded_generation (generation mut)
                 [{| start := current_generation st + 1;
                     range_end := latest + 1 |}]) with true.
      * rewrite orb_true_r. apply IH.
      * cbn. unfold in_range. cbn.
        replace (current_generation st + 1 <=? generation mut) with true
          by (symmetry; apply Z.leb_le; lia).
        replace (generation mut <? latest + 1) with true
          by (symmetry; apply Z.ltb_lt; lia).
        reflexivity.
    + replace (is_excluded_generation (generation mut)
                 [{| start := current_generation st + 1;
                     range_end := latest + 1 |}]) with false.
      * rewrite orb_false_r.
        destruct (is_excluded_generation (generation mut)
                    (excluded_generations st)); [apply IH|]. now rewrite IH.
      * cbn. unfold in_range. cbn.
        replace (current_generation st + 1 <=? generation mut) with false
          by (symmetry; apply Z.leb_gt; lia).
        reflexivity.
Qed.

Section ServiceOwnView.
Context `{Collaborators}.

(** X11: no event changes what a set contains by moving its generation.
    Whatever the event, the membership test of a set that is still there
    answers for an entry, with the generation and exclusion ranges the set
    has afterwards, what it answered with those it had before -- as long as
    the set was not ahead of its store, neither its generation nor the one
    after the store's latest was excluded, the store was below the last
    generation of the 32-bit range, and the entry has no mutation after
    the store's latest generation. *)
Theorem events_keep_set_view
    (e : Event) (s : Service) (n : nat) (s' : Service) (p : ptr)
    (st st' : GSS_Set) (ct : SetContent) (ee : ElementEntry) :
  wf s ->
  step e s = Ret n s' ->
  set_heap s !! p = Some st ->
  set_heap s' !! p = Some st' ->
  content_heap s !! content st = Some ct ->
  0 <= current_generation st <= latest_generation ct ->
  latest_generation ct < UINT_MAX ->
  is_excluded_generation (current_generation st) (excluded_generations st)
  = false ->
  is_excluded_generation (latest_generation ct + 1) (excluded_generations st)
  = false ->
  Forall (fun mut => generation mut <= latest_generation ct) (mutations ee) ->
  _GSS_is_element_of_set ee st' = _GSS_is_element_of_set ee st.
Proof.
  intros Hwf Hstep Hst Hst' Hct Hrange Hmax Hex Hex' Hmuts.
  assert (p < next_addr s)%N as Hp by (destruct Hwf as [Hw _]; eauto).
  destruct (step_step_rel _ _ _ _ Hwf Hstep) as (_ & _ & Hsets & _).
  destruct (Hsets p st' Hst' Hp) as (st0 & Hst0 & Hgen). simplify_eq.
  unfold _GSS_is_element_of_set.
  destruct Hgen as [(_ & -> & ->)|(ct0 & Hct0 & Hadv)]; [reflexivity|].
  simplify_eq. now apply (advanced_view (latest_generation ct)).
Qed.

End ServiceOwnView.

(** ** Lazy copies *)

Section ServiceLazyCopy.
Context `{Collaborators}.

(** [advance_generation] returns for a set that is not ahead of its
    store. *)
Lemma advance_generation_total p s st ct :
  set_heap s !! p = Some st ->
  content_heap s !! content st = Some ct ->
  current_generation st <= latest_generation ct ->
  exists excluded,
    advance_generation p s
    = Ret 0 (put_set p
               (with_generation (uint (latest_generation ct + 1)) excluded st)
               (put_content (content st)
                  (with_latest_generation (uint (latest_generation ct + 1)) ct)
                  s))
    /\ advanced (latest_generation ct) st
                (with_generation (uint (latest_generation ct + 1)) excluded st).
Proof.
  intros Hst Hct Hle. unfold advance_generation.
  rewrite (get_set_Some _ _ _ Hst), bind_ret_l.
  rewrite (get_content_Some _ _ _ Hct), bind_ret_l.
  destruct (Z.eqb_spec (current_generation st) (latest_generation ct))
    as [Heq|Hne].
  - eexists. split; [rewrite Heq; reflexivity|].
    unfold advanced. cbn. auto.
  - replace (current_generation st <? latest_generation ct) with true
      by (symmetry; apply Z.ltb_lt; lia).
    rewrite assert_true_then. eexists. split; [reflexivity|].
    unfold advanced. cbn. split; [reflexivity|]. split; [reflexivity|].
    right. split; [lia|reflexivity].
Qed.

Lemma find_cookie_absent k (l : list LazyCopyRequest) :
  Forall (fun cr => cookie cr ≠ k) l ->
  List.find (fun cr => bool_decide (cookie cr = k)) l = None.
Proof.
  induction 1 as [|cr rest Hcr _ IH]; [reflexivity|]. cbn.
  now rewrite bool_decide_eq_false_2.
Qed.

(** X12: a lazy copy is made with a ticket, and the ticket is good for one
    copy.  When a client prepares a lazy copy of its set, it is sent the
    cookie the service had in store; a client without a set that connects
    with this cookie gets a new set, which becomes its set: it shares the
    store of the source, whose reference count goes up by one, has the
    operation type of the source and stands at the generation after the
    latest of the store, while the source set is as it was.  The ticket is
    then used up: as long as no older ticket carries the same cookie, a
    further client connecting with it is disconnected with a soft
    failure. *)
Theorem lazy_copy_ticket_round_trip
    (owner client : Client) (s : Service) (p : ptr) (st : GSS_Set)
    (ct : SetContent) (vt : SetVT) :
  wf s ->
  set_get owner s = Some p ->
  set_heap s !! p = Some st ->
  content_heap s !! content st = Some ct ->
  set_get client s = None ->
  vt_of (operation st) = Some vt ->
  copy_state vt = true ->
  current_generation st <= latest_generation ct ->
  exists s1 s2 stq ct2,
    handle_client_copy_lazy_prepare owner s = Ret 0 s1
    /\ out s1
       = out s ++ [MQ_send (client_mq st)
                           (SET_COPY_LAZY_RESPONSE (lazy_copy_cookie s))]
    /\ handle_client_copy_lazy_connect client (lazy_copy_cookie s) s1
       = Ret 0 s2
    /\ set_get client s2 = Some (next_addr s)
    /\ set_heap s2 !! next_addr s = Some stq
    /\ content stq = content st
    /\ operation stq = operation st
    /\ current_generation stq = uint (latest_generation ct + 1)
    /\ ops stq = []
    /\ content_heap s2 !! content st = Some ct2
    /\ refcount ct2 = uint (refcount ct + 1)
    /\ elements ct2 = elements ct
    /\ set_heap s2 !! p = Some st
    /\ lazy_copy s2 = lazy_copy s
    /\ out s2 = out s1
    /\ forall other,
         set_get other s2 = None ->
         Forall (fun cr => cookie cr ≠ lazy_copy_cookie s) (lazy_copy s) ->
         handle_client_copy_lazy_connect other (lazy_copy_cookie s) s2
         = Ret 1 (dropped other s2).
Proof.
  intros Hwf Hown Hst Hct Hnone Hvt Hcopy Hle.
  assert (p ≠ next_addr s) as Hfresh.
  { destruct Hwf as [Hw _]. apply Hw in Hst. lia. }
  set (k := lazy_copy_cookie s).
  set (s1 := emit (MQ_send (client_mq st) (SET_COPY_LAZY_RESPONSE k))
               (with_lazy_copy
                  ({| source_set := p; cookie := k |} :: lazy_copy s)
                  (uint (k + 1)) s)).
  assert (handle_client_copy_lazy_prepare owner s = Ret 0 s1) as Hprep.
  { unfold handle_client_copy_lazy_prepare.
    rewrite Hown, (get_set_Some _ _ _ Hst), bind_ret_l. reflexivity. }
  set (clone := {| set_client := None; client_mq := client;
                   operation := operation st; state := state st;
                   content := content st;
                   current_generation := current_generation st;
                   iter_generation := 0;
                   excluded_generations := excluded_generations st;
                   ops := []; iter := None; iteration_id := 0 |}).
  set (s1' := with_lazy_copy (lazy_copy s) (lazy_copy_cookie s1) s1).
  set (sa := put_set (next_addr s) clone
               (put_content (content st)
                  (with_refcount (uint (refcount ct + 1)) ct) s1')).
  destruct (advance_generation_total (next_addr s) sa clone
              (with_refcount (uint (refcount ct + 1)) ct))
    as (excluded & Hadv & _).
  { cbn. apply lookup_insert_eq. }
  { cbn. apply lookup_insert_eq. }
  { exact Hle. }
  eexists s1, _, _, _. split; [exact Hprep|]. split; [reflexivity|].
  split.
  { unfold handle_client_copy_lazy_connect.
    assert (set_get client s1 = None) as ->.
    { unfold s1. rewrite set_get_emit.
      rewrite (set_get_ext client s _); [exact Hnone|reflexivity|reflexivity]. }
    cbn [lazy_copy s1 emit with_lazy_copy List.find cookie].
    rewrite bool_decide_eq_true_2 by reflexivity.
    cbn [remove_first cookie]. rewrite bool_decide_eq_true_2 by reflexivity.
    cbn [source_set]. fold s1'.
    assert (set_heap s1' !! p = Some st) as Hst1 by exact Hst.
    rewrite (get_set_Some _ _ _ Hst1), bind_ret_l, Hvt, Hcopy.
    assert (content_heap s1' !! content st = Some ct) as Hct1 by exact Hct.
    rewrite (get_content_Some _ _ _ Hct1), bind_ret_l. cbv zeta.
    change (next_addr s1') with (next_addr s). fold clone. fold sa.
    rewrite Hadv, bind_ret_l.
    erewrite get_set_Some by (cbn; apply lookup_insert_eq).
    rewrite bind_ret_l. reflexivity. }
  split.
  { unfold set_get. cbn [sets with_next_addr with_sets
      GNUNET_CONTAINER_DLL_insert List.find].
    unfold owned_by at 1. cbn. rewrite lookup_insert_eq. cbn.
    now rewrite bool_decide_eq_true_2. }
  split; [cbn; apply lookup_insert_eq|].
  split; [reflexivity|]. split; [reflexivity|]. split; [reflexivity|].
  split; [reflexivity|].
  split; [cbn; rewrite insert_insert_eq; apply lookup_insert_eq|].
  split; [reflexivity|]. split; [reflexivity|].
  split.
  { cbn. rewrite !lookup_insert_ne by congruence. exact Hst. }
  split; [reflexivity|]. split; [reflexivity|].
  intros other Hother Hcookies.
  unfold handle_client_copy_lazy_connect. rewrite Hother.
  cbn [lazy_copy with_next_addr with_sets put_set with_set_heap
       put_content with_content_heap with_lazy_copy emit sa s1' s1].
  rewrite (find_cookie_absent _ _ Hcookies).
  now rewrite client_disconnect_without_set.
Qed.

(** X13: a lazy copy starts out with the elements of its source.  When a
    client connects to a lazy copy, the membership test of the new set
    answers for an entry what the test of the source set answers -- as long
    as the source was not ahead of its store, neither its generation nor
    the one after the store's latest was excluded, the store was below the
    last generation of the 32-bit range, and the entry has no mutation
    after the store's latest generation. *)
Theorem lazy_copy_starts_with_source_view
    (client : Client) (k : Z) (s : Service) (n : nat) (s' : Service)
    (cr : LazyCopyRequest) (src : GSS_Set) (ct : SetContent)
    (vt : SetVT) (ee : ElementEntry) :
  set_get client s = None ->
  List.find (fun cr => bool_decide (cookie cr = k)) (lazy_copy s) = Some cr ->
  set_heap s !! source_set cr = Some src ->
  content_heap s !! content src = Some ct ->
  source_set cr ≠ next_addr s ->
  0 <= current_generation src <= latest_generation ct ->
  latest_generation ct < UINT_MAX ->
  is_excluded_generation (current_generation src) (excluded_generations src)
  = false ->
  is_excluded_generation (latest_generation ct + 1) (excluded_generations src)
  = false ->
  Forall (fun mut => generation mut <= latest_generation ct) (mutations ee) ->
  vt_of (operation src) = Some vt ->
  copy_state vt = true ->
  handle_client_copy_lazy_connect client k s = Ret n s' ->
  exists q stq,
    set_get client s' = Some q
    /\ set_heap s' !! q = Some stq
    /\ set_heap s' !! source_set cr = Some src
    /\ _GSS_is_element_of_set ee stq = _GSS_is_element_of_set ee src.
Proof.
  intros Hnone Hfind Hsrc Hct Hfresh Hrange Hmax Hex Hex' Hmuts Hvt Hcopy
    Hrun.
  unfold handle_client_copy_lazy_connect in Hrun.
  rewrite Hnone, Hfind in Hrun.
  set (s1 := with_lazy_copy _ _ s) in Hrun.
  assert (set_heap s1 !! source_set cr = Some src) as Hsrc1 by exact Hsrc.
  rewrite (get_set_Some _ _ _ Hsrc1), bind_ret_l, Hvt, Hcopy in Hrun.
  assert (content_heap s1 !! content src = Some ct) as Hct1 by exact Hct.
  rewrite (get_content_Some _ _ _ Hct1), bind_ret_l in Hrun.
  cbv zeta in Hrun.
  apply bind_Ret in Hrun as (k1 & s3 & j1 & Hadv & Hrun & ->).
  apply advance_generation_Ret in Hadv
    as (st0 & ct0 & st3 & Hst0 & Hct0 & -> & _ & Hadv & _).
  cbn in Hst0. rewrite lookup_insert_eq in Hst0. injection Hst0 as <-.
  cbn in Hct0. rewrite lookup_insert_eq in Hct0. injection Hct0 as <-.
  erewrite get_set_Some in Hrun by (cbn; apply lookup_insert_eq).
  rewrite bind_ret_l in Hrun. apply ret_Ret in Hrun as [<- _].
  eexists; eexists. split.
  { unfold set_get. cbn [sets with_next_addr with_sets
      GNUNET_CONTAINER_DLL_insert List.find].
    unfold owned_by at 1. cbn. rewrite lookup_insert_eq. cbn.
    now rewrite bool_decide_eq_true_2. }
  split; [cbn; apply lookup_insert_eq|].
  split.
  { cbn. rewrite !lookup_insert_ne by congruence. exact Hsrc. }
  unfold _GSS_is_element_of_set. cbn [current_generation
    excluded_generations with_set_client].
  apply (advanced_view (latest_generation ct) _ st3 ee Hadv);
    cbn; assumption.
Qed.

End ServiceLazyCopy.

(** ** Requests from other peers *)

Section ServiceIncoming.
Context `{Collaborators}.

Lemma find_by_address a (l : list Operation) op :
  List.find (fun o => bool_decide (op_addr o = a)) l = Some op ->
  op_addr op = a.
Proof.
  intros [_ Ha]%find_some. now apply bool_decide_eq_true in Ha.
Qed.

(** X14: a protocol violation on an incoming channel costs the channel and
    nothing else.  When the first message on a channel is not an operation
    request, or is a second request, or carries a context message above
    the size limit, [handle_incoming_msg] logs one soft failure and asks
    for the channel to be closed without touching the service; the
    dispatcher then takes the operation off the incoming list.  No client
    is sent anything. *)
Theorem protocol_violation_ends_channel
    (a : ptr) (mh : P2PMessage) (s : Service) (op : Operation) :
  List.find (fun o => bool_decide (op_addr o = a)) (incoming s) = Some op ->
  is_incoming op = true ->
  protocol_violation op mh ->
  handle_incoming_msg op mh s = Ret 1 (GNUNET_SYSERR, s)
  /\ dispatch_p2p_message a mh s
     = Ret 1 (with_incoming (filter (fun o => op_addr o ≠ a) (incoming s)) s).
Proof.
  intros Hfind Hinc Hbad.
  assert (handle_incoming_msg op mh s = Ret 1 (GNUNET_SYSERR, s)) as Hmsg.
  { unfold handle_incoming_msg. rewrite Hinc, assert_true_then.
    destruct mh as [o app ctx|]; [|reflexivity].
    destruct (spec op) as [sp|] eqn:Hsp; [reflexivity|].
    destruct Hbad as [Hbad|(c & -> & Hbig)]; [contradiction|].
    replace (GNUNET_SET_CONTEXT_MESSAGE_MAX_SIZE <? Z.of_nat (length c))
      with true by (symmetry; apply Z.ltb_lt; lia).
    reflexivity. }
  split; [exact Hmsg|].
  unfold dispatch_p2p_message. rewrite Hfind, Hmsg.
  cbn. rewrite Hfind. unfold incoming_destroy. rewrite Hinc. cbn.
  rewrite (find_by_address _ _ _ Hfind). reflexivity.
Qed.

(** The operation an incoming operation becomes when its request has
    arrived and been suggested under [id]. *)
Lemma map_replace_find (f : Operation -> bool) (a : ptr) (op1 : Operation)
    (l : list Operation) op :
  List.find (fun o => bool_decide (op_addr o = a)) l = Some op ->
  Forall (fun o => f o = false) l ->
  f op1 = true ->
  List.find f (map (fun x => if bool_decide (op_addr x = a) then op1 else x) l)
  = Some op1.
Proof.
  intros Hfind Hnone Hop1.
  induction Hnone as [|o rest Ho _ IH]; [discriminate|].
  cbn in Hfind |- *. destruct (bool_decide (op_addr o = a)).
  - now rewrite Hop1.
  - rewrite Ho. now apply IH.
Qed.

Lemma filter_map_replace (a : ptr) (op1 : Operation) (l : list Operation) :
  op_addr op1 = a ->
  filter (fun o => op_addr o ≠ a)
         (map (fun x => if bool_decide (op_addr x = a) then op1 else x) l)
  = filter (fun o => op_addr o ≠ a) l.
Proof.
  intros Hop1. induction l as [|o rest IH]; [reflexivity|]. cbn [map].
  destruct (decide (op_addr o = a)) as [Ha|Ha].
  - rewrite bool_decide_eq_true_2 by exact Ha.
    rewrite !filter_cons_False by (intros Hne; contradiction). exact IH.
  - rewrite bool_decide_eq_false_2 by exact Ha.
    rewrite !filter_cons_True by exact Ha. now rewrite IH.
Qed.

(** X15: a request for which a listener is registered is suggested to it
    at once.  When the first message on an incoming channel is an operation
    request with an acceptable context, and a listener is registered for
    its operation type and application, the first such listener's client is
    sent a request message with the peer of the channel and the accept id
    the service had in store; the operation is recorded with this id and
    its timeout is cancelled; the id in store moves on and is not zero.
    As long as no operation in the list had this id before, the id sent
    finds the operation. *)
Theorem request_is_suggested_to_listener
    (a : ptr) (o : OperationType) (app : N)
    (ctx : option (list Byte.byte)) (s : Service) (op : Operation)
    (l : Listener) :
  List.find (fun x => bool_decide (op_addr x = a)) (incoming s) = Some op ->
  is_incoming op = true ->
  spec op = None ->
  op_suggest_id op = 0 ->
  timeout_task op = true ->
  match ctx with
  | Some c => Z.of_nat (length c) <= GNUNET_SET_CONTEXT_MESSAGE_MAX_SIZE
  | None => True
  end ->
  List.find (fun l => bool_decide (listener_operation l = o)
                      && bool_decide (listener_app_id l = app))
            (listeners s) = Some l ->
  exists s' op1,
    dispatch_p2p_message a (P2P_OPERATION_REQUEST o app ctx) s = Ret 0 s'
    /\ out s' = out s ++ [request_message (listener_client l) op1]
    /\ incoming s'
       = map (fun x => if bool_decide (op_addr x = a) then op1 else x)
             (incoming s)
    /\ op_addr op1 = a
    /\ op_suggest_id op1 = suggest_id s
    /\ timeout_task op1 = false
    /\ is_incoming op1 = true
    /\ spec op1
       = Some {| spec_operation := o; app_id := app; peer := op_peer op;
                 spec_set := None; result_mode := 0; client_request_id := 0;
                 context_msg := ctx |}
    /\ suggest_id s' ≠ 0
    /\ set_heap s' = set_heap s /\ content_heap s' = content_heap s
    /\ sets s' = sets s /\ listeners s' = listeners s
    /\ (Forall (fun x => op_suggest_id x ≠ suggest_id s) (incoming s) ->
        List.find (fun x => bool_decide (op_suggest_id x = suggest_id s))
                  (incoming s') = Some op1).
Proof.
  intros Hfind Hinc Hspec Hid Htimeout Hctx Hlistener.
  pose proof (find_by_address _ _ _ Hfind) as Ha. subst a.
  eexists.
  exists {| op_addr := op_addr op; op_peer := op_peer op;
            spec := Some {| spec_operation := o; app_id := app;
                            peer := op_peer op; spec_set := None;
                            result_mode := 0; client_request_id := 0;
                            context_msg := ctx |};
            is_incoming := true;
            generation_created := generation_created op;
            op_suggest_id := suggest_id s; timeout_task := false |}.
  split.
  { unfold dispatch_p2p_message. rewrite Hfind.
    unfold handle_incoming_msg. rewrite Hinc, assert_true_then, Hspec.
    replace (match ctx with
             | Some c =>
                 GNUNET_SET_CONTEXT_MESSAGE_MAX_SIZE <? Z.of_nat (length c)
             | None => false
             end) with false
      by (destruct ctx; [symmetry; apply Z.ltb_ge; lia|reflexivity]).
    rewrite Hlistener. unfold incoming_suggest.
    cbn [is_incoming spec op_suggest_id timeout_task].
    rewrite Hid, Htimeout. cbn [Z.eqb]. rewrite !assert_true_then.
    cbv zeta. rewrite bind_unit_l. cbn [fst snd].
    rewrite bind_unit_l. cbn [fst snd]. unfold GNUNET_OK, GNUNET_SYSERR.
    cbn [Z.eqb Pos.eqb]. reflexivity. }
  cbn. repeat (split; [reflexivity|]).
  split.
  { destruct (Z.eqb_spec (uint (suggest_id s + 1)) 0) as [Hz|Hnz].
    - rewrite Hz. discriminate.
    - exact Hnz. }
  repeat (split; [reflexivity|]).
  intros Hfresh. eapply map_replace_find; [exact Hfind| |].
  - eapply Forall_impl; [exact Hfresh|]. cbn. intros x Hx.
    now apply bool_decide_eq_false_2.
  - cbn. now apply bool_decide_eq_true_2.
Qed.

(** X16: Accept binds the incoming operation with the id named to the
    client's set.  The operation leaves the incoming list and becomes the
    head of the set's list of operations, with the set, the request id and
    the result mode recorded in its specification; it is pinned to the
    generation the set had, the set moves on to the generation after the
    store's latest, and right away the operation sees of every entry what
    the set's membership test answered before. *)
Theorem accept_binds_operation
    (client : Client) (id rid mode : Z) (s : Service) (p : ptr)
    (st : GSS_Set) (ct : SetContent) (op : Operation)
    (sp : OperationSpecification) :
  set_get client s = Some p ->
  set_heap s !! p = Some st ->
  content_heap s !! content st = Some ct ->
  0 <= current_generation st <= latest_generation ct ->
  latest_generation ct <= UINT_MAX ->
  List.find (fun x => bool_decide (op_suggest_id x = id)) (incoming s)
  = Some op ->
  is_incoming op = true ->
  spec op = Some sp ->
  exists s' st' op1,
    handle_client_accept client id rid mode s = Ret 0 s'
    /\ incoming s' = filter (fun x => op_addr x ≠ op_addr op) (incoming s)
    /\ set_heap s' !! p = Some st'
    /\ ops st' = op1 :: ops st
    /\ op_addr op1 = op_addr op
    /\ is_incoming op1 = false
    /\ generation_created op1 = current_generation st
    /\ spec op1
       = Some {| spec_operation := spec_operation sp; app_id := app_id sp;
                 peer := peer sp; spec_set := Some p; result_mode := mode;
                 client_request_id := rid; context_msg := context_msg sp |}
    /\ current_generation st' = uint (latest_generation ct + 1)
    /\ out s' = out s
    /\ forall ee, _GSS_is_element_of_operation ee op1 s'
                  = _GSS_is_element_of_set ee st.
Proof.
  intros Hget Hst Hct Hrange Hmax Hfind Hinc Hspec.
  set (op1 := {| op_addr := op_addr op; op_peer := op_peer op;
                 spec := Some {| spec_operation := spec_operation sp;
                                 app_id := app_id sp; peer := peer sp;
                                 spec_set := Some p; result_mode := mode;
                                 client_request_id := rid;
                                 context_msg := context_msg sp |};
                 is_incoming := false;
                 generation_created := current_generation st;
                 op_suggest_id := op_suggest_id op;
                 timeout_task := timeout_task op |}).
  set (st1 := with_ops (op1 :: ops st) st).
  set (s2 := put_set p st1
               (with_incoming
                  (filter (fun o => op_addr o ≠ op_addr op) (incoming s)) s)).
  destruct (advance_generation_total p s2 st1 ct) as (excluded & Hadv & Hrel).
  { cbn. apply lookup_insert_eq. }
  { exact Hct. }
  { cbn. lia. }
  eexists; exists (with_generation (uint (latest_generation ct + 1))
                                   excluded st1), op1.
  split.
  { unfold handle_client_accept.
    rewrite Hget, (get_set_Some _ _ _ Hst), bind_ret_l.
    unfold get_incoming. rewrite Hfind, Hinc, assert_true_then, bind_unit_l.
    rewrite Hinc, assert_true_then, Hspec. cbv zeta.
    unfold GNUNET_CONTAINER_DLL_insert. fold op1. fold st1. fold s2.
    exact Hadv. }
  split; [reflexivity|].
  split; [cbn; apply lookup_insert_eq|].
  repeat (split; [reflexivity|]).
  intros ee. unfold _GSS_is_element_of_operation, _GSS_is_element_of_set.
  cbn [spec op1 spec_set generation_created].
  erewrite get_set_Some by (cbn; apply lookup_insert_eq).
  rewrite bind_ret_l.
  destruct (advanced_ranges _ _ _ (proj1 Hrange) Hmax Hrel)
    as (more & Hex & Hmore).
  cbn [current_generation st1 with_ops] in Hmore.
  cbn [excluded_generations with_generation st1 with_ops] in Hex |- *.
  rewrite Hex. now apply is_element_of_generation_ranges_above.
Qed.

(** The loop of [handle_client_listen] suggests the matching operations of
    the list and passes over the others. *)
Lemma suggest_existing_spec (l : Listener) (todo : list Operation)
    (s : Service) :
  Forall (fun op => listener_matches l op = true ->
                    is_incoming op = true /\ timeout_task op = true) todo ->
  suggest_id s ≠ 0 ->
  exists todo' s',
    suggest_existing l todo s = Ret 0 (todo', s')
    /\ Forall2 (fun op op' =>
                  if listener_matches l op
                  then op_suggest_id op' ≠ 0
                       /\ timeout_task op' = false
                       /\ op_addr op' = op_addr op
                       /\ op_peer op' = op_peer op
                       /\ spec op' = spec op
                       /\ is_incoming op' = true
                  else op' = op) todo todo'
    /\ out s'
       = out s
         ++ map (fun pr => request_message (listener_client l) pr.2)
                (List.filter (fun pr => listener_matches l pr.1)
                             (zip todo todo'))
    /\ suggest_id s' ≠ 0
    /\ set_heap s' = set_heap s /\ content_heap s' = content_heap s
    /\ sets s' = sets s /\ listeners s' = listeners s
    /\ incoming s' = incoming s /\ lazy_copy s' = lazy_copy s
    /\ next_addr s' = next_addr s.
Proof.
  intros Hall. revert s.
  induction Hall as [|op rest Hop _ IH]; intros s Hid.
  - exists [], s. cbn. rewrite app_nil_r. repeat split; auto.
  - cbn [suggest_existing].
    destruct (listener_matches l op) eqn:Hm.
    + destruct (Hop eq_refl) as [Hinc Htimeout].
      pose proof Hm as Hm'. unfold listener_matches in Hm'.
      destruct (spec op) as [sp|] eqn:Hsp; [|discriminate].
      apply andb_true_iff in Hm' as [[Hzero _]%andb_true_iff _].
      unfold incoming_suggest.
      rewrite Hinc, assert_true_then, Hsp, Hzero, assert_true_then.
      rewrite Htimeout, assert_true_then. cbv zeta. rewrite bind_unit_l.
      cbn [fst snd].
      set (s1 := emit _ (with_suggest_id _ s)).
      destruct (IH s1) as (todo' & s' & Hrun & Hrel & Hout & Hid' & Hrest).
      { unfold s1. cbn.
        destruct (Z.eqb_spec (uint (suggest_id s + 1)) 0) as [Hz|Hnz];
          [rewrite Hz; discriminate|exact Hnz]. }
      rewrite Hrun, bind_ret_l. cbn [fst snd].
      eexists; eexists. split; [reflexivity|].
      split.
      { constructor; [|exact Hrel]. rewrite Hm. cbn.
        repeat split; auto. }
      split.
      { rewrite Hout. cbn [zip zip_with List.filter fst]. rewrite Hm.
        cbn [map snd]. unfold s1 at 1. cbn [out emit with_suggest_id].
        rewrite <- app_assoc. reflexivity. }
      split; [exact Hid'|]. exact Hrest.
    + rewrite bind_unit_l. cbn [fst snd].
      destruct (IH s Hid) as (todo' & s' & Hrun & Hrel & Hout & Hid' & Hrest).
      rewrite Hrun, bind_ret_l. cbn [fst snd].
      eexists; eexists. split; [reflexivity|].
      split.
      { constructor; [|exact Hrel]. now rewrite Hm. }
      split.
      { rewrite Hout. cbn [zip zip_with List.filter fst]. now rewrite Hm. }
      split; [exact Hid'|]. exact Hrest.
Qed.

(** X17: a listener that registers is suggested the requests that are
    waiting for it.  When a client without a listener registers one, the
    listener is appended to the list of listeners, and every incoming
    operation that has a request for the listener's operation type and
    application and has not been suggested yet is suggested to it: the
    operation gets an accept id that is not zero and loses its timeout,
    and the client is sent one request message per such operation, in the
    order of the incoming list.  The other incoming operations, the sets
    and the stores stay as they are. *)
Theorem listen_suggests_waiting_requests
    (client : Client) (o : OperationType) (app : N) (s : Service) :
  let l := {| listener_client := client; listener_app_id := app;
              listener_operation := o |} in
  listener_get client s = None ->
  Forall (fun op => listener_matches l op = true ->
                    is_incoming op = true /\ timeout_task op = true)
         (incoming s) ->
  suggest_id s ≠ 0 ->
  exists s',
    handle_client_listen client o app s = Ret 0 s'
    /\ listeners s' = listeners s ++ [l]
    /\ Forall2 (fun op op' =>
                  if listener_matches l op
                  then op_suggest_id op' ≠ 0
                       /\ timeout_task op' = false
                       /\ op_addr op' = op_addr op
                       /\ op_peer op' = op_peer op
                       /\ spec op' = spec op
                       /\ is_incoming op' = true
                  else op' = op) (incoming s) (incoming s')
    /\ out s'
       = out s
         ++ map (fun pr => request_message client pr.2)
                (List.filter (fun pr => listener_matches l pr.1)
                             (zip (incoming s) (incoming s')))
    /\ suggest_id s' ≠ 0
    /\ set_heap s' = set_heap s /\ content_heap s' = content_heap s
    /\ sets s' = sets s.
Proof.
  intros l Hnone Hall Hid. unfold handle_client_listen. rewrite Hnone.
  cbv zeta. fold l.
  set (s1 := with_listeners _ s).
  destruct (suggest_existing_spec l (incoming s1) s1 Hall Hid)
    as (todo' & s' & Hrun & Hrel & Hout & Hid' & Hsh & Hch & Hss & Hls & _).
  rewrite Hrun, bind_ret_l. cbn [fst snd].
  eexists. split; [reflexivity|]. cbn.
  split; [rewrite Hls; reflexivity|].
  split; [exact Hrel|]. split; [exact Hout|]. split; [exact Hid'|].
  split; [exact Hsh|]. split; [exact Hch|exact Hss].
Qed.

End ServiceIncoming.

(** ** What every event keeps *)

Lemma grows_refl ee : grows (Some ee) ee.
Proof. split; [reflexivity|]. exists []. now rewrite app_nil_r. Qed.

Lemma entries_grow_refl m : entries_grow m m.
Proof.
  split; [|auto]. intros h ee' Hee. rewrite Hee. apply grows_refl.
Qed.

Lemma entries_grow_trans m1 m2 m3 :
  entries_grow m1 m2 -> entries_grow m2 m3 -> entries_grow m1 m3.
Proof.
  intros [Hg1 Hk1] [Hg2 Hk2]. split; [|auto].
  intros h ee3 Hee3. specialize (Hg2 h ee3 Hee3).
  destruct (m2 !! h) as [ee2|] eqn:Hee2.
  - specialize (Hg1 h ee2 Hee2). destruct Hg2 as [Hel2 [extra2 Hm2]].
    destruct (m1 !! h) as [ee1|] eqn:Hee1; cbn in *.
    + destruct Hg1 as [Hel1 [extra1 Hm1]]. split; [congruence|].
      exists (extra1 ++ extra2). rewrite Hm2, Hm1. now rewrite app_assoc.
    + rewrite Hm2. intros [? _]%app_eq_nil. contradiction.
  - destruct (m1 !! h) as [ee1|] eqn:Hee1; [|exact Hg2].
    destruct (Hk1 h) as [x Hx]; [eauto|]. congruence.
Qed.

(** An entry appended to, or a new entry with a mutation, put into the
    store. *)
Lemma entries_grow_insert m h ee mut :
  m !! h = Some ee \/ m !! h = None ->
  entries_grow m (<[h := with_mutations (mutations ee ++ [mut]) ee]> m).
Proof.
  intros Hold. split.
  - intros h' ee'. destruct (decide (h' = h)) as [->|Hne].
    + rewrite lookup_insert_eq. intros [= <-].
      destruct Hold as [->| ->]; cbn.
      * split; [reflexivity|]. eauto.
      * intros [_ ?]%app_eq_nil. discriminate.
    + rewrite lookup_insert_ne by congruence. intros Hee. rewrite Hee.
      apply grows_refl.
  - intros h' Hh. destruct (decide (h' = h)) as [->|Hne].
    + rewrite lookup_insert_eq. eauto.
    + now rewrite lookup_insert_ne by congruence.
Qed.

Lemma keeps_refl s : keeps s s.
Proof.
  unfold keeps. split; [reflexivity|]. split; [eauto|]. split; [auto|].
  split; [eauto using entries_grow_refl|].
  intros Hid. split; [exact Hid|]. exists []. now rewrite app_nil_r.
Qed.

Lemma keeps_trans s1 s2 s3 : keeps s1 s2 -> keeps s2 s3 -> keeps s1 s3.
Proof.
  intros (Hl1 & Hs1 & Hi1 & Hc1 & Ho1) (Hl2 & Hs2 & Hi2 & Hc2 & Ho2).
  unfold keeps. split; [etrans; eassumption|]. split; [|split; [|split]].
  - intros p st3 Hp. destruct (Hs2 p st3 Hp) as (st2 & Hp2 & Hcl2).
    destruct (Hs1 p st2 Hp2) as (st1 & Hp1 & Hcl1).
    exists st1. split; [exact Hp1|congruence].
  - intros p Hin Hsome. apply Hi2; [exact Hin|].
    apply Hi1; [|exact Hsome]. eapply elem_of_sublist; eassumption.
  - intros c ct3 Hc. destruct (Hc2 c ct3 Hc) as (ct2 & Hc2' & Hg2).
    destruct (Hc1 c ct2 Hc2') as (ct1 & Hc1' & Hg1).
    exists ct1. split; [exact Hc1'|]. eapply entries_grow_trans; eassumption.
  - intros Hid. destruct (Ho1 Hid) as (Hid2 & new1 & Hout1 & Hnz1).
    destruct (Ho2 Hid2) as (Hid3 & new2 & Hout2 & Hnz2).
    split; [exact Hid3|]. exists (new1 ++ new2).
    split; [rewrite Hout2, Hout1, app_assoc; reflexivity|].
    apply Forall_app. auto.
Qed.

(** A state built from [s] by updates that keep the list of sets or filter
    it, the owners, and the entries of the stores. *)
Lemma keeps_intro s s' new :
  sets s' `sublist_of` sets s ->
  (forall p st', set_heap s' !! p = Some st' ->
     exists st, set_heap s !! p = Some st /\ set_client st' = set_client st) ->
  (forall p, p ∈ sets s' -> is_Some (set_heap s !! p) ->
             is_Some (set_heap s' !! p)) ->
  (forall c ct', content_heap s' !! c = Some ct' ->
     exists ct, content_heap s !! c = Some ct
                /\ elements ct' = elements ct) ->
  suggest_id s' = suggest_id s ->
  out s' = out s ++ new ->
  Forall nonzero_request new ->
  keeps s s'.
Proof.
  intros Hl Hs Hi Hc Hid Hout Hnew. unfold keeps.
  split; [exact Hl|]. split; [exact Hs|]. split; [exact Hi|]. split.
  - intros c ct' Hc'. destruct (Hc c ct' Hc') as (ct & Hct & Hel).
    exists ct. split; [exact Hct|]. rewrite Hel. apply entries_grow_refl.
  - intros Hnz. rewrite Hid. split; [exact Hnz|]. eauto.
Qed.

Lemma nonzero_request_other c m :
  match m with SET_REQUEST _ _ => False | _ => True end ->
  nonzero_request (MQ_send c m).
Proof. intros Hm c' id pr [= -> ->]. destruct Hm. Qed.

Lemma nonzero_request_disconnect c : nonzero_request (Client_disconnect c).
Proof. intros c' id pr [=]. Qed.

Ltac heap_keeps :=
  cbn; intros ? ? Hlook;
  repeat first
    [ rewrite lookup_insert in Hlook
    | rewrite lookup_delete in Hlook ];
  repeat (case_decide; simplify_eq);
  try discriminate; eauto;
  try (eexists; split; [eassumption|]; cbn; auto).

Ltac sets_keeps :=
  cbn; intros ? Hin Hsome;
  try (apply list_elem_of_filter in Hin as [? Hin]);
  repeat first
    [ rewrite lookup_insert
    | rewrite lookup_delete ];
  repeat (case_decide; simplify_eq);
  cbn; try contradiction; eauto.

Ltac out_keeps :=
  first
    [ instantiate (1 := []); cbn; now rewrite app_nil_r
    | cbn; reflexivity ].

Ltac keeps_explicit :=
  eapply keeps_intro;
  [ cbn; first [reflexivity | apply sublist_filter]
  | heap_keeps
  | sets_keeps
  | heap_keeps
  | reflexivity
  | out_keeps
  | repeat constructor;
    first [ apply nonzero_request_disconnect
          | apply nonzero_request_other; exact I ] ].

Section ServiceKeeps.
Context `{Collaborators}.

Lemma operation_destroy_keeps op gc s n s' :
  _GSS_operation_destroy op gc s = Ret n s' -> keeps s s'.
Proof.
  unfold _GSS_operation_destroy. intros Hrun. inv_step Hrun.
  - match goal with
    | Hgc : collect_generation_garbage _ _ = _ |- _ =>
        apply collect_generation_garbage_id in Hgc as [-> _]
    end.
    keeps_explicit.
  - keeps_explicit.
Qed.

Lemma destroy_ops_keeps fuel p s n s' :
  destroy_ops fuel p s = Ret n s' -> keeps s s'.
Proof.
  revert s n. induction fuel as [|fuel IH]; intros s n Hrun;
    cbn [destroy_ops] in Hrun; inv_step Hrun.
  - apply keeps_refl.
  - apply keeps_refl.
  - eapply keeps_trans; [eapply operation_destroy_keeps|eapply IH];
      eassumption.
Qed.

Lemma set_destroy_dead_keeps p s n s' :
  set_destroy_dead p s = Ret n s' ->
  keeps s s' /\ set_heap s' !! p = None.
Proof.
  unfold set_destroy_dead. intros Hrun. inv_step Hrun.
  match goal with
  | Hd : destroy_ops _ _ _ = _ |- _ =>
      pose proof (destroy_ops_keeps _ _ _ _ _ Hd) as Hkeep1
  end.
  split.
  - eapply keeps_trans; [exact Hkeep1|].
    destruct (uint _ =? 0); keeps_explicit.
  - destruct (uint _ =? 0); cbn; apply lookup_delete_eq.
Qed.

(** The disconnect handler clears the owner of the set before it destroys
    the set; at the end the set is gone. *)
Lemma keeps_after_clear p st s s1 :
  set_heap s !! p = Some st ->
  keeps (put_set p (with_set_client None st) s) s1 ->
  set_heap s1 !! p = None ->
  keeps s s1.
Proof.
  intros Hst (Hl & Hs & Hi & Hc & Ho) Hgone. unfold keeps.
  split; [exact Hl|]. split; [|split; [|split]].
  - intros q st' Hq. destruct (Hs q st' Hq) as (sta & Hqa & Hcl).
    cbn in Hqa. destruct (decide (q = p)) as [->|Hne]; [congruence|].
    rewrite lookup_insert_ne in Hqa by congruence. eauto.
  - intros q Hin Hsome. apply Hi; [exact Hin|]. cbn.
    destruct (decide (q = p)) as [->|Hne].
    + rewrite lookup_insert_eq. eauto.
    + now rewrite lookup_insert_ne by congruence.
  - exact Hc.
  - exact Ho.
Qed.

Lemma handle_client_disconnect_keeps client s n s' :
  handle_client_disconnect client s = Ret n s' -> keeps s s'.
Proof.
  unfold handle_client_disconnect. intros Hrun.
  apply bind_Ret in Hrun as (k & s1 & j & Hset & Hlis & ->).
  assert (keeps s s1) as Hkeep1.
  { inv_step Hset; [|apply keeps_refl].
    match goal with
    | Hd : set_destroy_dead _ _ = _ |- _ =>
        apply set_destroy_dead_keeps in Hd as [Hkeep Hgone]
    end.
    eapply keeps_after_clear; eassumption. }
  eapply keeps_trans; [exact Hkeep1|].
  inv_step Hlis; [keeps_explicit|apply keeps_refl].
Qed.

Lemma emit_keeps o s :
  nonzero_request o -> keeps s (emit o s).
Proof.
  intros Ho. eapply keeps_intro with (new := [o]);
    [reflexivity|heap_keeps|sets_keeps|heap_keeps|reflexivity|reflexivity|].
  repeat constructor. exact Ho.
Qed.

Lemma client_disconnect_keeps client s n s' :
  GNUNET_SERVER_client_disconnect client s = Ret n s' -> keeps s s'.
Proof.
  unfold GNUNET_SERVER_client_disconnect. intros Hrun.
  eapply keeps_trans; [apply emit_keeps, nonzero_request_disconnect|].
  eapply handle_client_disconnect_keeps; exact Hrun.
Qed.

Lemma append_mutation_keeps p st ct hash ee flag call s :
  set_heap s !! p = Some st ->
  content_heap s !! content st = Some ct ->
  elements ct !! hash = Some ee \/ elements ct !! hash = None ->
  keeps s (append_mutation p st ct hash ee flag call s).
Proof.
  intros Hst Hct Hold. unfold keeps, append_mutation.
  split; [reflexivity|]. split; [heap_keeps|]. split; [sets_keeps|]. split.
  - cbn. intros c ct' Hc. rewrite lookup_insert in Hc.
    case_decide; simplify_eq.
    + eexists. split; [eassumption|]. cbn. now apply entries_grow_insert.
    + eauto using entries_grow_refl.
  - intros Hid. split; [exact Hid|]. exists []. cbn. now rewrite app_nil_r.
Qed.

Lemma execute_mutation_keeps p m s n s' :
  execute_mutation p m s = Ret n s' -> keeps s s'.
Proof.
  unfold execute_mutation. intros Hrun. destruct (msg_type m).
  - unfold execute_add in Hrun. inv_step Hrun;
      first [apply keeps_refl | apply append_mutation_keeps; auto].
  - unfold execute_remove in Hrun. inv_step Hrun;
      first [apply keeps_refl | apply append_mutation_keeps; auto].
  - inv_step Hrun. apply keeps_refl.
Qed.

Lemma flush_pending_keeps pms c s n s' :
  flush_pending pms c s = Ret n s' -> keeps s s'.
Proof.
  revert s n. induction pms as [|pm rest IH]; intros s n Hrun;
    cbn [flush_pending] in Hrun; inv_step Hrun.
  - apply keeps_refl.
  - match goal with
    | He : execute_mutation _ _ ?s0 = _, Hr : flush_pending _ _ _ = _ |- _ =>
        assert (keeps s s0) as Hkeep0 by keeps_explicit;
        pose proof (execute_mutation_keeps _ _ _ _ _ He) as Hkeep1;
        pose proof (IH _ _ Hr) as Hkeep2
    end.
    eapply keeps_trans; [exact Hkeep0|]. eapply keeps_trans; eassumption.
Qed.

Lemma send_client_element_keeps p s n s' :
  send_client_element p s = Ret n s' -> keeps s s'.
Proof.
  unfold send_client_element. intros Hrun. inv_step Hrun.
  - keeps_explicit.
  - match goal with
    | Hr : flush_pending _ _ ?s0 = _ |- _ =>
        assert (keeps s s0) as Hkeep0 by keeps_explicit;
        pose proof (flush_pending_keeps _ _ _ _ _ Hr) as Hkeep1
    end.
    eapply keeps_trans; [exact Hkeep0|]. eapply keeps_trans; [exact Hkeep1|].
    apply emit_keeps, nonzero_request_other. exact I.
  - keeps_explicit.
Qed.

Ltac by_disconnect_keeps :=
  match goal with
  | Hd : GNUNET_SERVER_client_disconnect _ _ = _ |- _ =>
      eapply client_disconnect_keeps; exact Hd
  end.

Lemma handle_client_iterate_keeps client s n s' :
  handle_client_iterate client s = Ret n s' -> keeps s s'.
Proof.
  unfold handle_client_iterate. intros Hrun. inv_step Hrun;
    try by_disconnect_keeps.
  match goal with
  | Hs : send_client_element _ ?s0 = _ |- _ =>
      assert (keeps s s0) as Hkeep0 by keeps_explicit;
      eapply keeps_trans; [exact Hkeep0|];
      eapply send_client_element_keeps; exact Hs
  end.
Qed.

Lemma handle_client_iter_ack_keeps client send_more s n s' :
  handle_client_iter_ack client send_more s = Ret n s' -> keeps s s'.
Proof.
  unfold handle_client_iter_ack. intros Hrun. inv_step Hrun;
    try by_disconnect_keeps.
  - eapply send_client_element_keeps; eassumption.
  - keeps_explicit.
Qed.

Lemma handle_client_mutation_keeps client m s n s' :
  handle_client_mutation client m s = Ret n s' -> keeps s s'.
Proof.
  unfold handle_client_mutation. intros Hrun. inv_step Hrun;
    try by_disconnect_keeps.
  - keeps_explicit.
  - eapply execute_mutation_keeps; eassumption.
Qed.

Lemma handle_client_cancel_keeps client request_id s n s' :
  handle_client_cancel client request_id s = Ret n s' -> keeps s s'.
Proof.
  unfold handle_client_cancel. intros Hrun. inv_step Hrun;
    try by_disconnect_keeps.
  - eapply operation_destroy_keeps; eassumption.
  - apply keeps_refl.
Qed.

Lemma handle_client_copy_lazy_prepare_keeps client s n s' :
  handle_client_copy_lazy_prepare client s = Ret n s' -> keeps s s'.
Proof.
  unfold handle_client_copy_lazy_prepare. intros Hrun. inv_step Hrun;
    try by_disconnect_keeps.
  keeps_explicit.
Qed.

Lemma advance_generation_keeps p s n s' :
  advance_generation p s = Ret n s' -> keeps s s'.
Proof.
  intros Hrun. apply advance_generation_Ret in Hrun
    as (st & ct & st' & Hst & Hct & -> & _ & _ & _ & Hcl).
  keeps_explicit.
Qed.

Lemma handle_client_evaluate_keeps client app target mode rid s n s' :
  handle_client_evaluate client app target mode rid s = Ret n s' ->
  keeps s s'.
Proof.
  unfold handle_client_evaluate. intros Hrun. inv_step Hrun;
    try by_disconnect_keeps.
  match goal with
  | Ha : advance_generation _ _ = _ |- _ =>
      pose proof (advance_generation_keeps _ _ _ _ Ha) as Hkeep1
  end.
  eapply keeps_trans; [exact Hkeep1|]. keeps_explicit.
Qed.

Lemma handle_client_accept_keeps client id rid mode s n s' :
  handle_client_accept client id rid mode s = Ret n s' -> keeps s s'.
Proof.
  unfold handle_client_accept. intros Hrun. inv_step Hrun;
    try by_disconnect_keeps.
  - match goal with
    | Ha : advance_generation _ ?s0 = _ |- _ =>
        assert (keeps s s0) as Hkeep0 by keeps_explicit;
        eapply keeps_trans; [exact Hkeep0|];
        eapply advance_generation_keeps; exact Ha
    end.
  - keeps_explicit.
Qed.

Lemma incoming_suggest_keeps op l s n r :
  incoming_suggest op l s = Ret n r -> keeps s r.2.
Proof.
  unfold incoming_suggest. intros Hrun. inv_step Hrun. cbn [snd].
  unfold keeps. split; [reflexivity|]. split; [heap_keeps|].
  split; [sets_keeps|]. split.
  - cbn. eauto using entries_grow_refl.
  - intros Hid. cbn. split.
    + destruct (Z.eqb_spec (uint (suggest_id s + 1)) 0) as [Hz|Hnz];
        [rewrite Hz; discriminate|exact Hnz].
    + eexists. split; [reflexivity|]. repeat constructor.
      intros c id pr [= _ <- _]. exact Hid.
Qed.

Lemma suggest_existing_keeps l todo s n r :
  suggest_existing l todo s = Ret n r -> keeps s r.2.
Proof.
  revert s n r. induction todo as [|op rest IH]; intros s n r Hrun;
    cbn [suggest_existing] in Hrun.
  - inv_step Hrun. apply keeps_refl.
  - apply bind_Ret in Hrun as (k & r1 & j & H1 & H2 & ->).
    apply bind_Ret in H2 as (k2 & r2 & j2 & H2 & H3 & ->).
    inv_step H3. cbn [snd].
    apply IH in H2.
    eapply keeps_trans; [|exact H2].
    destruct (listener_matches l op).
    + now apply incoming_suggest_keeps in H1.
    + inv_step H1. apply keeps_refl.
Qed.

Lemma handle_client_listen_keeps client o app s n s' :
  handle_client_listen client o app s = Ret n s' -> keeps s s'.
Proof.
  unfold handle_client_listen. intros Hrun. inv_step Hrun;
    try by_disconnect_keeps.
  match goal with
  | Hs : suggest_existing _ _ ?s0 = _ |- _ =>
      assert (keeps s s0) as Hkeep0 by keeps_explicit;
      pose proof (suggest_existing_keeps _ _ _ _ _ Hs) as Hkeep1
  end.
  eapply keeps_trans; [exact Hkeep0|]. eapply keeps_trans; [exact Hkeep1|].
  keeps_explicit.
Qed.

Lemma channel_new_cb_keeps initiator port_ok s n s' :
  channel_new_cb initiator port_ok s = Ret n s' -> keeps s s'.
Proof.
  unfold channel_new_cb. intros Hrun. inv_step Hrun.
  - keeps_explicit.
  - apply keeps_refl.
Qed.

Lemma handle_incoming_msg_keeps op mh s n r :
  handle_incoming_msg op mh s = Ret n r -> keeps s r.2.
Proof.
  unfold handle_incoming_msg. intros Hrun. inv_step Hrun; cbn [snd];
    try apply keeps_refl.
  all: try match goal with
           | Hs : incoming_suggest _ _ _ = _ |- _ =>
               pose proof (incoming_suggest_keeps _ _ _ _ _ Hs) as Hkeep1;
               eapply keeps_trans; [exact Hkeep1|]
           end.
  all: keeps_explicit.
Qed.

Lemma dispatch_p2p_message_keeps a mh s n s' :
  dispatch_p2p_message a mh s = Ret n s' -> keeps s s'.
Proof.
  unfold dispatch_p2p_message, incoming_destroy. intros Hrun.
  inv_step Hrun; try apply keeps_refl.
  all: match goal with
       | Hs : handle_incoming_msg _ _ _ = _ |- _ =>
           pose proof (handle_incoming_msg_keeps _ _ _ _ _ Hs) as Hkeep1
       end.
  all: try exact Hkeep1.
  all: eapply keeps_trans; [exact Hkeep1|]; keeps_explicit.
Qed.

End ServiceKeeps.

(** ** Invariants of every run *)

Ltac by_disconnect_keeps' :=
  match goal with
  | Hd : GNUNET_SERVER_client_disconnect _ _ = _ |- _ =>
      eapply client_disconnect_keeps; exact Hd
  end.

Section ServiceInvariants.
Context `{Collaborators}.

Lemma handle_client_create_set_cases client o s n s' :
  handle_client_create_set client o s = Ret n s' ->
  keeps s s' \/ adds_set client s s'.
Proof.
  unfold handle_client_create_set. intros Hrun. inv_step Hrun;
    try (left; by_disconnect_keeps').
  right. unfold adds_set. split; [assumption|]. split; [reflexivity|].
  split; [eexists; split; reflexivity|].
  split; [|split; reflexivity].
  cbn. intros c ct' Hc. rewrite lookup_insert in Hc.
  case_decide; simplify_eq; [right; cbn; split; [lia|reflexivity]|left; eauto].
Qed.

Lemma handle_client_copy_lazy_connect_cases client k s n s' :
  handle_client_copy_lazy_connect client k s = Ret n s' ->
  keeps s s' \/ adds_set client s s'.
Proof.
  unfold handle_client_copy_lazy_connect. intros Hrun. inv_step Hrun;
    try (left; by_disconnect_keeps').
  - match goal with
    | Ha : advance_generation _ _ = _ |- _ =>
        apply advance_generation_Ret in Ha
          as (st & ct & st2 & Hst & Hct & -> & _ & _ & _ & _)
    end.
    cbn in Hst. rewrite lookup_insert_eq in Hst. injection Hst as <-.
    cbn in Hct. rewrite lookup_insert_eq in Hct. injection Hct as <-.
    right. unfold adds_set. split; [assumption|]. split; [reflexivity|].
    split.
    { eexists. split; [cbn; rewrite !insert_insert_eq; reflexivity|].
      reflexivity. }
    split; [|split; reflexivity].
    cbn. intros c ct' Hc. left. rewrite insert_insert_eq in Hc.
    rewrite lookup_insert in Hc. case_decide; simplify_eq; eauto.
  - left. match goal with
    | Hd : GNUNET_SERVER_client_disconnect _ ?s0 = _ |- _ =>
        assert (keeps s s0) as Hkeep0 by keeps_explicit;
        eapply keeps_trans; [exact Hkeep0|];
        eapply client_disconnect_keeps; exact Hd
    end.
Qed.

Lemma step_cases e s n s' :
  step e s = Ret n s' ->
  keeps s s' \/ exists client, adds_set client s s'.
Proof.
  intros Hrun. destruct e; cbn [step] in Hrun.
  - destruct (handle_client_create_set_cases _ _ _ _ _ Hrun); eauto.
  - left. eapply handle_client_mutation_keeps; eassumption.
  - left. eapply handle_client_iterate_keeps; eassumption.
  - left. eapply handle_client_iter_ack_keeps; eassumption.
  - left. eapply handle_client_evaluate_keeps; eassumption.
  - left. eapply handle_client_accept_keeps; eassumption.
  - left. eapply handle_client_cancel_keeps; eassumption.
  - left. eapply handle_client_copy_lazy_prepare_keeps; eassumption.
  - destruct (handle_client_copy_lazy_connect_cases _ _ _ _ _ Hrun); eauto.
  - left. eapply handle_client_listen_keeps; eassumption.
  - left. eapply handle_client_disconnect_keeps; eassumption.
  - left. eapply channel_new_cb_keeps; eassumption.
  - left. eapply dispatch_p2p_message_keeps; eassumption.
Qed.

Lemma registry_ok_keeps s s' :
  registry_ok s -> keeps s s' -> wf s' -> registry_ok s'.
Proof.
  intros (_ & Hnd & Hlive & Huniq & Hne & Hid & Hout)
         (Hl & Hs & Hi & Hc & Ho) Hwf.
  unfold registry_ok. split; [exact Hwf|].
  split; [eapply sublist_NoDup; eassumption|].
  destruct (Ho Hid) as (Hid' & new & Hout' & Hnew).
  split; [|split; [|split; [|split]]].
  - intros p Hin.
    assert (p ∈ sets s) as Hin0 by (eapply elem_of_sublist; eassumption).
    destruct (Hlive p Hin0) as (st & c & Hst & Hcl).
    destruct (Hi p Hin) as [st' Hst']; [eauto|].
    destruct (Hs p st' Hst') as (st0 & Hst0 & Hcl').
    exists st', c. split; [exact Hst'|]. congruence.
  - intros p q st' stq' Hp Hq Hst' Hstq' Hsame.
    destruct (Hs p st' Hst') as (st & Hst & Hcl).
    destruct (Hs q stq' Hstq') as (stq & Hstq & Hclq).
    eapply (Huniq p q st stq); try eassumption.
    + eapply elem_of_sublist; eassumption.
    + eapply elem_of_sublist; eassumption.
    + congruence.
  - intros c ct' h ee' Hct' Hee'.
    destruct (Hc c ct' Hct') as (ct & Hct & Hgrow & _).
    specialize (Hgrow h ee' Hee').
    destruct (elements ct !! h) as [ee|] eqn:Hee; cbn in Hgrow.
    + destruct Hgrow as [_ [extra Hm]]. rewrite Hm.
      intros [Hnil _]%app_eq_nil. exact (Hne c ct h ee Hct Hee Hnil).
    + exact Hgrow.
  - exact Hid'.
  - rewrite Hout'. apply Forall_app. auto.
Qed.

Lemma set_get_None_not_owned client s p st :
  set_get client s = None ->
  p ∈ sets s -> set_heap s !! p = Some st ->
  set_client st ≠ Some client.
Proof.
  unfold set_get. intros Hfind Hin Hst Hcl.
  apply list_elem_of_In in Hin.
  pose proof (find_none _ _ Hfind p Hin) as Hno.
  unfold owned_by in Hno. rewrite Hst in Hno.
  now apply bool_decide_eq_false in Hno.
Qed.

Lemma registry_ok_adds client s s' :
  registry_ok s -> adds_set client s s' -> wf s' -> registry_ok s'.
Proof.
  intros (Hwf0 & Hnd & Hlive & Huniq & Hne & Hid & Hout)
         (Hnone & Hsets & (stp & Hheap & Hcl) & Hc & Hid' & Hout') Hwf.
  assert (forall p, p ∈ sets s -> p ≠ next_addr s) as Hfresh.
  { intros p Hin. destruct (Hlive p Hin) as (st & c & Hst & _).
    destruct Hwf0 as [Hw _]. apply Hw in Hst. lia. }
  unfold registry_ok. split; [exact Hwf|].
  rewrite Hsets, Hheap, Hid', Hout'.
  split; [|split; [|split; [|split; [|split]]]].
  - constructor; [|exact Hnd]. intros Hin. now apply (Hfresh _ Hin).
  - intros p [->|Hin]%elem_of_cons.
    + exists stp, client. rewrite lookup_insert_eq. auto.
    + rewrite lookup_insert_ne by (apply not_eq_sym, Hfresh, Hin).
      now apply Hlive.
  - intros p q st stq [->|Hp]%elem_of_cons [->|Hq]%elem_of_cons; try reflexivity.
    + rewrite lookup_insert_eq.
      rewrite lookup_insert_ne by (apply not_eq_sym, Hfresh, Hq).
      intros [= <-] Hstq Hsame. exfalso.
      eapply set_get_None_not_owned; [exact Hnone|exact Hq|exact Hstq|].
      congruence.
    + rewrite lookup_insert_eq.
      rewrite lookup_insert_ne by (apply not_eq_sym, Hfresh, Hp).
      intros Hst [= <-] Hsame. exfalso.
      eapply set_get_None_not_owned; [exact Hnone|exact Hp|exact Hst|].
      congruence.
    + rewrite !lookup_insert_ne by (apply not_eq_sym, Hfresh; assumption).
      now apply Huniq.
  - intros c ct' h ee' Hct' Hee'.
    destruct (Hc c ct' Hct') as [(ct & Hct & Hel)|[_ Hel]].
    + rewrite Hel in Hee'. eapply Hne; eassumption.
    + rewrite Hel in Hee'. now rewrite lookup_empty in Hee'.
  - exact Hid.
  - exact Hout.
Qed.

Lemma step_registry_ok e s n s' :
  registry_ok s -> step e s = Ret n s' -> registry_ok s'.
Proof.
  intros Hok Hstep.
  assert (wf s') as Hwf.
  { destruct Hok as [Hwf0 _].
    destruct (step_step_rel _ _ _ _ Hwf0 Hstep) as (_ & Hwf & _). exact Hwf. }
  destruct (step_cases _ _ _ _ Hstep) as [Hk|[client Ha]].
  - eapply registry_ok_keeps; eassumption.
  - eapply registry_ok_adds; eassumption.
Qed.

Lemma run_registry_ok evs s n s' :
  registry_ok s -> run evs s = Ret n s' -> registry_ok s'.
Proof.
  revert s n. induction evs as [|e rest IH]; intros s n Hok Hrun.
  - cbn in Hrun. apply ret_Ret in Hrun as [<- _]. exact Hok.
  - apply run_cons in Hrun as (k & s1 & j & Hstep & Hrest).
    eapply IH; [|exact Hrest]. eapply step_registry_ok; eassumption.
Qed.

Lemma registry_ok_initial : registry_ok initial_service.
Proof.
  unfold registry_ok. split; [apply wf_initial_service|]. cbn.
  split; [constructor|].
  split; [intros p Hin; now apply elem_of_nil in Hin|].
  split; [intros p q st stq Hin; now apply elem_of_nil in Hin|].
  split; [intros c ct h ee Hc; now rewrite lookup_empty in Hc|].
  split; [discriminate|constructor].
Qed.

(** The set a client owns is what [set_get] finds for it. *)
Lemma registry_ok_set_get s p st c :
  registry_ok s ->
  p ∈ sets s -> set_heap s !! p = Some st -> set_client st = Some c ->
  set_get c s = Some p.
Proof.
  intros (_ & _ & Hlive & Huniq & _) Hin Hst Hcl.
  unfold set_get.
  destruct (List.find (owned_by c s) (sets s)) as [q|] eqn:Hfind.
  - apply find_some in Hfind as [Hq Hown].
    apply list_elem_of_In in Hq. unfold owned_by in Hown.
    destruct (set_heap s !! q) as [stq|] eqn:Hstq; [|discriminate].
    apply bool_decide_eq_true in Hown.
    f_equal. eapply (Huniq q p stq st); try eassumption. congruence.
  - exfalso. eapply (set_get_None_not_owned c s p st); eassumption.
Qed.

(** X18: no client ever has two sets.  After any run of the service from
    its start, the list of sets has no duplicates, every set in it is
    allocated and has an owner, and looking up the owner with [set_get]
    gives this very set: no set is hidden behind another set of the same
    client. *)
Theorem one_set_per_client
    (evs : list Event) (n : nat) (s : Service) :
  run evs initial_service = Ret n s ->
  NoDup (sets s)
  /\ forall p, p ∈ sets s ->
       exists st c, set_heap s !! p = Some st
                    /\ set_client st = Some c
                    /\ set_get c s = Some p.
Proof.
  intros Hrun.
  pose proof (run_registry_ok _ _ _ _ registry_ok_initial Hrun) as Hok.
  pose proof Hok as (Hwf & Hnd & Hlive & Hrest).
  split; [exact Hnd|]. intros p Hin.
  destruct (Hlive p Hin) as (st & c & Hst & Hcl).
  exists st, c. split; [exact Hst|]. split; [exact Hcl|].
  eapply registry_ok_set_get; eassumption.
Qed.

(** X19: an element entry always has a mutation.  After any run of the
    service from its start, every entry of every store has a mutation
    list that is not empty, so the assertion on the list at the head of
    the membership test holds for every entry the service can look up. *)
Theorem entries_always_have_mutations
    (evs : list Event) (n : nat) (s : Service) (c : ptr) (ct : SetContent)
    (h : GNUNET_HashCode) (ee : ElementEntry) :
  run evs initial_service = Ret n s ->
  content_heap s !! c = Some ct ->
  elements ct !! h = Some ee ->
  mutations ee ≠ [].
Proof.
  intros Hrun.
  pose proof (run_registry_ok _ _ _ _ registry_ok_initial Hrun)
    as (_ & _ & _ & _ & Hne & _).
  apply Hne.
Qed.

(** X20: the accept id zero is never given out.  After any run of the
    service from its start, the accept id in store is not zero, and no
    request message queued for a client carries the accept id zero -- the
    value that marks an incoming operation as not yet suggested. *)
Theorem accept_ids_are_never_zero
    (evs : list Event) (n : nat) (s : Service) :
  run evs initial_service = Ret n s ->
  suggest_id s ≠ 0
  /\ forall c id pr, MQ_send c (SET_REQUEST id pr) ∈ out s -> id ≠ 0.
Proof.
  intros Hrun.
  pose proof (run_registry_ok _ _ _ _ registry_ok_initial Hrun)
    as (_ & _ & _ & _ & _ & Hid & Hout).
  split; [exact Hid|]. intros c id pr Hin.
  rewrite Forall_forall in Hout. exact (Hout _ Hin c id pr eq_refl).
Qed.

End ServiceInvariants.

(** ** The history of a store *)

Section ServiceHistory.
Context `{Collaborators}.

Lemma step_history e s n s' c ct' :
  step e s = Ret n s' ->
  content_heap s' !! c = Some ct' -> (c < next_addr s)%N ->
  exists ct, content_heap s !! c = Some ct
             /\ entries_grow (elements ct) (elements ct').
Proof.
  intros Hstep Hc Hlt.
  destruct (step_cases _ _ _ _ Hstep)
    as [(_ & _ & _ & Hk & _)|[client (_ & _ & _ & Ha & _)]].
  - exact (Hk c ct' Hc).
  - destruct (Ha c ct' Hc) as [(ct & Hct & Hel)|[Hge _]]; [|lia].
    exists ct. split; [exact Hct|]. rewrite Hel. apply entries_grow_refl.
Qed.

Lemma run_history evs s n s' c ct' :
  wf s ->
  run evs s = Ret n s' ->
  content_heap s' !! c = Some ct' -> (c < next_addr s)%N ->
  exists ct, content_heap s !! c = Some ct
             /\ entries_grow (elements ct) (elements ct').
Proof.
  revert s n. induction evs as [|e rest IH]; intros s n Hwf Hrun Hc Hlt.
  - cbn in Hrun. apply ret_Ret in Hrun as [<- _].
    exists ct'. split; [exact Hc|apply entries_grow_refl].
  - apply run_cons in Hrun as (k & s1 & j & Hstep & Hrest).
    destruct (step_step_rel _ _ _ _ Hwf Hstep) as (Hn & Hwf1 & _).
    destruct (IH s1 j Hwf1 Hrest Hc) as (ct1 & Hct1 & Hg1); [lia|].
    destruct (step_history _ _ _ _ _ _ Hstep Hct1 Hlt) as (ct & Hct & Hg).
    exists ct. split; [exact Hct|]. eapply entries_grow_trans; eassumption.
Qed.

(** X21: the mutation history of a store is append-only.  Over any run of
    the service, a store that is there at the start and at the end has
    kept every entry; each entry still describes the same element, and its
    list of mutations is the old list with mutations appended: nothing
    recorded is ever rewritten or collected, and an entry that is new has
    a mutation. *)
Theorem mutation_history_is_append_only
    (evs : list Event) (s : Service) (n : nat) (s' : Service) (c : ptr)
    (ct ct' : SetContent) :
  wf s ->
  run evs s = Ret n s' ->
  content_heap s !! c = Some ct ->
  content_heap s' !! c = Some ct' ->
  (forall h ee, elements ct !! h = Some ee ->
     exists ee' extra,
       elements ct' !! h = Some ee'
       /\ element ee' = element ee
       /\ mutations ee' = mutations ee ++ extra)
  /\ (forall h ee', elements ct !! h = None -> elements ct' !! h = Some ee' ->
        mutations ee' ≠ []).
Proof.
  intros Hwf Hrun Hct Hct'.
  assert (c < next_addr s)%N as Hlt by (destruct Hwf as [_ Hw]; eauto).
  destruct (run_history _ _ _ _ _ _ Hwf Hrun Hct' Hlt)
    as (ct0 & Hct0 & Hgrow & Hkeep).
  simplify_eq. split.
  - intros h ee Hee. destruct (Hkeep h) as [ee' Hee']; [eauto|].
    specialize (Hgrow h ee' Hee'). rewrite Hee in Hgrow.
    destruct Hgrow as [Hel [extra Hm]]. eauto.
  - intros h ee' Hnone Hee'. specialize (Hgrow h ee' Hee').
    now rewrite Hnone in Hgrow.
Qed.

End ServiceHistory.

(** ** Two sets on one store *)

Section ServiceCrossing.
Context `{Collaborators}.


End ServiceCrossing.

(** ** A client goes away *)

Section ServiceDisconnect.
Context `{Collaborators}.

(** X23: when a client disconnects, its set is released and nothing of
    another client is touched.  For a client whose set has a store with a
    reference count that is not zero and only operations bound to the set,
    the disconnect handler runs without failure; afterwards the set is
    neither allocated nor listed, no lazy-copy ticket names it, and the
    other sets, the other stores and the queued messages are as they were.
    The store of the set is freed with its last reference; otherwise it
    stays with the reference count lowered by one, its entries untouched,
    the pending mutations of the departed set dropped -- and its count of
    running iterations as it was, even if the set was being iterated. *)
Theorem disconnect_releases_set
    (client : Client) (s : Service) (p : ptr) (st : GSS_Set)
    (ct : SetContent) :
  set_get client s = Some p ->
  set_heap s !! p = Some st ->
  content_heap s !! content st = Some ct ->
  refcount ct ≠ 0 ->
  bound_to p (ops st) ->
  exists s',
    handle_client_disconnect client s = Ret 0 s'
    /\ set_heap s' = delete p (set_heap s)
    /\ sets s' = filter (fun q => q ≠ p) (sets s)
    /\ lazy_copy s' = filter (fun cr => source_set cr ≠ p) (lazy_copy s)
    /\ content_heap s'
       = (if uint (refcount ct - 1) =? 0
          then delete (content st) (content_heap s)
          else <[content st :=
                   {| elements := elements ct;
                      latest_generation := latest_generation ct;
                      pending_mutations :=
                        filter (fun pm => pm_set pm ≠ p)
                               (pending_mutations ct);
                      refcount := uint (refcount ct - 1);
                      iterator_count := iterator_count ct |}]>
                 (content_heap s))
    /\ out s' = out s
    /\ incoming s' = incoming s.
Proof.
  intros Hget Hst Hct Href Hbound.
  exists (without_set client p st ct s).
  split; [now apply handle_client_disconnect_owner|].
  unfold without_set. cbv zeta.
  match goal with
  | |- context [listener_get client ?s5] =>
      destruct (listener_get client s5)
  end.
  all: destruct (uint (refcount ct - 1) =? 0); cbn.
  all: rewrite ?delete_insert_eq; repeat split; reflexivity.
Qed.

End ServiceDisconnect.

(** ** The generations stay in order *)

Lemma neutral_refl s : neutral s s.
Proof.
  unfold neutral. split; [lia|]. split.
  - intros p st Hp. exists st. split; [exact Hp|apply same_generation_refl].
  - intros c ct Hc. eauto.
Qed.

Lemma neutral_trans s1 s2 s3 : neutral s1 s2 -> neutral s2 s3 -> neutral s1 s3.
Proof.
  intros (Hn1 & Hs1 & Hc1) (Hn2 & Hs2 & Hc2). unfold neutral.
  split; [lia|]. split.
  - intros p st3 Hp. destruct (Hs2 p st3 Hp) as (st2 & Hp2 & Hg2).
    destruct (Hs1 p st2 Hp2) as (st1 & Hp1 & Hg1).
    exists st1. split; [exact Hp1|].
    unfold same_generation in *. intuition congruence.
  - intros c ct3 Hc. destruct (Hc2 c ct3 Hc) as (ct2 & Hc2' & Hl2 & He2).
    destruct (Hc1 c ct2 Hc2') as (ct1 & Hc1' & Hl1 & He1).
    exists ct1. split; [exact Hc1'|]. split; congruence.
Qed.

Lemma generations_core_neutral b s s' :
  generations_core b s -> neutral s s' -> generations_core b s'.
Proof.
  intros (Hptr & Hsets & Hstores) (Hn & Hs & Hc).
  unfold generations_core. split; [|split].
  - intros p st' Hp. destruct (Hs p st' Hp) as (st & Hp0 & Hcont & _).
    rewrite Hcont. apply Hptr in Hp0. lia.
  - intros p st' ct' Hp Hct'.
    destruct (Hs p st' Hp) as (st & Hp0 & Hcont & Hcur & Hex).
    rewrite Hcont in Hct'.
    destruct (Hc _ ct' Hct') as (ct & Hct & Hl & _).
    rewrite Hcur, Hex, Hl. now apply (Hsets p st ct).
  - intros c ct' Hct'.
    destruct (Hc c ct' Hct') as (ct & Hct & Hl & He).
    rewrite Hl, He. now apply (Hstores c).
Qed.

Lemma generations_core_mono b b' s :
  b <= b' -> generations_core b s -> generations_core b' s.
Proof.
  intros Hb (Hptr & Hsets & Hstores). unfold generations_core.
  split; [exact Hptr|]. split; [exact Hsets|].
  intros c ct Hc. destruct (Hstores c ct Hc) as [Hl Hm].
  split; [lia|exact Hm].
Qed.

Ltac heap_neutral :=
  cbn; intros ? ? Hlook;
  repeat first
    [ rewrite lookup_insert in Hlook
    | rewrite lookup_delete in Hlook ];
  repeat (case_decide; simplify_eq);
  try discriminate; eauto using same_generation_refl;
  try (eexists; split; [eassumption|];
       unfold same_generation; cbn; auto).

Ltac neutral_explicit :=
  unfold neutral; split; [cbn; lia|]; split; heap_neutral.

Section ServiceNeutral.
Context `{Collaborators}.

Lemma operation_destroy_neutral op gc s n s' :
  _GSS_operation_destroy op gc s = Ret n s' -> neutral s s'.
Proof.
  unfold _GSS_operation_destroy. intros Hrun. inv_step Hrun.
  - match goal with
    | Hgc : collect_generation_garbage _ _ = _ |- _ =>
        apply collect_generation_garbage_id in Hgc as [-> _]
    end.
    neutral_explicit.
  - neutral_explicit.
Qed.

Lemma destroy_ops_neutral fuel p s n s' :
  destroy_ops fuel p s = Ret n s' -> neutral s s'.
Proof.
  revert s n. induction fuel as [|fuel IH]; intros s n Hrun;
    cbn [destroy_ops] in Hrun; inv_step Hrun.
  - apply neutral_refl.
  - apply neutral_refl.
  - eapply neutral_trans; [eapply operation_destroy_neutral|eapply IH];
      eassumption.
Qed.

Lemma set_destroy_dead_neutral p s n s' :
  set_destroy_dead p s = Ret n s' -> neutral s s'.
Proof.
  unfold set_destroy_dead. intros Hrun. inv_step Hrun.
  match goal with
  | Hd : destroy_ops _ _ _ = _ |- _ =>
      pose proof (destroy_ops_neutral _ _ _ _ _ Hd) as Hneu1
  end.
  eapply neutral_trans; [exact Hneu1|].
  destruct (uint _ =? 0); neutral_explicit.
Qed.

Lemma handle_client_disconnect_neutral client s n s' :
  handle_client_disconnect client s = Ret n s' -> neutral s s'.
Proof.
  unfold handle_client_disconnect. intros Hrun.
  apply bind_Ret in Hrun as (k & s1 & j & Hset & Hlis & ->).
  assert (neutral s s1) as Hneu1.
  { inv_step Hset; [|apply neutral_refl].
    match goal with
    | Hd : set_destroy_dead _ ?s0 = _ |- _ =>
        assert (neutral s s0) as Hneu0 by neutral_explicit;
        eapply neutral_trans; [exact Hneu0|];
        eapply set_destroy_dead_neutral; exact Hd
    end. }
  eapply neutral_trans; [exact Hneu1|].
  inv_step Hlis; [neutral_explicit|apply neutral_refl].
Qed.

Lemma client_disconnect_neutral client s n s' :
  GNUNET_SERVER_client_disconnect client s = Ret n s' -> neutral s s'.
Proof.
  unfold GNUNET_SERVER_client_disconnect. intros Hrun.
  eapply neutral_trans; [|eapply handle_client_disconnect_neutral; exact Hrun].
  neutral_explicit.
Qed.

Lemma handle_client_cancel_neutral client request_id s n s' :
  handle_client_cancel client request_id s = Ret n s' -> neutral s s'.
Proof.
  unfold handle_client_cancel. intros Hrun. inv_step Hrun.
  - eapply operation_destroy_neutral; eassumption.
  - apply neutral_refl.
  - eapply client_disconnect_neutral; eassumption.
Qed.

Lemma handle_client_copy_lazy_prepare_neutral client s n s' :
  handle_client_copy_lazy_prepare client s = Ret n s' -> neutral s s'.
Proof.
  unfold handle_client_copy_lazy_prepare. intros Hrun. inv_step Hrun.
  - neutral_explicit.
  - eapply client_disconnect_neutral; eassumption.
Qed.

Lemma same_heaps_neutral s s' :
  set_heap s' = set_heap s -> content_heap s' = content_heap s ->
  next_addr s' = next_addr s ->
  neutral s s'.
Proof.
  intros Hs Hc Hn. unfold neutral. rewrite Hs, Hc, Hn.
  split; [lia|]. split; eauto using same_generation_refl.
Qed.

Lemma handle_client_listen_neutral client o app s n s' :
  handle_client_listen client o app s = Ret n s' -> neutral s s'.
Proof.
  unfold handle_client_listen. intros Hrun. inv_step Hrun.
  - eapply client_disconnect_neutral; eassumption.
  - match goal with
    | Hs : suggest_existing _ _ _ = _ |- _ =>
        apply suggest_existing_heaps in Hs as (Hs1 & Hs2 & Hs3)
    end.
    apply same_heaps_neutral; cbn; assumption.
Qed.

Lemma channel_new_cb_neutral initiator port_ok s n s' :
  channel_new_cb initiator port_ok s = Ret n s' -> neutral s s'.
Proof.
  unfold channel_new_cb. intros Hrun. inv_step Hrun.
  - neutral_explicit.
  - apply neutral_refl.
Qed.

Lemma dispatch_p2p_message_neutral a mh s n s' :
  dispatch_p2p_message a mh s = Ret n s' -> neutral s s'.
Proof.
  unfold dispatch_p2p_message, incoming_destroy. intros Hrun.
  inv_step Hrun; try apply neutral_refl.
  all: match goal with
       | Hs : handle_incoming_msg _ _ _ = _ |- _ =>
           apply handle_incoming_msg_heaps in Hs as (Hs1 & Hs2 & Hs3)
       end.
  all: apply same_heaps_neutral; cbn; assumption.
Qed.

End ServiceNeutral.

Section ServiceGenerations.
Context `{Collaborators}.

Lemma append_mutation_generations b p st ct hash ee flag call s :
  generations_core b s ->
  set_heap s !! p = Some st ->
  content_heap s !! content st = Some ct ->
  elements ct !! hash = Some ee \/ mutations ee = [] ->
  generations_core b (append_mutation p st ct hash ee flag call s).
Proof.
  intros (Hptr & Hsets & Hstores) Hst Hct Hold.
  destruct (Hsets p st ct Hst Hct) as [Hcur Hranges].
  destruct (Hstores _ ct Hct) as [Hlatest Hmuts].
  unfold generations_core, append_mutation.
  split; [|split].
  - cbn. intros q stq Hq. rewrite lookup_insert in Hq.
    case_decide; simplify_eq; cbn; eauto.
  - cbn. intros q stq ctq Hq Hctq.
    assert (exists st0, set_heap s !! q = Some st0
                        /\ content stq = content st0
                        /\ current_generation stq = current_generation st0
                        /\ excluded_generations stq = excluded_generations st0)
      as (st0 & Hq0 & Hc0 & Hg0 & He0).
    { rewrite lookup_insert in Hq. case_decide; simplify_eq; eauto. }
    rewrite Hg0, He0. rewrite Hc0 in Hctq.
    rewrite lookup_insert in Hctq. case_decide; simplify_eq; cbn.
    + match goal with Heq : content st = content st0 |- _ =>
        rewrite Heq in Hct end.
      now apply (Hsets q st0 ct).
    + now apply (Hsets q st0 ctq).
  - cbn. intros c ctc Hc. rewrite lookup_insert in Hc.
    case_decide; simplify_eq; cbn; [|now apply (Hstores c)].
    split; [exact Hlatest|]. intros h eh Hh.
    rewrite lookup_insert in Hh. case_decide; simplify_eq; cbn.
    + apply Forall_app. split.
      * destruct Hold as [Hee| ->]; [eapply Hmuts; exact Hee|constructor].
      * repeat constructor. cbn. lia.
    + eapply Hmuts; eassumption.
Qed.

Lemma execute_mutation_generations b p m s n s' :
  generations_core b s -> execute_mutation p m s = Ret n s' ->
  generations_core b s'.
Proof.
  unfold execute_mutation. intros Hok Hrun. destruct (msg_type m).
  - unfold execute_add in Hrun. inv_step Hrun;
      first [exact Hok | apply append_mutation_generations; auto].
  - unfold execute_remove in Hrun. inv_step Hrun;
      first [exact Hok | apply append_mutation_generations; auto].
  - inv_step Hrun. exact Hok.
Qed.

Lemma flush_pending_generations b pms c s n s' :
  generations_core b s -> flush_pending pms c s = Ret n s' ->
  generations_core b s'.
Proof.
  revert s n. induction pms as [|pm rest IH]; intros s n Hok Hrun;
    cbn [flush_pending] in Hrun; inv_step Hrun.
  - exact Hok.
  - match goal with
    | He : execute_mutation _ _ ?s0 = _, Hr : flush_pending _ _ _ = _ |- _ =>
        assert (generations_core b s0) as Hok0;
        [|pose proof (execute_mutation_generations _ _ _ _ _ _ Hok0 He)
            as Hok1;
          exact (IH _ _ Hok1 Hr)]
    end.
    eapply generations_core_neutral; [exact Hok|neutral_explicit].
Qed.

Lemma send_client_element_generations b p s n s' :
  generations_core b s -> send_client_element p s = Ret n s' ->
  generations_core b s'.
Proof.
  unfold send_client_element. intros Hok Hrun. inv_step Hrun.
  - eapply generations_core_neutral; [exact Hok|neutral_explicit].
  - match goal with
    | Hr : flush_pending _ _ ?s0 = _ |- _ =>
        assert (generations_core b s0) as Hok0
          by (eapply generations_core_neutral; [exact Hok|neutral_explicit]);
        pose proof (flush_pending_generations _ _ _ _ _ _ Hok0 Hr) as Hok1
    end.
    eapply generations_core_neutral; [exact Hok1|neutral_explicit].
  - eapply generations_core_neutral; [exact Hok|neutral_explicit].
Qed.

Ltac by_disconnect_generations :=
  match goal with
  | Hok : generations_core _ ?s,
    Hd : GNUNET_SERVER_client_disconnect _ ?s = _ |- _ =>
      eapply generations_core_neutral;
      [exact Hok|eapply client_disconnect_neutral; exact Hd]
  end.

Lemma handle_client_iterate_generations b client s n s' :
  generations_core b s -> handle_client_iterate client s = Ret n s' ->
  generations_core b s'.
Proof.
  unfold handle_client_iterate. intros Hok Hrun. inv_step Hrun;
    try by_disconnect_generations.
  match goal with
  | Hs : send_client_element _ ?s0 = _ |- _ =>
      assert (generations_core b s0) as Hok0
        by (eapply generations_core_neutral; [exact Hok|neutral_explicit]);
      eapply send_client_element_generations; [exact Hok0|exact Hs]
  end.
Qed.

Lemma handle_client_iter_ack_generations b client send_more s n s' :
  generations_core b s ->
  handle_client_iter_ack client send_more s = Ret n s' ->
  generations_core b s'.
Proof.
  unfold handle_client_iter_ack. intros Hok Hrun. inv_step Hrun;
    try by_disconnect_generations.
  - eapply send_client_element_generations; eassumption.
  - eapply generations_core_neutral; [exact Hok|neutral_explicit].
Qed.

Lemma handle_client_mutation_generations b client m s n s' :
  generations_core b s -> handle_client_mutation client m s = Ret n s' ->
  generations_core b s'.
Proof.
  unfold handle_client_mutation. intros Hok Hrun. inv_step Hrun;
    try by_disconnect_generations.
  - eapply generations_core_neutral; [exact Hok|neutral_explicit].
  - eapply execute_mutation_generations; eassumption.
Qed.

(** [advance_generation] on a store below the last generation. *)
Lemma advance_generation_generations b p s n s' :
  generations_core b s -> b < UINT_MAX ->
  advance_generation p s = Ret n s' ->
  generations_core (b + 1) s'.
Proof.
  intros (Hptr & Hsets & Hstores) Hb Hrun.
  apply advance_generation_Ret in Hrun
    as (st & ct & st' & Hst & Hct & -> & _ & Hadv & _).
  destruct (Hsets p st ct Hst Hct) as [Hcur Hranges].
  destruct (Hstores _ ct Hct) as [Hlatest Hmuts].
  assert (uint (latest_generation ct + 1) = latest_generation ct + 1) as Hu
    by (apply uint_succ; lia).
  destruct Hadv as (Hcont & Hcur' & Hcase).
  rewrite Hu in *.
  unfold generations_core. split; [|split].
  - cbn. intros q stq Hq. rewrite lookup_insert in Hq.
    case_decide; simplify_eq; [|eauto].
    rewrite Hcont. eauto.
  - cbn. intros q stq ctq Hq Hctq.
    rewrite lookup_insert in Hq. case_decide; simplify_eq.
    + rewrite Hcont, lookup_insert_eq in Hctq. injection Hctq as <-.
      cbn. rewrite Hcur'. split; [lia|].
      destruct Hcase as [[_ ->]|[_ ->]].
      * eapply Forall_impl; [exact Hranges|]. cbn. intros r Hr. lia.
      * apply Forall_app. split.
        -- eapply Forall_impl; [exact Hranges|]. cbn. intros r Hr. lia.
        -- repeat constructor. cbn. lia.
    + rewrite lookup_insert in Hctq. case_decide; simplify_eq; cbn.
      * match goal with Heq : content st = content stq |- _ =>
          rewrite Heq in Hct end.
        destruct (Hsets q stq ct Hq Hct) as [Hc1 Hr1].
        split; [lia|exact Hr1].
      * now apply (Hsets q stq ctq).
  - cbn. intros c ctc Hc. rewrite lookup_insert in Hc.
    case_decide; simplify_eq; cbn.
    + split; [lia|]. intros h ee Hee.
      eapply Forall_impl; [eapply Hmuts; exact Hee|]. cbn. intros mut Hm. lia.
    + destruct (Hstores c ctc Hc) as [Hl Hm]. split; [lia|exact Hm].
Qed.

Lemma handle_client_evaluate_generations b client app target mode rid s n s' :
  generations_core b s -> b < UINT_MAX ->
  handle_client_evaluate client app target mode rid s = Ret n s' ->
  generations_core (b + 1) s'.
Proof.
  unfold handle_client_evaluate. intros Hok Hb Hrun. inv_step Hrun.
  - match goal with
    | Ha : advance_generation _ ?s0 = Ret _ ?s1 |- _ =>
        pose proof (advance_generation_generations _ _ _ _ _ Hok Hb Ha)
          as Hok1;
        assert (next_addr s1 = next_addr s0) as Hnext
          by (apply advance_generation_Ret in Ha
                as (st0 & ct0 & st1 & _ & _ & -> & _); reflexivity)
    end.
    eapply generations_core_neutral; [exact Hok1|].
    unfold neutral. split; [cbn; lia|]. split; heap_neutral.
  - eapply generations_core_mono; [|by_disconnect_generations]. lia.
Qed.

Lemma handle_client_accept_generations b client id rid mode s n s' :
  generations_core b s -> b < UINT_MAX ->
  handle_client_accept client id rid mode s = Ret n s' ->
  generations_core (b + 1) s'.
Proof.
  unfold handle_client_accept. intros Hok Hb Hrun. inv_step Hrun.
  - match goal with
    | Ha : advance_generation _ ?s0 = _ |- _ =>
        assert (generations_core b s0) as Hok0
          by (eapply generations_core_neutral; [exact Hok|neutral_explicit]);
        exact (advance_generation_generations _ _ _ _ _ Hok0 Hb Ha)
    end.
  - eapply generations_core_mono; [|eapply generations_core_neutral;
                                     [exact Hok|neutral_explicit]]. lia.
  - eapply generations_core_mono; [|by_disconnect_generations]. lia.
Qed.

Lemma handle_client_create_set_generations b client o s n s' :
  wf s -> generations_core b s -> 0 <= b ->
  handle_client_create_set client o s = Ret n s' ->
  generations_core b s'.
Proof.
  unfold handle_client_create_set. intros Hwf Hok Hb Hrun. inv_step Hrun;
    try by_disconnect_generations.
  destruct Hok as (Hptr & Hsets & Hstores). destruct Hwf as [Hws Hwc].
  unfold generations_core. split; [|split].
  - cbn. intros q stq Hq. rewrite lookup_insert in Hq.
    case_decide; simplify_eq; cbn; [lia|].
    apply Hptr in Hq. lia.
  - cbn. intros q stq ctq Hq Hctq. rewrite lookup_insert in Hq.
    case_decide; simplify_eq; cbn in *.
    + rewrite lookup_insert_eq in Hctq. injection Hctq as <-. cbn.
      split; [lia|constructor].
    + rewrite lookup_insert in Hctq. case_decide; simplify_eq.
      * apply Hptr in Hq. lia.
      * now apply (Hsets q stq ctq).
  - cbn. intros c ctc Hc. rewrite lookup_insert in Hc.
    case_decide; simplify_eq; cbn.
    + split; [lia|]. intros h ee Hee. now rewrite lookup_empty in Hee.
    + now apply (Hstores c).
Qed.

Lemma handle_client_copy_lazy_connect_generations b client k s n s' :
  wf s -> generations_core b s -> b < UINT_MAX ->
  handle_client_copy_lazy_connect client k s = Ret n s' ->
  generations_core (b + 1) s'.
Proof.
  unfold handle_client_copy_lazy_connect. intros Hwf Hok Hb Hrun.
  inv_step Hrun.
  - eapply generations_core_mono; [|by_disconnect_generations]. lia.
  - match goal with
    | Ha : advance_generation _ ?s2 = _ |- _ =>
        assert (generations_core b s2) as Hok2
    end.
    { destruct Hok as (Hptr & Hsets & Hstores). destruct Hwf as [Hws Hwc].
      match goal with
      | Hsrc : set_heap _ !! source_set _ = Some ?src,
        Hct : content_heap _ !! content ?src = Some ?ct |- _ =>
          cbn in Hsrc, Hct;
          pose proof (Hsets _ _ _ Hsrc Hct) as [Hcur Hranges];
          pose proof (Hstores _ _ Hct) as [Hlatest Hmuts];
          pose proof (Hptr _ _ Hsrc) as Hcp
      end.
      unfold generations_core. split; [|split].
      - cbn. intros q stq Hq. rewrite lookup_insert in Hq.
        case_decide; simplify_eq; cbn; eauto.
      - cbn. intros q stq ctq Hq Hctq. rewrite lookup_insert in Hq.
        case_decide; simplify_eq; cbn in *.
        + rewrite lookup_insert_eq in Hctq. injection Hctq as <-. cbn.
          auto.
        + rewrite lookup_insert in Hctq. case_decide; simplify_eq; cbn.
          * match goal with Heq : content _ = content stq |- _ =>
              rewrite Heq in * end.
            eapply (Hsets q stq); eassumption.
          * now apply (Hsets q stq ctq).
      - cbn. intros c ctc Hc. rewrite lookup_insert in Hc.
        case_decide; simplify_eq; cbn; [auto|]. now apply (Hstores c). }
    match goal with
    | Ha : advance_generation _ ?s0 = Ret _ ?s1 |- _ =>
        pose proof (advance_generation_generations _ _ _ _ _ Hok2 Hb Ha)
          as Hok3;
        assert (next_addr s1 = next_addr s0) as Hnext
          by (apply advance_generation_Ret in Ha
                as (st0 & ct0 & st1 & _ & _ & -> & _); reflexivity)
    end.
    eapply generations_core_neutral; [exact Hok3|].
    unfold neutral. split; [cbn in *; lia|]. split; heap_neutral.
  - eapply (generations_core_mono b); [lia|].
    eapply generations_core_neutral;
      [|eapply client_disconnect_neutral; eassumption].
    eapply generations_core_neutral; [exact Hok|neutral_explicit].
  - eapply generations_core_mono; [|by_disconnect_generations]. lia.
Qed.

Lemma step_generations b e s n s' :
  generations_ok b s -> 0 <= b < UINT_MAX ->
  step e s = Ret n s' ->
  generations_ok (b + 1) s'.
Proof.
  intros [Hwf Hok] Hb Hstep. split.
  { destruct (step_step_rel _ _ _ _ Hwf Hstep) as (_ & Hwf' & _). exact Hwf'. }
  destruct e; cbn [step] in Hstep.
  - eapply generations_core_mono;
      [|eapply handle_client_create_set_generations; try eassumption]; lia.
  - eapply generations_core_mono;
      [|eapply handle_client_mutation_generations; eassumption]; lia.
  - eapply generations_core_mono;
      [|eapply handle_client_iterate_generations; eassumption]; lia.
  - eapply generations_core_mono;
      [|eapply handle_client_iter_ack_generations; eassumption]; lia.
  - eapply handle_client_evaluate_generations; try eassumption; lia.
  - eapply handle_client_accept_generations; try eassumption; lia.
  - eapply generations_core_mono;
      [|eapply generations_core_neutral;
          [exact Hok|eapply handle_client_cancel_neutral; eassumption]]; lia.
  - eapply generations_core_mono;
      [|eapply generations_core_neutral;
          [exact Hok
          |eapply handle_client_copy_lazy_prepare_neutral; eassumption]]; lia.
  - eapply handle_client_copy_lazy_connect_generations; try eassumption; lia.
  - eapply generations_core_mono;
      [|eapply generations_core_neutral;
          [exact Hok|eapply handle_client_listen_neutral; eassumption]]; lia.
  - eapply generations_core_mono;
      [|eapply generations_core_neutral;
          [exact Hok|eapply handle_client_disconnect_neutral; eassumption]];
      lia.
  - eapply generations_core_mono;
      [|eapply generations_core_neutral;
          [exact Hok|eapply channel_new_cb_neutral; eassumption]]; lia.
  - eapply generations_core_mono;
      [|eapply generations_core_neutral;
          [exact Hok|eapply dispatch_p2p_message_neutral; eassumption]]; lia.
Qed.

Lemma run_generations evs b s n s' :
  generations_ok b s -> 0 <= b ->
  b + Z.of_nat (length evs) <= UINT_MAX ->
  run evs s = Ret n s' ->
  generations_ok (b + Z.of_nat (length evs)) s'.
Proof.
  revert b s n. induction evs as [|e rest IH]; intros b s n Hok Hb Hlen Hrun.
  - cbn in Hrun. apply ret_Ret in Hrun as [<- _].
    cbn [length]. replace (b + Z.of_nat 0) with b by lia. exact Hok.
  - apply run_cons in Hrun as (k & s1 & j & Hstep & Hrest).
    cbn [length] in Hlen |- *.
    replace (b + Z.of_nat (S (length rest)))
      with ((b + 1) + Z.of_nat (length rest)) by lia.
    eapply IH; [|lia|lia|exact Hrest].
    eapply step_generations; [exact Hok|lia|exact Hstep].
Qed.

Lemma generations_ok_initial : generations_ok 0 initial_service.
Proof.
  split; [apply wf_initial_service|]. unfold generations_core. cbn.
  split; [|split]; intros; match goal with
    | Hl : ∅ !! _ = Some _ |- _ => now rewrite lookup_empty in Hl
    end.
Qed.

End ServiceGenerations.

(** ** What the order of the generations gives *)

Lemma ranges_end_not_excluded g excluded :
  Forall (fun r => range_end r <= g) excluded ->
  forall g', g <= g' -> is_excluded_generation g' excluded = false.
Proof.
  intros Hall g' Hg. induction Hall as [|r rest Hr _ IH]; [reflexivity|].
  cbn. unfold is_excluded_generation in IH. rewrite IH.
  unfold in_range.
  replace (g' <? range_end r) with false by (symmetry; apply Z.ltb_ge; lia).
  now rewrite andb_false_r.
Qed.

Section ServiceOrder.
Context `{Collaborators}.

(** X24: the generations stay in order.  After a run of at most 2^32 - 1
    events from the start of the service, every set that has its store is
    at a generation between zero and the store's latest, which is at most
    the number of events; neither the set's generation nor the one after
    the store's latest lies in an exclusion range of the set, so the
    membership test of the set never takes the branch of the excluded
    query; and no entry of the store has a mutation after the store's
    latest generation. *)
Theorem generations_stay_in_order
    (evs : list Event) (n : nat) (s : Service) (p : ptr) (st : GSS_Set)
    (ct : SetContent) :
  run evs initial_service = Ret n s ->
  Z.of_nat (length evs) <= UINT_MAX ->
  set_heap s !! p = Some st ->
  content_heap s !! content st = Some ct ->
  0 <= current_generation st <= latest_generation ct
  /\ latest_generation ct <= Z.of_nat (length evs)
  /\ is_excluded_generation (current_generation st) (excluded_generations st)
     = false
  /\ is_excluded_generation (latest_generation ct + 1)
                            (excluded_generations st) = false
  /\ (forall h ee, elements ct !! h = Some ee ->
        Forall (fun mut => generation mut <= latest_generation ct)
               (mutations ee))
  /\ (forall ee k b, _GSS_is_element_of_set ee st = Ret k b -> k = 0%nat).
Proof.
  intros Hrun Hlen Hst Hct.
  destruct (run_generations evs 0 initial_service n s)
    as (_ & _ & Hsets & Hstores);
    [apply generations_ok_initial|lia|lia|exact Hrun|].
  destruct (Hsets p st ct Hst Hct) as [Hcur Hranges].
  destruct (Hstores _ ct Hct) as [Hlatest Hmuts].
  pose proof (ranges_end_not_excluded _ _ Hranges) as Hex.
  split; [exact Hcur|]. split; [lia|].
  split; [apply Hex; lia|]. split; [apply Hex; lia|].
  split; [exact Hmuts|].
  intros ee k b Htest. unfold _GSS_is_element_of_set in Htest.
  eapply is_element_of_generation_quiet; [|exact Htest]. apply Hex. lia.
Qed.

(** What Evaluate and Accept leave alone: the list of sets, the owners and
    the entries of the stores. *)
Lemma starts_operation_shape e s n s' :
  starts_operation e = true ->
  step e s = Ret n s' ->
  sets s' = sets s
  /\ (forall p, set_client <$> set_heap s' !! p
                = set_client <$> set_heap s !! p)
  /\ (forall c, elements <$> content_heap s' !! c
                = elements <$> content_heap s !! c).
Proof.
  assert (forall client s0 j,
            set_get client s = None ->
            GNUNET_SERVER_client_disconnect client s = Ret j s0 ->
            sets s0 = sets s
            /\ (forall p, set_client <$> set_heap s0 !! p
                          = set_client <$> set_heap s !! p)
            /\ (forall c, elements <$> content_heap s0 !! c
                          = elements <$> content_heap s !! c)) as Hdrop.
  { intros client s0 j Hnone Hd.
    rewrite (client_disconnect_without_set _ _ Hnone) in Hd.
    injection Hd as _ <-. cbn. auto. }
  assert (forall p s0 s1 k,
            advance_generation p s0 = Ret k s1 ->
            sets s1 = sets s0
            /\ (forall q, set_client <$> set_heap s1 !! q
                          = set_client <$> set_heap s0 !! q)
            /\ (forall c, elements <$> content_heap s1 !! c
                          = elements <$> content_heap s0 !! c)
            /\ next_addr s1 = next_addr s0) as Hadv.
  { intros p s0 s1 k Ha.
    apply advance_generation_Ret in Ha
      as (st & ct & st1 & Hst & Hct & -> & _ & _ & _ & Hcl).
    cbn. split; [reflexivity|]. split; [|split; [|reflexivity]].
    - intros q. destruct (decide (q = p)) as [->|Hne].
      + rewrite lookup_insert_eq, Hst. cbn. now rewrite Hcl.
      + now rewrite lookup_insert_ne by congruence.
    - intros c. destruct (decide (c = content st)) as [->|Hne].
      + rewrite lookup_insert_eq, Hct. reflexivity.
      + now rewrite lookup_insert_ne by congruence. }
  intros He Hstep. destruct e; try discriminate He; cbn [step] in Hstep.
  - unfold handle_client_evaluate in Hstep. inv_step Hstep.
    + match goal with
      | Ha : advance_generation _ _ = _ |- _ =>
          destruct (Hadv _ _ _ _ Ha) as (Hs1 & Ho1 & Hc1 & _)
      end.
      match goal with
      | Hg : set_heap ?s1 !! ?p = Some ?st1 |- _ =>
          cbn; split; [exact Hs1|]; split; [|exact Hc1];
          intros q; rewrite <- Ho1;
          destruct (decide (q = p)) as [->|Hne];
          [rewrite lookup_insert_eq, Hg; reflexivity
          |now rewrite lookup_insert_ne by congruence]
      end.
    + eapply Hdrop; eassumption.
  - unfold handle_client_accept in Hstep. inv_step Hstep.
    + match goal with
      | Ha : advance_generation _ _ = _ |- _ =>
          destruct (Hadv _ _ _ _ Ha) as (Hs1 & Ho1 & Hc1 & _)
      end.
      split; [exact Hs1|]. split; [|exact Hc1].
      intros q. rewrite Ho1. cbn.
      match goal with
      | Hg : set_heap s !! ?p = Some ?st |- _ =>
          destruct (decide (q = p)) as [->|Hne];
          [rewrite lookup_insert_eq, Hg; reflexivity
          |now rewrite lookup_insert_ne by congruence]
      end.
    + cbn. auto.
    + eapply Hdrop; eassumption.
Qed.

(** X25: starting an operation changes nothing of what a set contains.
    After a run of fewer than 2^32 - 1 events from the start of the
    service, an Evaluate or an Accept -- whichever client sends it, and
    whether it succeeds or ends in the client being dropped -- leaves the
    answer of the membership test as it was, for every client and every
    element: the generation the set moves to and the exclusion range it
    gets hide exactly the mutations it could not see before. *)
Theorem starting_operation_keeps_contents
    (evs : list Event) (n0 : nat) (s : Service) (e : Event) (n : nat)
    (s' : Service) (client : Client) (el : GNUNET_SET_Element) :
  run evs initial_service = Ret n0 s ->
  Z.of_nat (length evs) < UINT_MAX ->
  starts_operation e = true ->
  step e s = Ret n s' ->
  client_set_contains client el s' = client_set_contains client el s.
Proof.
  intros Hrun Hlen He Hstep.
  destruct (run_generations evs 0 initial_service n0 s)
    as (Hwf & _ & Hsets & Hstores);
    [apply generations_ok_initial|lia|lia|exact Hrun|].
  destruct (starts_operation_shape _ _ _ _ He Hstep) as (Hlist & Hown & Hel).
  destruct (step_step_rel _ _ _ _ Hwf Hstep) as (_ & _ & Hrel & _).
  unfold client_set_contains.
  rewrite (set_get_ext client s s' Hlist Hown).
  destruct (set_get client s) as [p|]; [|reflexivity].
  pose proof (Hown p) as Hp. unfold get_set.
  destruct (set_heap s' !! p) as [st'|] eqn:Hst';
    destruct (set_heap s !! p) as [st|] eqn:Hst; try discriminate Hp;
    [|reflexivity].
  assert (p < next_addr s)%N as Hlt by (destruct Hwf as [Hw _]; eauto).
  destruct (Hrel p st' Hst' Hlt) as (st0 & Hst0 & Hgen). simplify_eq.
  assert (content st' = content st) as Hcont
    by (destruct Hgen as [(-> & _)|(ct & _ & (-> & _))]; reflexivity).
  rewrite !bind_unit_l, Hcont. unfold get_content.
  pose proof (Hel (content st)) as Hc.
  destruct (content_heap s' !! content st) as [ct'|] eqn:Hct';
    destruct (content_heap s !! content st) as [ct|] eqn:Hct;
    try discriminate Hc; [|reflexivity].
  injection Hc as Hc. rewrite !bind_unit_l, Hc.
  destruct (elements ct !! GNUNET_SET_element_hash el) as [ee|] eqn:Hee;
    [|reflexivity].
  unfold _GSS_is_element_of_set.
  destruct Hgen as [(_ & -> & ->)|(ct0 & Hct0 & Hadv)]; [reflexivity|].
  injection Hct0 as <-.
  destruct (Hsets p st ct Hst Hct) as [Hcur Hranges].
  destruct (Hstores _ ct Hct) as [Hlatest Hmuts].
  pose proof (ranges_end_not_excluded _ _ Hranges) as Hex.
  apply (advanced_view (latest_generation ct)); try assumption.
  - lia.
  - apply Hex. lia.
  - apply Hex. lia.
  - eapply Hmuts; exact Hee.
Qed.

End ServiceOrder.

(** ** The end of an incoming operation *)

Section ServiceIncomingEnd.
Context `{Collaborators}.

(** X26: a request that has timed out, or whose peer has gone, can no
    longer be accepted, and accepting it is not an error.  The timeout of
    an incoming operation (outside shutdown) and the disconnect of its
    peer both take the operation off the incoming list and change nothing
    else.  When the operation was the only one with its accept id, a
    client that then accepts this id is sent a result message with the
    failure status, and no operation is bound to its set. *)
Theorem accept_after_request_ended_fails_softly
    (op : Operation) (s : Service) (client : Client) (rid mode : Z)
    (p : ptr) (st : GSS_Set) :
  is_incoming op = true ->
  Forall (fun x => op_suggest_id x = op_suggest_id op ->
                   op_addr x = op_addr op) (incoming s) ->
  set_get client s = Some p ->
  set_heap s !! p = Some st ->
  let s1 :=
    with_incoming (filter (fun x => op_addr x ≠ op_addr op) (incoming s)) s in
  incoming_timeout_cb false op s = Ret 0 s1
  /\ handle_incoming_disconnect op s = Ret 0 s1
  /\ handle_client_accept client (op_suggest_id op) rid mode s1
     = Ret 0 (emit (MQ_send (client_mq st) (SET_RESULT_FAILURE rid)) s1).
Proof.
  intros Hinc Hids Hget Hst s1. split; [|split].
  - unfold incoming_timeout_cb, incoming_destroy. cbn.
    rewrite Hinc. cbn. unfold s1, with_incoming. cbn.
    rewrite filter_map_replace by reflexivity. reflexivity.
  - unfold handle_incoming_disconnect, incoming_destroy.
    rewrite Hinc. reflexivity.
  - apply (handle_client_accept_unknown client _ rid mode s1 p st).
    + exact Hget.
    + exact Hst.
    + cbn. clear -Hids.
      induction Hids as [|x rest Hx _ IH]; [constructor|].
      destruct (decide (op_addr x = op_addr op)) as [Ha|Ha].
      * rewrite filter_cons_False by (intros Hne; contradiction). exact IH.
      * rewrite filter_cons_True by exact Ha. constructor; [|exact IH].
        intros Hid. apply Ha, Hx, Hid.
Qed.

End ServiceIncomingEnd.

(** * The further properties at work *)


Lemma wf_forked_service : wf forked_service.
Proof.
  split; cbn; intros q x Hq.
  - apply lookup_insert_Some in Hq as [[<- _]|[_ Hq]]; [lia|].
    apply lookup_singleton_Some in Hq as [<- _]. lia.
  - apply lookup_singleton_Some in Hq as [<- _]. lia.
Qed.

(** The concrete services are states the service reaches. *)
Lemma forked_service_reached :
  test_run (firstn 4 fork_scenario) initial_service = Ret 0 forked_service.
Proof. vm_compute. reflexivity. Qed.

Lemma iterating_service_reached :
  test_run [ EvCreateSet alice GNUNET_SET_OPERATION_UNION;
             EvMutation alice (add_message elt_X); EvIterate alice ]
           initial_service
  = Ret 0 iterating_service.
Proof. vm_compute. reflexivity. Qed.

Lemma service_with_request_reached :
  test_run [ EvCreateSet alice GNUNET_SET_OPERATION_UNION;
             EvMutation alice (add_message elt_X);
             EvChannelNew 9%N true;
             EvListen bob GNUNET_SET_OPERATION_UNION 5%N;
             EvP2PMessage 3%N (P2P_OPERATION_REQUEST
                                 GNUNET_SET_OPERATION_UNION 5%N None) ]
           initial_service
  = Ret 0 service_with_request.
Proof. vm_compute. reflexivity. Qed.

Lemma evaluate_takes_snapshot_witness :
  exists st1 op,
    set_heap (service_probing 0) !! 1%N = Some st1
    /\ head (ops st1) = Some op
    /\ generation_created op = 0
    /\ forall ee, _GSS_is_element_of_operation ee op (service_probing 0)
                  = _GSS_is_element_of_set ee (alice_set 0).
Proof.
  apply (evaluate_takes_snapshot alice 0%N 0%N 0 0 (service_at 0) 0%nat
           (service_probing 0) 1%N (alice_set 0) (alice_content 0)).
  - reflexivity.
  - reflexivity.
  - reflexivity.
  - cbn. lia.
  - cbn. unfold UINT_MAX. lia.
  - vm_compute. reflexivity.
Defined.


Lemma execute_add_makes_member_witness :
  exists s' st' ct' ee',
    @execute_add test_collaborators 1%N (add_message elt_Y) (service_at 0) = Ret 0 s'
    /\ set_heap s' !! 1%N = Some st'
    /\ content_heap s' !! content st' = Some ct'
    /\ elements ct' !! test_hash elt_Y = Some ee'
    /\ _GSS_is_element_of_set ee' st' = Ret 0 true
    /\ @execute_add test_collaborators 1%N (add_message elt_Y) s' = Ret 0 s'.
Proof.
  eexists. 
  destruct (@execute_add_makes_member test_collaborators 1%N (add_message elt_Y)
              (service_at 0) 0%nat
              (append_mutation 1%N (alice_set 0) (alice_content 0)
                 (test_hash elt_Y)
                 {| element := elt_Y; element_hash := test_hash elt_Y;
                    mutations := []; remote := false |}
                 true (VtAdd (test_hash elt_Y)) (service_at 0))
              (alice_set 0))
    as (st' & ct' & ee' & H1 & H2 & H3 & H4 & H5).
  - reflexivity.
  - reflexivity.
  - vm_compute. reflexivity.
  - exists st', ct', ee'. split; [vm_compute; reflexivity|]. auto.
Defined.

Lemma execute_remove_makes_absent_witness :
  exists s' st' ct' ee',
    @execute_remove test_collaborators 1%N (remove_message elt_X) (service_at 0)
    = Ret 0 s'
    /\ set_heap s' !! 1%N = Some st'
    /\ content_heap s' !! content st' = Some ct'
    /\ elements ct' !! test_hash elt_X = Some ee'
    /\ _GSS_is_element_of_set ee' st' = Ret 0 false
    /\ @execute_remove test_collaborators 1%N (remove_message elt_X) s' = Ret 0 s'.
Proof.
  eexists.
  destruct (@execute_remove_makes_absent test_collaborators 1%N
              (remove_message elt_X) (service_at 0) 0%nat
              (append_mutation 1%N (alice_set 0) (alice_content 0)
                 (test_hash elt_X)
                 {| element := elt_X; element_hash := test_hash elt_X;
                    mutations := [ {| generation := 0; added := true |} ];
                    remote := false |}
                 false (VtRemove (test_hash elt_X)) (service_at 0))
              (alice_set 0) (alice_content 0))
    as (_ & st' & ct' & H1 & H2 & H3 & H4).
  - reflexivity.
  - reflexivity.
  - reflexivity.
  - vm_compute. reflexivity.
  - destruct (H3 {| element := elt_X; element_hash := test_hash elt_X;
                    mutations := [ {| generation := 0; added := true |} ];
                    remote := false |}) as (ee' & H5 & _ & H6);
      [reflexivity|].
    exists st', ct', ee'. split; [vm_compute; reflexivity|]. auto.
Defined.

Lemma execute_mutation_touches_one_entry_witness :
  exists s' calls entries,
    @execute_mutation test_collaborators 1%N (add_message elt_Y) (service_at 0)
    = Ret 0 s'
    /\ set_heap s'
       = <[1%N := with_state (state (alice_set 0) ++ calls) (alice_set 0)]>
           (set_heap (service_at 0))
    /\ content_heap s'
       = <[2%N := with_elements entries (alice_content 0)]>
           (content_heap (service_at 0))
    /\ entries !! test_hash elt_X
       = elements (alice_content 0) !! test_hash elt_X
    /\ out s' = out (service_at 0).
Proof.
  eexists.
  destruct (@execute_mutation_touches_one_entry test_collaborators 1%N
              (add_message elt_Y) (service_at 0) 0%nat
              (append_mutation 1%N (alice_set 0) (alice_content 0)
                 (test_hash elt_Y)
                 {| element := elt_Y; element_hash := test_hash elt_Y;
                    mutations := []; remote := false |}
                 true (VtAdd (test_hash elt_Y)) (service_at 0))
              (alice_set 0) (alice_content 0))
    as (calls & entries & H1 & H2 & H3 & H4).
  - reflexivity.
  - reflexivity.
  - vm_compute. reflexivity.
  - exists calls, entries. split; [vm_compute; reflexivity|].
    split; [exact H1|]. split; [exact H2|].
    split; [apply H3; vm_compute; discriminate|]. apply H4.
Defined.

Lemma later_set_mutations_invisible_witness :
  exists s',
    @execute_all test_collaborators 3%N [add_message elt_Z; remove_message elt_X]
                 forked_service = Ret 0 s'
    /\ forall el, test_contains alice el s'
                  = test_contains alice el forked_service.
Proof.
  eexists. split; [vm_compute; reflexivity|].
  apply (@later_set_mutations_invisible test_collaborators alice 1%N 3%N
           forked_service (alice_set 0) bob_set forked_content
           [add_message elt_Z; remove_message elt_X] 0%nat).
  - reflexivity.
  - reflexivity.
  - reflexivity.
  - reflexivity.
  - reflexivity.
  - cbn. lia.
  - reflexivity.
  - intros h ee Hee. cbn in Hee.
    apply lookup_singleton_Some in Hee as [_ <-]. discriminate.
  - vm_compute. reflexivity.
Defined.

Lemma stopped_iteration_keeps_mutations_deferred_witness :
  exists s1,
    @handle_client_iter_ack test_collaborators alice false iterating_service
    = Ret 0 s1
    /\ out s1 = out iterating_service
    /\ content_heap s1 = content_heap iterating_service
    /\ @handle_client_mutation test_collaborators alice (add_message elt_Y) s1
       = Ret 0 (put_content 2%N
                  (with_pending_mutations
                     [ {| pm_set := 1%N; mutation_message := add_message elt_Y |} ]
                     iterating_content) s1).
Proof.
  destruct (@stopped_iteration_keeps_mutations_deferred test_collaborators
              alice iterating_service 1%N iterating_set iterating_content [])
    as (s1 & Hack & _ & Hct & Hout & Hdefer).
  - reflexivity.
  - reflexivity.
  - reflexivity.
  - reflexivity.
  - discriminate.
  - exists s1. split; [exact Hack|]. split; [exact Hout|].
    split; [exact Hct|]. apply Hdefer.
Defined.

Lemma complete_iteration_sends_members_witness :
  exists s',
    test_run [EvIterate alice; EvIterAck alice true] (service_at 0) = Ret 0 s'
    /\ out s' = [ MQ_send alice (SET_ITER_ELEMENT elt_X 0);
                  MQ_send alice SET_ITER_DONE ]
    /\ content_heap s' = content_heap (service_at 0).
Proof.
  destruct (@complete_iteration_sends_members test_collaborators alice
              (service_at 0) 1%N (alice_set 0) (alice_content 0))
    as (s' & Hrun & Hout & _ & Hct & _).
  - reflexivity.
  - reflexivity.
  - reflexivity.
  - reflexivity.
  - cbn. lia.
  - reflexivity.
  - intros h ee Hee. cbn in Hee.
    apply lookup_singleton_Some in Hee as [_ <-].
    eexists. vm_compute. reflexivity.
  - exists s'. split; [exact Hrun|]. split; [exact Hout|exact Hct].
Defined.

Lemma request_without_set_drops_client_witness :
  @step test_collaborators (EvIterate bob) (service_at 0)
  = Ret 1 (dropped bob (service_at 0)).
Proof.
  apply (@request_without_set_drops_client test_collaborators
           (EvIterate bob) bob (service_at 0)).
  - reflexivity.
  - vm_compute. reflexivity.
Defined.

Lemma cancel_removes_one_operation_witness :
  handle_client_cancel alice 0 (service_probing 0)
  = Ret 0 (put_set 1%N (alice_set 1) (service_probing 0)).
Proof.
  rewrite (cancel_removes_one_operation alice 0 (service_probing 0) 1%N
             (with_ops [probe_operation 0] (alice_set 1)) (alice_content 1)).
  - reflexivity.
  - reflexivity.
  - reflexivity.
  - reflexivity.
  - constructor; [|constructor]. split; [reflexivity|].
    eexists. split; reflexivity.
Defined.

Lemma events_keep_set_view_witness :
  exists s' st',
    @step test_collaborators (EvEvaluate alice 0%N 0%N 0 0) (service_at 0)
    = Ret 0 s'
    /\ set_heap s' !! 1%N = Some st'
    /\ current_generation st' = 1
    /\ _GSS_is_element_of_set
         {| element := elt_X; element_hash := test_hash elt_X;
            mutations := [ {| generation := 0; added := true |} ];
            remote := false |} st'
       = _GSS_is_element_of_set
           {| element := elt_X; element_hash := test_hash elt_X;
              mutations := [ {| generation := 0; added := true |} ];
              remote := false |} (alice_set 0).
Proof.
  exists (service_probing 0), (with_ops [probe_operation 0] (alice_set 1)).
  split; [vm_compute; reflexivity|]. split; [reflexivity|].
  split; [reflexivity|].
  apply (@events_keep_set_view test_collaborators
           (EvEvaluate alice 0%N 0%N 0 0) (service_at 0) 0%nat
           (service_probing 0) 1%N (alice_set 0)
           (with_ops [probe_operation 0] (alice_set 1)) (alice_content 0)).
  - apply wf_service_at.
  - vm_compute. reflexivity.
  - reflexivity.
  - reflexivity.
  - reflexivity.
  - cbn. lia.
  - cbn. unfold UINT_MAX. lia.
  - reflexivity.
  - reflexivity.
  - constructor; [cbn; lia|constructor].
Defined.

Lemma lazy_copy_ticket_round_trip_witness :
  exists s1 s2 stq,
    handle_client_copy_lazy_prepare alice (service_at 0) = Ret 0 s1
    /\ @handle_client_copy_lazy_connect test_collaborators bob 1 s1 = Ret 0 s2
    /\ set_get bob s2 = Some 3%N
    /\ set_heap s2 !! 3%N = Some stq
    /\ content stq = 2%N
    /\ current_generation stq = 1
    /\ set_heap s2 !! 1%N = Some (alice_set 0)
    /\ lazy_copy s2 = [].
Proof.
  destruct (@lazy_copy_ticket_round_trip test_collaborators alice bob
              (service_at 0) 1%N (alice_set 0) (alice_content 0)
              {| create := true; copy_state := true |})
    as (s1 & s2 & stq & ct2 & H1 & _ & H2 & H3 & H4 & H5 & _ & H6 & _ & _
        & _ & _ & H7 & H8 & _).
  - apply wf_service_at.
  - reflexivity.
  - reflexivity.
  - reflexivity.
  - vm_compute. reflexivity.
  - reflexivity.
  - reflexivity.
  - cbn. lia.
  - exists s1, s2, stq. repeat split; assumption.
Defined.

Lemma lazy_copy_starts_with_source_view_witness :
  exists s' q stq,
    @handle_client_copy_lazy_connect test_collaborators bob 1
      (with_lazy_copy [ {| source_set := 1%N; cookie := 1 |} ] 2
                      (service_at 0)) = Ret 0 s'
    /\ set_get bob s' = Some q
    /\ set_heap s' !! q = Some stq
    /\ _GSS_is_element_of_set
         {| element := elt_X; element_hash := test_hash elt_X;
            mutations := [ {| generation := 0; added := true |} ];
            remote := false |} stq
       = _GSS_is_element_of_set
           {| element := elt_X; element_hash := test_hash elt_X;
              mutations := [ {| generation := 0; added := true |} ];
              remote := false |} (alice_set 0).
Proof.
  assert (exists s',
            @handle_client_copy_lazy_connect test_collaborators bob 1
              (with_lazy_copy [ {| source_set := 1%N; cookie := 1 |} ] 2
                              (service_at 0)) = Ret 0 s') as [s' Hs']
    by (eexists; vm_compute; reflexivity).
  destruct (@lazy_copy_starts_with_source_view test_collaborators bob 1
              (with_lazy_copy [ {| source_set := 1%N; cookie := 1 |} ] 2
                              (service_at 0))
              0%nat s'
              {| source_set := 1%N; cookie := 1 |}
              (alice_set 0) (alice_content 0)
              {| create := true; copy_state := true |}
              {| element := elt_X; element_hash := test_hash elt_X;
                 mutations := [ {| generation := 0; added := true |} ];
                 remote := false |})
    as (q & stq & H1 & H2 & _ & H3).
  - vm_compute. reflexivity.
  - reflexivity.
  - reflexivity.
  - reflexivity.
  - discriminate.
  - cbn. lia.
  - cbn. unfold UINT_MAX. lia.
  - reflexivity.
  - reflexivity.
  - constructor; [cbn; lia|constructor].
  - reflexivity.
  - reflexivity.
  - exact Hs'.
  - exists s', q, stq. auto.
Defined.

Lemma protocol_violation_ends_channel_witness :
  @handle_incoming_msg test_collaborators waiting_operation P2P_other
    (service_with_channel []) = Ret 1 (GNUNET_SYSERR, service_with_channel [])
  /\ @dispatch_p2p_message test_collaborators 3%N P2P_other
       (service_with_channel [])
     = Ret 1 (with_incoming [] (service_with_channel [])).
Proof.
  apply (@protocol_violation_ends_channel test_collaborators 3%N P2P_other
           (service_with_channel []) waiting_operation).
  - reflexivity.
  - reflexivity.
  - exact I.
Defined.

Lemma request_is_suggested_to_listener_witness :
  @dispatch_p2p_message test_collaborators 3%N
    (P2P_OPERATION_REQUEST GNUNET_SET_OPERATION_UNION 5%N None)
    (service_with_channel [bob_listener]) = Ret 0 service_with_request
  /\ List.find (fun x => bool_decide (op_suggest_id x = 1))
               (incoming service_with_request) = Some requested_operation.
Proof.
  destruct (@request_is_suggested_to_listener test_collaborators 3%N
              GNUNET_SET_OPERATION_UNION 5%N None
              (service_with_channel [bob_listener]) waiting_operation
              bob_listener)
    as (s' & op1 & Hrun & _).
  - reflexivity.
  - reflexivity.
  - reflexivity.
  - reflexivity.
  - reflexivity.
  - exact I.
  - reflexivity.
  - split; [|reflexivity]. rewrite Hrun. vm_compute in Hrun.
    injection Hrun as <-. reflexivity.
Defined.

Lemma accept_binds_operation_witness :
  exists s' st' op1,
    handle_client_accept alice 1 7 0 service_with_request = Ret 0 s'
    /\ incoming s' = []
    /\ set_heap s' !! 1%N = Some st'
    /\ ops st' = [op1]
    /\ generation_created op1 = 0
    /\ current_generation st' = 1
    /\ forall ee, _GSS_is_element_of_operation ee op1 s'
                  = _GSS_is_element_of_set ee (alice_set 0).
Proof.
  destruct (accept_binds_operation alice 1 7 0 service_with_request 1%N
              (alice_set 0) (alice_content 0) requested_operation
              {| spec_operation := GNUNET_SET_OPERATION_UNION;
                 app_id := 5%N; peer := 9%N; spec_set := None;
                 result_mode := 0; client_request_id := 0;
                 context_msg := None |})
    as (s' & st' & op1 & H1 & H2 & H3 & H4 & _ & _ & H5 & _ & H6 & _ & H7).
  - reflexivity.
  - reflexivity.
  - reflexivity.
  - cbn. lia.
  - cbn. unfold UINT_MAX. lia.
  - reflexivity.
  - reflexivity.
  - reflexivity.
  - exists s', st', op1. repeat split; assumption.
Defined.

Lemma listen_suggests_waiting_requests_witness :
  exists s',
    handle_client_listen bob GNUNET_SET_OPERATION_UNION 5%N
      (with_incoming
         [ {| op_addr := 3%N; op_peer := 9%N;
              spec := spec requested_operation; is_incoming := true;
              generation_created := 0; op_suggest_id := 0;
              timeout_task := true |} ]
         (service_with_channel [])) = Ret 0 s'
    /\ listeners s' = [bob_listener]
    /\ out s' = [MQ_send bob (SET_REQUEST 1 9%N)]
    /\ suggest_id s' ≠ 0.
Proof.
  destruct (listen_suggests_waiting_requests bob GNUNET_SET_OPERATION_UNION
              5%N
              (with_incoming
                 [ {| op_addr := 3%N; op_peer := 9%N;
                      spec := spec requested_operation; is_incoming := true;
                      generation_created := 0; op_suggest_id := 0;
                      timeout_task := true |} ]
                 (service_with_channel [])))
    as (s' & Hrun & Hls & _ & Hout & Hid & _).
  - reflexivity.
  - constructor; [|constructor]. intros _. split; reflexivity.
  - discriminate.
  - exists s'. split; [exact Hrun|]. split; [exact Hls|].
    split; [|exact Hid].
    rewrite Hout. vm_compute in Hrun. injection Hrun as <-. reflexivity.
Defined.

Lemma one_set_per_client_witness :
  exists s,
    test_run fork_scenario initial_service = Ret 0 s
    /\ NoDup (sets s)
    /\ forall p, p ∈ sets s ->
         exists st c, set_heap s !! p = Some st
                      /\ set_client st = Some c
                      /\ set_get c s = Some p.
Proof.
  assert (exists s, test_run fork_scenario initial_service = Ret 0 s)
    as [s Hs] by (eexists; vm_compute; reflexivity).
  exists s. split; [exact Hs|].
  apply (@one_set_per_client test_collaborators fork_scenario 0%nat s Hs).
Defined.

Lemma entries_always_have_mutations_witness :
  exists s ct ee,
    test_run fork_scenario initial_service = Ret 0 s
    /\ content_heap s !! 2%N = Some ct
    /\ elements ct !! test_hash elt_Z = Some ee
    /\ mutations ee ≠ [].
Proof.
  assert (exists s ct ee,
            test_run fork_scenario initial_service = Ret 0 s
            /\ content_heap s !! 2%N = Some ct
            /\ elements ct !! test_hash elt_Z = Some ee)
    as (s & ct & ee & Hs & Hct & Hee).
  { do 3 eexists. split; [vm_compute; reflexivity|].
    split; vm_compute; reflexivity. }
  exists s, ct, ee. split; [exact Hs|]. split; [exact Hct|].
  split; [exact Hee|].
  exact (@entries_always_have_mutations test_collaborators fork_scenario
           0%nat s 2%N ct (test_hash elt_Z) ee Hs Hct Hee).
Defined.

Lemma accept_ids_are_never_zero_witness :
  suggest_id service_with_request ≠ 0
  /\ forall c id pr,
       MQ_send c (SET_REQUEST id pr) ∈ out service_with_request -> id ≠ 0.
Proof.
  apply (@accept_ids_are_never_zero test_collaborators
           [ EvCreateSet alice GNUNET_SET_OPERATION_UNION;
             EvMutation alice (add_message elt_X);
             EvChannelNew 9%N true;
             EvListen bob GNUNET_SET_OPERATION_UNION 5%N;
             EvP2PMessage 3%N (P2P_OPERATION_REQUEST
                                 GNUNET_SET_OPERATION_UNION 5%N None) ]
           0%nat service_with_request).
  vm_compute. reflexivity.
Defined.

Lemma mutation_history_is_append_only_witness :
  exists s' ct' ee',
    test_run [ EvMutation alice (remove_message elt_X);
               EvMutation alice (add_message elt_Y) ] (service_at 0) = Ret 0 s'
    /\ content_heap s' !! 2%N = Some ct'
    /\ elements ct' !! test_hash elt_X = Some ee'
    /\ exists extra,
         mutations ee' = [ {| generation := 0; added := true |} ] ++ extra.
Proof.
  assert (exists s' ct',
            test_run [ EvMutation alice (remove_message elt_X);
                       EvMutation alice (add_message elt_Y) ] (service_at 0)
            = Ret 0 s'
            /\ content_heap s' !! 2%N = Some ct') as (s' & ct' & Hs & Hct).
  { do 2 eexists. split; vm_compute; reflexivity. }
  destruct (@mutation_history_is_append_only test_collaborators
              [ EvMutation alice (remove_message elt_X);
                EvMutation alice (add_message elt_Y) ] (service_at 0) 0%nat s' 2%N
              (alice_content 0) ct') as [Hold _].
  - apply wf_service_at.
  - exact Hs.
  - reflexivity.
  - exact Hct.
  - destruct (Hold (test_hash elt_X)
                {| element := elt_X; element_hash := test_hash elt_X;
                   mutations := [ {| generation := 0; added := true |} ];
                   remote := false |}) as (ee' & extra & Hee & _ & Hm);
      [reflexivity|].
    exists s', ct', ee'. split; [exact Hs|]. split; [exact Hct|].
    split; [exact Hee|]. exists extra. exact Hm.
Defined.


Lemma disconnect_releases_set_witness :
  exists s',
    handle_client_disconnect alice (service_probing 0) = Ret 0 s'
    /\ set_heap s' = delete 1%N (set_heap (service_probing 0))
    /\ sets s' = []
    /\ content_heap s' = delete 2%N (content_heap (service_probing 0))
    /\ out s' = out (service_probing 0).
Proof.
  destruct (@disconnect_releases_set test_collaborators alice
              (service_probing 0) 1%N
              (with_ops [probe_operation 0] (alice_set 1)) (alice_content 1))
    as (s' & H1 & H2 & H3 & _ & H4 & H5 & _).
  - reflexivity.
  - reflexivity.
  - reflexivity.
  - discriminate.
  - constructor; [|constructor]. split; [reflexivity|].
    eexists. split; reflexivity.
  - exists s'. split; [exact H1|]. split; [exact H2|].
    split; [rewrite H3; reflexivity|]. split; [exact H4|exact H5].
Defined.

Lemma generations_stay_in_order_witness :
  exists s st ct,
    test_run fork_scenario initial_service = Ret 0 s
    /\ set_heap s !! 3%N = Some st
    /\ content_heap s !! content st = Some ct
    /\ 0 <= current_generation st <= latest_generation ct
    /\ latest_generation ct <= 6
    /\ is_excluded_generation (current_generation st)
                              (excluded_generations st) = false.
Proof.
  assert (exists s st ct,
            test_run fork_scenario initial_service = Ret 0 s
            /\ set_heap s !! 3%N = Some st
            /\ content_heap s !! content st = Some ct)
    as (s & st & ct & Hs & Hst & Hct).
  { do 3 eexists. split; [vm_compute; reflexivity|].
    split; vm_compute; reflexivity. }
  destruct (@generations_stay_in_order test_collaborators fork_scenario
              0%nat s 3%N st ct Hs) as (H1 & H2 & H3 & _).
  - cbn. unfold UINT_MAX. lia.
  - exact Hst.
  - exact Hct.
  - exists s, st, ct. repeat split; try assumption; apply H1.
Defined.

Lemma starting_operation_keeps_contents_witness :
  exists s',
    @step test_collaborators (EvEvaluate alice 0%N 0%N 0 0) forked_service
    = Ret 0 s'
    /\ test_contains bob elt_X s' = test_contains bob elt_X forked_service
    /\ test_contains alice elt_X s' = test_contains alice elt_X forked_service.
Proof.
  assert (exists s',
            @step test_collaborators (EvEvaluate alice 0%N 0%N 0 0)
                  forked_service = Ret 0 s') as [s' Hs']
    by (eexists; vm_compute; reflexivity).
  exists s'. split; [exact Hs'|].
  split.
  - apply (@starting_operation_keeps_contents test_collaborators
             (firstn 4 fork_scenario) 0%nat forked_service
             (EvEvaluate alice 0%N 0%N 0 0) 0%nat s' bob elt_X).
    + vm_compute. reflexivity.
    + cbn. unfold UINT_MAX. lia.
    + reflexivity.
    + exact Hs'.
  - apply (@starting_operation_keeps_contents test_collaborators
             (firstn 4 fork_scenario) 0%nat forked_service
             (EvEvaluate alice 0%N 0%N 0 0) 0%nat s' alice elt_X).
    + vm_compute. reflexivity.
    + cbn. unfold UINT_MAX. lia.
    + reflexivity.
    + exact Hs'.
Defined.

Lemma accept_after_request_ended_fails_softly_witness :
  handle_incoming_disconnect requested_operation service_with_request
  = Ret 0 (with_incoming [] service_with_request)
  /\ handle_client_accept alice 1 7 0 (with_incoming [] service_with_request)
     = Ret 0 (emit (MQ_send alice (SET_RESULT_FAILURE 7))
                   (with_incoming [] service_with_request)).
Proof.
  destruct (accept_after_request_ended_fails_softly requested_operation
              service_with_request alice 7 0 1%N (alice_set 0))
    as (_ & H1 & H2).
  - reflexivity.
  - constructor; [|constructor]. intros _. reflexivity.
  - reflexivity.
  - reflexivity.
  - split; [exact H1|exact H2].
Defined.

(** * The bookkeeping of sets and stores *)

Lemma book_refl s : book s s.
Proof. unfold book. repeat split; eauto. Qed.

Lemma book_trans s1 s2 s3 : book s1 s2 -> book s2 s3 -> book s1 s3.
Proof.
  intros (Hl1 & Hc1 & Hr1 & Ho1) (Hl2 & Hc2 & Hr2 & Ho2). unfold book.
  split; [congruence|]. split; [intros p; now rewrite Hc2|].
  split; [intros c; now rewrite Hr2|].
  intros p st3 Hp. destruct (Ho2 p st3 Hp) as (st2 & Hp2 & Hb2).
  destruct (Ho1 p st2 Hp2) as (st1 & Hp1 & Hb1). eauto.
Qed.

Lemma points_to_book s s' c p :
  (forall p, content <$> set_heap s' !! p = content <$> set_heap s !! p) ->
  points_to s' c p = points_to s c p.
Proof.
  intros Hc. unfold points_to. specialize (Hc p).
  destruct (set_heap s' !! p), (set_heap s !! p); cbn in Hc; simplify_eq;
    try reflexivity. now rewrite Hc.
Qed.

Lemma filter_ext_list {A : Type} (f g : A -> bool) (l : list A) :
  (forall x, f x = g x) -> List.filter f l = List.filter g l.
Proof.
  intros Hfg. induction l as [|x rest IH]; [reflexivity|]. cbn.
  now rewrite Hfg, IH.
Qed.

Lemma sharers_book s s' c : book s s' -> sharers s' c = sharers s c.
Proof.
  intros (Hl & Hc & _). unfold sharers. rewrite Hl. f_equal.
  apply filter_ext_list. intros p. now apply points_to_book.
Qed.

Lemma stores_ok_book b s s' : stores_ok b s -> book s s' -> stores_ok b s'.
Proof.
  intros (Hnd & Hlive & Hlist & Hrc & Halloc & Hops & Hlen) Hbook.
  pose proof Hbook as (Hl & Hc & Hr & Ho).
  unfold stores_ok. rewrite Hl.
  split; [exact Hnd|]. split; [|split; [|split; [|split; [|split]]]].
  - intros p Hin. destruct (Hlive p Hin) as [st Hst].
    specialize (Hc p). rewrite Hst in Hc.
    destruct (set_heap s' !! p); [eauto|discriminate Hc].
  - intros p st' Hp. specialize (Hc p). rewrite Hp in Hc.
    destruct (set_heap s !! p) as [st|] eqn:Hst; [|discriminate Hc]. eauto.
  - intros c ct' Hct'. specialize (Hr c). rewrite Hct' in Hr.
    destruct (content_heap s !! c) as [ct|] eqn:Hct; [|discriminate Hr].
    cbn in Hr. injection Hr as Hr. rewrite Hr, (sharers_book s s' c Hbook).
    now apply Hrc.
  - intros p st' Hp. pose proof (Hc p) as Hcp. rewrite Hp in Hcp.
    destruct (set_heap s !! p) as [st|] eqn:Hst; [|discriminate Hcp].
    cbn in Hcp. injection Hcp as Hcp.
    destruct (Halloc p st Hst) as [ct Hct].
    specialize (Hr (content st)). rewrite Hct, <- Hcp in Hr.
    destruct (content_heap s' !! content st'); [eauto|discriminate Hr].
  - intros p st' Hp. destruct (Ho p st' Hp) as (st & Hst & Hb).
    apply Hb. eapply Hops; exact Hst.
  - exact Hlen.
Qed.

Lemma stores_ok_mono b b' s : b <= b' -> stores_ok b s -> stores_ok b' s.
Proof.
  intros Hb (Hnd & Hlive & Hlist & Hrc & Halloc & Hops & Hlen).
  unfold stores_ok.
  split; [exact Hnd|]. split; [exact Hlive|].
  split; [exact Hlist|]. split; [exact Hrc|].
  split; [exact Halloc|]. split; [exact Hops|lia].
Qed.

Ltac fmap_lookup :=
  cbn; intros ?;
  repeat rewrite lookup_insert;
  repeat (case_decide; simplify_eq);
  cbn; try reflexivity;
  repeat match goal with
         | Hl : ?m !! ?k = Some _ |- context [?m !! ?k] => rewrite Hl
         end;
  cbn; try reflexivity; try congruence.

Ltac ops_lookup :=
  cbn; intros ? ? Hlook;
  repeat rewrite lookup_insert in Hlook;
  repeat (case_decide; simplify_eq);
  try discriminate; eauto;
  try (eexists; split; [eassumption|]; cbn; auto).

Ltac book_explicit :=
  unfold book; split; [reflexivity|]; split; [fmap_lookup|];
  split; [fmap_lookup|ops_lookup].

Section ServiceBook.
Context `{Collaborators}.

Lemma operation_destroy_book op gc s n s' :
  _GSS_operation_destroy op gc s = Ret n s' -> book s s'.
Proof.
  unfold _GSS_operation_destroy. intros Hrun. inv_step Hrun.
  - match goal with
    | Hgc : collect_generation_garbage _ _ = _ |- _ =>
        apply collect_generation_garbage_id in Hgc as [-> _]
    end.
    book_explicit. intros Hb. now apply bound_to_filter.
  - book_explicit. intros Hb. now apply bound_to_filter.
Qed.

Lemma destroy_ops_book fuel p s n s' :
  destroy_ops fuel p s = Ret n s' -> book s s'.
Proof.
  revert s n. induction fuel as [|fuel IH]; intros s n Hrun;
    cbn [destroy_ops] in Hrun; inv_step Hrun.
  - apply book_refl.
  - apply book_refl.
  - eapply book_trans; [eapply operation_destroy_book|eapply IH];
      eassumption.
Qed.

Lemma execute_mutation_book p m s n s' :
  execute_mutation p m s = Ret n s' -> book s s'.
Proof.
  unfold execute_mutation. intros Hrun. destruct (msg_type m).
  - unfold execute_add, append_mutation in Hrun. inv_step Hrun;
      first [apply book_refl | book_explicit].
  - unfold execute_remove, append_mutation in Hrun. inv_step Hrun;
      first [apply book_refl | book_explicit].
  - inv_step Hrun. apply book_refl.
Qed.

Lemma flush_pending_book pms c s n s' :
  flush_pending pms c s = Ret n s' -> book s s'.
Proof.
  revert s n. induction pms as [|pm rest IH]; intros s n Hrun;
    cbn [flush_pending] in Hrun; inv_step Hrun.
  - apply book_refl.
  - match goal with
    | He : execute_mutation _ _ ?s0 = _, Hr : flush_pending _ _ _ = _ |- _ =>
        assert (book s s0) as Hbook0 by book_explicit;
        pose proof (execute_mutation_book _ _ _ _ _ He) as Hbook1;
        pose proof (IH _ _ Hr) as Hbook2
    end.
    eapply book_trans; [exact Hbook0|]. eapply book_trans; eassumption.
Qed.

Lemma send_client_element_book p s n s' :
  send_client_element p s = Ret n s' -> book s s'.
Proof.
  unfold send_client_element. intros Hrun. inv_step Hrun.
  - book_explicit.
  - match goal with
    | Hr : flush_pending _ _ ?s0 = _ |- _ =>
        assert (book s s0) as Hbook0 by book_explicit;
        pose proof (flush_pending_book _ _ _ _ _ Hr) as Hbook1
    end.
    eapply book_trans; [exact Hbook0|]. eapply book_trans; [exact Hbook1|].
    book_explicit.
  - book_explicit.
Qed.

Lemma advance_generation_book p s n s' :
  advance_generation p s = Ret n s' -> book s s'.
Proof.
  intros Hrun. apply advance_generation_Ret in Hrun
    as (st & ct & st' & Hst & Hct & -> & _ & (Hcont & _) & Hops & _).
  book_explicit. now rewrite Hops.
Qed.

End ServiceBook.

(** ** Creating and destroying sets *)

(** Taking an element that occurs once out of a list lowers a count by
    one exactly when the element was counted. *)
Lemma count_without (f : N -> bool) (p : N) (l : list N) :
  NoDup l -> p ∈ l ->
  (length (List.filter f (filter (fun q => q ≠ p) l))
   + (if f p then 1 else 0))%nat
  = length (List.filter f l).
Proof.
  induction 1 as [|x rest Hx Hnd IH]; intros Hin.
  - now apply elem_of_nil in Hin.
  - apply elem_of_cons in Hin as [->|Hin].
    + rewrite filter_cons_False by (intros Hne; now apply Hne).
      assert (filter (fun q => q ≠ x) rest = rest) as ->.
      { clear -Hx. induction rest as [|y rest IH]; [reflexivity|].
        rewrite filter_cons_True
          by (intros ->; apply Hx; now left).
        f_equal. apply IH. intros Hin. apply Hx. now right. }
      cbn. destruct (f x); cbn; lia.
    + assert (x ≠ p) as Hne by (intros ->; contradiction).
      rewrite filter_cons_True by exact Hne. cbn.
      destruct (f x); cbn; rewrite <- (IH Hin); lia.
Qed.

Lemma count_ext (f g : N -> bool) (l : list N) :
  (forall x, x ∈ l -> f x = g x) ->
  length (List.filter f l) = length (List.filter g l).
Proof.
  intros Hfg. f_equal. apply filter_ext_in. intros x Hx.
  apply Hfg. now apply list_elem_of_In.
Qed.

Lemma count_positive (f : N -> bool) (q : N) (l : list N) :
  q ∈ l -> f q = true -> (0 < length (List.filter f l))%nat.
Proof.
  intros Hin Hf.
  assert (In q (List.filter f l)) as Hq
    by (apply filter_In; split; [now apply list_elem_of_In|exact Hf]).
  destruct (List.filter f l); [destruct Hq|cbn; lia].
Qed.

Section ServiceStores.
Context `{Collaborators}.

(** Releasing the set at [p]: the set leaves the list and the heap, and
    its store loses a reference or, with the last one, is freed. *)
Lemma release_stores b p s1 st ct s' :
  stores_ok b s1 -> b <= UINT_MAX ->
  set_heap s1 !! p = Some st ->
  content_heap s1 !! content st = Some ct ->
  sets s' = filter (fun q => q ≠ p) (sets s1) ->
  set_heap s' = delete p (set_heap s1) ->
  (refcount ct = 1
   /\ content_heap s' = delete (content st) (content_heap s1))
  \/ (refcount ct ≠ 1
      /\ exists ct', content_heap s'
                     = <[content st := ct']> (content_heap s1)
                     /\ refcount ct' = refcount ct - 1) ->
  stores_ok b s'.
Proof.
  intros (Hnd & Hlive & Hlist & Hrc & Halloc & Hops & Hlen) Hb Hp Hc Hsets
    Hheap Hcontent.
  assert (p ∈ sets s1) as Hin by eauto.
  destruct (Hrc _ ct Hc) as [Hcount Hpos].
  assert (forall c',
            (sharers s' c' + (if bool_decide (content st = c') then 1 else 0))%nat
            = sharers s1 c') as Hshare.
  { intros c'. unfold sharers. rewrite Hsets.
    rewrite <- (count_without (points_to s1 c') p (sets s1) Hnd Hin).
    unfold points_to at 3. rewrite Hp. f_equal.
    apply count_ext. intros q Hq.
    apply list_elem_of_filter in Hq as [Hne _].
    unfold points_to. rewrite Hheap, lookup_delete_ne by congruence.
    reflexivity. }
  unfold stores_ok. rewrite Hsets, Hheap.
  split; [now apply NoDup_filter|].
  split; [|split; [|split; [|split; [|split]]]].
  - intros q Hq. apply list_elem_of_filter in Hq as [Hne Hq].
    rewrite lookup_delete_ne by congruence. now apply Hlive.
  - intros q stq Hq.
    destruct (decide (q = p)) as [->|Hne];
      [now rewrite lookup_delete_eq in Hq|].
    rewrite lookup_delete_ne in Hq by congruence.
    apply list_elem_of_filter. split; [exact Hne|eauto].
  - intros c' ct' Hc'. specialize (Hshare c').
    destruct Hcontent as [[Hone Hcont]|[Hmore (ctn & Hcont & Hrcn)]];
      rewrite Hcont in Hc'.
    + destruct (decide (c' = content st)) as [->|Hne];
        [now rewrite lookup_delete_eq in Hc'|].
      rewrite lookup_delete_ne in Hc' by congruence.
      rewrite bool_decide_eq_false_2 in Hshare by congruence.
      destruct (Hrc c' ct' Hc') as [Hcnt Hps]. split; [|exact Hps]. lia.
    + destruct (decide (c' = content st)) as [->|Hne].
      * rewrite lookup_insert_eq in Hc'. injection Hc' as <-.
        rewrite bool_decide_eq_true_2 in Hshare by reflexivity.
        rewrite Hrcn. lia.
      * rewrite lookup_insert_ne in Hc' by congruence.
        rewrite bool_decide_eq_false_2 in Hshare by congruence.
        destruct (Hrc c' ct' Hc') as [Hcnt Hps]. split; [|exact Hps]. lia.
  - intros q stq Hq.
    destruct (decide (q = p)) as [->|Hne];
      [now rewrite lookup_delete_eq in Hq|].
    rewrite lookup_delete_ne in Hq by congruence.
    destruct Hcontent as [[Hone Hcont]|[Hmore (ctn & Hcont & Hrcn)]];
      rewrite Hcont.
    + destruct (decide (content stq = content st)) as [Heq|Hneq].
      * exfalso. specialize (Hshare (content st)).
        rewrite bool_decide_eq_true_2 in Hshare by reflexivity.
        assert (0 < sharers s' (content st))%nat.
        { unfold sharers. apply (count_positive _ q).
          - rewrite Hsets. apply list_elem_of_filter.
            split; [exact Hne|eauto].
          - unfold points_to. rewrite Hheap, lookup_delete_ne by congruence.
            rewrite Hq. now apply bool_decide_eq_true_2. }
        lia.
      * rewrite lookup_delete_ne by congruence. eauto.
    + destruct (decide (content stq = content st)) as [Heq|Hneq].
      * rewrite Heq, lookup_insert_eq. eauto.
      * rewrite lookup_insert_ne by congruence. eauto.
  - intros q stq Hq.
    destruct (decide (q = p)) as [->|Hne];
      [now rewrite lookup_delete_eq in Hq|].
    rewrite lookup_delete_ne in Hq by congruence. eauto.
  - pose proof (length_filter (fun q => q ≠ p) (sets s1)). lia.
Qed.

Lemma set_destroy_dead_stores b p s n s' :
  stores_ok b s -> b <= UINT_MAX ->
  set_destroy_dead p s = Ret n s' ->
  stores_ok b s'.
Proof.
  unfold set_destroy_dead. intros Hok Hb Hrun.
  apply bind_Ret in Hrun as (k0 & st0 & j0 & Hst0 & Hrun & ->).
  apply bind_Ret in Hrun as (k1 & s1 & j1 & Hd & Hrun & ->).
  apply bind_Ret in Hrun as (k2 & st & j2 & Hp & Hrun & ->).
  apply bind_Ret in Hrun as (k3 & ct & j3 & Hc & Hrun & ->).
  apply get_set_Ret in Hp as [Hp _]. apply get_content_Ret in Hc as [Hc _].
  cbv zeta in Hrun.
  apply bind_Ret in Hrun as (k4 & [] & j4 & Hassert & Hrun & ->).
  apply ret_Ret in Hrun as [<- _].
  pose proof (stores_ok_book _ _ _ Hok (destroy_ops_book _ _ _ _ _ Hd))
    as Hok1.
  clear Hd Hok Hst0 Hassert.
  pose proof Hok1 as (Hnd & _ & Hlist & Hrc & _ & _ & Hlen).
  destruct (Hrc _ ct Hc) as [Hcount Hpos].
  assert (sharers s1 (content st) <= length (sets s1))%nat as Hle
    by (unfold sharers; apply filter_length_le).
  assert (uint (refcount ct - 1) = refcount ct - 1) as Hu.
  { unfold uint, UINT_MAX in *. apply Z.mod_small. lia. }
  cbn [refcount with_pending_mutations]. rewrite Hu.
  eapply (release_stores b p s1 st ct); try eassumption.
  - destruct (refcount ct - 1 =? 0); reflexivity.
  - destruct (refcount ct - 1 =? 0); reflexivity.
  - destruct (Z.eqb_spec (refcount ct - 1) 0) as [Hz|Hnz].
    + left. split; [lia|reflexivity].
    + right. split; [lia|]. eexists. split; [reflexivity|]. reflexivity.
Qed.

Lemma handle_client_disconnect_stores b client s n s' :
  stores_ok b s -> b <= UINT_MAX ->
  handle_client_disconnect client s = Ret n s' ->
  stores_ok b s'.
Proof.
  unfold handle_client_disconnect. intros Hok Hb Hrun.
  apply bind_Ret in Hrun as (k & s1 & j & Hset & Hlis & ->).
  assert (stores_ok b s1) as Hok1.
  { inv_step Hset; [|exact Hok].
    match goal with
    | Hd : set_destroy_dead _ ?s0 = _ |- _ =>
        assert (stores_ok b s0) as Hok0
          by (eapply stores_ok_book; [exact Hok|book_explicit]);
        exact (set_destroy_dead_stores _ _ _ _ _ Hok0 Hb Hd)
    end. }
  inv_step Hlis; [|exact Hok1].
  eapply stores_ok_book; [exact Hok1|book_explicit].
Qed.

Lemma client_disconnect_stores b client s n s' :
  stores_ok b s -> b <= UINT_MAX ->
  GNUNET_SERVER_client_disconnect client s = Ret n s' ->
  stores_ok b s'.
Proof.
  unfold GNUNET_SERVER_client_disconnect. intros Hok Hb Hrun.
  eapply handle_client_disconnect_stores; [|exact Hb|exact Hrun].
  eapply stores_ok_book; [exact Hok|book_explicit].
Qed.

End ServiceStores.
(** ** The requests keep the books *)

Ltac by_disconnect_stores Hok Hb :=
  match goal with
  | Hd : GNUNET_SERVER_client_disconnect _ _ = Ret _ _ |- _ =>
      exact (client_disconnect_stores _ _ _ _ _ Hok Hb Hd)
  end.

Ltac by_book Hok := eapply stores_ok_book; [exact Hok|].

(** No set points to a store that is not allocated. *)
Lemma sharers_unallocated b s c :
  stores_ok b s -> content_heap s !! c = None -> sharers s c = 0%nat.
Proof.
  intros (_ & _ & _ & _ & Halloc & _) Hnone. unfold sharers.
  destruct (List.filter (points_to s c) (sets s)) as [|q rest] eqn:Hf;
    [reflexivity|].
  assert (In q (List.filter (points_to s c) (sets s))) as Hq
    by (rewrite Hf; now left).
  apply filter_In in Hq as [_ Hq]. unfold points_to in Hq.
  destruct (set_heap s !! q) as [st|] eqn:Hst; [|discriminate Hq].
  apply bool_decide_eq_true_1 in Hq. subst c.
  destruct (Halloc q st Hst) as [ct Hct]. congruence.
Qed.

(** One more set at the address handed out next, without operations, on a
    store of its own or as one more sharer of a store that is there. *)
Lemma add_set_stores b s s' stp :
  stores_ok b s -> wf s ->
  sets s' = next_addr s :: sets s ->
  set_heap s' = <[next_addr s := stp]> (set_heap s) ->
  ops stp = [] ->
  ((next_addr s <= content stp)%N
   /\ exists ct', content_heap s'
                  = <[content stp := ct']> (content_heap s)
                  /\ refcount ct' = 1)
  \/ (exists ct ct',
        content_heap s !! content stp = Some ct
        /\ content_heap s' = <[content stp := ct']> (content_heap s)
        /\ refcount ct' = refcount ct + 1) ->
  stores_ok (b + 1) s'.
Proof.
  intros Hok [Hwfs Hwfc] Hsets Hheap Hops Hcontent.
  pose proof Hok as (Hnd & Hlive & Hlist & Hrc & Halloc & Hbound & Hlen).
  assert (next_addr s ∉ sets s) as Hfresh.
  { intros Hin. destruct (Hlive _ Hin) as [st Hst].
    apply Hwfs in Hst. lia. }
  assert (forall c',
            sharers s' c'
            = (sharers s c'
               + (if bool_decide (content stp = c') then 1 else 0))%nat)
    as Hshare.
  { intros c'. unfold sharers. rewrite Hsets. cbn [List.filter].
    unfold points_to at 1. rewrite Hheap, lookup_insert_eq.
    assert (length (List.filter (points_to s' c') (sets s))
            = length (List.filter (points_to s c') (sets s))) as Hrest.
    { apply count_ext. intros q Hq. unfold points_to.
      rewrite Hheap, lookup_insert_ne by (intros <-; contradiction).
      reflexivity. }
    destruct (bool_decide (content stp = c')); cbn [length]; lia. }
  unfold stores_ok. rewrite Hsets, Hheap.
  split; [now apply NoDup_cons|].
  split; [|split; [|split; [|split; [|split]]]].
  - intros q Hq. rewrite lookup_insert. case_decide; [eauto|].
    apply elem_of_cons in Hq as [->|Hq]; [contradiction|]. now apply Hlive.
  - intros q stq Hq. rewrite lookup_insert in Hq. apply elem_of_cons.
    case_decide; [left; congruence|right; eauto].
  - intros c' ct'' Hc'. rewrite (Hshare c').
    destruct Hcontent as [[Hnew (ctn & Hcont & Hone)]
                         |(ct & ctn & Hct & Hcont & Hmore)];
      rewrite Hcont, lookup_insert in Hc'; case_decide; simplify_eq.
    + rewrite bool_decide_eq_true_2 by reflexivity.
      rewrite (sharers_unallocated b s (content stp) Hok); [lia|].
      destruct (content_heap s !! content stp) as [ct0|] eqn:Hct0;
        [|reflexivity].
      apply Hwfc in Hct0. lia.
    + rewrite bool_decide_eq_false_2 by congruence.
      destruct (Hrc c' ct'' Hc'). lia.
    + rewrite bool_decide_eq_true_2 by reflexivity.
      destruct (Hrc _ ct Hct). lia.
    + rewrite bool_decide_eq_false_2 by congruence.
      destruct (Hrc c' ct'' Hc'). lia.
  - intros q stq Hq. rewrite lookup_insert in Hq.
    assert (exists ctn, content_heap s'
                        = <[content stp := ctn]> (content_heap s))
      as [ctn ->]
      by (destruct Hcontent as [[_ (ctn & Hc & _)]|(ct & ctn & _ & Hc & _)];
          eauto).
    rewrite lookup_insert.
    case_decide; simplify_eq.
    + case_decide; [eauto|congruence].
    + case_decide; [eauto|]. eapply Halloc; eassumption.
  - intros q stq Hq. rewrite lookup_insert in Hq.
    case_decide; simplify_eq; [rewrite Hops; constructor|eauto].
  - cbn [length]. lia.
Qed.

Section ServiceRequests.
Context `{Collaborators}.

Lemma incoming_suggest_book op l s n r :
  incoming_suggest op l s = Ret n r -> book s r.2.
Proof.
  unfold incoming_suggest. intros Hrun. inv_step Hrun. cbn [snd].
  book_explicit.
Qed.

Lemma suggest_existing_book l todo s n r :
  suggest_existing l todo s = Ret n r -> book s r.2.
Proof.
  revert s n r. induction todo as [|op rest IH]; intros s n r Hrun;
    cbn [suggest_existing] in Hrun.
  - inv_step Hrun. apply book_refl.
  - apply bind_Ret in Hrun as (k1 & r1 & j1 & Hfirst & Hrun & ->).
    apply bind_Ret in Hrun as (k2 & r2 & j2 & Hrest & Hrun & ->).
    apply ret_Ret in Hrun as [<- _]. cbn [snd].
    eapply book_trans; [|eapply IH; exact Hrest].
    destruct (listener_matches l op).
    + eapply incoming_suggest_book; exact Hfirst.
    + apply ret_Ret in Hfirst as [<- _]. apply book_refl.
Qed.

Lemma handle_incoming_msg_book op mh s n r :
  handle_incoming_msg op mh s = Ret n r -> book s r.2.
Proof.
  unfold handle_incoming_msg. intros Hrun. inv_step Hrun; cbn [snd];
    try apply book_refl; try book_explicit.
  match goal with
  | Hs : incoming_suggest _ _ _ = Ret _ ?r0 |- _ =>
      eapply book_trans; [eapply incoming_suggest_book; exact Hs|]
  end.
  book_explicit.
Qed.

Lemma dispatch_p2p_message_book a mh s n s' :
  dispatch_p2p_message a mh s = Ret n s' -> book s s'.
Proof.
  unfold dispatch_p2p_message, incoming_destroy. intros Hrun.
  inv_step Hrun; try apply book_refl;
    match goal with
    | Hh : handle_incoming_msg _ _ _ = Ret _ _ |- _ =>
        eapply book_trans; [eapply handle_incoming_msg_book; exact Hh|]
    end;
    first [apply book_refl | book_explicit].
Qed.

Lemma channel_new_cb_book initiator port_ok s n s' :
  channel_new_cb initiator port_ok s = Ret n s' -> book s s'.
Proof.
  unfold channel_new_cb. intros Hrun. inv_step Hrun;
    first [apply book_refl | book_explicit].
Qed.

Lemma handle_client_listen_stores b client o app s n s' :
  stores_ok b s -> b <= UINT_MAX ->
  handle_client_listen client o app s = Ret n s' ->
  stores_ok b s'.
Proof.
  unfold handle_client_listen. intros Hok Hb Hrun. inv_step Hrun;
    try by_disconnect_stores Hok Hb.
  by_book Hok.
  match goal with
  | Hs : suggest_existing _ _ ?s0 = Ret _ _ |- _ =>
      assert (book s s0) as Hbook0 by book_explicit;
      pose proof (suggest_existing_book _ _ _ _ _ Hs) as Hbook1
  end.
  eapply book_trans; [exact Hbook0|]. eapply book_trans; [exact Hbook1|].
  book_explicit.
Qed.

Lemma handle_client_iterate_stores b client s n s' :
  stores_ok b s -> b <= UINT_MAX ->
  handle_client_iterate client s = Ret n s' ->
  stores_ok b s'.
Proof.
  unfold handle_client_iterate. intros Hok Hb Hrun. inv_step Hrun;
    try by_disconnect_stores Hok Hb.
  by_book Hok.
  match goal with
  | Hs : send_client_element _ ?s0 = Ret _ _ |- _ =>
      assert (book s s0) as Hbook0 by book_explicit;
      pose proof (send_client_element_book _ _ _ _ Hs) as Hbook1
  end.
  eapply book_trans; eassumption.
Qed.

Lemma handle_client_iter_ack_stores b client send_more s n s' :
  stores_ok b s -> b <= UINT_MAX ->
  handle_client_iter_ack client send_more s = Ret n s' ->
  stores_ok b s'.
Proof.
  unfold handle_client_iter_ack. intros Hok Hb Hrun. inv_step Hrun;
    try by_disconnect_stores Hok Hb; by_book Hok.
  - eapply send_client_element_book; eassumption.
  - book_explicit.
Qed.

Lemma handle_client_mutation_stores b client m s n s' :
  stores_ok b s -> b <= UINT_MAX ->
  handle_client_mutation client m s = Ret n s' ->
  stores_ok b s'.
Proof.
  unfold handle_client_mutation. intros Hok Hb Hrun.
  destruct (set_get client s) as [p|];
    [|inv_step Hrun; by_disconnect_stores Hok Hb].
  apply bind_Ret in Hrun as (k1 & st & j1 & Hst & Hrun & ->).
  apply bind_Ret in Hrun as (k2 & ct & j2 & Hct & Hrun & ->).
  apply get_set_Ret in Hst as [Hst _].
  apply get_content_Ret in Hct as [Hct _].
  by_book Hok.
  destruct (negb (iterator_count ct =? 0)).
  - apply ret_Ret in Hrun as [<- _]. book_explicit.
  - eapply execute_mutation_book; exact Hrun.
Qed.

Lemma handle_client_cancel_stores b client request_id s n s' :
  stores_ok b s -> b <= UINT_MAX ->
  handle_client_cancel client request_id s = Ret n s' ->
  stores_ok b s'.
Proof.
  unfold handle_client_cancel. intros Hok Hb Hrun.
  destruct (set_get client s) as [p|];
    [|inv_step Hrun; by_disconnect_stores Hok Hb].
  apply bind_Ret in Hrun as (k1 & st & j1 & Hst & Hrun & ->).
  by_book Hok.
  destruct (List.find _ (ops st)).
  - eapply operation_destroy_book; exact Hrun.
  - apply ret_Ret in Hrun as [<- _]. apply book_refl.
Qed.

Lemma handle_client_copy_lazy_prepare_stores b client s n s' :
  stores_ok b s -> b <= UINT_MAX ->
  handle_client_copy_lazy_prepare client s = Ret n s' ->
  stores_ok b s'.
Proof.
  unfold handle_client_copy_lazy_prepare. intros Hok Hb Hrun.
  inv_step Hrun; try by_disconnect_stores Hok Hb.
  by_book Hok. book_explicit.
Qed.

Lemma handle_client_evaluate_stores b client app target mode rid s n s' :
  stores_ok b s -> b <= UINT_MAX ->
  handle_client_evaluate client app target mode rid s = Ret n s' ->
  stores_ok b s'.
Proof.
  unfold handle_client_evaluate. intros Hok Hb Hrun.
  destruct (set_get client s) as [p|];
    [|inv_step Hrun; by_disconnect_stores Hok Hb].
  apply bind_Ret in Hrun as (k1 & st & j1 & Hst & Hrun & ->).
  cbv zeta in Hrun.
  apply bind_Ret in Hrun as (k2 & s1 & j2 & Hadv & Hrun & ->).
  apply bind_Ret in Hrun as (k3 & st1 & j3 & Hst1 & Hrun & ->).
  apply ret_Ret in Hrun as [<- _].
  apply get_set_Ret in Hst1 as [Hst1 _].
  by_book Hok.
  eapply book_trans; [eapply advance_generation_book; exact Hadv|].
  book_explicit. intros Hbound. constructor; [|exact Hbound].
  cbn. split; [reflexivity|]. eexists. split; reflexivity.
Qed.

Lemma handle_client_accept_stores b client aid rid mode s n s' :
  stores_ok b s -> b <= UINT_MAX ->
  handle_client_accept client aid rid mode s = Ret n s' ->
  stores_ok b s'.
Proof.
  unfold handle_client_accept. intros Hok Hb Hrun.
  destruct (set_get client s) as [p|];
    [|inv_step Hrun; by_disconnect_stores Hok Hb].
  apply bind_Ret in Hrun as (k1 & st & j1 & Hst & Hrun & ->).
  apply bind_Ret in Hrun as (k2 & found & j2 & Hfound & Hrun & ->).
  apply get_set_Ret in Hst as [Hst _].
  by_book Hok.
  destruct found as [op|];
    [|apply ret_Ret in Hrun as [<- _]; book_explicit].
  apply bind_Ret in Hrun as (k3 & [] & j3 & Hinc & Hrun & ->).
  destruct (spec op) as [sp|]; [|discriminate Hrun].
  cbv zeta in Hrun.
  eapply book_trans; [|eapply advance_generation_book; exact Hrun].
  book_explicit. intros Hbound. constructor; [|exact Hbound].
  cbn. split; [reflexivity|]. eexists. split; reflexivity.
Qed.

Lemma handle_client_create_set_stores b client o s n s' :
  stores_ok b s -> wf s -> b < UINT_MAX ->
  handle_client_create_set client o s = Ret n s' ->
  stores_ok (b + 1) s'.
Proof.
  unfold handle_client_create_set. intros Hok Hwf Hb Hrun.
  assert (b <= UINT_MAX) as Hb' by lia.
  inv_step Hrun;
    try (eapply (stores_ok_mono b); [lia|]; by_disconnect_stores Hok Hb').
  eapply (add_set_stores b s); [exact Hok|exact Hwf|reflexivity|reflexivity
                                |reflexivity|].
  left. cbn. split; [lia|]. eexists. split; reflexivity.
Qed.

Lemma handle_client_copy_lazy_connect_stores b client k s n s' :
  stores_ok b s -> wf s -> b < UINT_MAX ->
  handle_client_copy_lazy_connect client k s = Ret n s' ->
  stores_ok (b + 1) s'.
Proof.
  unfold handle_client_copy_lazy_connect. intros Hok Hwf Hb Hrun.
  assert (b <= UINT_MAX) as Hb' by lia.
  inv_step Hrun;
    try (eapply (stores_ok_mono b); [lia|]; by_disconnect_stores Hok Hb').
  - match goal with
    | Ha : advance_generation _ _ = _ |- _ =>
        apply advance_generation_Ret in Ha
          as (st & ct & st2 & Hst & Hct & -> & _ & (Hcont & _) & Hops2 & _)
    end.
    cbn in Hst. rewrite lookup_insert_eq in Hst. injection Hst as <-.
    cbn in Hct. rewrite lookup_insert_eq in Hct. injection Hct as <-.
    match goal with
    | Hg : set_heap _ !! _ = Some ?st3 |- _ =>
        cbn in Hg; rewrite lookup_insert_eq in Hg; injection Hg as <-
    end.
    cbn in Hcont, Hops2.
    match goal with
    | Hsrc : content_heap _ !! content ?src = Some ?ct0 |- _ =>
        cbn in Hsrc;
        pose proof Hok as (_ & _ & _ & Hrc & _ & _ & Hlen);
        destruct (Hrc _ _ Hsrc) as [Hcount Hpos];
        assert (sharers s (content src) <= length (sets s))%nat as Hle
          by (unfold sharers; apply filter_length_le);
        assert (uint (refcount ct0 + 1) = refcount ct0 + 1) as Hu
          by (unfold uint, UINT_MAX in *; apply Z.mod_small; lia);
        eapply (add_set_stores b s _ (with_set_client (Some client) st2));
          [exact Hok|exact Hwf|reflexivity
          |cbn; rewrite !insert_insert_eq; reflexivity
          |cbn; exact Hops2|];
        right; exists ct0; eexists;
        split; [cbn; rewrite Hcont; exact Hsrc|];
        split; [cbn; rewrite Hcont, !insert_insert_eq; reflexivity|];
        cbn; exact Hu
    end.
  - eapply (stores_ok_mono b); [lia|].
    match goal with
    | Hd : GNUNET_SERVER_client_disconnect _ ?s0 = _ |- _ =>
        assert (stores_ok b s0) as Hok0
          by (eapply stores_ok_book; [exact Hok|book_explicit]);
        exact (client_disconnect_stores _ _ _ _ _ Hok0 Hb' Hd)
    end.
Qed.

(** Every event leaves the books in order, with room for one more set. *)
Lemma step_stores b e s n s' :
  wf s /\ stores_ok b s -> b < UINT_MAX ->
  step e s = Ret n s' ->
  wf s' /\ stores_ok (b + 1) s'.
Proof.
  intros [Hwf Hok] Hb Hstep. split.
  { destruct (step_step_rel _ _ _ _ Hwf Hstep) as (_ & Hwf' & _). exact Hwf'. }
  assert (b <= UINT_MAX) as Hb' by lia.
  destruct e; cbn [step] in Hstep.
  - eapply handle_client_create_set_stores; eassumption.
  - eapply (stores_ok_mono b); [lia|].
    eapply handle_client_mutation_stores; eassumption.
  - eapply (stores_ok_mono b); [lia|].
    eapply handle_client_iterate_stores; eassumption.
  - eapply (stores_ok_mono b); [lia|].
    eapply handle_client_iter_ack_stores; eassumption.
  - eapply (stores_ok_mono b); [lia|].
    eapply handle_client_evaluate_stores; eassumption.
  - eapply (stores_ok_mono b); [lia|].
    eapply handle_client_accept_stores; eassumption.
  - eapply (stores_ok_mono b); [lia|].
    eapply handle_client_cancel_stores; eassumption.
  - eapply (stores_ok_mono b); [lia|].
    eapply handle_client_copy_lazy_prepare_stores; eassumption.
  - eapply handle_client_copy_lazy_connect_stores; eassumption.
  - eapply (stores_ok_mono b); [lia|].
    eapply handle_client_listen_stores; eassumption.
  - eapply (stores_ok_mono b); [lia|].
    eapply handle_client_disconnect_stores; eassumption.
  - eapply (stores_ok_mono b); [lia|]. eapply stores_ok_book; [exact Hok|].
    eapply channel_new_cb_book; eassumption.
  - eapply (stores_ok_mono b); [lia|]. eapply stores_ok_book; [exact Hok|].
    eapply dispatch_p2p_message_book; eassumption.
Qed.

Lemma run_stores evs b s n s' :
  wf s /\ stores_ok b s ->
  b + Z.of_nat (length evs) <= UINT_MAX ->
  run evs s = Ret n s' ->
  wf s' /\ stores_ok (b + Z.of_nat (length evs)) s'.
Proof.
  revert b s n. induction evs as [|e rest IH]; intros b s n Hok Hlen Hrun.
  - cbn in Hrun. apply ret_Ret in Hrun as [<- _].
    cbn [length]. replace (b + Z.of_nat 0) with b by lia. exact Hok.
  - apply run_cons in Hrun as (k & s1 & j & Hstep & Hrest).
    cbn [length] in Hlen |- *.
    replace (b + Z.of_nat (S (length rest)))
      with ((b + 1) + Z.of_nat (length rest)) by lia.
    eapply IH; [|lia|exact Hrest].
    eapply step_stores; [exact Hok|lia|exact Hstep].
Qed.

Lemma stores_ok_initial : wf initial_service /\ stores_ok 0 initial_service.
Proof.
  split; [apply wf_initial_service|]. unfold stores_ok. cbn.
  split; [constructor|].
  split; [intros p Hp; now apply elem_of_nil in Hp|].
  split; [intros p st Hp; now rewrite lookup_empty in Hp|].
  split; [intros c ct Hc; now rewrite lookup_empty in Hc|].
  split; [intros p st Hp; now rewrite lookup_empty in Hp|].
  split; [intros p st Hp; now rewrite lookup_empty in Hp|lia].
Qed.

End ServiceRequests.

(** ** What the books in order give *)

Section ServiceAnswers.
Context `{Collaborators}.

(** X27: the reference counts are exact.  After a run of at most 2^32 - 1
    events from the start of the service, the list of sets has no
    duplicates and holds exactly the allocated sets; the store of every
    set is allocated, and the operations in the list of a set are bound to
    that set; and the reference count of every allocated store is the
    number of sets that use it, which is at least one and at most the
    number of events: no store is leaked, none is freed while in use, and
    the count never wraps. *)
Theorem reference_counts_are_exact
    (evs : list Event) (n : nat) (s : Service) :
  run evs initial_service = Ret n s ->
  Z.of_nat (length evs) <= UINT_MAX ->
  NoDup (sets s)
  /\ (forall p, p ∈ sets s <-> is_Some (set_heap s !! p))
  /\ (forall p st, set_heap s !! p = Some st ->
        is_Some (content_heap s !! content st) /\ bound_to p (ops st))
  /\ (forall c ct, content_heap s !! c = Some ct ->
        refcount ct = Z.of_nat (sharers s c)
        /\ 1 <= refcount ct <= Z.of_nat (length evs)).
Proof.
  intros Hrun Hlen.
  destruct (run_stores evs 0 initial_service n s)
    as (_ & Hnd & Hlive & Hlist & Hrc & Halloc & Hops & Hmax);
    [apply stores_ok_initial|lia|exact Hrun|].
  split; [exact Hnd|]. split; [|split].
  - intros p. split; [apply Hlive|]. intros [st Hst]. eauto.
  - intros p st Hst. split; [eapply Halloc|eapply Hops]; exact Hst.
  - intros c ct Hct. destruct (Hrc c ct Hct) as [Hcount Hpos].
    split; [exact Hcount|].
    assert (sharers s c <= length (sets s))%nat
      by (unfold sharers; apply filter_length_le).
    lia.
Qed.

(** The disconnect handler has no way to fail when the books are in
    order. *)
Lemma handle_client_disconnect_total b client s :
  stores_ok b s ->
  exists s', handle_client_disconnect client s = Ret 0 s'.
Proof.
  intros (_ & _ & _ & Hrc & Halloc & Hops & _).
  destruct (set_get client s) as [p|] eqn:Hget.
  - pose proof Hget as Hfind. unfold set_get in Hfind.
    apply find_some in Hfind as [_ Hown]. unfold owned_by in Hown.
    destruct (set_heap s !! p) as [st|] eqn:Hst; [|discriminate Hown].
    destruct (Halloc p st Hst) as [ct Hct].
    destruct (Hrc _ ct Hct) as [_ Hpos].
    eexists. eapply handle_client_disconnect_owner; try eassumption.
    + lia.
    + eapply Hops; exact Hst.
  - unfold handle_client_disconnect. rewrite Hget, bind_unit_l.
    destruct (listener_get client s); eexists; reflexivity.
Qed.

Lemma client_disconnect_total b client s :
  stores_ok b s ->
  exists s', GNUNET_SERVER_client_disconnect client s = Ret 0 s'.
Proof.
  intros Hok. unfold GNUNET_SERVER_client_disconnect.
  eapply handle_client_disconnect_total.
  eapply stores_ok_book; [exact Hok|book_explicit].
Qed.

Lemma break_then_disconnect b client s :
  stores_ok b s ->
  exists n s',
    (GNUNET_break false ;; GNUNET_SERVER_client_disconnect client s)
    = Ret n s'.
Proof.
  intros Hok. destruct (client_disconnect_total b client s Hok) as [s' Hs'].
  exists 1%nat, s'. rewrite Hs'. reflexivity.
Qed.

Lemma set_get_allocated client s p :
  set_get client s = Some p -> is_Some (set_heap s !! p).
Proof.
  unfold set_get. intros Hfind. apply find_some in Hfind as [_ Hown].
  unfold owned_by in Hown. destruct (set_heap s !! p); [eauto|discriminate].
Qed.

End ServiceAnswers.

Lemma reference_counts_are_exact_witness :
  exists s ct,
    test_run fork_scenario initial_service = Ret 0 s
    /\ content_heap s !! 2%N = Some ct
    /\ refcount ct = Z.of_nat (sharers s 2%N)
    /\ 1 <= refcount ct <= 6.
Proof.
  assert (exists s ct,
            test_run fork_scenario initial_service = Ret 0 s
            /\ content_heap s !! 2%N = Some ct)
    as (s & ct & Hs & Hct).
  { do 2 eexists. split; vm_compute; reflexivity. }
  destruct (@reference_counts_are_exact test_collaborators fork_scenario
              0%nat s Hs) as (_ & _ & _ & Hrc).
  - cbn. unfold UINT_MAX. lia.
  - exists s, ct. destruct (Hrc 2%N ct Hct) as [H1 H2]. auto.
Defined.


(** * The channels and the tickets *)

Lemma calm_refl s : calm s s.
Proof. unfold calm. auto. Qed.

Lemma calm_trans s1 s2 s3 : calm s1 s2 -> calm s2 s3 -> calm s1 s3.
Proof.
  intros (Hi1 & Hs1 & Hl1 & Ho1) (Hi2 & Hs2 & Hl2 & Ho2). unfold calm.
  split; [congruence|]. split; [congruence|]. split; [congruence|].
  intros p. now rewrite Ho2.
Qed.

Lemma channels_ok_calm s s' : channels_ok s -> calm s s' -> channels_ok s'.
Proof.
  intros (Hinc & Hid & Hlazy & Hop) (Hi & Hs & Hl & Ho). unfold channels_ok.
  rewrite Hi, Hs, Hl. split; [exact Hinc|]. split; [exact Hid|]. split.
  - eapply Forall_impl; [exact Hlazy|]. intros cr [st Hst]. cbn beta.
    specialize (Ho (source_set cr)). rewrite Hst in Ho.
    destruct (set_heap s' !! source_set cr); [eauto|discriminate Ho].
  - intros p st' Hp. specialize (Ho p). rewrite Hp in Ho.
    destruct (set_heap s !! p) as [st|] eqn:Hst; [|discriminate Ho].
    cbn in Ho. injection Ho as Ho. rewrite Ho. eapply Hop; exact Hst.
Qed.

Lemma live_insert (m : gmap N GSS_Set) (p k : N) (x : GSS_Set) :
  is_Some (m !! k) -> is_Some (<[p := x]> m !! k).
Proof. intros Hk. rewrite lookup_insert. case_decide; eauto. Qed.

Lemma Forall_remove_first {A : Type} (P : A -> Prop) (f : A -> bool)
    (l : list A) :
  Forall P l -> Forall P (remove_first f l).
Proof.
  induction 1 as [|x rest Hx Hrest IH]; [constructor|]. cbn.
  destruct (f x); [exact Hrest|now constructor].
Qed.

Lemma vt_of_operation `{Collaborators} (o : OperationType) :
  o ≠ GNUNET_SET_OPERATION_NONE <-> is_Some (vt_of o).
Proof.
  destruct o; cbn; split; intros Ho; eauto; try congruence.
  now destruct Ho.
Qed.

Lemma next_suggest_id_nonzero (id : Z) :
  (if uint (id + 1) =? 0 then uint (uint (id + 1) + 1) else uint (id + 1))
  ≠ 0.
Proof.
  destruct (Z.eqb_spec (uint (id + 1)) 0) as [Hz|Hnz];
    [rewrite Hz; discriminate|exact Hnz].
Qed.

Ltac calm_explicit :=
  unfold calm; split; [reflexivity|]; split; [reflexivity|];
  split; [reflexivity|fmap_lookup].

Ltac by_calm Hok := eapply channels_ok_calm; [exact Hok|].

Section ServiceCalm.
Context `{Collaborators}.

Lemma operation_destroy_calm op gc s n s' :
  _GSS_operation_destroy op gc s = Ret n s' -> calm s s'.
Proof.
  unfold _GSS_operation_destroy. intros Hrun. inv_step Hrun.
  - match goal with
    | Hgc : collect_generation_garbage _ _ = _ |- _ =>
        apply collect_generation_garbage_id in Hgc as [-> _]
    end.
    calm_explicit.
  - calm_explicit.
Qed.

Lemma destroy_ops_calm fuel p s n s' :
  destroy_ops fuel p s = Ret n s' -> calm s s'.
Proof.
  revert s n. induction fuel as [|fuel IH]; intros s n Hrun;
    cbn [destroy_ops] in Hrun; inv_step Hrun.
  - apply calm_refl.
  - apply calm_refl.
  - eapply calm_trans; [eapply operation_destroy_calm|eapply IH];
      eassumption.
Qed.

Lemma execute_mutation_calm p m s n s' :
  execute_mutation p m s = Ret n s' -> calm s s'.
Proof.
  unfold execute_mutation. intros Hrun. destruct (msg_type m).
  - unfold execute_add, append_mutation in Hrun. inv_step Hrun;
      first [apply calm_refl | calm_explicit].
  - unfold execute_remove, append_mutation in Hrun. inv_step Hrun;
      first [apply calm_refl | calm_explicit].
  - inv_step Hrun. apply calm_refl.
Qed.

Lemma flush_pending_calm pms c s n s' :
  flush_pending pms c s = Ret n s' -> calm s s'.
Proof.
  revert s n. induction pms as [|pm rest IH]; intros s n Hrun;
    cbn [flush_pending] in Hrun; inv_step Hrun.
  - apply calm_refl.
  - match goal with
    | He : execute_mutation _ _ ?s0 = _, Hr : flush_pending _ _ _ = _ |- _ =>
        assert (calm s s0) as Hcalm0 by calm_explicit;
        pose proof (execute_mutation_calm _ _ _ _ _ He) as Hcalm1;
        pose proof (IH _ _ Hr) as Hcalm2
    end.
    eapply calm_trans; [exact Hcalm0|]. eapply calm_trans; eassumption.
Qed.

Lemma send_client_element_calm p s n s' :
  send_client_element p s = Ret n s' -> calm s s'.
Proof.
  unfold send_client_element. intros Hrun. inv_step Hrun.
  - calm_explicit.
  - match goal with
    | Hr : flush_pending _ _ ?s0 = _ |- _ =>
        assert (calm s s0) as Hcalm0 by calm_explicit;
        pose proof (flush_pending_calm _ _ _ _ _ Hr) as Hcalm1
    end.
    eapply calm_trans; [exact Hcalm0|]. eapply calm_trans; [exact Hcalm1|].
    calm_explicit.
  - calm_explicit.
Qed.

Lemma advance_generation_calm p s n s' :
  advance_generation p s = Ret n s' -> calm s s'.
Proof.
  unfold advance_generation. intros Hrun. inv_step Hrun; calm_explicit.
Qed.

(** Destroying a set strikes the tickets that name it. *)
Lemma set_destroy_dead_channels p s n s' :
  channels_ok s ->
  set_destroy_dead p s = Ret n s' ->
  channels_ok s'.
Proof.
  unfold set_destroy_dead. intros Hok Hrun.
  apply bind_Ret in Hrun as (k0 & st0 & j0 & Hst0 & Hrun & ->).
  apply bind_Ret in Hrun as (k1 & s1 & j1 & Hd & Hrun & ->).
  apply bind_Ret in Hrun as (k2 & st & j2 & Hp & Hrun & ->).
  apply bind_Ret in Hrun as (k3 & ct & j3 & Hc & Hrun & ->).
  cbv zeta in Hrun.
  apply bind_Ret in Hrun as (k4 & [] & j4 & Hassert & Hrun & ->).
  apply ret_Ret in Hrun as [<- _].
  pose proof (channels_ok_calm _ _ Hok (destroy_ops_calm _ _ _ _ _ Hd))
    as (Hinc & Hid & Hlazy & Hop).
  unfold channels_ok.
  destruct (uint (refcount _ - 1) =? 0); cbn.
  all: split; [exact Hinc|]; split; [exact Hid|]; split.
  all: try (apply Forall_forall; intros cr Hcr;
            apply list_elem_of_filter in Hcr as [Hne Hcr];
            rewrite Forall_forall in Hlazy;
            rewrite lookup_delete_ne by congruence; now apply Hlazy).
  all: intros q stq Hq;
    destruct (decide (q = p)) as [->|Hne];
    [now rewrite lookup_delete_eq in Hq|];
    rewrite lookup_delete_ne in Hq by congruence; eapply Hop; exact Hq.
Qed.

Lemma handle_client_disconnect_channels client s n s' :
  channels_ok s ->
  handle_client_disconnect client s = Ret n s' ->
  channels_ok s'.
Proof.
  unfold handle_client_disconnect. intros Hok Hrun.
  apply bind_Ret in Hrun as (k & s1 & j & Hset & Hlis & ->).
  assert (channels_ok s1) as Hok1.
  { inv_step Hset; [|exact Hok].
    match goal with
    | Hd : set_destroy_dead _ ?s0 = _ |- _ =>
        assert (channels_ok s0) as Hok0
          by (eapply channels_ok_calm; [exact Hok|calm_explicit]);
        exact (set_destroy_dead_channels _ _ _ _ Hok0 Hd)
    end. }
  inv_step Hlis; [|exact Hok1].
  eapply channels_ok_calm; [exact Hok1|calm_explicit].
Qed.

Lemma client_disconnect_channels client s n s' :
  channels_ok s ->
  GNUNET_SERVER_client_disconnect client s = Ret n s' ->
  channels_ok s'.
Proof.
  unfold GNUNET_SERVER_client_disconnect. intros Hok Hrun.
  eapply handle_client_disconnect_channels; [|exact Hrun].
  eapply channels_ok_calm; [exact Hok|calm_explicit].
Qed.

End ServiceCalm.

Ltac by_disconnect_channels Hok :=
  match goal with
  | Hd : GNUNET_SERVER_client_disconnect _ _ = Ret _ _ |- _ =>
      exact (client_disconnect_channels _ _ _ _ Hok Hd)
  end.

Section ServiceChannels.
Context `{Collaborators}.

Lemma handle_client_iterate_channels client s n s' :
  channels_ok s ->
  handle_client_iterate client s = Ret n s' ->
  channels_ok s'.
Proof.
  unfold handle_client_iterate. intros Hok Hrun. inv_step Hrun;
    try by_disconnect_channels Hok.
  by_calm Hok.
  match goal with
  | Hs : send_client_element _ ?s0 = Ret _ _ |- _ =>
      assert (calm s s0) as Hcalm0 by calm_explicit;
      pose proof (send_client_element_calm _ _ _ _ Hs) as Hcalm1
  end.
  eapply calm_trans; eassumption.
Qed.

Lemma handle_client_iter_ack_channels client send_more s n s' :
  channels_ok s ->
  handle_client_iter_ack client send_more s = Ret n s' ->
  channels_ok s'.
Proof.
  unfold handle_client_iter_ack. intros Hok Hrun. inv_step Hrun;
    try by_disconnect_channels Hok; by_calm Hok.
  - eapply send_client_element_calm; eassumption.
  - calm_explicit.
Qed.

Lemma handle_client_mutation_channels client m s n s' :
  channels_ok s ->
  handle_client_mutation client m s = Ret n s' ->
  channels_ok s'.
Proof.
  unfold handle_client_mutation. intros Hok Hrun.
  destruct (set_get client s) as [p|];
    [|inv_step Hrun; by_disconnect_channels Hok].
  apply bind_Ret in Hrun as (k1 & st & j1 & Hst & Hrun & ->).
  apply bind_Ret in Hrun as (k2 & ct & j2 & Hct & Hrun & ->).
  apply get_set_Ret in Hst as [Hst _].
  apply get_content_Ret in Hct as [Hct _].
  by_calm Hok.
  destruct (negb (iterator_count ct =? 0)).
  - apply ret_Ret in Hrun as [<- _]. calm_explicit.
  - eapply execute_mutation_calm; exact Hrun.
Qed.

Lemma handle_client_cancel_channels client request_id s n s' :
  channels_ok s ->
  handle_client_cancel client request_id s = Ret n s' ->
  channels_ok s'.
Proof.
  unfold handle_client_cancel. intros Hok Hrun.
  destruct (set_get client s) as [p|];
    [|inv_step Hrun; by_disconnect_channels Hok].
  apply bind_Ret in Hrun as (k1 & st & j1 & Hst & Hrun & ->).
  by_calm Hok.
  destruct (List.find _ (ops st)).
  - eapply operation_destroy_calm; exact Hrun.
  - apply ret_Ret in Hrun as [<- _]. apply calm_refl.
Qed.

Lemma handle_client_evaluate_channels client app target mode rid s n s' :
  channels_ok s ->
  handle_client_evaluate client app target mode rid s = Ret n s' ->
  channels_ok s'.
Proof.
  unfold handle_client_evaluate. intros Hok Hrun.
  destruct (set_get client s) as [p|];
    [|inv_step Hrun; by_disconnect_channels Hok].
  apply bind_Ret in Hrun as (k1 & st & j1 & Hst & Hrun & ->).
  cbv zeta in Hrun.
  apply bind_Ret in Hrun as (k2 & s1 & j2 & Hadv & Hrun & ->).
  apply bind_Ret in Hrun as (k3 & st1 & j3 & Hst1 & Hrun & ->).
  apply ret_Ret in Hrun as [<- _].
  apply get_set_Ret in Hst1 as [Hst1 _].
  by_calm Hok.
  eapply calm_trans; [eapply advance_generation_calm; exact Hadv|].
  calm_explicit.
Qed.

Lemma handle_client_copy_lazy_prepare_channels client s n s' :
  channels_ok s ->
  handle_client_copy_lazy_prepare client s = Ret n s' ->
  channels_ok s'.
Proof.
  unfold handle_client_copy_lazy_prepare. intros Hok Hrun.
  inv_step Hrun; try by_disconnect_channels Hok.
  destruct Hok as (Hinc & Hid & Hlazy & Hop). unfold channels_ok. cbn.
  split; [exact Hinc|]. split; [exact Hid|]. split; [|exact Hop].
  constructor; [cbn; eauto|exact Hlazy].
Qed.

Lemma handle_client_accept_channels client aid rid mode s n s' :
  channels_ok s ->
  handle_client_accept client aid rid mode s = Ret n s' ->
  channels_ok s'.
Proof.
  unfold handle_client_accept. intros Hok Hrun.
  destruct (set_get client s) as [p|];
    [|inv_step Hrun; by_disconnect_channels Hok].
  apply bind_Ret in Hrun as (k1 & st & j1 & Hst & Hrun & ->).
  apply bind_Ret in Hrun as (k2 & found & j2 & Hfound & Hrun & ->).
  apply get_set_Ret in Hst as [Hst _].
  destruct found as [op|];
    [|apply ret_Ret in Hrun as [<- _];
      eapply channels_ok_calm; [exact Hok|calm_explicit]].
  apply bind_Ret in Hrun as (k3 & [] & j3 & Hinc & Hrun & ->).
  destruct (spec op) as [sp|]; [|discriminate Hrun].
  cbv zeta in Hrun.
  eapply channels_ok_calm; [|eapply advance_generation_calm; exact Hrun].
  destruct Hok as (Hall & Hid & Hlazy & Hop). unfold channels_ok. cbn.
  split.
  { apply Forall_forall. intros x Hx.
    apply list_elem_of_filter in Hx as [_ Hx].
    rewrite Forall_forall in Hall. now apply Hall. }
  split; [exact Hid|]. split.
  - eapply Forall_impl; [exact Hlazy|]. intros cr Hcr. cbn beta.
    now apply live_insert.
  - intros q stq Hq. rewrite lookup_insert in Hq.
    case_decide; simplify_eq; cbn; eauto.
Qed.

Lemma handle_client_create_set_channels client o s n s' :
  channels_ok s ->
  handle_client_create_set client o s = Ret n s' ->
  channels_ok s'.
Proof.
  unfold handle_client_create_set. intros Hok Hrun. inv_step Hrun;
    try by_disconnect_channels Hok.
  destruct Hok as (Hall & Hid & Hlazy & Hop). unfold channels_ok. cbn.
  split; [exact Hall|]. split; [exact Hid|]. split.
  - eapply Forall_impl; [exact Hlazy|]. intros cr Hcr. cbn beta.
    now apply live_insert.
  - intros q stq Hq. rewrite lookup_insert in Hq.
    case_decide; simplify_eq; cbn; [|eauto].
    apply vt_of_operation. eauto.
Qed.

Lemma handle_client_copy_lazy_connect_channels client k s n s' :
  channels_ok s ->
  handle_client_copy_lazy_connect client k s = Ret n s' ->
  channels_ok s'.
Proof.
  unfold handle_client_copy_lazy_connect. intros Hok Hrun.
  inv_step Hrun; try by_disconnect_channels Hok.
  - match goal with
    | Ha : advance_generation _ ?s2 = Ret _ ?s3 |- _ =>
        assert (channels_ok s2) as Hok2;
        [|pose proof (channels_ok_calm _ _ Hok2
                        (advance_generation_calm _ _ _ _ Ha))
            as (Hall3 & Hid3 & Hlazy3 & Hop3)]
    end.
    { destruct Hok as (Hall & Hid & Hlazy & Hop). unfold channels_ok. cbn.
      split; [exact Hall|]. split; [exact Hid|]. split.
      - apply Forall_remove_first.
        eapply Forall_impl; [exact Hlazy|]. intros cr Hcr. cbn beta.
        now apply live_insert.
      - intros q stq Hq. rewrite lookup_insert in Hq.
        case_decide; simplify_eq; cbn; eauto. }
    unfold channels_ok. cbn.
    split; [exact Hall3|]. split; [exact Hid3|]. split.
    + eapply Forall_impl; [exact Hlazy3|]. intros cr Hcr. cbn beta.
      now apply live_insert.
    + intros q stq Hq. rewrite lookup_insert in Hq.
      case_decide; simplify_eq; cbn; eauto.
  - match goal with
    | Hd : GNUNET_SERVER_client_disconnect _ ?s0 = _ |- _ =>
        assert (channels_ok s0) as Hok0;
        [|exact (client_disconnect_channels _ _ _ _ Hok0 Hd)]
    end.
    destruct Hok as (Hall & Hid & Hlazy & Hop). unfold channels_ok. cbn.
    split; [exact Hall|]. split; [exact Hid|]. split; [|exact Hop].
    now apply Forall_remove_first.
Qed.

Lemma channel_new_cb_channels initiator port_ok s n s' :
  channels_ok s ->
  channel_new_cb initiator port_ok s = Ret n s' ->
  channels_ok s'.
Proof.
  unfold channel_new_cb. intros Hok Hrun. inv_step Hrun; [|exact Hok].
  destruct Hok as (Hall & Hid & Hlazy & Hop). unfold channels_ok. cbn.
  split; [|auto].
  unfold GNUNET_CONTAINER_DLL_insert_tail. apply Forall_app. split; [exact Hall|].
  constructor; [|constructor]. unfold incoming_ok. cbn. auto.
Qed.

(** What a suggestion makes of an operation. *)
Lemma incoming_suggest_channels op l s n r :
  suggest_id s ≠ 0 ->
  incoming_suggest op l s = Ret n r ->
  incoming_ok r.1 /\ suggest_id r.2 ≠ 0
  /\ incoming r.2 = incoming s /\ lazy_copy r.2 = lazy_copy s
  /\ set_heap r.2 = set_heap s.
Proof.
  unfold incoming_suggest. intros Hid Hrun. inv_step Hrun. cbn.
  split; [|split; [apply next_suggest_id_nonzero|auto]].
  unfold incoming_ok. cbn.
  split; [assumption|]. split; [intros Hz; contradiction|].
  intros Hnone;
    match goal with Hs : spec op = Some _ |- _ => congruence end.
Qed.

Lemma suggest_existing_channels l todo s n r :
  Forall incoming_ok todo -> suggest_id s ≠ 0 ->
  suggest_existing l todo s = Ret n r ->
  Forall incoming_ok r.1 /\ suggest_id r.2 ≠ 0
  /\ incoming r.2 = incoming s /\ lazy_copy r.2 = lazy_copy s
  /\ set_heap r.2 = set_heap s.
Proof.
  intros Hall. revert s n r.
  induction Hall as [|op rest Hop _ IH]; intros s n r Hid Hrun;
    cbn [suggest_existing] in Hrun.
  - inv_step Hrun. cbn. auto.
  - apply bind_Ret in Hrun as (k1 & r1 & j1 & Hfirst & Hrun & ->).
    apply bind_Ret in Hrun as (k2 & r2 & j2 & Hrest & Hrun & ->).
    apply ret_Ret in Hrun as [<- _]. cbn [fst snd].
    assert (incoming_ok r1.1 /\ suggest_id r1.2 ≠ 0
            /\ incoming r1.2 = incoming s /\ lazy_copy r1.2 = lazy_copy s
            /\ set_heap r1.2 = set_heap s)
      as (Hok1 & Hid1 & Hi1 & Hl1 & Hh1).
    { destruct (listener_matches l op).
      - eapply incoming_suggest_channels; eassumption.
      - apply ret_Ret in Hfirst as [<- _]. cbn. auto. }
    destruct (IH _ _ _ Hid1 Hrest) as (Hok2 & Hid2 & Hi2 & Hl2 & Hh2).
    split; [now constructor|]. split; [exact Hid2|].
    split; [congruence|]. split; congruence.
Qed.

Lemma handle_client_listen_channels client o app s n s' :
  channels_ok s ->
  handle_client_listen client o app s = Ret n s' ->
  channels_ok s'.
Proof.
  unfold handle_client_listen. intros Hok Hrun. inv_step Hrun;
    try by_disconnect_channels Hok.
  destruct Hok as (Hall & Hid & Hlazy & Hop).
  match goal with
  | Hs : suggest_existing _ _ _ = Ret _ ?r |- _ =>
      apply suggest_existing_channels in Hs
        as (Hall' & Hid' & Hi' & Hl' & Hh');
      [|exact Hall|exact Hid];
      destruct r as [todo' s2]; cbn [fst snd] in *
  end.
  unfold channels_ok. cbn. cbn in Hl', Hh'. rewrite Hl', Hh'.
  split; [exact Hall'|]. split; [exact Hid'|]. split; assumption.
Qed.

Lemma Forall_replace {A : Type} (P : A -> Prop) (f : A -> bool) (y : A)
    (l : list A) :
  Forall P l -> P y -> Forall P (map (fun x => if f x then y else x) l).
Proof.
  intros Hall Hy. induction Hall as [|x rest Hx _ IH]; cbn; [constructor|].
  constructor; [destruct (f x); assumption|exact IH].
Qed.

Lemma handle_incoming_msg_channels op mh s n r :
  channels_ok s -> incoming_ok op ->
  handle_incoming_msg op mh s = Ret n r ->
  channels_ok r.2.
Proof.
  unfold handle_incoming_msg. intros Hok Hop Hrun.
  pose proof Hok as (Hall & Hid & Hlazy & Hops).
  destruct Hop as (Hinc & Htime & Hsp).
  inv_step Hrun; cbn [snd]; try exact Hok.
  - match goal with
    | Hs : incoming_suggest _ _ _ = Ret _ ?r0 |- _ =>
        apply incoming_suggest_channels in Hs
          as (Hok1 & Hid1 & Hi1 & Hl1 & Hh1); [|exact Hid];
        destruct r0 as [op2 s2]; cbn [fst snd] in *
    end.
    unfold channels_ok. cbn. rewrite Hl1, Hh1.
    split; [|auto]. now apply Forall_replace.
  - unfold channels_ok. cbn. split; [|auto].
    apply Forall_replace; [exact Hall|].
    unfold incoming_ok. cbn. split; [exact Hinc|].
    split; [exact Htime|discriminate].
Qed.

Lemma dispatch_p2p_message_channels a mh s n s' :
  channels_ok s ->
  dispatch_p2p_message a mh s = Ret n s' ->
  channels_ok s'.
Proof.
  unfold dispatch_p2p_message, incoming_destroy. intros Hok Hrun.
  destruct (List.find _ (incoming s)) as [op|] eqn:Hfind;
    [|apply ret_Ret in Hrun as [<- _]; exact Hok].
  apply bind_Ret in Hrun as (k & r & j & Hmsg & Hrun & ->).
  assert (incoming_ok op) as Hop.
  { apply find_some in Hfind as [Hin _].
    destruct Hok as (Hall & _). rewrite Forall_forall in Hall.
    apply Hall. now apply list_elem_of_In. }
  pose proof (handle_incoming_msg_channels _ _ _ _ _ Hok Hop Hmsg) as Hok1.
  inv_step Hrun; try exact Hok1.
  destruct Hok1 as (Hall & Hid & Hlazy & Hops). unfold channels_ok. cbn.
  split; [|auto]. apply Forall_forall. intros x Hx.
  apply list_elem_of_filter in Hx as [_ Hx].
  rewrite Forall_forall in Hall. now apply Hall.
Qed.

Lemma step_channels e s n s' :
  channels_ok s -> step e s = Ret n s' -> channels_ok s'.
Proof.
  intros Hok Hstep. destruct e; cbn [step] in Hstep.
  - eapply handle_client_create_set_channels; eassumption.
  - eapply handle_client_mutation_channels; eassumption.
  - eapply handle_client_iterate_channels; eassumption.
  - eapply handle_client_iter_ack_channels; eassumption.
  - eapply handle_client_evaluate_channels; eassumption.
  - eapply handle_client_accept_channels; eassumption.
  - eapply handle_client_cancel_channels; eassumption.
  - eapply handle_client_copy_lazy_prepare_channels; eassumption.
  - eapply handle_client_copy_lazy_connect_channels; eassumption.
  - eapply handle_client_listen_channels; eassumption.
  - eapply handle_client_disconnect_channels; eassumption.
  - eapply channel_new_cb_channels; eassumption.
  - eapply dispatch_p2p_message_channels; eassumption.
Qed.

Lemma run_channels evs s n s' :
  channels_ok s -> run evs s = Ret n s' -> channels_ok s'.
Proof.
  revert s n. induction evs as [|e rest IH]; intros s n Hok Hrun.
  - cbn in Hrun. apply ret_Ret in Hrun as [<- _]. exact Hok.
  - apply run_cons in Hrun as (k & s1 & j & Hstep & Hrest).
    eapply IH; [|exact Hrest]. eapply step_channels; eassumption.
Qed.

Lemma channels_ok_initial : channels_ok initial_service.
Proof.
  unfold channels_ok. cbn. split; [constructor|]. split; [discriminate|].
  split; [constructor|]. intros p st Hp. now rewrite lookup_empty in Hp.
Qed.

End ServiceChannels.

(** * Which requests are always answered *)

Lemma find_last_unsuggested (l : list Operation) (op : Operation) :
  Forall (fun x => op_suggest_id x ≠ 0) l ->
  op_suggest_id op = 0 ->
  List.find (fun x => bool_decide (op_suggest_id x = 0)) (l ++ [op])
  = Some op.
Proof.
  intros Hall Hop. induction Hall as [|x rest Hx _ IH]; cbn.
  - now rewrite bool_decide_eq_true_2.
  - now rewrite bool_decide_eq_false_2.
Qed.

Section ServiceTotal.
Context `{Collaborators}.

Lemma handle_client_create_set_total b client o s :
  stores_ok b s ->
  exists n s', handle_client_create_set client o s = Ret n s'.
Proof.
  intros Hok. unfold handle_client_create_set.
  destruct (set_get client s); [now apply (break_then_disconnect b)|].
  destruct (vt_of o) as [vt|]; [|now apply (break_then_disconnect b)].
  destruct (create vt); [do 2 eexists; reflexivity|].
  destruct (client_disconnect_total b client s Hok) as [s' Hs']. eauto.
Qed.

Lemma handle_client_evaluate_total b b' client app target mode rid s :
  stores_ok b s -> generations_core b' s ->
  exists n s', handle_client_evaluate client app target mode rid s = Ret n s'.
Proof.
  intros Hok Hgen. pose proof Hok as (_ & _ & _ & _ & Halloc & _).
  unfold handle_client_evaluate.
  destruct (set_get client s) as [p|] eqn:Hget;
    [|now apply (break_then_disconnect b)].
  destruct (set_get_allocated _ _ _ Hget) as [st Hst].
  destruct (Halloc p st Hst) as [ct Hct].
  destruct Hgen as (_ & Hsets & _).
  destruct (Hsets p st ct Hst Hct) as [Hcur _].
  destruct (advance_generation_total p s st ct Hst Hct) as (ex & Hadv & _);
    [lia|].
  rewrite (get_set_Some _ _ _ Hst), bind_ret_l. cbv zeta.
  rewrite Hadv, bind_ret_l.
  erewrite get_set_Some by (cbn; apply lookup_insert_eq).
  rewrite bind_ret_l. do 2 eexists. reflexivity.
Qed.

Lemma handle_client_cancel_total b client rid s :
  stores_ok b s ->
  exists n s', handle_client_cancel client rid s = Ret n s'.
Proof.
  intros Hok. pose proof Hok as (_ & _ & _ & _ & Halloc & Hops & _).
  unfold handle_client_cancel.
  destruct (set_get client s) as [p|] eqn:Hget;
    [|now apply (break_then_disconnect b)].
  destruct (set_get_allocated _ _ _ Hget) as [st Hst].
  rewrite (get_set_Some _ _ _ Hst), bind_ret_l.
  destruct (List.find _ (ops st)) as [op|] eqn:Hfind;
    [|do 2 eexists; reflexivity].
  apply find_some in Hfind as [Hin _].
  pose proof (Hops p st Hst) as Hbound. unfold bound_to in Hbound.
  rewrite Forall_forall in Hbound.
  destruct (Hbound op) as (Hinc & sp & Hsp & Hset);
    [now apply list_elem_of_In|].
  destruct (Halloc p st Hst) as [ct Hct].
  unfold _GSS_operation_destroy. rewrite Hinc, Hsp, Hset.
  cbn [negb]. rewrite assert_true_then.
  rewrite (get_set_Some _ _ _ Hst), bind_ret_l. cbv zeta.
  unfold collect_generation_garbage.
  erewrite get_set_Some by (cbn; apply lookup_insert_eq).
  rewrite bind_ret_l.
  erewrite get_content_Some by (cbn; exact Hct).
  rewrite bind_ret_l. do 2 eexists. reflexivity.
Qed.

Lemma handle_client_copy_lazy_prepare_total b client s :
  stores_ok b s ->
  exists n s', handle_client_copy_lazy_prepare client s = Ret n s'.
Proof.
  intros Hok. unfold handle_client_copy_lazy_prepare.
  destruct (set_get client s) as [p|] eqn:Hget;
    [|now apply (break_then_disconnect b)].
  destruct (set_get_allocated _ _ _ Hget) as [st Hst].
  rewrite (get_set_Some _ _ _ Hst), bind_ret_l.
  do 2 eexists. reflexivity.
Qed.

(** An accept id other than zero finds an operation that has been
    suggested, and such an operation has its request. *)
Lemma handle_client_accept_total b b' client id rid mode s :
  stores_ok b s -> generations_core b' s -> channels_ok s ->
  id ≠ 0 ->
  exists n s', handle_client_accept client id rid mode s = Ret n s'.
Proof.
  intros Hok Hgen (Hall & _) Hid.
  pose proof Hok as (_ & _ & _ & _ & Halloc & _).
  unfold handle_client_accept.
  destruct (set_get client s) as [p|] eqn:Hget;
    [|now apply (break_then_disconnect b)].
  destruct (set_get_allocated _ _ _ Hget) as [st Hst].
  destruct (Halloc p st Hst) as [ct Hct].
  destruct Hgen as (_ & Hsets & _).
  destruct (Hsets p st ct Hst Hct) as [Hcur _].
  rewrite (get_set_Some _ _ _ Hst), bind_ret_l. unfold get_incoming.
  destruct (List.find _ (incoming s)) as [op|] eqn:Hfind;
    [|rewrite bind_unit_l; do 2 eexists; reflexivity].
  apply find_some in Hfind as [Hin Hop].
  apply bool_decide_eq_true_1 in Hop.
  rewrite Forall_forall in Hall.
  destruct (Hall op) as (Hinc & _ & Hsp); [now apply list_elem_of_In|].
  rewrite Hinc, assert_true_then, bind_unit_l. cbv beta iota.
  rewrite Hinc, assert_true_then.
  destruct (spec op) as [sp|] eqn:Hspec;
    [|exfalso; apply Hid; rewrite <- Hop; now apply Hsp].
  cbv zeta.
  match goal with
  | |- context [advance_generation ?q ?s2] =>
      edestruct (advance_generation_total q s2) as (ex & Hadv & _);
        [cbn; apply lookup_insert_eq|cbn; exact Hct|cbn; lia|]
  end.
  eauto.
Qed.

(** A ticket names a set that is allocated, and a set has an operation
    type with a virtual table. *)
Lemma handle_client_copy_lazy_connect_total b b' client k s :
  stores_ok b s -> generations_core b' s -> channels_ok s ->
  exists n s', handle_client_copy_lazy_connect client k s = Ret n s'.
Proof.
  intros Hok Hgen (_ & _ & Hlazy & Hop).
  pose proof Hok as (_ & _ & _ & _ & Halloc & _).
  unfold handle_client_copy_lazy_connect.
  destruct (set_get client s); [now apply (break_then_disconnect b)|].
  destruct (List.find _ (lazy_copy s)) as [cr|] eqn:Hfind;
    [|now apply (break_then_disconnect b)].
  apply find_some in Hfind as [Hin _].
  rewrite Forall_forall in Hlazy.
  destruct (Hlazy cr) as [src Hsrc]; [now apply list_elem_of_In|].
  destruct (Halloc _ src Hsrc) as [ct Hct].
  destruct Hgen as (_ & Hsets & _).
  destruct (Hsets _ src ct Hsrc Hct) as [Hcur _].
  cbv zeta.
  erewrite get_set_Some by (cbn; exact Hsrc). rewrite bind_ret_l.
  destruct (proj1 (vt_of_operation (operation src)) (Hop _ src Hsrc))
    as [vt Hvt].
  rewrite Hvt. destruct (copy_state vt).
  - erewrite get_content_Some by (cbn; exact Hct). rewrite bind_ret_l.
    match goal with
    | |- context [advance_generation ?q ?s2] =>
        edestruct (advance_generation_total q s2) as (ex & Hadv & _);
          [cbn; apply lookup_insert_eq|cbn; apply lookup_insert_eq
          |cbn; lia|]
    end.
    rewrite Hadv, bind_ret_l.
    erewrite get_set_Some by (cbn; apply lookup_insert_eq).
    rewrite bind_ret_l. do 2 eexists. reflexivity.
  - apply (break_then_disconnect b).
    eapply stores_ok_book; [exact Hok|book_explicit].
Qed.

Lemma handle_client_listen_total b client o app s :
  stores_ok b s -> channels_ok s ->
  exists n s', handle_client_listen client o app s = Ret n s'.
Proof.
  intros Hok (Hall & Hid & _). unfold handle_client_listen.
  destruct (listener_get client s); [now apply (break_then_disconnect b)|].
  cbv zeta.
  match goal with
  | |- context [suggest_existing ?l ?todo ?s1] =>
      destruct (suggest_existing_spec l todo s1)
        as (todo' & s' & Hrun & _)
  end.
  - cbn. eapply Forall_impl; [exact Hall|].
    intros op (Hinc & Htime & _) Hm. split; [exact Hinc|].
    apply Htime. unfold listener_matches in Hm.
    destruct (spec op); [|discriminate].
    apply andb_true_iff in Hm as [[Hz _]%andb_true_iff _].
    now apply Z.eqb_eq in Hz.
  - exact Hid.
  - rewrite Hrun, bind_ret_l. do 2 eexists. reflexivity.
Qed.

Lemma handle_incoming_msg_total op mh s :
  incoming_ok op ->
  exists n r, handle_incoming_msg op mh s = Ret n r.
Proof.
  intros (Hinc & Htime & Hsp). unfold handle_incoming_msg.
  rewrite Hinc, assert_true_then.
  destruct mh as [o app ctx|]; [|do 2 eexists; reflexivity].
  destruct (spec op) as [sp|] eqn:Hspec; [do 2 eexists; reflexivity|].
  cbv zeta.
  match goal with
  | |- context [if ?big then _ else _] =>
      destruct big; [do 2 eexists; reflexivity|]
  end.
  pose proof (Htime (Hsp eq_refl)) as Htimeout.
  destruct (List.find _ (listeners s)) as [l|].
  - unfold incoming_suggest. cbn [is_incoming spec op_suggest_id timeout_task].
    rewrite ?Hinc, assert_true_then, (Hsp eq_refl). cbn [Z.eqb].
    rewrite assert_true_then, Htimeout, assert_true_then. cbv zeta.
    rewrite bind_unit_l. do 2 eexists. reflexivity.
  - rewrite Htimeout. do 2 eexists. reflexivity.
Qed.

Lemma dispatch_p2p_message_total a mh s :
  channels_ok s ->
  exists n s', dispatch_p2p_message a mh s = Ret n s'.
Proof.
  intros Hok. unfold dispatch_p2p_message.
  destruct (List.find _ (incoming s)) as [op|] eqn:Hfind;
    [|do 2 eexists; reflexivity].
  assert (incoming_ok op) as Hop.
  { apply find_some in Hfind as [Hin _].
    destruct Hok as (Hall & _). rewrite Forall_forall in Hall.
    apply Hall. now apply list_elem_of_In. }
  destruct (handle_incoming_msg_total op mh s Hop) as (n & r & Hmsg).
  pose proof (handle_incoming_msg_channels _ _ _ _ _ Hok Hop Hmsg)
    as (Hall & _).
  assert (exists k s',
            (if r.1 =? GNUNET_SYSERR
             then match List.find (fun o => bool_decide (op_addr o = a))
                                  (incoming r.2) with
                  | Some op' => incoming_destroy op' r.2
                  | None => ret r.2
                  end
             else ret r.2) = Ret k s') as (k & s' & Hrest).
  { destruct (r.1 =? GNUNET_SYSERR); [|do 2 eexists; reflexivity].
    destruct (List.find _ (incoming r.2)) as [op'|] eqn:Hfind';
      [|do 2 eexists; reflexivity].
    apply find_some in Hfind' as [Hin' _].
    rewrite Forall_forall in Hall.
    destruct (Hall op') as (Hinc' & _); [now apply list_elem_of_In|].
    unfold incoming_destroy. rewrite Hinc', assert_true_then.
    do 2 eexists. reflexivity. }
  rewrite Hmsg. unfold mbind, outcome_bind, bind. cbv beta.
  rewrite Hrest. eauto.
Qed.

Lemma step_total b b' e s :
  stores_ok b s -> generations_core b' s -> channels_ok s ->
  always_answered e = true ->
  exists n s', step e s = Ret n s'.
Proof.
  intros Hok Hgen Hch He.
  destruct e; try discriminate He; cbn [step].
  - now apply (handle_client_create_set_total b).
  - now apply (handle_client_evaluate_total b b').
  - apply (handle_client_accept_total b b'); try assumption.
    cbn in He. intros ->. discriminate He.
  - now apply (handle_client_cancel_total b).
  - now apply (handle_client_copy_lazy_prepare_total b).
  - now apply (handle_client_copy_lazy_connect_total b b').
  - now apply (handle_client_listen_total b).
  - destruct (handle_client_disconnect_total b client s Hok) as [s' Hs'].
    eauto.
  - unfold channel_new_cb. destruct port_ok; do 2 eexists; reflexivity.
  - now apply dispatch_p2p_message_total.
Qed.

(** X28: most requests are always answered.  After a run of at most
    2^32 - 1 events from the start of the service, every event other than
    a mutation, Iterate, an acknowledgement and Accept with the id zero
    runs to its end, whoever the client is and whatever the arguments are:
    no assertion in the handlers of these events can fail and nothing that
    is missing is looked up.  The loop over the operations of a departing
    client's set ends, a set is never ahead of its store when its
    generation advances, a ticket for a lazy copy never names a set that
    is gone, and an operation found under an accept id other than zero
    has its request. *)
Theorem most_requests_are_always_answered
    (evs : list Event) (n : nat) (s : Service) (e : Event) :
  run evs initial_service = Ret n s ->
  Z.of_nat (length evs) <= UINT_MAX ->
  always_answered e = true ->
  exists n' s', step e s = Ret n' s'.
Proof.
  intros Hrun Hlen He.
  destruct (run_stores evs 0 initial_service n s) as [_ Hok];
    [apply stores_ok_initial|lia|exact Hrun|].
  destruct (run_generations evs 0 initial_service n s) as [_ Hgen];
    [apply generations_ok_initial|lia|lia|exact Hrun|].
  pose proof (run_channels evs initial_service n s channels_ok_initial Hrun)
    as Hch.
  eapply step_total; eassumption.
Qed.

End ServiceTotal.

(** X29: Accept with the id zero reaches an operation that was never
    suggested.  When every operation of the incoming list has been
    suggested and a new channel comes in, the operation of the channel
    stands last in the list, with the accept id zero and without a
    request; a client with a set that then sends Accept with the id zero
    is given this operation, and the handler, which goes on to the
    specification of the operation without a test, aborts. *)
Theorem accept_zero_takes_unsuggested_operation
    (client : Client) (initiator : PeerIdentity) (rid mode : Z)
    (s : Service) :
  is_Some (set_get client s) ->
  Forall (fun op => op_suggest_id op ≠ 0) (incoming s) ->
  exists s1 op,
    channel_new_cb initiator true s = Ret 0 s1
    /\ incoming s1 = incoming s ++ [op]
    /\ get_incoming 0 s1 = Ret 0 (Some op)
    /\ spec op = None
    /\ handle_client_accept client 0 rid mode s1 = Aborted.
Proof.
  intros [p Hget] Hall.
  destruct (set_get_allocated _ _ _ Hget) as [st Hst].
  unfold channel_new_cb. eexists. eexists.
  split; [reflexivity|]. split; [reflexivity|].
  assert (forall s1 op,
            incoming s1 = incoming s ++ [op] -> op_suggest_id op = 0 ->
            is_incoming op = true ->
            get_incoming 0 s1 = Ret 0 (Some op)) as Hfound.
  { intros s1 op Hinc Hz Hin. unfold get_incoming.
    rewrite Hinc, (find_last_unsuggested _ _ Hall Hz), Hin.
    reflexivity. }
  split; [now apply Hfound|]. split; [reflexivity|].
  unfold handle_client_accept.
  match goal with
  | |- context [set_get client ?s1] =>
      change (set_get client s1) with (set_get client s);
      rewrite Hget;
      rewrite (get_set_Some p s1 st) by exact Hst;
      rewrite bind_ret_l;
      rewrite (Hfound s1 _ eq_refl eq_refl eq_refl)
  end.
  reflexivity.
Qed.

Lemma most_requests_are_always_answered_witness :
  exists s n' s',
    test_run fork_scenario initial_service = Ret 0 s
    /\ @step test_collaborators (EvCopyLazyConnect 3%N 1) s = Ret n' s'.
Proof.
  assert (exists s, test_run fork_scenario initial_service = Ret 0 s)
    as (s & Hs).
  { eexists. vm_compute. reflexivity. }
  destruct (@most_requests_are_always_answered test_collaborators
              fork_scenario 0%nat s (EvCopyLazyConnect 3%N 1) Hs)
    as (n' & s' & Hstep).
  - cbn. unfold UINT_MAX. lia.
  - reflexivity.
  - exists s, n', s'. auto.
Defined.

Lemma accept_zero_takes_unsuggested_operation_witness :
  exists s1,
    channel_new_cb 9%N true (service_at 0) = Ret 0 s1
    /\ handle_client_accept alice 0 0 0 s1 = Aborted.
Proof.
  destruct (accept_zero_takes_unsuggested_operation alice 9%N 0 0
              (service_at 0))
    as (s1 & op & Hnew & _ & _ & _ & Habort).
  - vm_compute. eauto.
  - constructor.
  - exists s1. auto.
Defined.

(** * A service without lazy copies *)

(** ** Histories in order *)

(** With the generations in order, the mutations that apply to a query
    are the first ones of the list. *)
Lemma applicable_ascending q muts :
  ascending muts -> exists k, applicable q [] muts = take k muts.
Proof.
  induction muts as [|mut rest IH]; intros Hasc.
  - exists 0%nat. reflexivity.
  - destruct Hasc as [Hall Hasc]. rewrite applicable_cons.
    unfold applies. cbn [is_excluded_generation existsb negb].
    rewrite andb_true_r.
    destruct (Z.leb_spec (generation mut) q) as [Hle|Hgt].
    + destruct (IH Hasc) as [k Hk]. exists (S k). cbn. now rewrite Hk.
    + exists 0%nat. cbn [take]. unfold applicable.
      clear IH Hasc. induction Hall as [|m l Hm _ IH]; [reflexivity|].
      cbn. unfold applies.
      replace (generation m <=? q) with false
        by (symmetry; apply Z.leb_gt; lia).
      exact IH.
Qed.

Lemma alternates_take present k muts :
  alternates present muts = true -> alternates present (take k muts) = true.
Proof.
  revert present k. induction muts as [|mut rest IH]; intros present k Halt.
  - now destruct k.
  - destruct k as [|k]; [reflexivity|]. cbn in *.
    apply andb_true_iff in Halt as [Hfirst Hrest].
    rewrite Hfirst. cbn. now apply IH.
Qed.

Lemma applicable_all q muts :
  Forall (fun mut => generation mut <= q) muts -> applicable q [] muts = muts.
Proof.
  induction 1 as [|mut rest Hmut _ IH]; [reflexivity|].
  rewrite applicable_cons. unfold applies.
  replace (generation mut <=? q) with true by (symmetry; apply Z.leb_le; lia).
  cbn. now rewrite IH.
Qed.

Lemma alternates_snoc present muts mut :
  alternates present muts = true ->
  added mut = negb (last_added present muts) ->
  alternates present (muts ++ [mut]) = true.
Proof.
  revert present. induction muts as [|m rest IH]; intros present Halt Hmut.
  - cbn in *. rewrite Hmut. now destruct present.
  - cbn in *. apply andb_true_iff in Halt as [Hfirst Hrest].
    rewrite Hfirst. cbn. apply IH; [exact Hrest|].
    now rewrite last_added_cons in Hmut.
Qed.

Lemma ascending_snoc muts mut :
  ascending muts ->
  Forall (fun m => generation m <= generation mut) muts ->
  ascending (muts ++ [mut]).
Proof.
  induction muts as [|m rest IH]; intros Hasc Hall.
  - cbn. auto.
  - destruct Hasc as [Hm Hasc]. apply Forall_cons in Hall as [Hle Hall].
    cbn. split; [|now apply IH].
    apply Forall_app. split; [exact Hm|]. constructor; [exact Hle|constructor].
Qed.

(** The membership test of an entry with a history in order answers at
    every generation. *)
Lemma membership_total latest ee q :
  history_ok latest (mutations ee) ->
  is_element_of_generation ee q []
  = Ret 0 (last_added false (applicable q [] (mutations ee))).
Proof.
  intros (Hne & Halt & Hasc & _). unfold is_element_of_generation.
  rewrite bool_decide_eq_false_2 by exact Hne. cbn [negb].
  rewrite assert_true_then. cbn [is_excluded_generation existsb].
  rewrite scan_mutations_spec.
  destruct (applicable_ascending q _ Hasc) as [k ->].
  now rewrite alternates_take.
Qed.

(** A mutation at the latest generation that turns the membership over
    keeps the history in order. *)
Lemma history_ok_snoc latest muts flag :
  muts = [] /\ flag = true
  \/ history_ok latest muts /\ flag = negb (last_added false muts) ->
  history_ok latest (muts ++ [ {| generation := latest; added := flag |} ]).
Proof.
  intros [[-> ->]|[(Hne & Halt & Hasc & Hall) ->]].
  - unfold history_ok. cbn. split; [discriminate|]. split; [reflexivity|].
    split; [auto|]. constructor; [cbn; lia|constructor].
  - unfold history_ok. split; [intros [-> _]%app_eq_nil; now apply Hne|].
    split; [now apply alternates_snoc|]. split.
    + apply ascending_snoc; [exact Hasc|]. exact Hall.
    + apply Forall_app. split; [exact Hall|].
      constructor; [cbn; lia|constructor].
Qed.

Lemma history_ok_mono latest latest' muts :
  latest <= latest' -> history_ok latest muts -> history_ok latest' muts.
Proof.
  intros Hle (Hne & Halt & Hasc & Hall). unfold history_ok.
  split; [exact Hne|]. split; [exact Halt|]. split; [exact Hasc|].
  eapply Forall_impl; [exact Hall|]. cbn. intros mut Hmut. lia.
Qed.

(** ** Sets that use their store alone *)

Lemma still_refl s : still s s.
Proof. unfold still. auto. Qed.

Lemma still_trans s1 s2 s3 : still s1 s2 -> still s2 s3 -> still s1 s3.
Proof.
  intros [Hs1 Hc1] [Hs2 Hc2]. unfold still.
  split; [intros p; now rewrite Hs2|intros c; now rewrite Hc2].
Qed.

Lemma still_of_heaps s s' :
  set_heap s' = set_heap s -> content_heap s' = content_heap s -> still s s'.
Proof. intros Hs Hc. unfold still. now rewrite Hs, Hc. Qed.

Lemma set_solo_view p st st' ct ct' :
  set_view st' = set_view st -> store_view ct' = store_view ct ->
  set_solo p st ct -> set_solo p st' ct'.
Proof.
  unfold set_view, store_view, set_solo.
  intros [= Hc Hg Hex Hit] [= He Hl Hp Hn].
  now rewrite Hg, Hex, Hit, He, Hl, Hp, Hn.
Qed.

Lemma solo_ok_still s s' : solo_ok s -> still s s' -> solo_ok s'.
Proof.
  intros [Huniq Hsets] [Hs Hc]. split.
  - intros p q st' stq' Hp Hq Heq.
    pose proof (Hs p) as Hsp. pose proof (Hs q) as Hsq.
    rewrite Hp in Hsp. rewrite Hq in Hsq.
    destruct (set_heap s !! p) as [st|] eqn:Hst; [|discriminate Hsp].
    destruct (set_heap s !! q) as [stq|] eqn:Hstq; [|discriminate Hsq].
    assert (content st' = content st) as Hcp
      by (unfold set_view in Hsp; cbn in Hsp; congruence).
    assert (content stq' = content stq) as Hcq
      by (unfold set_view in Hsq; cbn in Hsq; congruence).
    apply (Huniq p q st stq Hst Hstq). congruence.
  - intros p st' Hp. pose proof (Hs p) as Hsp. rewrite Hp in Hsp.
    destruct (set_heap s !! p) as [st|] eqn:Hst; [|discriminate Hsp].
    assert (set_view st' = set_view st) as Hv
      by (cbn in Hsp; congruence).
    destruct (Hsets p st Hst) as (ct & Hct & Hsolo).
    assert (content st' = content st) as Hcont
      by (unfold set_view in Hv; congruence).
    specialize (Hc (content st)). rewrite Hct in Hc.
    destruct (content_heap s' !! content st) as [ct'|] eqn:Hct';
      [|discriminate Hc].
    assert (store_view ct' = store_view ct) as Hw
      by (cbn in Hc; congruence).
    exists ct'. rewrite Hcont. split; [exact Hct'|].
    eapply set_solo_view; eassumption.
Qed.

(** The set at [p] and its store change, the other sets and stores do
    not. *)
Lemma solo_ok_update p st st' ct' s s' :
  solo_ok s ->
  set_heap s !! p = Some st ->
  set_heap s' !! p = Some st' ->
  (forall q, q ≠ p -> set_heap s' !! q = set_heap s !! q) ->
  content st' = content st ->
  content_heap s' !! content st = Some ct' ->
  (forall c, c ≠ content st -> content_heap s' !! c = content_heap s !! c) ->
  set_solo p st' ct' ->
  solo_ok s'.
Proof.
  intros [Huniq Hsets] Hst Hst' Hother Hcont Hct' Hcother Hsolo.
  assert (forall q stq', set_heap s' !! q = Some stq' ->
            exists stq, set_heap s !! q = Some stq
                        /\ content stq' = content stq
                        /\ (q ≠ p -> stq' = stq)) as Hback.
  { intros q stq' Hq. destruct (decide (q = p)) as [->|Hne].
    - exists st. rewrite Hst' in Hq. injection Hq as <-.
      split; [exact Hst|]. split; [exact Hcont|]. intros Hn. now destruct Hn.
    - rewrite (Hother q Hne) in Hq. eauto. }
  split.
  - intros q r stq' str' Hq Hr Heq.
    destruct (Hback q stq' Hq) as (stq & Hq0 & Hcq & _).
    destruct (Hback r str' Hr) as (str & Hr0 & Hcr & _).
    apply (Huniq q r stq str Hq0 Hr0). congruence.
  - intros q stq' Hq. destruct (decide (q = p)) as [->|Hne].
    + rewrite Hst' in Hq. injection Hq as <-. rewrite Hcont. eauto.
    + destruct (Hback q stq' Hq) as (stq & Hq0 & _ & Hsame).
      rewrite (Hsame Hne).
      destruct (Hsets q stq Hq0) as (ctq & Hctq & Hsq).
      exists ctq. split; [|exact Hsq].
      rewrite Hcother; [exact Hctq|].
      intros Heq. apply Hne. apply (Huniq q p stq st Hq0 Hst Heq).
Qed.

(** The set at [p] goes, the other sets and their stores stay. *)
Lemma solo_ok_remove p st s s' :
  solo_ok s ->
  set_heap s !! p = Some st ->
  set_heap s' = delete p (set_heap s) ->
  (forall c, c ≠ content st -> content_heap s' !! c = content_heap s !! c) ->
  solo_ok s'.
Proof.
  intros [Huniq Hsets] Hst Hheap Hcother. unfold solo_ok. rewrite Hheap.
  split.
  - intros q r stq str Hq Hr Heq.
    apply lookup_delete_Some in Hq as [_ Hq].
    apply lookup_delete_Some in Hr as [_ Hr]. eauto.
  - intros q stq Hq. apply lookup_delete_Some in Hq as [Hne Hq].
    destruct (Hsets q stq Hq) as (ctq & Hctq & Hsq).
    exists ctq. split; [|exact Hsq].
    rewrite Hcother; [exact Hctq|].
    intros Heq. apply Hne.
    apply (Huniq p q st stq Hst Hq). congruence.
Qed.

Ltac still_explicit :=
  unfold still; split; fmap_lookup.

(** ** The requests on a set that uses its store alone *)

Lemma bind_total {A B : Type} (m : outcome A) (f : A -> outcome B) n a
    (P : B -> Prop) :
  m = Ret n a ->
  (exists k b, f a = Ret k b /\ P b) ->
  exists k b, (m ≫= f) = Ret k b /\ P b.
Proof.
  intros -> (k & b & Hf & HP). unfold mbind, outcome_bind, bind.
  rewrite Hf. eauto.
Qed.

Lemma keys_have_entries (m : gmap N ElementEntry) :
  Forall (fun k => is_Some (m !! k)) (map fst (map_to_list m)).
Proof.
  apply Forall_forall. intros k Hk.
  apply list_elem_of_fmap in Hk as ([k' ee] & -> & Hin).
  apply elem_of_map_to_list in Hin. cbn. eauto.
Qed.

Lemma keys_keep_entries (m : gmap N ElementEntry) (h : N) (ee : ElementEntry)
    (keys : list N) :
  Forall (fun k => is_Some (m !! k)) keys ->
  Forall (fun k => is_Some (<[h := ee]> m !! k)) keys.
Proof.
  intros Hall. eapply Forall_impl; [exact Hall|]. cbn. intros k Hk.
  rewrite lookup_insert. case_decide; eauto.
Qed.

Section ServiceSolo.
Context `{Collaborators}.

Lemma operation_destroy_still op gc s n s' :
  _GSS_operation_destroy op gc s = Ret n s' -> still s s'.
Proof.
  unfold _GSS_operation_destroy. intros Hrun. inv_step Hrun.
  - match goal with
    | Hgc : collect_generation_garbage _ _ = _ |- _ =>
        apply collect_generation_garbage_id in Hgc as [-> _]
    end.
    still_explicit.
  - still_explicit.
Qed.

Lemma destroy_ops_still fuel p s n s' :
  destroy_ops fuel p s = Ret n s' -> still s s'.
Proof.
  revert s n. induction fuel as [|fuel IH]; intros s n Hrun;
    cbn [destroy_ops] in Hrun; inv_step Hrun.
  - apply still_refl.
  - apply still_refl.
  - eapply still_trans; [eapply operation_destroy_still|eapply IH];
      eassumption.
Qed.

Lemma set_destroy_dead_solo p s n s' :
  solo_ok s ->
  set_destroy_dead p s = Ret n s' ->
  solo_ok s'.
Proof.
  unfold set_destroy_dead. intros Hok Hrun.
  apply bind_Ret in Hrun as (k0 & st0 & j0 & Hst0 & Hrun & ->).
  apply bind_Ret in Hrun as (k1 & s1 & j1 & Hd & Hrun & ->).
  apply bind_Ret in Hrun as (k2 & st & j2 & Hp & Hrun & ->).
  apply bind_Ret in Hrun as (k3 & ct & j3 & Hc & Hrun & ->).
  apply get_set_Ret in Hp as [Hp _].
  cbv zeta in Hrun.
  apply bind_Ret in Hrun as (k4 & [] & j4 & Hassert & Hrun & ->).
  apply ret_Ret in Hrun as [<- _].
  pose proof (solo_ok_still _ _ Hok (destroy_ops_still _ _ _ _ _ Hd))
    as Hok1.
  eapply (solo_ok_remove p st s1); [exact Hok1|exact Hp| |].
  - destruct (uint (refcount _ - 1) =? 0); reflexivity.
  - intros c Hne. destruct (uint (refcount _ - 1) =? 0); cbn.
    + now rewrite lookup_delete_ne by congruence.
    + now rewrite lookup_insert_ne by congruence.
Qed.

Lemma handle_client_disconnect_solo client s n s' :
  solo_ok s ->
  handle_client_disconnect client s = Ret n s' ->
  solo_ok s'.
Proof.
  unfold handle_client_disconnect. intros Hok Hrun.
  apply bind_Ret in Hrun as (k & s1 & j & Hset & Hlis & ->).
  assert (solo_ok s1) as Hok1.
  { inv_step Hset; [|exact Hok].
    match goal with
    | Hd : set_destroy_dead _ ?s0 = _ |- _ =>
        assert (solo_ok s0) as Hok0
          by (eapply solo_ok_still; [exact Hok|still_explicit]);
        exact (set_destroy_dead_solo _ _ _ _ Hok0 Hd)
    end. }
  inv_step Hlis; [|exact Hok1].
  eapply solo_ok_still; [exact Hok1|still_explicit].
Qed.

Lemma client_disconnect_solo client s n s' :
  solo_ok s ->
  GNUNET_SERVER_client_disconnect client s = Ret n s' ->
  solo_ok s'.
Proof.
  unfold GNUNET_SERVER_client_disconnect. intros Hok Hrun.
  eapply handle_client_disconnect_solo; [|exact Hrun].
  eapply solo_ok_still; [exact Hok|still_explicit].
Qed.

Lemma break_then_disconnect_solo b client s :
  stores_ok b s -> solo_ok s ->
  exists n s',
    (GNUNET_break false ;; GNUNET_SERVER_client_disconnect client s)
    = Ret n s'
    /\ solo_ok s'.
Proof.
  intros Hok Hsolo.
  destruct (client_disconnect_total b client s Hok) as [s' Hs'].
  exists 1%nat, s'. rewrite Hs'. split; [reflexivity|].
  eapply client_disconnect_solo; eassumption.
Qed.

(** One more mutation for the entry under [hash]. *)
Lemma append_mutation_solo p st ct hash ee flag call s :
  solo_ok s ->
  set_heap s !! p = Some st ->
  content_heap s !! content st = Some ct ->
  set_solo p st ct ->
  history_ok (latest_generation ct)
             (mutations ee
              ++ [ {| generation := latest_generation ct; added := flag |} ]) ->
  solo_ok (append_mutation p st ct hash ee flag call s).
Proof.
  intros Hok Hst Hct (Hgen & Hex & Hcount & Hiter & Hpend & Hhist) Hnew.
  unfold append_mutation.
  eapply (solo_ok_update p st); [exact Hok|exact Hst| | | | | |].
  - cbn. apply lookup_insert_eq.
  - intros q Hne. cbn. now rewrite lookup_insert_ne by congruence.
  - reflexivity.
  - cbn. apply lookup_insert_eq.
  - intros c Hne. cbn. now rewrite lookup_insert_ne by congruence.
  - unfold set_solo. cbn.
    split; [exact Hgen|]. split; [exact Hex|]. split; [exact Hcount|].
    split; [|split; [exact Hpend|]].
    + intros keys Hkeys. destruct (Hiter keys Hkeys) as [Hpos Hall].
      split; [exact Hpos|]. now apply keys_keep_entries.
    + intros h ee0 Hlook. rewrite lookup_insert in Hlook.
      case_decide; simplify_eq; [|eauto].
      cbn. rewrite Hgen. exact Hnew.
Qed.

(** The membership test of a set that uses its store alone answers, with
    the flag of the last mutation of the entry. *)
Lemma solo_is_element_of_set p st ct h ee :
  set_solo p st ct ->
  elements ct !! h = Some ee ->
  _GSS_is_element_of_set ee st = Ret 0 (last_added false (mutations ee))
  /\ history_ok (latest_generation ct) (mutations ee).
Proof.
  intros (Hgen & Hex & _ & _ & _ & Hhist) Hlook.
  pose proof (Hhist h ee Hlook) as Hh. split; [|exact Hh].
  unfold _GSS_is_element_of_set. rewrite Hex.
  rewrite (membership_total _ ee _ Hh).
  destruct Hh as (_ & _ & _ & Hall).
  rewrite applicable_all; [reflexivity|]. now rewrite Hgen.
Qed.

Lemma execute_mutation_solo p m s st :
  solo_ok s ->
  set_heap s !! p = Some st ->
  exists n s', execute_mutation p m s = Ret n s' /\ solo_ok s'.
Proof.
  intros Hok Hst.
  destruct (proj2 Hok p st Hst) as (ct & Hct & Hsolo).
  pose proof Hsolo as (Hgen & _).
  unfold execute_mutation. destruct (msg_type m) eqn:Hty.
  - unfold execute_add. rewrite Hty.
    rewrite bool_decide_eq_true_2 by reflexivity.
    rewrite assert_true_then, (get_set_Some _ _ _ Hst), bind_ret_l.
    rewrite (get_content_Some _ _ _ Hct), bind_ret_l. cbv zeta.
    destruct (elements ct !! _) as [ee|] eqn:Hlook.
    + destruct (solo_is_element_of_set _ _ _ _ _ Hsolo Hlook)
        as [Htest Hhist].
      rewrite Htest, bind_ret_l.
      destruct (last_added false (mutations ee)) eqn:Hlast;
        [do 2 eexists; split; [reflexivity|exact Hok]|].
      do 2 eexists. split; [reflexivity|].
      apply append_mutation_solo; try assumption.
      apply history_ok_snoc. right.
      split; [exact Hhist|now rewrite Hlast].
    + do 2 eexists. split; [reflexivity|].
      apply append_mutation_solo; try assumption.
      apply history_ok_snoc. left. auto.
  - unfold execute_remove. rewrite Hty.
    rewrite bool_decide_eq_true_2 by reflexivity.
    rewrite assert_true_then, (get_set_Some _ _ _ Hst), bind_ret_l.
    rewrite (get_content_Some _ _ _ Hct), bind_ret_l. cbv zeta.
    destruct (elements ct !! _) as [ee|] eqn:Hlook;
      [|do 2 eexists; split; [reflexivity|exact Hok]].
    destruct (solo_is_element_of_set _ _ _ _ _ Hsolo Hlook)
      as [Htest Hhist].
    rewrite Htest, bind_ret_l.
    destruct (last_added false (mutations ee)) eqn:Hlast;
      [|do 2 eexists; split; [reflexivity|exact Hok]].
    do 2 eexists. split; [reflexivity|].
    apply append_mutation_solo; try assumption.
    apply history_ok_snoc. right.
    split; [exact Hhist|now rewrite Hlast].
  - do 2 eexists. split; [reflexivity|exact Hok].
Qed.

Lemma flush_pending_solo pms p c :
  Forall (fun pm => pm_set pm = p) pms ->
  forall s,
    solo_ok s ->
    content <$> set_heap s !! p = Some c ->
    exists n s', flush_pending pms c s = Ret n s' /\ solo_ok s'.
Proof.
  induction 1 as [|pm rest Hpm Hrest IH]; intros s Hok Hp.
  - do 2 eexists. split; [reflexivity|exact Hok].
  - destruct (set_heap s !! p) as [st|] eqn:Hst; [|discriminate Hp].
    cbn in Hp. injection Hp as Hc. subst c.
    destruct (proj2 Hok p st Hst) as (ct & Hct & Hsolo).
    cbn [flush_pending].
    rewrite (get_content_Some _ _ _ Hct), bind_ret_l.
    set (s0 := put_content (content st) (with_pending_mutations rest ct) s).
    assert (solo_ok s0) as Hok0.
    { eapply (solo_ok_update p st st); [exact Hok|exact Hst|exact Hst
                                        | |reflexivity| | |].
      - reflexivity.
      - cbn. apply lookup_insert_eq.
      - intros c Hne. cbn. now rewrite lookup_insert_ne by congruence.
      - destruct Hsolo as (Hgen & Hex & Hcount & Hiter & _ & Hhist).
        unfold set_solo. cbn. auto 10. }
    assert (set_heap s0 !! p = Some st) as Hst0 by exact Hst.
    destruct (execute_mutation_solo (pm_set pm) (mutation_message pm) s0 st
                Hok0) as (n1 & s1 & Hexec & Hok1);
      [now rewrite Hpm|].
    eapply bind_total; [exact Hexec|]. cbv beta.
    apply IH; [exact Hok1|].
    rewrite Hpm in Hexec.
    destruct (execute_mutation_book _ _ _ _ _ Hexec) as (_ & Hcont & _).
    rewrite Hcont. cbn. now rewrite Hst.
Qed.

Lemma next_iteration_element_solo p st ct keys :
  set_solo p st ct ->
  Forall (fun k => is_Some (elements ct !! k)) keys ->
  exists r,
    next_iteration_element keys st ct = Ret 0 r
    /\ forall ee rest, r = Some (ee, rest) ->
         Forall (fun k => is_Some (elements ct !! k)) rest.
Proof.
  intros (_ & Hex & _ & _ & _ & Hhist) Hall.
  induction Hall as [|k rest [ee Hk] Hrest IH].
  - eexists. split; [reflexivity|]. discriminate.
  - cbn [next_iteration_element]. rewrite Hk.
    unfold is_element_of_iteration. rewrite Hex.
    rewrite (membership_total _ ee _ (Hhist k ee Hk)), bind_ret_l.
    destruct (last_added false _).
    + eexists. split; [reflexivity|]. intros ee0 rest0 [= _ <-]. exact Hrest.
    + exact IH.
Qed.

Lemma send_client_element_solo p s st keys :
  solo_ok s ->
  set_heap s !! p = Some st ->
  iter st = Some keys ->
  exists n s', send_client_element p s = Ret n s' /\ solo_ok s'.
Proof.
  intros Hok Hst Hkeys.
  destruct (proj2 Hok p st Hst) as (ct & Hct & Hsolo).
  pose proof Hsolo as (Hgen & Hex & Hcount & Hiter & Hpend & Hhist).
  destruct (Hiter keys Hkeys) as [Hpos Hall].
  destruct (next_iteration_element_solo p st ct keys Hsolo Hall)
    as (r & Hnext & Hrest).
  unfold send_client_element.
  rewrite (get_set_Some _ _ _ Hst), bind_ret_l, Hkeys.
  rewrite (get_content_Some _ _ _ Hct), bind_ret_l, Hnext, bind_ret_l.
  destruct r as [[ee rest]|].
  - do 2 eexists. split; [reflexivity|].
    match goal with
    | |- solo_ok (emit ?o ?s1) =>
        apply (solo_ok_still s1); [|apply still_of_heaps; reflexivity]
    end.
    eapply (solo_ok_update p st); [exact Hok|exact Hst| | | | | |].
    + cbn. apply lookup_insert_eq.
    + intros q Hne. cbn. now rewrite lookup_insert_ne by congruence.
    + reflexivity.
    + cbn. exact Hct.
    + reflexivity.
    + unfold set_solo. cbn.
      split; [exact Hgen|]. split; [exact Hex|]. split; [exact Hcount|].
      split; [|auto].
      intros keys' [= <-]. split; [exact Hpos|]. eapply Hrest. reflexivity.
  - cbv zeta.
    replace (0 <? iterator_count ct) with true
      by (symmetry; apply Z.ltb_lt; lia).
    rewrite assert_true_then.
    match goal with
    | |- context [put_content ?c ?ct1 (put_set p ?st1 s)] =>
        set (s1 := put_content c ct1 (put_set p st1 s));
        assert (solo_ok s1) as Hok1;
        [eapply (solo_ok_update p st st1 ct1); [exact Hok|exact Hst| | | | | |]|]
    end.
    + cbn. apply lookup_insert_eq.
    + intros q Hne. cbn. now rewrite lookup_insert_ne by congruence.
    + reflexivity.
    + cbn. apply lookup_insert_eq.
    + intros c Hne. cbn. now rewrite lookup_insert_ne by congruence.
    + unfold set_solo. cbn.
      split; [exact Hgen|]. split; [exact Hex|]. split; [lia|].
      split; [discriminate|auto].
    + assert (exists k s2,
                (if iterator_count ct - 1 =? 0
                 then flush_pending (pending_mutations ct) (content st) s1
                 else ret s1) = Ret k s2 /\ solo_ok s2)
        as (k & s2 & Hflush & Hok2).
      { destruct (iterator_count ct - 1 =? 0);
          [|do 2 eexists; split; [reflexivity|exact Hok1]].
        apply (flush_pending_solo _ p); [exact Hpend|exact Hok1|].
        unfold s1. cbn. now rewrite lookup_insert_eq. }
      eapply bind_total; [exact Hflush|]. cbv beta.
      do 2 eexists. split; [reflexivity|].
      eapply solo_ok_still; [exact Hok2|still_explicit].
Qed.

Lemma handle_client_iterate_solo b client s :
  stores_ok b s -> solo_ok s ->
  exists n s', handle_client_iterate client s = Ret n s' /\ solo_ok s'.
Proof.
  intros Hstores Hok. unfold handle_client_iterate.
  destruct (set_get client s) as [p|] eqn:Hget;
    [|now apply (break_then_disconnect_solo b)].
  destruct (set_get_allocated _ _ _ Hget) as [st Hst].
  rewrite (get_set_Some _ _ _ Hst), bind_ret_l.
  destruct (iter st) eqn:Hiter0; [now apply (break_then_disconnect_solo b)|].
  destruct (proj2 Hok p st Hst) as (ct & Hct & Hsolo).
  pose proof Hsolo as (Hgen & Hex & Hcount & Hiter & Hpend & Hhist).
  rewrite (get_content_Some _ _ _ Hct), bind_ret_l. cbv zeta.
  match goal with
  | |- context [send_client_element p ?s0] =>
      eapply (send_client_element_solo p s0); [| |]
  end.
  - match goal with
    | |- solo_ok (put_set p ?st1 (put_content ?c ?ct1 s)) =>
        eapply (solo_ok_update p st st1 ct1); [exact Hok|exact Hst| | | | | |]
    end.
    + cbn. apply lookup_insert_eq.
    + intros q Hne. cbn. now rewrite lookup_insert_ne by congruence.
    + reflexivity.
    + cbn. apply lookup_insert_eq.
    + intros c Hne. cbn. now rewrite lookup_insert_ne by congruence.
    + unfold set_solo. cbn.
      split; [exact Hgen|]. split; [exact Hex|]. split; [lia|].
      split; [|auto].
      intros keys [= <-]. split; [lia|]. apply keys_have_entries.
  - cbn. apply lookup_insert_eq.
  - reflexivity.
Qed.

Lemma handle_client_iter_ack_solo b client send_more s :
  stores_ok b s -> solo_ok s ->
  exists n s',
    handle_client_iter_ack client send_more s = Ret n s' /\ solo_ok s'.
Proof.
  intros Hstores Hok. unfold handle_client_iter_ack.
  destruct (set_get client s) as [p|] eqn:Hget;
    [|now apply (break_then_disconnect_solo b)].
  destruct (set_get_allocated _ _ _ Hget) as [st Hst].
  rewrite (get_set_Some _ _ _ Hst), bind_ret_l.
  destruct (iter st) as [keys|] eqn:Hiter0;
    [|now apply (break_then_disconnect_solo b)].
  destruct send_more; [eapply send_client_element_solo; eassumption|].
  destruct (proj2 Hok p st Hst) as (ct & Hct & Hsolo).
  pose proof Hsolo as (Hgen & Hex & Hcount & Hiter & Hpend & Hhist).
  do 2 eexists. split; [reflexivity|].
  eapply (solo_ok_update p st); [exact Hok|exact Hst| | | | | |].
  - cbn. apply lookup_insert_eq.
  - intros q Hne. cbn. now rewrite lookup_insert_ne by congruence.
  - reflexivity.
  - cbn. exact Hct.
  - reflexivity.
  - unfold set_solo. cbn.
    split; [exact Hgen|]. split; [exact Hex|]. split; [exact Hcount|].
    split; [discriminate|auto].
Qed.

Lemma handle_client_mutation_solo b client m s :
  stores_ok b s -> solo_ok s ->
  exists n s', handle_client_mutation client m s = Ret n s' /\ solo_ok s'.
Proof.
  intros Hstores Hok. unfold handle_client_mutation.
  destruct (set_get client s) as [p|] eqn:Hget;
    [|now apply (break_then_disconnect_solo b)].
  destruct (set_get_allocated _ _ _ Hget) as [st Hst].
  destruct (proj2 Hok p st Hst) as (ct & Hct & Hsolo).
  pose proof Hsolo as (Hgen & Hex & Hcount & Hiter & Hpend & Hhist).
  rewrite (get_set_Some _ _ _ Hst), bind_ret_l.
  rewrite (get_content_Some _ _ _ Hct), bind_ret_l.
  destruct (negb (iterator_count ct =? 0));
    [|eapply execute_mutation_solo; eassumption].
  do 2 eexists. split; [reflexivity|].
  eapply (solo_ok_update p st st); [exact Hok|exact Hst|exact Hst
                                      | |reflexivity| | |].
  - reflexivity.
  - cbn. apply lookup_insert_eq.
  - intros c Hne. cbn. now rewrite lookup_insert_ne by congruence.
  - unfold set_solo. cbn.
    split; [exact Hgen|]. split; [exact Hex|]. split; [exact Hcount|].
    split; [exact Hiter|]. split; [|exact Hhist].
    unfold GNUNET_CONTAINER_DLL_insert. now constructor.
Qed.

(** A set that uses its store alone is at the store's latest generation,
    so it advances together with the store. *)
Lemma advance_generation_solo b p s n s' :
  solo_ok s -> generations_core b s -> b < UINT_MAX ->
  advance_generation p s = Ret n s' ->
  solo_ok s'.
Proof.
  intros Hok (_ & _ & Hstores) Hb Hrun. unfold advance_generation in Hrun.
  apply bind_Ret in Hrun as (k1 & st & j1 & Hst & Hrun & ->).
  apply bind_Ret in Hrun as (k2 & ct & j2 & Hct & Hrun & ->).
  apply get_set_Ret in Hst as [Hst _].
  apply get_content_Ret in Hct as [Hct _].
  destruct (proj2 Hok p st Hst) as (ct0 & Hct0 & Hsolo).
  rewrite Hct in Hct0. injection Hct0 as <-.
  pose proof Hsolo as (Hgen & Hex & Hcount & Hiter & Hpend & Hhist).
  destruct (Hstores _ ct Hct) as [Hlatest _].
  rewrite Hgen, Z.eqb_refl in Hrun. apply ret_Ret in Hrun as [<- _].
  assert (uint (latest_generation ct + 1) = latest_generation ct + 1) as Hu
    by (apply uint_succ; lia).
  eapply (solo_ok_update p st); [exact Hok|exact Hst| | | | | |].
  - cbn. apply lookup_insert_eq.
  - intros q Hne. cbn. now rewrite lookup_insert_ne by congruence.
  - reflexivity.
  - cbn. apply lookup_insert_eq.
  - intros c Hne. cbn. now rewrite lookup_insert_ne by congruence.
  - unfold set_solo. cbn.
    split; [reflexivity|]. split; [exact Hex|]. split; [exact Hcount|].
    split; [exact Hiter|]. split; [exact Hpend|].
    intros h ee Hlook. rewrite Hu.
    eapply history_ok_mono; [|eapply Hhist; exact Hlook]. lia.
Qed.

Lemma handle_client_evaluate_solo b client app target mode rid s n s' :
  solo_ok s -> generations_core b s -> b < UINT_MAX ->
  handle_client_evaluate client app target mode rid s = Ret n s' ->
  solo_ok s'.
Proof.
  unfold handle_client_evaluate. intros Hok Hgen Hb Hrun.
  destruct (set_get client s) as [p|];
    [|inv_step Hrun; eapply client_disconnect_solo; eassumption].
  apply bind_Ret in Hrun as (k1 & st & j1 & Hst & Hrun & ->).
  cbv zeta in Hrun.
  apply bind_Ret in Hrun as (k2 & s1 & j2 & Hadv & Hrun & ->).
  apply bind_Ret in Hrun as (k3 & st1 & j3 & Hst1 & Hrun & ->).
  apply ret_Ret in Hrun as [<- _].
  apply get_set_Ret in Hst1 as [Hst1 _].
  eapply solo_ok_still;
    [eapply advance_generation_solo; eassumption|still_explicit].
Qed.

Lemma handle_client_accept_solo b client aid rid mode s n s' :
  solo_ok s -> generations_core b s -> b < UINT_MAX ->
  handle_client_accept client aid rid mode s = Ret n s' ->
  solo_ok s'.
Proof.
  unfold handle_client_accept. intros Hok Hgen Hb Hrun.
  destruct (set_get client s) as [p|];
    [|inv_step Hrun; eapply client_disconnect_solo; eassumption].
  apply bind_Ret in Hrun as (k1 & st & j1 & Hst & Hrun & ->).
  apply bind_Ret in Hrun as (k2 & found & j2 & Hfound & Hrun & ->).
  apply get_set_Ret in Hst as [Hst _].
  destruct found as [op|];
    [|apply ret_Ret in Hrun as [<- _];
      eapply solo_ok_still; [exact Hok|still_explicit]].
  apply bind_Ret in Hrun as (k3 & [] & j3 & Hinc & Hrun & ->).
  destruct (spec op) as [sp|]; [|discriminate Hrun].
  cbv zeta in Hrun.
  match goal with
  | Ha : advance_generation _ ?s2 = _ |- _ =>
      assert (still s s2) as Hstill by still_explicit;
      eapply (advance_generation_solo b); [| |exact Hb|exact Ha]
  end.
  - eapply solo_ok_still; eassumption.
  - eapply generations_core_neutral; [exact Hgen|].
    unfold neutral. split; [cbn; lia|]. split; heap_neutral.
Qed.

Lemma handle_client_cancel_solo client request_id s n s' :
  solo_ok s ->
  handle_client_cancel client request_id s = Ret n s' ->
  solo_ok s'.
Proof.
  unfold handle_client_cancel. intros Hok Hrun.
  destruct (set_get client s) as [p|];
    [|inv_step Hrun; eapply client_disconnect_solo; eassumption].
  apply bind_Ret in Hrun as (k1 & st & j1 & Hst & Hrun & ->).
  eapply solo_ok_still; [exact Hok|].
  destruct (List.find _ (ops st)).
  - eapply operation_destroy_still; exact Hrun.
  - apply ret_Ret in Hrun as [<- _]. apply still_refl.
Qed.

Lemma handle_client_copy_lazy_prepare_solo client s n s' :
  solo_ok s ->
  handle_client_copy_lazy_prepare client s = Ret n s' ->
  solo_ok s'.
Proof.
  unfold handle_client_copy_lazy_prepare. intros Hok Hrun.
  inv_step Hrun; [|eapply client_disconnect_solo; eassumption].
  eapply solo_ok_still; [exact Hok|still_explicit].
Qed.

Lemma handle_client_listen_solo client o app s n s' :
  solo_ok s ->
  handle_client_listen client o app s = Ret n s' ->
  solo_ok s'.
Proof.
  unfold handle_client_listen. intros Hok Hrun. inv_step Hrun;
    [eapply client_disconnect_solo; eassumption|].
  match goal with
  | Hs : suggest_existing _ _ _ = _ |- _ =>
      apply suggest_existing_heaps in Hs as (Hs1 & Hs2 & Hs3)
  end.
  eapply solo_ok_still; [exact Hok|]. apply still_of_heaps; cbn; assumption.
Qed.

Lemma channel_new_cb_solo initiator port_ok s n s' :
  solo_ok s ->
  channel_new_cb initiator port_ok s = Ret n s' ->
  solo_ok s'.
Proof.
  unfold channel_new_cb. intros Hok Hrun. inv_step Hrun; [|exact Hok].
  eapply solo_ok_still; [exact Hok|still_explicit].
Qed.

Lemma dispatch_p2p_message_solo a mh s n s' :
  solo_ok s ->
  dispatch_p2p_message a mh s = Ret n s' ->
  solo_ok s'.
Proof.
  unfold dispatch_p2p_message, incoming_destroy. intros Hok Hrun.
  eapply solo_ok_still; [exact Hok|].
  inv_step Hrun; try apply still_refl.
  all: match goal with
       | Hs : handle_incoming_msg _ _ _ = _ |- _ =>
           apply handle_incoming_msg_heaps in Hs as (Hs1 & Hs2 & Hs3)
       end.
  all: apply still_of_heaps; cbn; assumption.
Qed.

(** A new set comes with a new store. *)
Lemma handle_client_create_set_solo b client o s n s' :
  solo_ok s -> wf s -> stores_ok b s ->
  handle_client_create_set client o s = Ret n s' ->
  solo_ok s'.
Proof.
  unfold handle_client_create_set.
  intros Hok [Hwfs Hwfc] (_ & _ & _ & _ & Halloc & _) Hrun.
  inv_step Hrun; try (eapply client_disconnect_solo; eassumption).
  destruct Hok as [Huniq Hsets].
  assert (forall q stq, set_heap s !! q = Some stq ->
            q ≠ next_addr s /\ content stq ≠ N.succ (next_addr s))
    as Hold.
  { intros q stq Hq. pose proof (Hwfs q stq Hq).
    destruct (Halloc q stq Hq) as [ctq Hctq]. apply Hwfc in Hctq.
    split; lia. }
  split; cbn.
  - intros p q st stq Hp Hq Heq.
    destruct (decide (p = next_addr s)) as [->|Hnp],
             (decide (q = next_addr s)) as [->|Hnq]; [reflexivity| | |].
    + rewrite lookup_insert_eq in Hp. injection Hp as <-.
      rewrite lookup_insert_ne in Hq by congruence.
      destruct (Hold q stq Hq) as [_ Hc]. cbn in Heq. congruence.
    + rewrite lookup_insert_eq in Hq. injection Hq as <-.
      rewrite lookup_insert_ne in Hp by congruence.
      destruct (Hold p st Hp) as [_ Hc]. cbn in Heq. congruence.
    + rewrite lookup_insert_ne in Hp by congruence.
      rewrite lookup_insert_ne in Hq by congruence. eauto.
  - intros p st Hp.
    destruct (decide (p = next_addr s)) as [->|Hnp].
    + rewrite lookup_insert_eq in Hp. injection Hp as <-. cbn.
      rewrite lookup_insert_eq. eexists. split; [reflexivity|].
      unfold set_solo. cbn. split; [reflexivity|]. split; [reflexivity|].
      split; [lia|]. split; [discriminate|]. split; [constructor|].
      intros h ee Hlook. now rewrite lookup_empty in Hlook.
    + rewrite lookup_insert_ne in Hp by congruence.
      destruct (Hold p st Hp) as [_ Hc].
      rewrite lookup_insert_ne by congruence. eauto.
Qed.

End ServiceSolo.

(** ** Runs without lazy copies *)

Section ServicePlain.
Context `{Collaborators}.

(** Every plain event is answered and leaves every set alone on its
    store. *)
Lemma step_plain b e s :
  stores_ok b s -> generations_core b s -> channels_ok s -> solo_ok s ->
  wf s -> b < UINT_MAX ->
  plain e = true ->
  exists n s', step e s = Ret n s' /\ solo_ok s'.
Proof.
  intros Hstores Hgen Hch Hsolo Hwf Hb He.
  assert (always_answered e = true ->
          (forall n s', step e s = Ret n s' -> solo_ok s') ->
          exists n s', step e s = Ret n s' /\ solo_ok s') as Hanswered.
  { intros Ha Hkeep.
    destruct (step_total b b e s Hstores Hgen Hch Ha) as (n & s' & Hstep).
    eauto. }
  destruct e; try discriminate He; cbn [step] in *.
  - apply Hanswered; [reflexivity|].
    intros n s' Hrun. eapply handle_client_create_set_solo; eassumption.
  - now apply (handle_client_mutation_solo b).
  - now apply (handle_client_iterate_solo b).
  - now apply (handle_client_iter_ack_solo b).
  - apply Hanswered; [reflexivity|].
    intros n s' Hrun. eapply handle_client_evaluate_solo; eassumption.
  - apply Hanswered; [exact He|].
    intros n s' Hrun. eapply handle_client_accept_solo; eassumption.
  - apply Hanswered; [reflexivity|].
    intros n s' Hrun. eapply handle_client_cancel_solo; eassumption.
  - apply Hanswered; [reflexivity|].
    intros n s' Hrun. eapply handle_client_copy_lazy_prepare_solo; eassumption.
  - apply Hanswered; [reflexivity|].
    intros n s' Hrun. eapply handle_client_listen_solo; eassumption.
  - apply Hanswered; [reflexivity|].
    intros n s' Hrun. eapply handle_client_disconnect_solo; eassumption.
  - apply Hanswered; [reflexivity|].
    intros n s' Hrun. eapply channel_new_cb_solo; eassumption.
  - apply Hanswered; [reflexivity|].
    intros n s' Hrun. eapply dispatch_p2p_message_solo; eassumption.
Qed.

Lemma run_plain evs :
  Forall (fun e => plain e = true) evs ->
  forall b s,
    stores_ok b s -> generations_ok b s -> channels_ok s -> solo_ok s ->
    0 <= b -> b + Z.of_nat (length evs) <= UINT_MAX ->
    exists n s', run evs s = Ret n s' /\ solo_ok s'.
Proof.
  induction 1 as [|e rest He _ IH];
    intros b s Hstores Hgen Hch Hsolo Hb Hlen.
  - do 2 eexists. split; [reflexivity|exact Hsolo].
  - cbn [length] in Hlen. cbn [run].
    destruct Hgen as [Hwf Hcore].
    destruct (step_plain b e s Hstores Hcore Hch Hsolo Hwf) as
      (n1 & s1 & Hstep & Hsolo1); [lia|exact He|].
    eapply bind_total; [exact Hstep|]. cbv beta.
    apply (IH (b + 1)).
    + eapply step_stores; [split; eassumption|lia|exact Hstep].
    + eapply step_generations; [split; eassumption|lia|exact Hstep].
    + eapply step_channels; eassumption.
    + exact Hsolo1.
    + lia.
    + lia.
Qed.

Lemma solo_ok_initial : solo_ok initial_service.
Proof.
  split; cbn; intros p; intros; match goal with
  | Hl : ∅ !! _ = Some _ |- _ => now rewrite lookup_empty in Hl
  end.
Qed.

(** X30: without lazy copies the service does not abort.  A run of at most
    2^32 - 1 events from the start of the service in which no client
    connects to a lazy copy and no Accept names the id zero runs to its
    end, whatever the clients send: no assertion fails, in particular not
    the one on the history of an entry in the membership test.  In the
    state reached every set stands at the latest generation of its store
    and has no exclusion ranges, and its membership test answers for every
    entry of the store with the flag of the entry's last mutation. *)
Theorem service_without_lazy_copies_never_aborts (evs : list Event) :
  Forall (fun e => plain e = true) evs ->
  Z.of_nat (length evs) <= UINT_MAX ->
  exists n s,
    run evs initial_service = Ret n s
    /\ forall p st ct,
         set_heap s !! p = Some st ->
         content_heap s !! content st = Some ct ->
         current_generation st = latest_generation ct
         /\ excluded_generations st = []
         /\ forall h ee,
              elements ct !! h = Some ee ->
              _GSS_is_element_of_set ee st
              = Ret 0 (last_added false (mutations ee)).
Proof.
  intros Hplain Hlen.
  destruct (run_plain evs Hplain 0 initial_service) as (n & s & Hrun & Hsolo).
  - apply stores_ok_initial.
  - apply generations_ok_initial.
  - apply channels_ok_initial.
  - apply solo_ok_initial.
  - lia.
  - lia.
  - exists n, s. split; [exact Hrun|].
    intros p st ct Hst Hct.
    destruct (proj2 Hsolo p st Hst) as (ct0 & Hct0 & Hset).
    rewrite Hct in Hct0. injection Hct0 as <-.
    pose proof Hset as (Hgen & Hex & _).
    split; [exact Hgen|]. split; [exact Hex|].
    intros h ee Hlook.
    now destruct (solo_is_element_of_set _ _ _ _ _ Hset Hlook).
Qed.

End ServicePlain.

Lemma service_without_lazy_copies_never_aborts_witness :
  exists n s,
    test_run [ EvCreateSet alice GNUNET_SET_OPERATION_UNION;
               EvMutation alice (add_message elt_X);
               EvIterate alice;
               EvMutation alice (remove_message elt_X);
               EvIterAck alice true;
               EvEvaluate alice 0%N 0%N 0 0 ]
             initial_service
    = Ret n s.
Proof.
  destruct (@service_without_lazy_copies_never_aborts test_collaborators
              [ EvCreateSet alice GNUNET_SET_OPERATION_UNION;
                EvMutation alice (add_message elt_X);
                EvIterate alice;
                EvMutation alice (remove_message elt_X);
                EvIterAck alice true;
                EvEvaluate alice 0%N 0%N 0 0 ])
    as (n & s & Hrun & _).
  - repeat constructor.
  - cbn. unfold UINT_MAX. lia.
  - exists n, s. exact Hrun.
Defined.

(** * Operations stay pinned below their set *)






Section ServicePins.
Context `{Collaborators}.


























End ServicePins.

(** * Generations and pinned operations, over whole runs *)

Section ServiceRevisited.
Context `{Collaborators}.

(** ** Which sets an event moves *)

Lemma handle_client_evaluate_moves client app target mode rid s n s' q st st' :
  wf s ->
  handle_client_evaluate client app target mode rid s = Ret n s' ->
  set_heap s !! q = Some st -> set_heap s' !! q = Some st' ->
  same_generation st st'
  \/ (set_get client s = Some q
      /\ exists ct op,
           content_heap s !! content st = Some ct
           /\ advanced (latest_generation ct) st st'
           /\ ops st' = op :: ops st
           /\ generation_created op = current_generation st).
Proof.
  unfold handle_client_evaluate. intros Hwf Hrun Hq Hq'.
  assert (q < next_addr s)%N as Hlt by (destruct Hwf as [Hw _]; eauto).
  destruct (set_get client s) as [p|] eqn:Hget.
  - inv_step Hrun.
    match goal with
    | Ha : advance_generation _ _ = _ |- _ =>
        apply advance_generation_Ret in Ha
          as (st0 & ct & st1 & Hst & Hct & -> & _ & Hadv & Hops & _)
    end.
    match goal with
    | Hg : set_heap (put_set _ _ _) !! _ = Some _ |- _ =>
        cbn in Hg; rewrite lookup_insert_eq in Hg; injection Hg as <-
    end.
    cbn in Hq'. rewrite lookup_insert in Hq'. case_decide.
    + subst q. injection Hq' as <-.
      rewrite Hq in Hst. injection Hst as <-.
      right. split; [reflexivity|]. exists ct. eexists.
      split; [exact Hct|]. split; [exact Hadv|].
      split; [cbn; rewrite Hops; reflexivity|].
      cbn. match goal with
           | Hp : set_heap s !! p = Some ?x |- _ = current_generation st =>
               rewrite Hq in Hp; injection Hp as <-
           end. reflexivity.
    + rewrite lookup_insert_ne in Hq' by assumption.
      rewrite Hq in Hq'. injection Hq' as <-. left. apply same_generation_refl.
  - left. inv_step Hrun.
    match goal with
    | Hd : GNUNET_SERVER_client_disconnect _ _ = _ |- _ =>
        destruct (client_disconnect_frame _ _ _ _ Hwf Hd)
          as (_ & _ & Hsets & _)
    end.
    destruct (Hsets q st' Hq' Hlt) as (st0 & Hst0 & Hgen).
    rewrite Hq in Hst0. injection Hst0 as <-. exact Hgen.
Qed.

Lemma handle_client_accept_moves client id rid mode s n s' q st st' :
  wf s ->
  handle_client_accept client id rid mode s = Ret n s' ->
  set_heap s !! q = Some st -> set_heap s' !! q = Some st' ->
  same_generation st st'
  \/ (set_get client s = Some q
      /\ exists ct op,
           content_heap s !! content st = Some ct
           /\ advanced (latest_generation ct) st st'
           /\ ops st' = op :: ops st
           /\ generation_created op = current_generation st).
Proof.
  unfold handle_client_accept. intros Hwf Hrun Hq Hq'.
  assert (q < next_addr s)%N as Hlt by (destruct Hwf as [Hw _]; eauto).
  destruct (set_get client s) as [p|] eqn:Hget.
  - inv_step Hrun.
    + match goal with
      | Ha : advance_generation _ _ = _ |- _ =>
          apply advance_generation_Ret in Ha
            as (st0 & ct & st1 & Hst & Hct & -> & _ & Hadv & Hops & _)
      end.
      cbn in Hst, Hct. rewrite lookup_insert_eq in Hst. injection Hst as <-.
      cbn in Hct, Hadv, Hops.
      cbn in Hq'. rewrite lookup_insert in Hq'. case_decide.
      * subst q. injection Hq' as <-.
        match goal with
        | Hp : set_heap s !! p = Some ?x |- _ =>
            lazymatch x with
            | st => fail
            | _ => rewrite Hq in Hp; injection Hp as <-
            end
        end.
        right. split; [reflexivity|]. exists ct. eexists.
        split; [exact Hct|]. split; [exact Hadv|].
        split; [exact Hops|reflexivity].
      * rewrite lookup_insert_ne in Hq' by assumption.
        rewrite Hq in Hq'. injection Hq' as <-. left.
        apply same_generation_refl.
    + cbn in Hq'. rewrite Hq in Hq'. injection Hq' as <-. left.
      apply same_generation_refl.
  - left. inv_step Hrun.
    match goal with
    | Hd : GNUNET_SERVER_client_disconnect _ _ = _ |- _ =>
        destruct (client_disconnect_frame _ _ _ _ Hwf Hd)
          as (_ & _ & Hsets & _)
    end.
    destruct (Hsets q st' Hq' Hlt) as (st0 & Hst0 & Hgen).
    rewrite Hq in Hst0. injection Hst0 as <-. exact Hgen.
Qed.

(** Every event but Evaluate and Accept leaves the sets that are there at
    their generation. *)
Lemma other_events_keep_generation e s n s' q st st' :
  wf s -> operation_client e = None ->
  step e s = Ret n s' ->
  set_heap s !! q = Some st -> set_heap s' !! q = Some st' ->
  same_generation st st'.
Proof.
  intros Hwf Hnone Hrun Hq Hq'.
  assert (q < next_addr s)%N as Hlt by (destruct Hwf as [Hw _]; eauto).
  assert (exists st0, set_heap s !! q = Some st0
                      /\ same_generation st0 st') as (st0 & Hst0 & Hgen).
  { destruct e; try discriminate Hnone; cbn [step] in Hrun.
    7: now apply (handle_client_copy_lazy_connect_sets _ _ _ _ _ _ _
                    Hwf Hrun Hq' Hlt).
    all: match goal with
         | |- _ =>
             assert (frame s s') as (_ & _ & Hsets & _);
             [|exact (Hsets q st' Hq' Hlt)]
         end.
    - eapply handle_client_create_set_frame; eassumption.
    - eapply handle_client_mutation_frame; eassumption.
    - eapply handle_client_iterate_frame; eassumption.
    - eapply handle_client_iter_ack_frame; eassumption.
    - eapply handle_client_cancel_frame; eassumption.
    - eapply handle_client_copy_lazy_prepare_frame; eassumption.
    - eapply handle_client_listen_frame; eassumption.
    - eapply handle_client_disconnect_frame; eassumption.
    - eapply channel_new_cb_frame; eassumption.
    - eapply dispatch_p2p_message_frame; eassumption. }
  rewrite Hq in Hst0. injection Hst0 as <-. exact Hgen.
Qed.

(** A set that a lazy-copy connect brings into being is the source set of
    the ticket, advanced. *)
Lemma handle_client_copy_lazy_connect_new client k s n s' q stq :
  handle_client_copy_lazy_connect client k s = Ret n s' ->
  set_heap s !! q = None -> set_heap s' !! q = Some stq ->
  exists cr src ct,
    List.find (fun cr => bool_decide (cookie cr = k)) (lazy_copy s) = Some cr
    /\ set_heap s !! source_set cr = Some src
    /\ content_heap s !! content src = Some ct
    /\ set_heap s' !! source_set cr = Some src
    /\ set_client stq = Some client
    /\ advanced (latest_generation ct) src stq.
Proof.
  intros Hrun Hq Hq'.
  assert (keeps s s' -> False) as Hnot.
  { intros (_ & Hheap & _). destruct (Hheap q stq Hq') as (st0 & Hst0 & _).
    rewrite Hq in Hst0. discriminate. }
  unfold handle_client_copy_lazy_connect in Hrun. inv_step Hrun;
    try (exfalso; apply Hnot; by_disconnect_keeps').
  - match goal with
    | Ha : advance_generation _ _ = _ |- _ =>
        apply advance_generation_Ret in Ha
          as (st0 & ct0 & st2 & Hst & Hct & -> & _ & Hadv & _)
    end.
    cbn in Hst. rewrite lookup_insert_eq in Hst. injection Hst as <-.
    cbn in Hct, Hadv. rewrite lookup_insert_eq in Hct. injection Hct as <-.
    match goal with
    | Hg : set_heap (put_set _ _ _) !! _ = Some _ |- _ =>
        cbn in Hg; rewrite lookup_insert_eq in Hg; injection Hg as <-
    end.
    match goal with
    | Hs : set_heap (with_lazy_copy _ _ s) !! _ = Some _ |- _ => cbn in Hs
    end.
    match goal with
    | Hc : content_heap (with_lazy_copy _ _ s) !! _ = Some _ |- _ =>
        cbn in Hc
    end.
    cbn in Hq'. rewrite lookup_insert in Hq'. case_decide.
    + subst q. injection Hq' as <-.
      do 3 eexists. split; [reflexivity|]. split; [eassumption|].
      split; [eassumption|]. split; [|split; [reflexivity|exact Hadv]].
      cbn in Hq |- *.
      rewrite !lookup_insert_ne by (intros Heq; rewrite Heq in Hq; congruence).
      eassumption.
    + rewrite !lookup_insert_ne in Hq' by assumption. congruence.
  - exfalso. apply Hnot.
    match goal with
    | Hd : GNUNET_SERVER_client_disconnect _ ?s0 = _ |- _ =>
        assert (keeps s s0) as Hkeep0 by keeps_explicit;
        eapply keeps_trans; [exact Hkeep0|];
        eapply client_disconnect_keeps; exact Hd
    end.
Qed.

(** A mutation is recorded at the generation its set is at. *)
Lemma execute_mutation_records p m s n s' st ct :
  execute_mutation p m s = Ret n s' ->
  set_heap s !! p = Some st ->
  content_heap s !! content st = Some ct ->
  exists ct',
    content_heap s' !! content st = Some ct'
    /\ latest_generation ct' = latest_generation ct
    /\ forall h ee',
         elements ct' !! h = Some ee' ->
         elements ct !! h = Some ee'
         \/ exists old flag,
              mutations ee'
              = old ++ [ {| generation := current_generation st;
                            added := flag |} ]
              /\ match elements ct !! h with
                 | Some ee => old = mutations ee
                 | None => old = []
                 end.
Proof.
  intros Hrun Hst Hct.
  destruct (execute_mutation_cases _ _ _ _ _ _ _ Hst Hct Hrun)
    as [->|(ee & flag & call & -> & Hee)].
  - exists ct. split; [exact Hct|]. split; [reflexivity|]. auto.
  - eexists. split; [cbn; apply lookup_insert_eq|]. split; [reflexivity|].
    cbn. intros h ee' Hh. rewrite lookup_insert in Hh. case_decide.
    + subst h. injection Hh as <-. right. exists (mutations ee), flag.
      split; [reflexivity|].
      destruct Hee as [->|[-> Hnil]]; [reflexivity|exact Hnil].
    + left. exact Hh.
Qed.

(** C9, as amended: executing a mutation moves no generation: every set
    keeps its generation and its exclusion ranges and the store keeps its
    latest generation, and what the mutation appends to the entry of its
    element is recorded at the generation its set is at.  The generation of
    a set that is already there moves only by an event that starts an
    operation on it -- an Evaluate or an Accept of the client that owns the
    set, which puts a new operation, pinned to the generation the set was
    at, in front of the set's list -- and then as [advance_generation] has
    it: to the store's latest generation plus one in unsigned 32-bit
    arithmetic, with the exclusion range from the set's generation plus one
    to the new generation appended when the set was behind its store.  A lazy-copy connect advances in the
    same way the set it makes out of the source, and leaves the source as
    it is. *)
Theorem generation_moves_only_with_operations :
  (forall p m s n s' st ct,
      execute_mutation p m s = Ret n s' ->
      set_heap s !! p = Some st ->
      content_heap s !! content st = Some ct ->
      (forall q stq, set_heap s !! q = Some stq ->
         exists stq', set_heap s' !! q = Some stq'
                      /\ same_generation stq stq')
      /\ exists ct',
           content_heap s' !! content st = Some ct'
           /\ latest_generation ct' = latest_generation ct
           /\ forall h ee',
                elements ct' !! h = Some ee' ->
                elements ct !! h = Some ee'
                \/ exists old flag,
                     mutations ee'
                     = old ++ [ {| generation := current_generation st;
                                   added := flag |} ]
                     /\ match elements ct !! h with
                        | Some ee => old = mutations ee
                        | None => old = []
                        end)
  /\ (forall e s n s' p st st',
         wf s ->
         step e s = Ret n s' ->
         set_heap s !! p = Some st ->
         set_heap s' !! p = Some st' ->
         same_generation st st'
         \/ exists client ct op,
              operation_client e = Some client
              /\ set_get client s = Some p
              /\ content_heap s !! content st = Some ct
              /\ advanced (latest_generation ct) st st'
              /\ ops st' = op :: ops st
              /\ generation_created op = current_generation st)
  /\ (forall client k s n s' q stq,
         handle_client_copy_lazy_connect client k s = Ret n s' ->
         set_heap s !! q = None ->
         set_heap s' !! q = Some stq ->
         exists cr src ct,
           List.find (fun cr => bool_decide (cookie cr = k)) (lazy_copy s)
           = Some cr
           /\ set_heap s !! source_set cr = Some src
           /\ content_heap s !! content src = Some ct
           /\ set_heap s' !! source_set cr = Some src
           /\ set_client stq = Some client
           /\ advanced (latest_generation ct) src stq).
Proof.
  split; [|split].
  - intros p m s n s' st ct Hrun Hst Hct. split.
    + intros q stq Hq.
      destruct (execute_mutation_sets _ _ _ _ _ _ _ Hrun Hq)
        as (stq' & ? & ? & _). eauto.
    + eapply execute_mutation_records; eassumption.
  - intros e s n s' p st st' Hwf Hrun Hst Hst'.
    destruct (operation_client e) as [client|] eqn:Hclient.
    + assert (same_generation st st'
              \/ (set_get client s = Some p
                  /\ exists ct op,
                       content_heap s !! content st = Some ct
                       /\ advanced (latest_generation ct) st st'
                       /\ ops st' = op :: ops st
                       /\ generation_created op = current_generation st))
        as [Hsame|(Hown & ct & op & Hct & Hadv & Hops & Hpin)].
      { destruct e; try discriminate Hclient; cbn in Hclient;
          injection Hclient as <-; cbn [step] in Hrun.
        - eapply handle_client_evaluate_moves; eassumption.
        - eapply handle_client_accept_moves; eassumption. }
      * left. exact Hsame.
      * right. exists client, ct, op. auto 10.
    + left. eapply other_events_keep_generation; eassumption.
  - intros client k s n s' q stq Hrun Hq Hq'.
    eapply handle_client_copy_lazy_connect_new; eassumption.
Qed.

(** ** What a pinned operation sees *)



End ServiceRevisited.

(** C4, as stated, fails: once Alice has started and cancelled [UINT_MAX]
    operations, set and store are at the last generation, and advancing
    takes both to 0, not to [UINT_MAX + 1]. *)
Lemma advance_generation_adds_one_fails : ~ advance_generation_adds_one.
Proof.
  intros Hall. destruct last_generation_reached as [k Hreach].
  destruct (Hall test_collaborators (events_to k) 0%nat (service_at UINT_MAX)
              1%N (alice_set UINT_MAX) (alice_content UINT_MAX) Hreach
              eq_refl eq_refl) as [Hlevel _].
  destruct (Hlevel eq_refl)
    as (s' & st' & ct' & Hadv & Hst' & _ & Hcur & _).
  vm_compute in Hadv. injection Hadv as <-.
  vm_compute in Hst'. injection Hst' as <-.
  vm_compute in Hcur. discriminate Hcur.
Qed.

Lemma advance_generation_spec_witness :
  (exists s' st' ct',
      advance_generation 1%N (service_at 5) = Ret 0 s'
      /\ set_heap s' !! 1%N = Some st'
      /\ content_heap s' !! 2%N = Some ct'
      /\ current_generation st' = 6
      /\ latest_generation ct' = 6
      /\ excluded_generations st' = [])
  /\ (exists s' st' ct',
         advance_generation
           1%N (put_content 2%N (alice_content 7) (service_at 5)) = Ret 0 s'
         /\ set_heap s' !! 1%N = Some st'
         /\ content_heap s' !! 2%N = Some ct'
         /\ excluded_generations st' = [ {| start := 6; range_end := 8 |} ]
         /\ current_generation st' = 8
         /\ latest_generation ct' = 8
         /\ (7 = UINT_MAX ->
             forall g, is_excluded_generation
                         g [ {| start := 6; range_end := 8 |} ] = false))
  /\ (exists s' st' ct',
         advance_generation 1%N (service_at UINT_MAX) = Ret 0 s'
         /\ set_heap s' !! 1%N = Some st'
         /\ content_heap s' !! 2%N = Some ct'
         /\ current_generation st' = 0
         /\ latest_generation ct' = 0
         /\ excluded_generations st' = [])
  /\ (exists s' st' ct',
         advance_generation
           1%N (put_content 2%N (alice_content UINT_MAX) (service_at 5))
         = Ret 0 s'
         /\ set_heap s' !! 1%N = Some st'
         /\ content_heap s' !! 2%N = Some ct'
         /\ excluded_generations st' = [ {| start := 6; range_end := 0 |} ]
         /\ current_generation st' = 0
         /\ latest_generation ct' = 0
         /\ (UINT_MAX = UINT_MAX ->
             forall g, is_excluded_generation
                         g [ {| start := 6; range_end := 0 |} ] = false)).
Proof.
  split; [|split; [|split]].
  - apply (proj1 (advance_generation_spec 1%N (service_at 5) (alice_set 5)
                    (alice_content 5) eq_refl eq_refl
                    ltac:(cbn; lia) ltac:(unfold UINT_MAX; cbn; lia))).
    reflexivity.
  - apply (proj2 (advance_generation_spec
                    1%N (put_content 2%N (alice_content 7) (service_at 5))
                    (alice_set 5) (alice_content 7) eq_refl eq_refl
                    ltac:(cbn; lia) ltac:(unfold UINT_MAX; cbn; lia))).
    cbn. lia.
  - apply (proj1 (advance_generation_spec 1%N (service_at UINT_MAX)
                    (alice_set UINT_MAX) (alice_content UINT_MAX)
                    eq_refl eq_refl
                    ltac:(unfold UINT_MAX; cbn; lia)
                    ltac:(unfold UINT_MAX; cbn; lia))).
    reflexivity.
  - apply (proj2 (advance_generation_spec
                    1%N
                    (put_content 2%N (alice_content UINT_MAX) (service_at 5))
                    (alice_set 5) (alice_content UINT_MAX) eq_refl eq_refl
                    ltac:(cbn; lia) ltac:(unfold UINT_MAX; cbn; lia))).
    unfold UINT_MAX. cbn. lia.
Defined.

Lemma generation_moves_only_with_operations_witness :
  (exists s',
      @execute_mutation test_collaborators 1%N (add_message elt_Y) (service_at 4)
      = Ret 0 s'
      /\ (forall q stq,
             set_heap (service_at 4) !! q = Some stq ->
             exists stq', set_heap s' !! q = Some stq'
                          /\ same_generation stq stq')
      /\ exists ct',
           content_heap s' !! 2%N = Some ct'
           /\ latest_generation ct' = 4
           /\ forall h ee',
                elements ct' !! h = Some ee' ->
                elements (alice_content 4) !! h = Some ee'
                \/ exists old flag,
                     mutations ee'
                     = old ++ [ {| generation := 4; added := flag |} ]
                     /\ match elements (alice_content 4) !! h with
                        | Some ee => old = mutations ee
                        | None => old = []
                        end)
  /\ (exists s' st',
         @step test_collaborators (EvEvaluate alice 0%N 0%N 0 0) (service_at 0)
         = Ret 0 s'
         /\ set_heap s' !! 1%N = Some st'
         /\ (same_generation (alice_set 0) st'
             \/ exists client ct op,
                  operation_client (EvEvaluate alice 0%N 0%N 0 0)
                  = Some client
                  /\ set_get client (service_at 0) = Some 1%N
                  /\ content_heap (service_at 0) !! 2%N = Some ct
                  /\ advanced (latest_generation ct) (alice_set 0) st'
                  /\ ops st' = op :: ops (alice_set 0)
                  /\ generation_created op = 0))
  /\ (exists s' stq,
         @handle_client_copy_lazy_connect test_collaborators bob 1
           (with_lazy_copy [ {| source_set := 1%N; cookie := 1 |} ] 2
                           (service_at 0))
         = Ret 0 s'
         /\ set_heap s' !! 3%N = Some stq
         /\ exists cr src ct,
              List.find (fun cr => bool_decide (cookie cr = 1))
                        [ {| source_set := 1%N; cookie := 1 |} ] = Some cr
              /\ set_heap (service_at 0) !! source_set cr = Some src
              /\ content_heap (service_at 0) !! content src = Some ct
              /\ set_heap s' !! source_set cr = Some src
              /\ set_client stq = Some bob
              /\ advanced (latest_generation ct) src stq).
Proof.
  destruct (@generation_moves_only_with_operations test_collaborators)
    as (Hmutation & Hstarted & Hcopied).
  split; [|split].
  - eexists. split; [vm_compute; reflexivity|].
    eapply (Hmutation 1%N (add_message elt_Y) (service_at 4) 0%nat _ (alice_set 4)
              (alice_content 4)).
    + vm_compute. reflexivity.
    + reflexivity.
    + reflexivity.
  - do 2 eexists. split; [vm_compute; reflexivity|].
    split; [vm_compute; reflexivity|].
    eapply (Hstarted (EvEvaluate alice 0%N 0%N 0 0) (service_at 0) 0%nat _
              1%N (alice_set 0)).
    + apply wf_service_at.
    + vm_compute. reflexivity.
    + reflexivity.
    + vm_compute. reflexivity.
  - do 2 eexists. split; [vm_compute; reflexivity|].
    split; [vm_compute; reflexivity|].
    eapply (Hcopied bob 1
              (with_lazy_copy [ {| source_set := 1%N; cookie := 1 |} ] 2
                              (service_at 0)) 0%nat _ 3%N).
    + vm_compute. reflexivity.
    + reflexivity.
    + vm_compute. reflexivity.
Defined.

